(** * A shallow embedding of the lightweight vector database

    The development follows the three headers of the library:

    - [sq.h]: the 8-bit scalar quantizer ([Module SQ]);
    - [hnsw.h]: the vector storage and the layered proximity graph
      ([Module Hnsw]);
    - [database.h]: the facade with read-only mode and persistence
      ([Module Db]).

    [Module Examples] holds small concrete indexes; the properties follow.

    Conventions.  C++ [int] and [uint32_t] values are integers of [Z] with the
    conversions written out ([to_int32], [to_uint32], [to_size_t]).  A [float]
    stored in memory or on disk is its IEEE-754 binary32 bit pattern; float
    arithmetic is the binary32 instance of the Standard Library's [SpecFloat].
    Exceptions and undefined behaviour are results of type [result]. *)

From Stdlib Require Import ZArith Lia List Ascii String.
From Stdlib Require Import Floats.SpecFloat.
From stdpp Require Import base tactics option list gmap strings sorting.

Local Open Scope Z_scope.

(** ** Machine integers *)

Definition to_uint32 (z : Z) : Z := z mod 2 ^ 32.
Definition to_int32 (z : Z) : Z := (z + 2 ^ 31) mod 2 ^ 32 - 2 ^ 31.
Definition to_size_t (z : Z) : Z := z mod 2 ^ 64.

Definition is_int32 (z : Z) : bool := (- 2 ^ 31 <=? z) && (z <? 2 ^ 31).
Definition is_uint32 (z : Z) : bool := (0 <=? z) && (z <? 2 ^ 32).
Definition is_size_t (z : Z) : bool := (0 <=? z) && (z <? 2 ^ 64).

(** [v.size()] as a [size_t]. *)
Definition size {A} (v : list A) : Z := Z.of_nat (length v).

(** ** Outcomes

    The exceptions the library throws, under the names the specification gives
    them, and the ways an execution leaves defined behaviour. *)

Inductive error : Type :=
  | DimensionMismatch     (* std::invalid_argument("Vector dimension mismatch.") *)
  | ReadOnlyViolation     (* std::runtime_error("Database is in read-only mode.") *)
  | QuantizerNotTrained   (* std::runtime_error("Quantizer is not trained.") *)
  | QuantizerNotEnabled   (* std::runtime_error("Quantizer is not enabled.") *)
  | UnknownMetric         (* std::runtime_error("Unknown distance metric.") *)
  | LengthError           (* std::length_error thrown by vector::resize *)
  | UndefinedBehaviour    (* out-of-bounds access, top() of an empty queue,
                             unrepresentable float-to-integer cast, short read *)
  | OutOfFuel.            (* artefact of the model's loop bound; never produced,
                             see [search_layer_fuel_sufficient] *)

Inductive result (A : Type) : Type :=
  | Ok (a : A)
  | Err (e : error).
Arguments Ok {A} a.
Arguments Err {A} e.

#[global] Instance result_ret : MRet result := fun _ a => Ok a.
#[global] Instance result_bind : MBind result := fun _ _ f r =>
  match r with Ok a => f a | Err e => Err e end.
#[global] Instance result_fmap : FMap result := fun _ _ f r =>
  match r with Ok a => Ok (f a) | Err e => Err e end.

Definition is_ok {A} (r : result A) : bool :=
  match r with Ok _ => true | Err _ => false end.

(** An outcome other than the exhaustion of the model's loop bound. *)
Definition fuel_free {A} (r : result A) : Prop := r ≠ Err OutOfFuel.

(** [v[i]] for an index of type [size_t]. *)
Definition idx {A} (v : list A) (i : nat) : result A :=
  match v !! i with Some x => Ok x | None => Err UndefinedBehaviour end.

(** [v[i]] for an index of type [int]: the conversion to [size_t] sends a
    negative index far past the end. *)
Definition at_ {A} (v : list A) (i : Z) : result A :=
  if 0 <=? i then idx v (Z.to_nat i) else Err UndefinedBehaviour.

(** [mapM] written out so that it computes and unfolds by [simpl]. *)
Fixpoint map_result {A B} (f : A → result B) (l : list A) : result (list B) :=
  match l with
  | [] => Ok []
  | x :: l' => y ← f x; ys ← map_result f l'; Ok (y :: ys)
  end.

(** ** Floats *)

(** A stored [float]: the binary32 bit pattern, [0 <= b < 2^32]. *)
Definition float : Type := Z.

Definition prec32 : Z := 24.
Definition emax32 : Z := 128.

(** The value of a bit pattern. *)
Definition SF_of_bits (b : float) : spec_float :=
  let s := Z.testbit b 31 in
  let e := (b / 2 ^ 23) mod 2 ^ 8 in
  let m := b mod 2 ^ 23 in
  if e =? 0 then
    if m =? 0 then S754_zero s else S754_finite s (Z.to_pos m) (-149)
  else if e =? 255 then
    if m =? 0 then S754_infinity s else S754_nan
  else S754_finite s (Z.to_pos (m + 2 ^ 23)) (e - 150).

Definition fadd : spec_float → spec_float → spec_float := SFadd prec32 emax32.
Definition fsub : spec_float → spec_float → spec_float := SFsub prec32 emax32.
Definition fmul : spec_float → spec_float → spec_float := SFmul prec32 emax32.
Definition fdiv : spec_float → spec_float → spec_float := SFdiv prec32 emax32.
Definition fsqrt : spec_float → spec_float := SFsqrt prec32 emax32.
Definition flt : spec_float → spec_float → bool := SFltb.
Definition feq : spec_float → spec_float → bool := SFeqb.

(** An integer literal or an integer converted to [float]. *)
Definition float_of_Z (z : Z) : spec_float := binary_normalize prec32 emax32 z 0 false.

Definition fzero : spec_float := S754_zero false.
Definition fone : spec_float := float_of_Z 1.

(** [std::round]: to the nearest integer, halfway cases away from zero.  The
    integer value is returned; [None] for infinities and NaN. *)
Definition round_half_away (x : spec_float) : option Z :=
  match x with
  | S754_zero _ => Some 0
  | S754_finite s m e =>
      let mag :=
        if 0 <=? e then Z.pos m * 2 ^ e
        else
          let d := 2 ^ (- e) in
          let q := Z.pos m / d in
          let r := Z.pos m mod d in
          if d <=? 2 * r then q + 1 else q in
      Some (if s then - mag else mag)
  | _ => None
  end.

(** [static_cast<uint8_t>(std::round(x))]: undefined unless the rounded value
    fits the destination type. *)
Definition round_to_uint8 (x : spec_float) : result Z :=
  match round_half_away x with
  | Some z => if (0 <=? z) && (z <=? 255) then Ok z else Err UndefinedBehaviour
  | None => Err UndefinedBehaviour
  end.

(** ** [sq.h]: the scalar quantizer *)

Module SQ.

Record ScalarQuantizer : Type := mkSQ {
  original_dim_ : Z;          (* size_t *)
  mins_ : list float;
  maxs_ : list float
}.

(** [ScalarQuantizer(size_t original_dim)] *)
Definition new (original_dim : Z) : ScalarQuantizer :=
  mkSQ original_dim [] [].

Definition is_trained (q : ScalarQuantizer) : bool :=
  negb (bool_decide (mins_ q = [])).

Definition get_original_dim (q : ScalarQuantizer) : Z := original_dim_ q.

(** The first loop of [train]: [mins_[i] = maxs_[i] = training_data[0][i]]. *)
Definition train_init (dim : nat) (first : list float) : result (list float) :=
  map_result (idx first) (seq 0 dim).

(** One pass of the inner loop of [train] over a training vector. *)
Definition train_step (dim : nat) (mm : list float * list float) (vec : list float)
  : result (list float * list float) :=
  foldl (fun acc i =>
           '(mins, maxs) ← acc;
           x ← idx vec i;
           lo ← idx mins i;
           let mins' := if flt (SF_of_bits x) (SF_of_bits lo) then <[i := x]> mins else mins in
           hi ← idx maxs i;
           let maxs' := if flt (SF_of_bits hi) (SF_of_bits x) then <[i := x]> maxs else maxs in
           Ok (mins', maxs'))
        (Ok mm) (seq 0 dim).

Definition train (training_data : list (list float)) (q : ScalarQuantizer)
  : result ScalarQuantizer :=
  match training_data with
  | [] => Ok q
  | first :: _ =>
      let dim := Z.to_nat (original_dim_ q) in
      init ← train_init dim first;
      '(mins, maxs) ← foldl (fun acc vec => mm ← acc; train_step dim mm vec)
                            (Ok (init, init)) training_data;
      Ok (mkSQ (original_dim_ q) mins maxs)
  end.

Definition not_trained (q : ScalarQuantizer) : bool :=
  bool_decide (mins_ q = []) || bool_decide (maxs_ q = []).

Definition encode (q : ScalarQuantizer) (vector : list float) : result (list Z) :=
  if not_trained q then Err QuantizerNotTrained
  else
    map_result (fun i =>
      hi ← idx (maxs_ q) i;
      lo ← idx (mins_ q) i;
      let range := fsub (SF_of_bits hi) (SF_of_bits lo) in
      if feq range fzero then Ok 0
      else
        x ← idx vector i;
        let scaled := fdiv (fsub (SF_of_bits x) (SF_of_bits lo)) range in
        round_to_uint8 (fmul scaled (float_of_Z 255)))
      (seq 0 (Z.to_nat (original_dim_ q))).

(** [decode] returns freshly computed floats; they are kept as values. *)
Definition decode (q : ScalarQuantizer) (vector : list Z) : result (list spec_float) :=
  if not_trained q then Err QuantizerNotTrained
  else
    map_result (fun i =>
      hi ← idx (maxs_ q) i;
      lo ← idx (mins_ q) i;
      let range := fsub (SF_of_bits hi) (SF_of_bits lo) in
      if feq range fzero then Ok (SF_of_bits lo)
      else
        b ← idx vector i;
        Ok (fadd (SF_of_bits lo) (fmul (fdiv (float_of_Z b) (float_of_Z 255)) range)))
      (seq 0 (Z.to_nat (original_dim_ q))).

Definition calculate_distance (q : ScalarQuantizer) (query_vector : list float)
    (encoded_vector : list Z) : result spec_float :=
  decoded_vector ← decode q encoded_vector;
  foldl (fun acc i =>
           distance ← acc;
           x ← idx query_vector i;
           y ← idx decoded_vector i;
           let diff := fsub (SF_of_bits x) y in
           Ok (fadd distance (fmul diff diff)))
        (Ok fzero) (seq 0 (Z.to_nat (original_dim_ q))).

End SQ.


(** ** Classes of floats *)

(** Neither an infinity nor a NaN. *)
Definition is_finite (x : spec_float) : bool :=
  match x with
  | S754_zero _ | S754_finite _ _ _ => true
  | _ => false
  end.

Definition is_nan (x : spec_float) : bool :=
  match x with S754_nan => true | _ => false end.

Definition finite_bits (b : float) : bool := is_finite (SF_of_bits b).

Definition zero_bits (b : float) : bool :=
  match SF_of_bits b with S754_zero _ => true | _ => false end.

(** Zero, positive or [+inf]: neither NaN nor below zero. *)
Definition is_nonneg (x : spec_float) : bool :=
  match x with
  | S754_zero _ => true
  | S754_finite s _ _ | S754_infinity s => negb s
  | S754_nan => false
  end.

(** Not NaN, and of sign [s]. *)
Definition has_sign (s : bool) (x : spec_float) : Prop :=
  match x with
  | S754_zero s' | S754_finite s' _ _ | S754_infinity s' => s' = s
  | S754_nan => False
  end.

(** ** Bounds that enclose training data *)

(** What the bounds are after some of the training vectors: no entry seen so
    far lies below the minimum or above the maximum of its position. *)
Definition encloses (mins maxs : list float) (seen : list (list float)) : Prop :=
  ∀ i lo hi, mins !! i = Some lo → maxs !! i = Some hi →
    ∀ v x, v ∈ seen → v !! i = Some x →
      flt (SF_of_bits x) (SF_of_bits lo) = false
      ∧ flt (SF_of_bits hi) (SF_of_bits x) = false.
(** ** [hnsw.h]: storage and the proximity graph *)

Module Hnsw.

Inductive DistanceMetric : Type :=
  | L2
  | COSINE
  | IP
  | InvalidMetric (v : Z).   (* an enum value outside the enumerators, as a
                                raw read from a file can produce *)

(** [std::map<std::string, std::string>] *)
Abbreviation Metadata := (gmap string string).

(** [std::function<bool(const Metadata&)>]; [None] is the null function. *)
Definition FilterFunc : Type := option (Metadata → bool).

Inductive Include : Type := ID | DISTANCE | METADATA | VECTOR.

#[global] Instance Include_eq_dec : EqDecision Include.
Proof. solve_decision. Defined.

Module QueryResult.
(** [distance] is left uninitialised by the source unless requested. *)
Record t : Type := mk {
  id : Z;                           (* int *)
  distance : option spec_float;
  metadata : Metadata;
  vector : list float
}.
End QueryResult.

Module Node.
Record t : Type := mk {
  id : Z;                           (* uint32_t *)
  max_layer : Z;                    (* int *)
  neighbors : list (list Z)         (* std::vector<std::vector<int>> *)
}.

(** [Node(id, max_layer)]: [neighbors.resize(max_layer + 1)]; a negative
    count converts to a [size_t] beyond [max_size()]. *)
Definition new (id max_layer : Z) : result t :=
  if max_layer + 1 <? 0 then Err LengthError
  else Ok (mk id max_layer (replicate (Z.to_nat (max_layer + 1)) [])).

Definition set_neighbors (n : t) (nb : list (list Z)) : t :=
  mk (id n) (max_layer n) nb.
End Node.

(** *** VectorStorage

    The storage's [sq_] pointer always aliases the quantizer owned by whoever
    built the index; the pointee is passed to the operations that read it
    ([None] is the null pointer). *)

Record VectorStorage : Type := mkVS {
  vector_dimension_ : Z;                 (* size_t *)
  vectors_ : list (list float);
  metadata_ : list Metadata;
  encoded_vectors_ : list (list Z)       (* std::vector<std::vector<uint8_t>> *)
}.

Definition VectorStorage_new (vector_dimension : Z) : VectorStorage :=
  mkVS vector_dimension [] [] [].

Definition sq_trained (sq : option SQ.ScalarQuantizer) : bool :=
  match sq with Some q => SQ.is_trained q | None => false end.

Definition add_vector (sq : option SQ.ScalarQuantizer) (vec : list float)
    (meta : Metadata) (vs : VectorStorage) : result VectorStorage :=
  if negb (size vec =? vector_dimension_ vs) then Err DimensionMismatch
  else
    let vectors' := vectors_ vs ++ [vec] in
    let metadata' := metadata_ vs ++ [meta] in
    match sq with
    | Some q =>
        if SQ.is_trained q then
          enc ← SQ.encode q vec;
          Ok (mkVS (vector_dimension_ vs) vectors' metadata' (encoded_vectors_ vs ++ [enc]))
        else Ok (mkVS (vector_dimension_ vs) vectors' metadata' (encoded_vectors_ vs))
    | None => Ok (mkVS (vector_dimension_ vs) vectors' metadata' (encoded_vectors_ vs))
    end.

Definition encode_all_vectors (sq : option SQ.ScalarQuantizer) (vs : VectorStorage)
  : result VectorStorage :=
  match sq with
  | Some q =>
      if SQ.is_trained q then
        encs ← map_result (SQ.encode q) (vectors_ vs);
        Ok (mkVS (vector_dimension_ vs) (vectors_ vs) (metadata_ vs) encs)
      else Ok vs
  | None => Ok vs
  end.

Definition get_vector (vs : VectorStorage) (index : Z) : result (list float) :=
  at_ (vectors_ vs) index.

Definition get_encoded_vector (sq : option SQ.ScalarQuantizer) (vs : VectorStorage)
    (index : Z) : result (list Z) :=
  match sq with
  | None => Err QuantizerNotEnabled
  | Some _ => at_ (encoded_vectors_ vs) index
  end.

Definition get_metadata (vs : VectorStorage) (index : Z) : result Metadata :=
  at_ (metadata_ vs) index.

(** *** Distance kernels

    Each kernel walks [a] and reads [b] at the same positions; a shorter [b]
    is read past its end. *)

Fixpoint l2_loop (a b : list float) (distance : spec_float) : result spec_float :=
  match a with
  | [] => Ok distance
  | x :: a' =>
      match b with
      | [] => Err UndefinedBehaviour
      | y :: b' =>
          let diff := fsub (SF_of_bits x) (SF_of_bits y) in
          l2_loop a' b' (fadd distance (fmul diff diff))
      end
  end.

(** [std::inner_product(a.begin(), a.end(), b.begin(), init)] *)
Fixpoint inner_product (a b : list float) (init : spec_float) : result spec_float :=
  match a with
  | [] => Ok init
  | x :: a' =>
      match b with
      | [] => Err UndefinedBehaviour
      | y :: b' => inner_product a' b' (fadd init (fmul (SF_of_bits x) (SF_of_bits y)))
      end
  end.

Definition calculate_l2_distance (a b : list float) : result spec_float :=
  l2_loop a b fzero.

Definition calculate_cosine_distance (a b : list float) : result spec_float :=
  dot_product ← inner_product a b fzero;
  aa ← inner_product a a fzero;
  bb ← inner_product b b fzero;
  let norm_a := fsqrt aa in
  let norm_b := fsqrt bb in
  if feq norm_a fzero || feq norm_b fzero then Ok fone
  else Ok (fsub fone (fdiv dot_product (fmul norm_a norm_b))).

Definition calculate_inner_product_distance (a b : list float) : result spec_float :=
  SFopp <$> inner_product a b fzero.

Definition calculate_distance_vec (metric : DistanceMetric) (a b : list float)
  : result spec_float :=
  match metric with
  | L2 => calculate_l2_distance a b
  | COSINE => calculate_cosine_distance a b
  | IP => calculate_inner_product_distance a b
  | InvalidMetric _ => Err UnknownMetric
  end.

(** *** The index *)

Record HNSW : Type := mkHNSW {
  vector_storage : VectorStorage;
  nodes : list Node.t;
  entry_point_id : Z;                    (* int; -1 is "none" *)
  M : Z;                                 (* int *)
  efConstruction : Z;                    (* int *)
  efSearch : Z;                          (* int *)
  distance_metric : DistanceMetric;
  deleted_nodes_ : gset Z                (* std::unordered_set<uint32_t> *)
}.

(** [HNSW(vector_dimension, M, efConstruction, efSearch, metric, sq)] *)
Definition new (vector_dimension M efConstruction efSearch : Z)
    (metric : DistanceMetric) : HNSW :=
  mkHNSW (VectorStorage_new vector_dimension) [] (-1) M efConstruction efSearch metric ∅.

(** The loading constructor: the entry point is the id of the last node. *)
Definition of_parts (M efConstruction efSearch : Z) (metric : DistanceMetric)
    (nodes : list Node.t) (vector_storage : VectorStorage) (deleted_nodes : gset Z) : HNSW :=
  mkHNSW vector_storage nodes
         (match last nodes with None => -1 | Some n => to_int32 (Node.id n) end)
         M efConstruction efSearch metric deleted_nodes.

(** [set_quantizer]: the storage is replaced by an empty one. *)
Definition set_quantizer (h : HNSW) : HNSW :=
  mkHNSW (VectorStorage_new (vector_dimension_ (vector_storage h)))
         (nodes h) (entry_point_id h) (M h) (efConstruction h) (efSearch h)
         (distance_metric h) (deleted_nodes_ h).

Definition set_vector_storage (h : HNSW) (vs : VectorStorage) : HNSW :=
  mkHNSW vs (nodes h) (entry_point_id h) (M h) (efConstruction h) (efSearch h)
         (distance_metric h) (deleted_nodes_ h).

Definition set_nodes (h : HNSW) (ns : list Node.t) : HNSW :=
  mkHNSW (vector_storage h) ns (entry_point_id h) (M h) (efConstruction h) (efSearch h)
         (distance_metric h) (deleted_nodes_ h).

Definition set_entry_point (h : HNSW) (ep : Z) : HNSW :=
  mkHNSW (vector_storage h) (nodes h) ep (M h) (efConstruction h) (efSearch h)
         (distance_metric h) (deleted_nodes_ h).

Definition set_deleted (h : HNSW) (d : gset Z) : HNSW :=
  mkHNSW (vector_storage h) (nodes h) (entry_point_id h) (M h) (efConstruction h)
         (efSearch h) (distance_metric h) d.

(** [calculate_distance(query, node_id)] *)
Definition calculate_distance (h : HNSW) (sq : option SQ.ScalarQuantizer)
    (query : list float) (node_id : Z) : result spec_float :=
  match sq with
  | Some q =>
      if SQ.is_trained q then
        enc ← get_encoded_vector sq (vector_storage h) node_id;
        SQ.calculate_distance q query enc
      else
        v ← get_vector (vector_storage h) node_id;
        calculate_distance_vec (distance_metric h) query v
  | None =>
      v ← get_vector (vector_storage h) node_id;
      calculate_distance_vec (distance_metric h) query v
  end.

(** Whether an [int] id is in the deleted set (the key type is [uint32_t]). *)
Definition is_deleted (h : HNSW) (id : Z) : bool :=
  bool_decide (to_uint32 id ∈ deleted_nodes_ h).

(** *** Priority queues

    [std::priority_queue<Candidate, ..., Compare>] as the list of its
    elements; [top()] is the element no other element beats under [Compare].
    Ids in a queue are pairwise distinct, so whenever the distances are
    ordered (no NaN) the pairs are totally ordered and [top()] is determined. *)

Definition Candidate : Type := spec_float * Z.

(** [operator<] of [std::pair<float, int>] *)
Definition cand_lt (a b : Candidate) : bool :=
  flt a.1 b.1 || (negb (flt b.1 a.1) && (a.2 <? b.2)).

(** [std::greater<Candidate>] *)
Definition cand_gt (a b : Candidate) : bool := cand_lt b a.

(** The top of the queue and the queue without it; [less] is [Compare]. *)
Fixpoint pq_extract (less : Candidate → Candidate → bool) (q : list Candidate)
  : option (Candidate * list Candidate) :=
  match q with
  | [] => None
  | x :: q' =>
      match pq_extract less q' with
      | None => Some (x, [])
      | Some (y, r) => if less y x then Some (x, q') else Some (y, x :: r)
      end
  end.

Definition pq_top (less : Candidate → Candidate → bool) (q : list Candidate)
  : result Candidate :=
  match pq_extract less q with
  | Some (t, _) => Ok t
  | None => Err UndefinedBehaviour
  end.

Definition pq_pop (less : Candidate → Candidate → bool) (q : list Candidate)
  : list Candidate :=
  match pq_extract less q with
  | Some (_, r) => r
  | None => []
  end.

(** Popping a queue until it is empty, tops first. *)
Fixpoint pq_drain_fuel (n : nat) (less : Candidate → Candidate → bool)
    (q : list Candidate) : list Candidate :=
  match n with
  | O => []
  | S n' =>
      match pq_extract less q with
      | None => []
      | Some (t, r) => t :: pq_drain_fuel n' less r
      end
  end.

Definition pq_drain (less : Candidate → Candidate → bool) (q : list Candidate)
  : list Candidate :=
  pq_drain_fuel (length q) less q.

(** *** search_layer *)

Record search_state : Type := mkSS {
  candidate_queue : list Candidate;     (* min-heap, [cand_gt] *)
  result_queue : list Candidate;        (* max-heap, [cand_lt] *)
  visited_nodes : gset Z
}.

(** [!filter || filter(vector_storage.get_metadata(id))] *)
Definition filter_accepts (h : HNSW) (filter : FilterFunc) (id : Z) : result bool :=
  match filter with
  | None => Ok true
  | Some f => m ← get_metadata (vector_storage h) id; Ok (f m)
  end.

(** [while (result_queue.size() > ef) result_queue.pop();] runs
    [size - ef] times when that is positive; [ef] converts to [size_t]. *)
Definition trim_results (ef : Z) (rq : list Candidate) : list Candidate :=
  Nat.iter (Z.to_nat (size rq - to_size_t ef)) (pq_pop cand_lt) rq.

Section search.
Context (h : HNSW) (sq : option SQ.ScalarQuantizer).
Context (query : list float) (ef layer_level : Z) (filter : FilterFunc).

(** The body of the loop over the neighbours of the current candidate. *)
Definition visit_neighbor (st : search_state) (neighbor_id : Z) : result search_state :=
  if bool_decide (neighbor_id ∈ visited_nodes st) then Ok st
  else
    let visited := {[neighbor_id]} ∪ visited_nodes st in
    if is_deleted h neighbor_id then
      Ok (mkSS (candidate_queue st) (result_queue st) visited)
    else
      dist_to_neighbor ← calculate_distance h sq query neighbor_id;
      closer ← (if size (result_queue st) <? to_size_t ef then Ok true
                else t ← pq_top cand_lt (result_queue st);
                     Ok (flt dist_to_neighbor t.1));
      if closer : bool then
        accepted ← filter_accepts h filter neighbor_id;
        let rq := if accepted : bool
                  then (dist_to_neighbor, neighbor_id) :: result_queue st
                  else result_queue st in
        Ok (mkSS ((dist_to_neighbor, neighbor_id) :: candidate_queue st)
                 (trim_results ef rq) visited)
      else Ok (mkSS (candidate_queue st) (result_queue st) visited).

Fixpoint visit_neighbors (ns : list Z) (st : search_state) : result search_state :=
  match ns with
  | [] => Ok st
  | n :: ns' => st' ← visit_neighbor st n; visit_neighbors ns' st'
  end.

(** [nodes[id].neighbors[layer_level]] *)
Definition neighbors_at (id : Z) : result (list Z) :=
  n ← at_ (nodes h) id; at_ (Node.neighbors n) layer_level.

(** [result_queue.size() == ef && current.first > result_queue.top().first] *)
Definition search_done (current : Candidate) (rq : list Candidate) : result bool :=
  if size rq =? to_size_t ef then
    t ← pq_top cand_lt rq; Ok (flt t.1 current.1)
  else Ok false.

(** The [while (!candidate_queue.empty())] loop.  Every iteration pops a
    candidate, and a candidate is pushed only when it enters the visited
    set, so [fuel] bounds the number of iterations. *)
Fixpoint search_loop (fuel : nat) (st : search_state) : result search_state :=
  match fuel with
  | O => Err OutOfFuel
  | S fuel' =>
      match pq_extract cand_gt (candidate_queue st) with
      | None => Ok st
      | Some (current, cq) =>
          let st1 := mkSS cq (result_queue st) (visited_nodes st) in
          stop ← search_done current (result_queue st);
          if stop : bool then Ok st1
          else
            ns ← neighbors_at current.2;
            st2 ← visit_neighbors ns st1;
            search_loop fuel' st2
      end
  end.

(** All ids stored in adjacency lists at [layer_level]. *)
Definition layer_edges : list Z :=
  concat (map (fun n => match at_ (Node.neighbors n) layer_level with
                        | Ok l => l
                        | Err _ => []
                        end) (nodes h)).

Definition search_fuel : nat := S (S (length layer_edges)).

Definition search_init (entry_point_id : Z) : result search_state :=
  dist_to_entry ← calculate_distance h sq query entry_point_id;
  if is_deleted h entry_point_id then Ok (mkSS [] [] {[entry_point_id]})
  else
    accepted ← filter_accepts h filter entry_point_id;
    Ok (mkSS [(dist_to_entry, entry_point_id)]
             (if accepted : bool then [(dist_to_entry, entry_point_id)] else [])
             {[entry_point_id]}).

(** The final loop and [std::reverse]: ids by ascending distance. *)
Definition final_results (rq : list Candidate) : list Z :=
  reverse (map snd (pq_drain cand_lt rq)).

Definition search_layer (entry_point_id : Z) : result (list Z) :=
  st0 ← search_init entry_point_id;
  st ← search_loop search_fuel st0;
  Ok (final_results (result_queue st)).
End search.

(** *** insert

    [random_level()] draws from the index's generator; the drawn level is an
    argument of the model. *)

(** [nodes[i].neighbors[layer] = f(nodes[i].neighbors[layer])] *)
Definition update_neighbors (ns : list Node.t) (i layer : Z)
    (f : list Z → list Z) : result (list Node.t) :=
  n ← at_ ns i;
  l ← at_ (Node.neighbors n) layer;
  Ok (<[Z.to_nat i := Node.set_neighbors n (<[Z.to_nat layer := f l]> (Node.neighbors n))]> ns).

(** The scan for the furthest neighbour: [(max_dist, furthest_neighbor_idx)]
    after the positions from [i] on. *)
Fixpoint furthest_scan (h : HNSW) (sq : option SQ.ScalarQuantizer) (own : list float)
    (l : list Z) (i : Z) (acc : spec_float * Z) : result (spec_float * Z) :=
  match l with
  | [] => Ok acc
  | c :: l' =>
      dist ← calculate_distance h sq own c;
      furthest_scan h sq own l' (i + 1) (if flt acc.1 dist then (dist, i) else acc)
  end.

(** [max_dist = -1.0f] *)
Definition minus_one : spec_float := SFopp fone.

(** The pruning block, entered when the list of [neighbor_id] exceeds [M]. *)
Definition prune (sq : option SQ.ScalarQuantizer) (neighbor_id layer : Z) (h : HNSW)
  : result HNSW :=
  n ← at_ (nodes h) neighbor_id;
  l ← at_ (Node.neighbors n) layer;
  if to_size_t (M h) <? size l then
    own ← get_vector (vector_storage h) neighbor_id;
    '(_, furthest_neighbor_idx) ← furthest_scan h sq own l 0 (minus_one, -1);
    if furthest_neighbor_idx =? -1 then Ok h
    else
      ns ← update_neighbors (nodes h) neighbor_id layer
             (fun l => delete (Z.to_nat furthest_neighbor_idx) l);
      Ok (set_nodes h ns)
  else Ok h.

(** The body of [for (int neighbor_id : new_node_neighbors)]. *)
Definition connect (sq : option SQ.ScalarQuantizer) (new_node_id layer : Z) (h : HNSW)
    (neighbor_id : Z) : result HNSW :=
  ns1 ← update_neighbors (nodes h) new_node_id layer (fun l => l ++ [neighbor_id]);
  ns2 ← update_neighbors ns1 neighbor_id layer (fun l => l ++ [to_int32 new_node_id]);
  prune sq neighbor_id layer (set_nodes h ns2).

Fixpoint connect_all (sq : option SQ.ScalarQuantizer) (new_node_id layer : Z)
    (new_node_neighbors : list Z) (h : HNSW) : result HNSW :=
  match new_node_neighbors with
  | [] => Ok h
  | n :: rest => h' ← connect sq new_node_id layer h n; connect_all sq new_node_id layer rest h'
  end.

(** The first loop of [insert]: [count] iterations from [layer] downwards,
    left at the first empty search result. *)
Fixpoint insert_descend (h : HNSW) (sq : option SQ.ScalarQuantizer) (vec : list float)
    (count : nat) (layer : Z) (current_node_id : Z) : result Z :=
  match count with
  | O => Ok current_node_id
  | S count' =>
      candidates ← search_layer h sq vec 1 layer None current_node_id;
      match candidates with
      | [] => Ok current_node_id
      | c :: _ => insert_descend h sq vec count' (layer - 1) c
      end
  end.

(** The same loop as the specification words it: an empty search result
    leaves [ep] unchanged and the descent goes on through the remaining
    layers. *)
Fixpoint insert_descend_spec (h : HNSW) (sq : option SQ.ScalarQuantizer) (vec : list float)
    (count : nat) (layer : Z) (ep : Z) : result Z :=
  match count with
  | O => Ok ep
  | S count' =>
      hits ← search_layer h sq vec 1 layer None ep;
      insert_descend_spec h sq vec count' (layer - 1)
                          (match hits with [] => ep | closest :: _ => closest end)
  end.

(** The first [min(size, M)] ids: [new_node_neighbors.size() < M] compares
    in [size_t]. *)
Definition select_neighbors (M : Z) (neighbors_found : list Z) : list Z :=
  take (Z.to_nat (to_size_t M)) neighbors_found.

(** The second loop of [insert]: layers [layer], [layer - 1], ... for [count]
    iterations. *)
Fixpoint insert_link (sq : option SQ.ScalarQuantizer) (vec : list float) (new_node_id : Z)
    (count : nat) (layer : Z) (current_node_id : Z) (h : HNSW) : result HNSW :=
  match count with
  | O => Ok h
  | S count' =>
      neighbors_found ← search_layer h sq vec (efConstruction h) layer None current_node_id;
      match neighbors_found with
      | [] => insert_link sq vec new_node_id count' (layer - 1) current_node_id h
      | first :: _ =>
          h' ← connect_all sq new_node_id layer (select_neighbors (M h) neighbors_found) h;
          insert_link sq vec new_node_id count' (layer - 1) first h'
      end
  end.

(** Everything after the early return of [insert]. *)
Definition insert_graph (sq : option SQ.ScalarQuantizer) (vec : list float)
    (new_node_id new_node_layer : Z) (h : HNSW) : result HNSW :=
  let current_node_id := entry_point_id h in
  ep ← at_ (nodes h) current_node_id;
  let current_max_layer := Node.max_layer ep in
  cur ← insert_descend h sq vec (Z.to_nat (current_max_layer - new_node_layer))
          current_max_layer current_node_id;
  let start := Z.min new_node_layer current_max_layer in
  h' ← insert_link sq vec new_node_id (Z.to_nat (start + 1)) start cur h;
  ep' ← at_ (nodes h') (entry_point_id h');
  if Node.max_layer ep' <? new_node_layer
  then Ok (set_entry_point h' (to_int32 new_node_id))
  else Ok h'.

(** [insert] returns the outcome together with the index as the call leaves
    it.  After an exception the index is the one at the [throw]; after
    undefined behaviour it is the last one the model reached. *)
Definition insert (sq : option SQ.ScalarQuantizer) (new_node_layer : Z)
    (vec : list float) (meta : Metadata) (h : HNSW) : result Z * HNSW :=
  let new_node_id := to_uint32 (size (vectors_ (vector_storage h))) in
  match add_vector sq vec meta (vector_storage h) with
  | Err e => (Err e, h)
  | Ok vs =>
      let h1 := set_vector_storage h vs in
      match Node.new new_node_id new_node_layer with
      | Err e => (Err e, h1)
      | Ok node =>
          let h2 := set_nodes h1 (nodes h1 ++ [node]) in
          if entry_point_id h2 =? -1 then
            (Ok new_node_id, set_entry_point h2 (to_int32 new_node_id))
          else
            match insert_graph sq vec new_node_id new_node_layer h2 with
            | Err e => (Err e, h2)
            | Ok h3 => (Ok new_node_id, h3)
            end
      end
  end.

(** *** k_nearest_neighbors *)

(** The descent of the query: layers [layer], [layer - 1], ... for [count]
    iterations; an empty search result leaves the current node in place. *)
Fixpoint knn_descend (h : HNSW) (sq : option SQ.ScalarQuantizer) (query : list float)
    (filter : FilterFunc) (count : nat) (layer : Z) (current_node_id : Z) : result Z :=
  match count with
  | O => Ok current_node_id
  | S count' =>
      candidates ← search_layer h sq query 1 layer filter current_node_id;
      knn_descend h sq query filter count' (layer - 1)
                  (match candidates with [] => current_node_id | c :: _ => c end)
  end.

Definition included (include : list Include) (i : Include) : bool :=
  bool_decide (i ∈ include).

Definition make_result (h : HNSW) (sq : option SQ.ScalarQuantizer) (query : list float)
    (include : list Include) (id : Z) : result QueryResult.t :=
  distance ← (if included include DISTANCE
              then Some <$> calculate_distance h sq query id else Ok None);
  metadata ← (if included include METADATA
              then get_metadata (vector_storage h) id else Ok ∅);
  vector ← (if included include VECTOR
            then get_vector (vector_storage h) id else Ok []);
  Ok (QueryResult.mk id distance metadata vector).

(** The loop over [results_ids]; [final_results.size() >= k] compares in
    [size_t]. *)
Fixpoint collect_results (h : HNSW) (sq : option SQ.ScalarQuantizer) (query : list float)
    (k : Z) (include : list Include) (results_ids : list Z)
    (final_results : list QueryResult.t) : result (list QueryResult.t) :=
  match results_ids with
  | [] => Ok final_results
  | id :: rest =>
      if is_deleted h id then collect_results h sq query k include rest final_results
      else if to_size_t k <=? size final_results then Ok final_results
      else
        r ← make_result h sq query include id;
        collect_results h sq query k include rest (final_results ++ [r])
  end.

Definition k_nearest_neighbors (h : HNSW) (sq : option SQ.ScalarQuantizer)
    (query : list float) (k : Z) (filter : FilterFunc) (include : list Include)
  : result (list QueryResult.t) :=
  if entry_point_id h =? -1 then Ok []
  else
    let current_node_id := entry_point_id h in
    ep ← at_ (nodes h) current_node_id;
    let current_max_layer := Node.max_layer ep in
    cur ← knn_descend h sq query filter (Z.to_nat current_max_layer)
            current_max_layer current_node_id;
    results_ids ← search_layer h sq query (Z.max k (efSearch h)) 0 filter cur;
    collect_results h sq query k include results_ids [].

(** *** mark_deleted *)

(** The rescan: [(new_entry_point, max_layer)] over the nodes. *)
Definition rescan_entry_point (deleted : gset Z) (ns : list Node.t) : Z * Z :=
  foldl (fun acc node =>
           if bool_decide (Node.id node ∈ deleted) then acc
           else if acc.2 <? Node.max_layer node
                then (to_int32 (Node.id node), Node.max_layer node)
                else acc)
        (-1, -1) ns.

Definition mark_deleted (id : Z) (h : HNSW) : HNSW :=
  let deleted := {[id]} ∪ deleted_nodes_ h in
  let h' := set_deleted h deleted in
  if to_uint32 (entry_point_id h) =? id
  then set_entry_point h' (rescan_entry_point deleted (nodes h)).1
  else h'.

(** *** Indexes on which a search stays within bounds

    The conditions under which no access of a query leaves its vector: every
    id stored in an adjacency list of a layer names a node that has that
    layer, and every node has a vector (and metadata) the query can be
    compared with. *)

Definition has_layer (h : HNSW) (layer id : Z) : bool :=
  is_ok (neighbors_at h layer id).

Definition closed_at (h : HNSW) (layer : Z) : bool :=
  forallb (has_layer h layer) (layer_edges h layer).

Definition node_ids (h : HNSW) : list Z :=
  map Z.of_nat (seq 0 (length (nodes h))).

Definition searchable (h : HNSW) (sq : option SQ.ScalarQuantizer) (query : list float)
    (filter : FilterFunc) : bool :=
  forallb (fun i => is_ok (calculate_distance h sq query i)
                    && is_ok (filter_accepts h filter i)) (node_ids h).

Definition layers_upto (top : Z) : list Z :=
  map Z.of_nat (seq 0 (Z.to_nat (top + 1))).

Definition wf_query (h : HNSW) (sq : option SQ.ScalarQuantizer) (query : list float)
    (k : Z) (filter : FilterFunc) (include : list Include) : bool :=
  (entry_point_id h =? -1)
  || match at_ (nodes h) (entry_point_id h) with
     | Ok ep =>
         let top := Z.max 0 (Node.max_layer ep) in
         has_layer h top (entry_point_id h)
         && forallb (closed_at h) (layers_upto top)
         && searchable h sq query filter
         && forallb (fun i => is_ok (make_result h sq query include i)) (node_ids h)
         && (1 <=? to_size_t (Z.max k (efSearch h)))
     | Err _ => false
     end.

(** The measure of the search loop: queued candidates plus adjacency entries
    not yet visited. *)
Definition unvisited (edges : list Z) (visited : gset Z) : nat :=
  length (filter (fun x => x ∉ visited) edges).

Definition search_measure (edges : list Z) (st : search_state) : nat :=
  (length (candidate_queue st) + unvisited edges (visited_nodes st))%nat.

(** The invariant of the search loop on such an index: the queues hold ids of
    nodes that have the layer searched. *)
Definition valid_cand (h : HNSW) (layer : Z) (c : Candidate) : Prop :=
  has_layer h layer c.2 = true.

Definition valid_state (h : HNSW) (layer : Z) (st : search_state) : Prop :=
  Forall (valid_cand h layer) (candidate_queue st)
  ∧ Forall (valid_cand h layer) (result_queue st).

(** A result whose id is not tombstoned. *)
Definition live_result (h : HNSW) (x : QueryResult.t) : Prop :=
  to_uint32 (QueryResult.id x) ∉ deleted_nodes_ h.

(** *** The entry point invariant

    What [insert] and [mark_deleted] keep of the entry point, stated on the
    [(id, max_layer)] pairs of the nodes: the entry point is a live node of
    greatest [max_layer] among the live nodes, and it is [-1] only when every
    node is tombstoned. *)

Definition node_key (n : Node.t) : Z * Z := (Node.id n, Node.max_layer n).

Definition keys (h : HNSW) : list (Z * Z) := map node_key (nodes h).

(** The i-th node has id [i] and a layer 0, there is one vector per node, ids
    fit an [int], and only existing nodes are tombstoned. *)
Definition index_ok (h : HNSW) : Prop :=
  (∀ i k, keys h !! i = Some k → k.1 = Z.of_nat i ∧ 0 ≤ k.2)
  ∧ length (vectors_ (vector_storage h)) = length (keys h)
  ∧ size (keys h) < 2 ^ 31
  ∧ (∀ id, id ∈ deleted_nodes_ h → (0 ≤ id < size (keys h))).

Definition entry_point_ok (h : HNSW) : Prop :=
  if decide (entry_point_id h = -1)
  then ∀ k, k ∈ keys h → k.1 ∈ deleted_nodes_ h
  else ∃ k, at_ (keys h) (entry_point_id h) = Ok k
            ∧ (k.1 ∉ deleted_nodes_ h)
            ∧ ∀ k', k' ∈ keys h → k'.1 ∉ deleted_nodes_ h → k'.2 ≤ k.2.

(** The part of an index the linking phase of [insert] leaves alone. *)
Definition frame (h : HNSW) : list (Z * Z) * VectorStorage * Z * gset Z :=
  (keys h, vector_storage h, entry_point_id h, deleted_nodes_ h).

(** Sequences of the two operations that change an index in memory. *)
Inductive op : Type :=
  | Insert (new_node_layer : Z) (vec : list float) (meta : Metadata)
  | MarkDeleted (id : Z).

Fixpoint run_ops (sq : option SQ.ScalarQuantizer) (ops : list op) (h : HNSW)
  : result HNSW :=
  match ops with
  | [] => Ok h
  | Insert lvl vec meta :: rest =>
      match insert sq lvl vec meta h with
      | (Ok _, h') => run_ops sq rest h'
      | (Err e, _) => Err e
      end
  | MarkDeleted id :: rest => run_ops sq rest (mark_deleted id h)
  end.

(** Drawn levels are non-negative, ids stay within [int], and [mark_deleted]
    is given the id of a node that exists; [n] is the number of nodes. *)
Fixpoint ops_ok (n : nat) (ops : list op) : Prop :=
  match ops with
  | [] => True
  | Insert lvl _ _ :: rest => 0 ≤ lvl ∧ Z.of_nat n + 1 < 2 ^ 31 ∧ ops_ok (S n) rest
  | MarkDeleted id :: rest => (0 ≤ id < Z.of_nat n) ∧ ops_ok n rest
  end.

(** *** What the linking phase of [insert] never touches *)

(** The construction parameters of an index. *)
Definition params (h : HNSW) : Z * Z * Z * DistanceMetric :=
  (M h, efConstruction h, efSearch h, distance_metric h).

(** One of the three enumerators. *)
Definition valid_metric (m : DistanceMetric) : bool :=
  match m with InvalidMetric _ => false | _ => true end.

(** *** What a search pushes into its result queue

    A pair [(distance, id)] enters the result queue of [search_layer] only
    when [id] is the entry point or stands in an adjacency list of the layer,
    is not tombstoned, passes the filter, and [distance] is its distance from
    the query. *)
Definition found (h : HNSW) (sq : option SQ.ScalarQuantizer) (query : list float)
    (layer_level : Z) (filter : FilterFunc) (entry_point_id : Z) (c : Candidate) : Prop :=
  calculate_distance h sq query c.2 = Ok c.1
  ∧ is_deleted h c.2 = false
  ∧ filter_accepts h filter c.2 = Ok true
  ∧ (c.2 = entry_point_id ∨ c.2 ∈ layer_edges h layer_level).

(** Ids in ascending order of distance from the query: no later one is
    nearer than an earlier one. *)
Definition nearer_first (h : HNSW) (sq : option SQ.ScalarQuantizer)
    (query : list float) (ids : list Z) : Prop :=
  StronglySorted
    (fun i j => ∀ di dj, calculate_distance h sq query i = Ok di →
                         calculate_distance h sq query j = Ok dj →
                         flt dj di = false) ids.

(** No node is at a NaN distance from the query. *)
Definition no_nan_distance (h : HNSW) (sq : option SQ.ScalarQuantizer)
    (query : list float) : Prop :=
  ∀ id d, calculate_distance h sq query id = Ok d → is_nan d = false.

(** *** What a query result carries

    The fields of a result are the stored values of its id where the caller
    asked for them and stay empty otherwise. *)
Definition carries_requested (h : HNSW) (sq : option SQ.ScalarQuantizer)
    (query : list float) (include : list Include) (x : QueryResult.t) : Prop :=
  let id := QueryResult.id x in
  (if included include DISTANCE
   then ∃ d, calculate_distance h sq query id = Ok d ∧ QueryResult.distance x = Some d
   else QueryResult.distance x = None)
  ∧ (if included include METADATA
     then get_metadata (vector_storage h) id = Ok (QueryResult.metadata x)
     else QueryResult.metadata x = ∅)
  ∧ (if included include VECTOR
     then get_vector (vector_storage h) id = Ok (QueryResult.vector x)
     else QueryResult.vector x = []).

(** The same index under another metric. *)
Definition set_metric (h : HNSW) (metric : DistanceMetric) : HNSW :=
  mkHNSW (vector_storage h) (nodes h) (entry_point_id h) (M h) (efConstruction h)
         (efSearch h) metric (deleted_nodes_ h).

(** The positions of the stored vectors that are not tombstoned, in order. *)
Definition live_positions (h : HNSW) : list nat :=
  filter (fun i => to_uint32 (Z.of_nat i) ∉ deleted_nodes_ h)
         (seq 0 (length (vectors_ (vector_storage h)))).

(** *** Well-formed graphs

    What [insert] needs of the graph and leaves behind: every node carries
    the adjacency lists of its layers [0 .. max_layer], every id stored in a
    list of a layer names a node that has that layer, and every node has a
    vector of the index's dimension and a metadata record. *)

(** What of a node decides which of its lists exist. *)
Definition shape (n : Node.t) : Z * Z * nat :=
  (Node.id n, Node.max_layer n, length (Node.neighbors n)).

Definition layered (h : HNSW) : Prop :=
  ∀ n, n ∈ nodes h → size (Node.neighbors n) = Node.max_layer n + 1.

Definition closed (h : HNSW) : Prop := ∀ layer, closed_at h layer = true.

Definition storage_ok (h : HNSW) : Prop :=
  length (metadata_ (vector_storage h)) = length (vectors_ (vector_storage h))
  ∧ Forall (fun v => size v = vector_dimension_ (vector_storage h))
           (vectors_ (vector_storage h)).

Definition graph_ok (h : HNSW) : Prop :=
  index_ok h ∧ entry_point_ok h ∧ layered h ∧ closed h ∧ storage_ok h.

(** What a query needs of the entry point: it is [-1] or the index of a
    node, live or not, on whatever layer. *)
Definition entry_point_in_range (h : HNSW) : Prop :=
  entry_point_id h = -1 ∨ 0 ≤ entry_point_id h < size (nodes h).

(** Inserted vectors have the dimension [D]. *)
Definition ops_fit (D : Z) (ops : list op) : Prop :=
  Forall (fun o => match o with
                   | Insert _ vec _ => size vec = D
                   | MarkDeleted _ => True
                   end) ops.

(** No adjacency list is longer than [M] (compared in [size_t], as the
    source does). *)
Definition within_M (h : HNSW) : Prop :=
  ∀ n, n ∈ nodes h →
       Forall (fun l => size l ≤ to_size_t (M h)) (Node.neighbors n).

(** Every distance from a stored vector to a node is above [-1.0f], the
    initial maximum of the pruning scan. *)
Definition above_minus_one (h : HNSW) (sq : option SQ.ScalarQuantizer) : Prop :=
  ∀ i j own d, get_vector (vector_storage h) i = Ok own →
               calculate_distance h sq own j = Ok d →
               flt minus_one d = true.

(** *** What a search can reach

    [reach h layer ep x]: [x] is the entry point or is found from it along
    adjacency lists of the layer, through nodes that are not tombstoned and
    ending in one. *)
Inductive reach (h : HNSW) (layer ep : Z) : Z → Prop :=
  | reach_entry : is_deleted h ep = false → reach h layer ep ep
  | reach_step x ns y :
      reach h layer ep x → neighbors_at h layer x = Ok ns → y ∈ ns →
      is_deleted h y = false → reach h layer ep y.

End Hnsw.

(** ** [database.h]: the facade and the file format *)

Module Db.
Import Hnsw.

(** *** Bytes

    A file is the list of its bytes, each in [0, 256).  Scalars are written
    as their object representation: little-endian, two's complement. *)

Fixpoint le_bytes (n : nat) (x : Z) : list Z :=
  match n with
  | O => []
  | S n' => x mod 256 :: le_bytes n' (x / 256)
  end.

Fixpoint le_value (bs : list Z) : Z :=
  match bs with
  | [] => 0
  | b :: bs' => b + 256 * le_value bs'
  end.

Definition bytes_of_string (s : string) : list Z :=
  map (fun c => Z.of_N (N_of_ascii c)) (list_ascii_of_string s).

Definition string_of_bytes (bs : list Z) : string :=
  string_of_list_ascii (map (fun b => ascii_of_N (Z.to_N b)) bs).

(** What [ofs.write(v.data(), n * sizeof(T))] emits: the first [n] elements;
    a shorter [v] is read past its end. *)
Definition write_array (n : Z) (v : list Z) : result (list Z) :=
  if size v <? n then Err UndefinedBehaviour
  else Ok (flat_map (le_bytes 4) (take (Z.to_nat n) v)).

(** [ifs.read]: an input function over the rest of the file.  A read past
    the end leaves its destination unset. *)
Definition reader (A : Type) : Type := list Z → result (A * list Z).

#[global] Instance reader_ret : MRet reader := fun _ a s => Ok (a, s).
#[global] Instance reader_bind : MBind reader := fun _ _ f r s =>
  match r s with Ok (a, s') => f a s' | Err e => Err e end.

Definition read_bytes (n : nat) : reader (list Z) := fun s =>
  if (length s <? n)%nat then Err UndefinedBehaviour else Ok (take n s, drop n s).

Definition read_le (n : nat) : reader Z :=
  bs ← read_bytes n; mret (le_value bs).

Definition read_size_t : reader Z := read_le 8.
Definition read_uint32 : reader Z := read_le 4.
Definition read_int32 : reader Z := v ← read_le 4; mret (to_int32 v).
Definition read_bool : reader bool := v ← read_le 1; mret (negb (v =? 0)).

Definition lift {A} (r : result A) : reader A := fun s =>
  match r with Ok a => Ok (a, s) | Err e => Err e end.

Fixpoint read_list {A} (n : nat) (r : reader A) : reader (list A) :=
  match n with
  | O => mret []
  | S n' => x ← r; xs ← read_list n' r; mret (x :: xs)
  end.

Definition read_string (n : nat) : reader string :=
  bs ← read_bytes n; mret (string_of_bytes bs).

(** *** The enum on disk *)

Definition int_of_metric (m : DistanceMetric) : Z :=
  match m with L2 => 0 | COSINE => 1 | IP => 2 | InvalidMetric v => v end.

Definition metric_of_int (v : Z) : DistanceMetric :=
  if v =? 0 then L2 else if v =? 1 then COSINE else if v =? 2 then IP
  else InvalidMetric v.

(** *** Database *)

Inductive SyncMode : Type := FULL | NORMAL | OFF.

(** [hnsw_]'s quantizer pointer is [sq_.get()] at every call boundary, so the
    index operations receive [sq_ db]. *)
Record Database : Type := mkDB {
  db_path_ : string;
  hnsw_ : HNSW;
  read_only_ : bool;
  cache_size_mb_ : Z;
  sq_ : option SQ.ScalarQuantizer
}.

Definition set_hnsw (db : Database) (h : HNSW) : Database :=
  mkDB (db_path_ db) h (read_only_ db) (cache_size_mb_ db) (sq_ db).

Definition set_sq (db : Database) (q : option SQ.ScalarQuantizer) : Database :=
  mkDB (db_path_ db) (hnsw_ db) (read_only_ db) (cache_size_mb_ db) q.

(** *** save *)

(** [ScalarQuantizer::save] *)
Definition sq_save (q : SQ.ScalarQuantizer) : result (list Z) :=
  mins ← write_array (SQ.original_dim_ q) (SQ.mins_ q);
  maxs ← write_array (SQ.original_dim_ q) (SQ.maxs_ q);
  Ok (le_bytes 8 (SQ.original_dim_ q) ++ mins ++ maxs).

(** One adjacency list on disk: [num_neighbors], then the ids. *)
Definition layer_bytes (l : list Z) : list Z :=
  le_bytes 8 (size l) ++ flat_map (le_bytes 4) l.

Definition write_layer (n : Node.t) (layer : nat) : result (list Z) :=
  l ← idx (Node.neighbors n) layer;
  Ok (layer_bytes l).

Definition write_node (n : Node.t) : result (list Z) :=
  layers ← map_result (write_layer n) (seq 0 (Z.to_nat (Node.max_layer n + 1)));
  Ok (le_bytes 4 (Node.id n) ++ le_bytes 4 (Node.max_layer n) ++ concat layers).

(** [std::map] iterates in the order of its keys. *)
Definition key_le (p q : string * string) : Prop := String.leb p.1 q.1 = true.

#[global] Instance key_le_dec : RelDecision key_le.
Proof. intros p q. unfold key_le. apply _. Defined.

Definition meta_pairs (meta : Metadata) : list (string * string) :=
  merge_sort key_le (map_to_list meta).

Definition write_string (s : string) : list Z :=
  let bs := bytes_of_string s in le_bytes 8 (size bs) ++ bs.

Definition write_meta (meta : Metadata) : list Z :=
  let pairs := meta_pairs meta in
  le_bytes 8 (size pairs)
    ++ flat_map (fun p => write_string p.1 ++ write_string p.2) pairs.

Definition write_record (vs : VectorStorage) (i : nat) : result (list Z) :=
  vec ← idx (vectors_ vs) i;
  meta ← idx (metadata_ vs) i;
  v ← write_array (vector_dimension_ vs) vec;
  Ok (v ++ write_meta meta).

(** [for (uint32_t deleted_id : deleted_nodes)] visits the ids in the
    iteration order of the [std::unordered_set], which the standard library
    chooses and which depends on the history of the set.  That order is the
    argument [order] of [save]: some enumeration of the set, each id once. *)
Definition iteration_of (d : gset Z) (order : list Z) : Prop :=
  order ≡ₚ elements d.

#[global] Instance iteration_of_dec d order : Decision (iteration_of d order).
Proof. unfold iteration_of. apply _. Defined.

(** [deleted_nodes.size()], then the ids as the loop meets them. *)
Definition write_deleted (d : gset Z) (order : list Z) : list Z :=
  le_bytes 8 (size (elements d)) ++ flat_map (le_bytes 4) order.

Definition save_bytes (order : list Z) (db : Database) : result (list Z) :=
  let h := hnsw_ db in
  sqb ← match sq_ db with
        | Some q => b ← sq_save q; Ok (le_bytes 1 1 ++ b)
        | None => Ok (le_bytes 1 0)
        end;
  nodesb ← map_result write_node (nodes h);
  let vs := vector_storage h in
  recordsb ← map_result (write_record vs) (seq 0 (length (vectors_ vs)));
  Ok (sqb
      ++ le_bytes 4 (M h) ++ le_bytes 4 (efConstruction h) ++ le_bytes 4 (efSearch h)
      ++ le_bytes 4 (int_of_metric (distance_metric h))
      ++ le_bytes 8 (size (nodes h)) ++ concat nodesb
      ++ le_bytes 8 (size (vectors_ vs)) ++ le_bytes 8 (vector_dimension_ vs)
      ++ concat recordsb
      ++ write_deleted (deleted_nodes_ h) order).

(** [save] yields the bytes written to [db_path_]; [order] is the iteration
    order of [deleted_nodes_] during the call. *)
Definition save (sync_mode : SyncMode) (order : list Z) (db : Database)
  : result (list Z) * Database :=
  if read_only_ db then (Err ReadOnlyViolation, db)
  else (save_bytes order db, db).

(** *** load *)

(** [ScalarQuantizer::load] on a quantizer built with dimension [0]. *)
Definition sq_load : reader SQ.ScalarQuantizer :=
  original_dim ← read_size_t;
  mins ← read_list (Z.to_nat original_dim) read_uint32;
  maxs ← read_list (Z.to_nat original_dim) read_uint32;
  mret (SQ.mkSQ original_dim mins maxs).

Definition read_layer : reader (list Z) :=
  num_neighbors ← read_size_t;
  read_list (Z.to_nat num_neighbors) read_int32.

Definition read_node : reader Node.t :=
  id ← read_uint32;
  max_layer ← read_int32;
  node ← lift (Node.new id max_layer);
  layers ← read_list (Z.to_nat (max_layer + 1)) read_layer;
  mret (Node.set_neighbors node layers).

Fixpoint read_meta (n : nat) (meta : Metadata) : reader Metadata :=
  match n with
  | O => mret meta
  | S n' =>
      key_size ← read_size_t;
      key ← read_string (Z.to_nat key_size);
      value_size ← read_size_t;
      value ← read_string (Z.to_nat value_size);
      read_meta n' (<[key := value]> meta)
  end.

(** One iteration of the loop over the stored vectors. *)
Definition read_record (sq : option SQ.ScalarQuantizer) (vector_dimension : Z)
    (vs : VectorStorage) : reader VectorStorage :=
  vec ← read_list (Z.to_nat vector_dimension) read_uint32;
  meta_size ← read_size_t;
  meta ← read_meta (Z.to_nat meta_size) ∅;
  lift (add_vector sq vec meta vs).

Fixpoint read_records (sq : option SQ.ScalarQuantizer) (vector_dimension : Z)
    (n : nat) (vs : VectorStorage) : reader VectorStorage :=
  match n with
  | O => mret vs
  | S n' => vs' ← read_record sq vector_dimension vs;
            read_records sq vector_dimension n' vs'
  end.

Definition read_deleted : reader (gset Z) :=
  num_deleted_nodes ← read_size_t;
  ids ← read_list (Z.to_nat num_deleted_nodes) read_uint32;
  mret (foldl (fun d id => {[id]} ∪ d) ∅ ids).

(** The head of the file: the flag and, when set, the quantizer that
    replaces [sq_]. *)
Definition load_quantizer (db : Database) : reader (bool * option SQ.ScalarQuantizer) :=
  sq_enabled ← read_bool;
  sq ← (if sq_enabled : bool then q ← sq_load; mret (Some q) else mret (sq_ db));
  mret (sq_enabled, sq).

(** The rest of the file, read with the quantizer [sq] in place. *)
Definition load_index (db : Database) (sq_enabled : bool)
    (sq : option SQ.ScalarQuantizer) : reader Database :=
  M ← read_int32;
  efConstruction ← read_int32;
  efSearch ← read_int32;
  metric ← read_int32;
  num_nodes ← read_size_t;
  nodes ← read_list (Z.to_nat num_nodes) read_node;
  num_vectors ← read_size_t;
  vector_dimension ← read_size_t;
  vs ← read_records sq vector_dimension (Z.to_nat num_vectors)
         (VectorStorage_new vector_dimension);
  vs' ← (if sq_enabled : bool then lift (encode_all_vectors sq vs) else mret vs);
  deleted_nodes ← read_deleted;
  mret (mkDB (db_path_ db)
             (of_parts M efConstruction efSearch (metric_of_int metric) nodes vs' deleted_nodes)
             (read_only_ db) (cache_size_mb_ db) sq).

Definition load_from (db : Database) : reader Database :=
  '(sq_enabled, sq) ← load_quantizer db;
  load_index db sq_enabled sq.

(** [file] is the content found at [db_path_]; [None] when the stream does
    not open. *)
Definition load (file : option (list Z)) (db : Database) : result unit * Database :=
  match file with
  | None => (Ok (), db)
  | Some bytes =>
      match load_from db bytes with
      | Ok (db', _) => (Ok (), db')
      | Err e => (Err e, db)
      end
  end.

(** *** Construction and the routed operations *)

Definition new (file : option (list Z)) (db_path : string)
    (vector_dimension M efConstruction efSearch : Z) (metric : DistanceMetric)
    (read_only : bool) (cache_size_mb : Z) (sq_enabled : bool) : result Database :=
  let h := Hnsw.new vector_dimension M efConstruction efSearch metric in
  let db := if sq_enabled
            then mkDB db_path (set_quantizer h) read_only cache_size_mb
                      (Some (SQ.new vector_dimension))
            else mkDB db_path h read_only cache_size_mb None in
  if read_only then
    match load file db with
    | (Ok _, db') => Ok db'
    | (Err e, _) => Err e
    end
  else Ok db.

Definition insert (new_node_layer : Z) (vec : list float) (meta : Metadata)
    (db : Database) : result Z * Database :=
  if read_only_ db then (Err ReadOnlyViolation, db)
  else
    let '(r, h) := Hnsw.insert (sq_ db) new_node_layer vec meta (hnsw_ db) in
    (r, set_hnsw db h).

Definition delete_vector (id : Z) (db : Database) : result unit * Database :=
  if read_only_ db then (Err ReadOnlyViolation, db)
  else (Ok (), set_hnsw db (mark_deleted id (hnsw_ db))).

Definition update_vector (new_node_layer : Z) (id : Z) (new_vec : list float)
    (new_meta : Metadata) (db : Database) : result Z * Database :=
  if read_only_ db then (Err ReadOnlyViolation, db)
  else
    match delete_vector id db with
    | (Ok _, db') => insert new_node_layer new_vec new_meta db'
    | (Err e, db') => (Err e, db')
    end.

Definition query (query : list float) (k : Z) (filter : FilterFunc)
    (include : list Include) (db : Database) : result (list QueryResult.t) * Database :=
  (k_nearest_neighbors (hnsw_ db) (sq_ db) query k filter include, db).

Definition train_quantizer (db : Database) : result unit * Database :=
  match sq_ db with
  | None => (Ok (), db)
  | Some q =>
      let vs := vector_storage (hnsw_ db) in
      match SQ.train (vectors_ vs) q with
      | Err e => (Err e, db)
      | Ok q' =>
          let db1 := set_sq db (Some q') in
          match encode_all_vectors (Some q') vs with
          | Err e => (Err e, db1)
          | Ok vs' => (Ok (), set_hnsw db1 (set_vector_storage (hnsw_ db) vs'))
          end
      end
  end.

(** The loop of [rebuild_index] over the old storage; [draws] gives the level
    drawn by each insertion into the new index, in order. *)
Fixpoint reinsert (sq : option SQ.ScalarQuantizer) (old : HNSW) (draws : list Z)
    (ixs : list nat) (new_hnsw : HNSW) : result HNSW :=
  match ixs with
  | [] => Ok new_hnsw
  | i :: ixs' =>
      if bool_decide (to_uint32 (Z.of_nat i) ∈ deleted_nodes_ old)
      then reinsert sq old draws ixs' new_hnsw
      else
        vec ← idx (vectors_ (vector_storage old)) i;
        meta ← idx (metadata_ (vector_storage old)) i;
        match Hnsw.insert sq (hd 0 draws) vec meta new_hnsw with
        | (Ok _, h') => reinsert sq old (tl draws) ixs' h'
        | (Err e, _) => Err e
        end
  end.

Definition rebuild_index (draws : list Z) (db : Database) : result unit * Database :=
  if read_only_ db then (Err ReadOnlyViolation, db)
  else
    match train_quantizer db with
    | (Err e, db') => (Err e, db')
    | (Ok _, db1) =>
        let h := hnsw_ db1 in
        let vs := vector_storage h in
        let new_hnsw := Hnsw.new (vector_dimension_ vs) (M h) (efConstruction h)
                                 (efSearch h) (distance_metric h) in
        match reinsert (sq_ db1) h draws (seq 0 (length (vectors_ vs))) new_hnsw with
        | Err e => (Err e, db1)
        | Ok h' => (Ok (), set_hnsw db1 h')
        end
    end.

(** *** Representable states

    What the types and class invariants of the source guarantee of a
    database: scalars within the range of their C++ type, every node with
    [max_layer + 1] adjacency lists, every stored vector of the dimension of
    the storage, one metadata record per vector, quantizer bounds of the
    quantizer's dimension; and, with a trained quantizer, stored vectors that
    it encodes. *)

Definition wf_floats (v : list float) : bool := forallb is_uint32 v.

Definition wf_sq (q : SQ.ScalarQuantizer) : bool :=
  is_size_t (SQ.original_dim_ q)
  && (size (SQ.mins_ q) =? SQ.original_dim_ q)
  && (size (SQ.maxs_ q) =? SQ.original_dim_ q)
  && wf_floats (SQ.mins_ q) && wf_floats (SQ.maxs_ q).

Definition wf_layer (l : list Z) : bool :=
  is_size_t (size l) && forallb is_int32 l.

Definition wf_node (n : Node.t) : bool :=
  is_uint32 (Node.id n) && is_int32 (Node.max_layer n)
  && (size (Node.neighbors n) =? Node.max_layer n + 1)
  && forallb wf_layer (Node.neighbors n).

Definition wf_string (s : string) : bool := is_size_t (size (bytes_of_string s)).

Definition wf_meta (meta : Metadata) : bool :=
  is_size_t (size (map_to_list meta))
  && forallb (fun p => wf_string p.1 && wf_string p.2) (map_to_list meta).

Definition wf_vector (dim : Z) (v : list float) : bool :=
  (size v =? dim) && wf_floats v.

Definition encodable (sq : option SQ.ScalarQuantizer) (v : list float) : bool :=
  match sq with
  | Some q => if SQ.is_trained q then is_ok (SQ.encode q v) else true
  | None => true
  end.

Definition wf_storage (sq : option SQ.ScalarQuantizer) (vs : VectorStorage) : bool :=
  is_size_t (vector_dimension_ vs)
  && is_size_t (size (vectors_ vs))
  && (size (metadata_ vs) =? size (vectors_ vs))
  && forallb (fun v => wf_vector (vector_dimension_ vs) v && encodable sq v) (vectors_ vs)
  && forallb wf_meta (metadata_ vs).

(** A stored vector with its metadata, as [save] pairs them. *)
Definition record_ok (sq : option SQ.ScalarQuantizer) (dim : Z)
    (p : list float * Metadata) : bool :=
  wf_vector dim p.1 && encodable sq p.1 && wf_meta p.2.

(** [meta[key] = value] on a pair. *)
Definition insert_pair (m : Metadata) (p : string * string) : Metadata :=
  <[p.1 := p.2]> m.

Definition wf_deleted (d : gset Z) : bool :=
  is_size_t (size (elements d)) && forallb is_uint32 (elements d).

Definition wf_metric (m : DistanceMetric) : bool :=
  match m with
  | InvalidMetric v => is_int32 v && negb ((0 <=? v) && (v <=? 2))
  | _ => true
  end.

Definition wf_db (db : Database) : bool :=
  let h := hnsw_ db in
  is_int32 (M h) && is_int32 (efConstruction h) && is_int32 (efSearch h)
  && wf_metric (distance_metric h)
  && is_size_t (size (nodes h)) && forallb wf_node (nodes h)
  && wf_storage (sq_ db) (vector_storage h)
  && wf_deleted (deleted_nodes_ h)
  && match sq_ db with Some q => wf_sq q | None => true end.

(** *** Databases built through the public operations

    A writable database without a trained quantizer whose index is what a
    sequence of inserts (vectors of the dimension [D], drawn levels that are
    not negative) and deletions (of existing ids) leaves of the empty index
    the constructor makes, under one of the three metrics and with
    [efConstruction] other than zero. *)
Definition built_from (D M efC efS : Z) (metric : DistanceMetric) (ops : list op)
    (w : Database) : Prop :=
  read_only_ w = false
  ∧ sq_trained (sq_ w) = false
  ∧ valid_metric metric = true
  ∧ 1 ≤ to_size_t efC
  ∧ ops_ok 0 ops
  ∧ ops_fit D ops
  ∧ run_ops (sq_ w) ops (Hnsw.new D M efC efS metric) = Ok (hnsw_ w).

End Db.

(** ** Concrete indexes

    Small indexes built through the public operations, used to run the model
    on explicit inputs. *)

Module Examples.
Import Hnsw.

(** Bit patterns of [1.0f], [2.0f], [3.0f]. *)
Definition f_one : float := 0x3f800000.
Definition f_two : float := 0x40000000.
Definition f_three : float := 0x40400000.

(** Successive [insert]s of [(drawn level, vector, metadata)]. *)
Fixpoint insert_all (sq : option SQ.ScalarQuantizer)
    (items : list (Z * list float * Metadata)) (h : HNSW) : result HNSW :=
  match items with
  | [] => Ok h
  | (lvl, vec, meta) :: rest =>
      match insert sq lvl vec meta h with
      | (Ok _, h') => insert_all sq rest h'
      | (Err e, _) => Err e
      end
  end.

Definition or_empty (r : result HNSW) : HNSW :=
  match r with Ok h => h | Err _ => Hnsw.new 0 0 0 0 L2 end.

(** Three points on a line, all on layer 0; D = 1, M = 2, L2. *)
Definition line3 : HNSW :=
  or_empty (insert_all None [(0, [f_one], ∅); (0, [f_two], ∅); (0, [f_three], ∅)]
                       (Hnsw.new 1 2 10 10 L2)).

Definition line3_without_1 : HNSW := mark_deleted 1 line3.

(** Two linked points; node 0 is then tombstoned (the entry point moves to
    node 1). *)
Definition pair : HNSW :=
  or_empty (insert_all None [(0, [f_one], ∅); (0, [f_two], ∅)] (Hnsw.new 1 2 10 10 L2)).

Definition pair_without_0 : HNSW := mark_deleted 0 pair.

(** Four equal points under the inner-product metric; D = 1, M = 2. *)
Definition ip_items : list (Z * list float * Metadata) :=
  [(0, [f_two], ∅); (0, [f_two], ∅); (0, [f_two], ∅); (0, [f_two], ∅)].

Definition ip_four : result HNSW := insert_all None ip_items (Hnsw.new 1 2 10 10 IP).

(** The same insertions under the L2 metric. *)
Definition l2_four : result HNSW := insert_all None ip_items (Hnsw.new 1 2 10 10 L2).

(** Databases: a writable one with two nodes on layers 1 and 0, its file, and
    the read-only database opened on that file. *)
Definition fresh_db (read_only : bool) (file : option (list Z)) : result Db.Database :=
  Db.new file "index.bin" 1 2 10 10 L2 read_only 0 false.

Definition or_fresh (r : result Db.Database) : Db.Database :=
  match r with
  | Ok db => db
  | Err _ => Db.mkDB "index.bin" (Hnsw.new 1 2 10 10 L2) false 0 None
  end.

Definition two_layers_db : Db.Database :=
  let db0 := or_fresh (fresh_db false None) in
  let db1 := (Db.insert 1 [f_one] {["type" := "a"]} db0).2 in
  (Db.insert 0 [f_two] {["type" := "b"]} db1).2.

(** The file [save] writes when the tombstones are met in [order]. *)
Definition file_of (order : list Z) (db : Db.Database) : list Z :=
  match (Db.save Db.FULL order db).1 with Ok bytes => bytes | Err _ => [] end.

Definition two_layers_reloaded : result Db.Database :=
  fresh_db true (Some (file_of [] two_layers_db)).

(** The same two nodes with the last one tombstoned before saving. *)
Definition last_deleted_db : Db.Database := (Db.delete_vector 1 two_layers_db).2.

Definition last_deleted_reloaded : result Db.Database :=
  fresh_db true (Some (file_of [1] last_deleted_db)).

(** A database with a quantizer: two inserts, a rebuild (which trains the
    quantizer on [1.0] and [3.0]), and one more insert, encoded on entry. *)
Definition quantized_db : Db.Database :=
  let db0 := or_fresh (Db.new None "sq.bin" 1 2 10 10 L2 false 0 true) in
  let db1 := (Db.insert 0 [f_one] ∅ db0).2 in
  let db2 := (Db.insert 0 [f_three] ∅ db1).2 in
  let db3 := (Db.rebuild_index [0; 0] db2).2 in
  (Db.insert 0 [f_two] ∅ db3).2.

(** The database [load] is run on after a save: read-only, no file yet. *)
Definition loader : Db.Database := or_fresh (fresh_db true None).

(** A database whose quantizer is enabled but was never trained, holding one
    vector. *)
Definition untrained_sq_db : Db.Database :=
  let db0 := or_fresh (Db.new None "sq.bin" 1 2 10 10 L2 false 0 true) in
  (Db.insert 0 [f_one] ∅ db0).2.

(** One more insert into the database with two layers. *)
Definition three_db : Db.Database :=
  (Db.insert 0 [f_three] {["type" := "c"]} two_layers_db).2.

(** [line3] after tombstoning node 1, inserting a fourth point and
    tombstoning node 0. *)
Definition line3_edited : HNSW :=
  or_empty (run_ops None [Insert 0 [f_two] ∅; MarkDeleted 0] (mark_deleted 1 line3)).

(** [update_vector(0, {3.0f})] on the database with two layers. *)
Definition updated_db : Db.Database :=
  (Db.update_vector 0 0 [f_three] ∅ two_layers_db).2.

(** Three vectors, the middle one deleted, then a rebuild. *)
Definition sparse_db : Db.Database :=
  let db0 := or_fresh (fresh_db false None) in
  let db1 := (Db.insert 0 [f_one] {["type" := "a"]} db0).2 in
  let db2 := (Db.insert 0 [f_two] {["type" := "b"]} db1).2 in
  let db3 := (Db.insert 0 [f_three] {["type" := "c"]} db2).2 in
  (Db.delete_vector 1 db3).2.

Definition rebuilt_db : Db.Database := (Db.rebuild_index [0; 0] sparse_db).2.

(** A database with an enabled quantizer and two vectors, before and after
    [rebuild_index]. *)
Definition sq_two_db : Db.Database :=
  let db0 := or_fresh (Db.new None "sq.bin" 1 2 10 10 L2 false 0 true) in
  let db1 := (Db.insert 0 [f_one] ∅ db0).2 in
  (Db.insert 0 [f_three] ∅ db1).2.

Definition sq_rebuilt_db : Db.Database := (Db.rebuild_index [0; 0] sq_two_db).2.

(** An index built through [insert] and [mark_deleted] alone: two points,
    the first tombstoned, then a third point on layer 1. *)
Definition built_ops : list op :=
  [Insert 0 [f_one] ∅; Insert 0 [f_two] ∅; MarkDeleted 0; Insert 1 [f_three] ∅].

Definition built : HNSW := or_empty (run_ops None built_ops (Hnsw.new 1 2 10 10 L2)).

(** Three vectors; nodes 0 and 1 are tombstoned, in that order, before the
    save, and the file lists them in that order. *)
Definition two_deleted_ops : list op :=
  [Insert 0 [f_one] {["type" := "a"]}; Insert 0 [f_two] {["type" := "b"]};
   Insert 1 [f_three] {["type" := "c"]}; MarkDeleted 0; MarkDeleted 1].

Definition two_deleted_db : Db.Database :=
  let db0 := or_fresh (fresh_db false None) in
  let db1 := (Db.insert 0 [f_one] {["type" := "a"]} db0).2 in
  let db2 := (Db.insert 0 [f_two] {["type" := "b"]} db1).2 in
  let db3 := (Db.insert 1 [f_three] {["type" := "c"]} db2).2 in
  let db4 := (Db.delete_vector 0 db3).2 in
  (Db.delete_vector 1 db4).2.

Definition two_deleted_file : list Z := file_of [0; 1] two_deleted_db.

(** The read-only database opened on that file, with other constructor
    arguments than the saved ones. *)
Definition two_deleted_reopened : Db.Database :=
  or_fresh (Db.new (Some two_deleted_file) "index.bin" 7 3 4 5 IP true 0 false).

End Examples.

(** * Properties *)

(** ** Inversion of the result monad *)

Lemma bind_Ok {A B} (r : result A) (f : A → result B) (b : B) :
  r ≫= f = Ok b → ∃ a, r = Ok a ∧ f a = Ok b.
Proof. destruct r as [a|e]; [eauto | done]. Qed.

(** ** The quantizer *)

Lemma not_trained_of_empty_mins q : SQ.mins_ q = [] → SQ.not_trained q = true.
Proof.
  intros Hm. unfold SQ.not_trained. rewrite Hm.
  rewrite bool_decide_eq_true_2 by reflexivity. reflexivity.
Qed.

(** C9.  On an untrained quantizer (empty [mins_]) [encode] and [decode] both
    throw "Quantizer is not trained."; [train] on an empty training set
    returns without touching the quantizer, which stays untrained. *)
Theorem untrained_quantizer_fails_and_empty_train_is_noop (q : SQ.ScalarQuantizer) :
  SQ.mins_ q = [] →
  (∀ v, SQ.encode q v = Err QuantizerNotTrained) ∧
  (∀ b, SQ.decode q b = Err QuantizerNotTrained) ∧
  SQ.train [] q = Ok q ∧
  (∀ q', SQ.train [] q = Ok q' → SQ.is_trained q' = false).
Proof.
  intros Hm. repeat split.
  - intros v. unfold SQ.encode. by rewrite not_trained_of_empty_mins.
  - intros b. unfold SQ.decode. by rewrite not_trained_of_empty_mins.
  - intros q' [= <-]. unfold SQ.is_trained. rewrite Hm.
    by rewrite bool_decide_eq_true_2.
Qed.

Lemma untrained_quantizer_witness :
  SQ.mins_ (SQ.new 4) = [] ∧
  SQ.encode (SQ.new 4) [0; 0; 0; 0] = Err QuantizerNotTrained ∧
  SQ.train [] (SQ.new 4) = Ok (SQ.new 4).
Proof.
  split; [reflexivity |].
  destruct (untrained_quantizer_fails_and_empty_train_is_noop (SQ.new 4) eq_refl)
    as (He & _ & Ht & _).
  split; [apply He | apply Ht].
Defined.

(** ** Round trips of the record setters *)

Lemma set_hnsw_same db : Db.set_hnsw db (Db.hnsw_ db) = db.
Proof. by destruct db. Qed.

(** ** Dimension check *)

Lemma add_vector_mismatch sq vec meta vs :
  size vec ≠ Hnsw.vector_dimension_ vs →
  Hnsw.add_vector sq vec meta vs = Err DimensionMismatch.
Proof.
  intros Hne. unfold Hnsw.add_vector.
  destruct (size vec =? Hnsw.vector_dimension_ vs) eqn:E; [lia | reflexivity].
Qed.

(** C5.  A vector whose length differs from the dimension of the index makes
    [add_vector], [HNSW::insert] and (on a writable database)
    [Database::insert] throw "Vector dimension mismatch.", and the index the
    call leaves behind is the index it was given. *)
Theorem insert_wrong_dimension_fails_unchanged
    (sq : option SQ.ScalarQuantizer) (new_node_layer : Z) (vec : list float)
    (meta : Hnsw.Metadata) (h : Hnsw.HNSW) :
  size vec ≠ Hnsw.vector_dimension_ (Hnsw.vector_storage h) →
  Hnsw.add_vector sq vec meta (Hnsw.vector_storage h) = Err DimensionMismatch ∧
  Hnsw.insert sq new_node_layer vec meta h = (Err DimensionMismatch, h) ∧
  (∀ db, Db.hnsw_ db = h → Db.sq_ db = sq → Db.read_only_ db = false →
         Db.insert new_node_layer vec meta db = (Err DimensionMismatch, db)).
Proof.
  intros Hne.
  pose proof (add_vector_mismatch sq vec meta _ Hne) as Hadd.
  assert (Hins : Hnsw.insert sq new_node_layer vec meta h = (Err DimensionMismatch, h)).
  { unfold Hnsw.insert. by rewrite Hadd. }
  repeat split; [done | done |].
  intros db <- <- Hro. unfold Db.insert. rewrite Hro, Hins.
  by rewrite set_hnsw_same.
Qed.

Lemma insert_wrong_dimension_witness :
  size [Examples.f_one; Examples.f_two]
    ≠ Hnsw.vector_dimension_ (Hnsw.vector_storage Examples.line3)
  ∧ Hnsw.insert None 0 [Examples.f_one; Examples.f_two] ∅ Examples.line3
    = (Err DimensionMismatch, Examples.line3).
Proof.
  assert (Hne : size [Examples.f_one; Examples.f_two]
                ≠ Hnsw.vector_dimension_ (Hnsw.vector_storage Examples.line3))
    by (vm_compute; discriminate).
  split; [exact Hne |].
  exact (proj1 (proj2 (insert_wrong_dimension_fails_unchanged None 0
                         [Examples.f_one; Examples.f_two] ∅ Examples.line3 Hne))).
Defined.

(** ** Priority queues *)

Section pq_facts.
Import Hnsw.
Context (less : Candidate → Candidate → bool).

Lemma pq_extract_None q : pq_extract less q = None ↔ q = [].
Proof.
  destruct q as [|x q]; simpl; [done |].
  destruct (pq_extract less q) as [[y r]|]; [destruct (less y x) |]; done.
Qed.

Lemma pq_extract_perm q t r : pq_extract less q = Some (t, r) → q ≡ₚ t :: r.
Proof.
  revert t r. induction q as [|x q IH]; intros t r; simpl; [done |].
  destruct (pq_extract less q) as [[y r']|] eqn:E.
  - destruct (less y x); intros [= <- <-]; [done |].
    rewrite (IH y r' eq_refl). apply perm_swap.
  - apply pq_extract_None in E as ->. by intros [= <- <-].
Qed.

Lemma pq_extract_length q t r :
  pq_extract less q = Some (t, r) → length q = S (length r).
Proof. intros H. by rewrite (pq_extract_perm _ _ _ H). Qed.

Lemma pq_top_nonempty q : q ≠ [] → ∃ t, pq_top less q = Ok t ∧ t ∈ q.
Proof.
  intros Hne. unfold pq_top.
  destruct (pq_extract less q) as [[t r]|] eqn:E.
  - exists t. split; [done |]. rewrite (pq_extract_perm _ _ _ E). left.
  - by apply pq_extract_None in E.
Qed.

Lemma pq_pop_length q : length (pq_pop less q) = pred (length q).
Proof.
  unfold pq_pop. destruct (pq_extract less q) as [[t r]|] eqn:E.
  - by rewrite (pq_extract_length _ _ _ E).
  - by apply pq_extract_None in E as ->.
Qed.

Lemma pq_pop_subseteq q : pq_pop less q ⊆ q.
Proof.
  unfold pq_pop. destruct (pq_extract less q) as [[t r]|] eqn:E.
  - rewrite (pq_extract_perm _ _ _ E). set_solver.
  - set_solver.
Qed.

Lemma pq_iter_pop_length n q :
  length (Nat.iter n (pq_pop less) q) = (length q - n)%nat.
Proof.
  induction n as [|n IH]; simpl; [lia |]. rewrite pq_pop_length, IH. lia.
Qed.

Lemma pq_iter_pop_subseteq n q : Nat.iter n (pq_pop less) q ⊆ q.
Proof.
  induction n as [|n IH]; simpl; [done |].
  etrans; [apply pq_pop_subseteq | done].
Qed.

Lemma pq_drain_fuel_perm n q : (length q ≤ n)%nat → pq_drain_fuel n less q ≡ₚ q.
Proof.
  revert q. induction n as [|n IH]; intros q Hn; simpl.
  - destruct q; [done | simpl in Hn; lia].
  - destruct (pq_extract less q) as [[t r]|] eqn:E.
    + rewrite (pq_extract_perm _ _ _ E). f_equiv. apply IH.
      apply pq_extract_length in E. lia.
    + by apply pq_extract_None in E as ->.
Qed.

Lemma pq_drain_perm q : pq_drain less q ≡ₚ q.
Proof. by apply pq_drain_fuel_perm. Qed.
End pq_facts.

Lemma trim_results_size ef rq :
  size (Hnsw.trim_results ef rq) = Z.min (size rq) (to_size_t ef).
Proof.
  unfold Hnsw.trim_results, size. rewrite pq_iter_pop_length.
  assert (0 ≤ to_size_t ef) by (unfold to_size_t; apply Z.mod_pos_bound; lia).
  lia.
Qed.

Lemma trim_results_subseteq ef rq : Hnsw.trim_results ef rq ⊆ rq.
Proof. apply pq_iter_pop_subseteq. Qed.

Lemma final_results_elem rq id :
  id ∈ Hnsw.final_results rq ↔ ∃ d, (d, id) ∈ rq.
Proof.
  unfold Hnsw.final_results. rewrite elem_of_reverse, list_elem_of_fmap.
  setoid_rewrite (pq_drain_perm Hnsw.cand_lt rq).
  split.
  - intros [[d i] [-> Hin]]. by exists d.
  - intros [d Hin]. by exists (d, id).
Qed.

Lemma final_results_length rq : length (Hnsw.final_results rq) = length rq.
Proof.
  unfold Hnsw.final_results.
  by rewrite length_reverse, length_map, (pq_drain_perm Hnsw.cand_lt rq).
Qed.

(** ** search_layer and the entry point *)

Section search_entry.
Import Hnsw.
Context (h : HNSW) (sq : option SQ.ScalarQuantizer).
Context (query : list float) (ef layer_level : Z) (filter : FilterFunc).

Lemma search_layer_distance_ok ep r :
  search_layer h sq query ef layer_level filter ep = Ok r →
  ∃ d, calculate_distance h sq query ep = Ok d.
Proof.
  unfold search_layer, search_init.
  destruct (calculate_distance h sq query ep) as [d|e]; [eauto | done].
Qed.

Lemma search_layer_deleted_entry ep d :
  is_deleted h ep = true →
  calculate_distance h sq query ep = Ok d →
  search_layer h sq query ef layer_level filter ep = Ok [].
Proof.
  intros Hdel Hd. unfold search_layer, search_init.
  rewrite Hd. simpl. rewrite Hdel. reflexivity.
Qed.

Hypothesis ef_pos : 1 ≤ to_size_t ef.

Lemma visit_neighbor_results_nonempty st n st' :
  visit_neighbor h sq query ef filter st n = Ok st' →
  result_queue st ≠ [] → result_queue st' ≠ [].
Proof.
  unfold visit_neighbor. intros Hv Hne.
  case_bool_decide; [by simplify_eq |].
  destruct (is_deleted h n); [by simplify_eq |].
  destruct (calculate_distance h sq query n) as [d|]; simpl in Hv; [|done].
  destruct (if size (result_queue st) <? to_size_t ef then _ else _)
    as [closer|]; simpl in Hv; [|done].
  destruct closer; [|by simplify_eq].
  destruct (filter_accepts h filter n) as [acc|]; simpl in Hv; [|done].
  injection Hv as <-. simpl.
  intros Hnil. apply (f_equal size) in Hnil.
  rewrite trim_results_size in Hnil. unfold size in Hnil at 2. simpl in Hnil.
  destruct acc; unfold size in Hnil; [simpl in Hnil; lia |].
  destruct (result_queue st); [done | simpl in Hnil; lia].
Qed.

Lemma visit_neighbors_results_nonempty ns st st' :
  visit_neighbors h sq query ef filter ns st = Ok st' →
  result_queue st ≠ [] → result_queue st' ≠ [].
Proof.
  revert st. induction ns as [|n ns IH]; intros st; simpl.
  - by intros [= <-].
  - destruct (visit_neighbor h sq query ef filter st n) as [st1|] eqn:E;
      simpl; [|done].
    intros Hv Hne. apply (IH _ Hv).
    by eapply visit_neighbor_results_nonempty.
Qed.

Lemma search_loop_results_nonempty fuel st st' :
  search_loop h sq query ef layer_level filter fuel st = Ok st' →
  result_queue st ≠ [] → result_queue st' ≠ [].
Proof.
  revert st. induction fuel as [|fuel IH]; intros st; simpl; [done |].
  destruct (pq_extract cand_gt (candidate_queue st)) as [[cur cq]|];
    [|by intros [= <-]].
  destruct (search_done ef cur (result_queue st)) as [stop|]; simpl; [|done].
  destruct stop; [by intros [= <-] |].
  destruct (neighbors_at h layer_level cur.2) as [ns|]; simpl; [|done].
  destruct (visit_neighbors h sq query ef filter ns _) as [st2|] eqn:E;
    simpl; [|done].
  intros Hl Hne. apply (IH _ Hl).
  by apply (visit_neighbors_results_nonempty _ _ _ E).
Qed.
End search_entry.

(** Without a filter and with a positive width, an empty answer means the
    entry point is tombstoned. *)
Lemma search_layer_nil_deleted h sq query ef layer_level ep :
  1 ≤ to_size_t ef →
  Hnsw.search_layer h sq query ef layer_level None ep = Ok [] →
  Hnsw.is_deleted h ep = true.
Proof.
  intros Hef Hs. unfold Hnsw.search_layer in Hs.
  apply bind_Ok in Hs as (st0 & Hi & Hs).
  apply bind_Ok in Hs as (st & Hl & [= Hnil]).
  unfold Hnsw.search_init in Hi.
  apply bind_Ok in Hi as (d & _ & Hi).
  destruct (Hnsw.is_deleted h ep); [done |]. exfalso.
  injection Hi as <-.
  apply search_loop_results_nonempty in Hl; [|done..].
  apply (f_equal length) in Hnil. rewrite final_results_length in Hnil.
  by destruct (Hnsw.result_queue st).
Qed.

(** C2 (as the code has it).  A tombstoned entry point is marked visited but
    is pushed into neither queue, so the loop never runs: whenever the
    distance to the entry point can be computed, [search_layer] answers the
    empty list, whatever the adjacency of the entry point. *)
Theorem search_layer_tombstoned_entry_is_empty
    (h : Hnsw.HNSW) (sq : option SQ.ScalarQuantizer) (query : list float)
    (ef layer_level : Z) (filter : Hnsw.FilterFunc) (ep : Z) :
  Hnsw.is_deleted h ep = true →
  is_ok (Hnsw.calculate_distance h sq query ep) = true →
  Hnsw.search_layer h sq query ef layer_level filter ep = Ok [].
Proof.
  intros Hdel Hok.
  destruct (Hnsw.calculate_distance h sq query ep) as [d|] eqn:Hd; [|done].
  by eapply search_layer_deleted_entry.
Qed.

(** ** The descent of insert *)

Lemma insert_descend_spec_deleted h sq vec count layer ep d :
  Hnsw.is_deleted h ep = true →
  Hnsw.calculate_distance h sq vec ep = Ok d →
  Hnsw.insert_descend_spec h sq vec count layer ep = Ok ep.
Proof.
  intros Hdel Hd. revert layer. induction count as [|count IH]; intros layer; simpl.
  - reflexivity.
  - rewrite (search_layer_deleted_entry h sq vec 1 layer None ep d Hdel Hd).
    simpl. apply IH.
Qed.

(** C8.  The source leaves the descent at the first empty search result; the
    specification keeps [ep] and goes on through the remaining layers.  The
    two loops compute the same node (and fail alike): an empty result on a
    search of width 1 without a filter means that [ep] is tombstoned, and
    then the search at every lower layer is empty too.  In particular an
    empty result at the current layer ends the descent at [ep]. *)
Theorem insert_descent_keeps_ep_on_empty_result
    (h : Hnsw.HNSW) (sq : option SQ.ScalarQuantizer) (vec : list float)
    (count : nat) (layer ep : Z) :
  Hnsw.insert_descend h sq vec count layer ep
  = Hnsw.insert_descend_spec h sq vec count layer ep
  ∧ (Hnsw.search_layer h sq vec 1 layer None ep = Ok [] →
     Hnsw.insert_descend h sq vec (S count) layer ep = Ok ep
     ∧ Hnsw.insert_descend_spec h sq vec (S count) layer ep = Ok ep).
Proof.
  assert (Hnil : ∀ n l e, Hnsw.search_layer h sq vec 1 l None e = Ok [] →
                          Hnsw.insert_descend_spec h sq vec n (l - 1) e = Ok e).
  { intros n l e Hs.
    destruct (search_layer_distance_ok _ _ _ _ _ _ _ _ Hs) as [d Hd].
    apply search_layer_nil_deleted in Hs; [|done].
    by eapply insert_descend_spec_deleted. }
  split.
  - revert layer ep. induction count as [|count IH]; intros layer ep; simpl; [done |].
    destruct (Hnsw.search_layer h sq vec 1 layer None ep) as [[|c cs]|] eqn:E; simpl.
    + symmetry. by apply Hnil.
    + apply IH.
    + done.
  - intros Hs. simpl. rewrite Hs. simpl. split; [done |]. by apply Hnil.
Qed.

(** ** Termination of the search loop *)

Lemma unvisited_insert_le (edges : list Z) (v : gset Z) (n : Z) :
  (Hnsw.unvisited edges ({[n]} ∪ v) ≤ Hnsw.unvisited edges v)%nat.
Proof.
  unfold Hnsw.unvisited. induction edges as [|x edges IH]; [done |].
  rewrite !filter_cons. repeat case_decide; simpl; try lia. set_solver.
Qed.

Lemma unvisited_insert_lt (edges : list Z) (v : gset Z) (n : Z) :
  n ∈ edges → n ∉ v →
  (Hnsw.unvisited edges ({[n]} ∪ v) < Hnsw.unvisited edges v)%nat.
Proof.
  unfold Hnsw.unvisited. intros Hin Hv.
  induction edges as [|x edges IH]; [by apply elem_of_nil in Hin |].
  rewrite !filter_cons. apply elem_of_cons in Hin as [<- | Hin].
  - rewrite decide_False by set_solver. rewrite decide_True by done. simpl.
    pose proof (unvisited_insert_le edges v n) as Hle.
    unfold Hnsw.unvisited in Hle. lia.
  - specialize (IH Hin). repeat case_decide; simpl; try lia. set_solver.
Qed.

Lemma at_Ok_lookup {A} (v : list A) (i : Z) (x : A) :
  at_ v i = Ok x ↔ 0 ≤ i ∧ v !! Z.to_nat i = Some x.
Proof.
  unfold at_, idx. destruct (0 <=? i) eqn:E.
  - apply Z.leb_le in E. destruct (v !! Z.to_nat i) as [y|].
    + split; [intros [= ->]; done | intros [_ [= ->]]; done].
    + split; [done | intros [_ ?]; done].
  - apply Z.leb_gt in E. split; [done | lia].
Qed.

Lemma elem_of_concat {A} (x : A) (ls : list (list A)) :
  x ∈ concat ls ↔ ∃ l, l ∈ ls ∧ x ∈ l.
Proof.
  induction ls as [|l ls IH]; simpl.
  - split; [by intros ?%elem_of_nil | by intros (l & ?%elem_of_nil & _)].
  - rewrite elem_of_app, IH. split.
    + intros [Hx | (l' & H1 & H2)].
      * exists l. split; [left | done].
      * exists l'. split; [by right | done].
    + intros (l' & [-> | H1]%elem_of_cons & H2); [by left | right; eauto].
Qed.

Lemma at_Ok_elem {A} (v : list A) (i : Z) (x : A) : at_ v i = Ok x → x ∈ v.
Proof. rewrite at_Ok_lookup. intros [_ H]. by eapply list_elem_of_lookup_2. Qed.

Lemma neighbors_at_edges h layer id ns :
  Hnsw.neighbors_at h layer id = Ok ns → ns ⊆ Hnsw.layer_edges h layer.
Proof.
  unfold Hnsw.neighbors_at. intros H.
  apply bind_Ok in H as (node & Hn & Hl).
  intros x Hx. unfold Hnsw.layer_edges.
  apply elem_of_concat. exists ns. split; [|done].
  apply list_elem_of_fmap. exists node. rewrite Hl.
  split; [done | by eapply at_Ok_elem].
Qed.

Section search_measure.
Import Hnsw.
Context (h : HNSW) (sq : option SQ.ScalarQuantizer).
Context (query : list float) (ef layer_level : Z) (filter : FilterFunc).
Context (edges : list Z).

Lemma visit_neighbor_measure st n st' :
  visit_neighbor h sq query ef filter st n = Ok st' →
  n ∈ edges →
  (search_measure edges st' ≤ search_measure edges st)%nat.
Proof.
  unfold visit_neighbor, search_measure. intros Hv Hin.
  case_bool_decide as Hvis; [by simplify_eq |].
  pose proof (unvisited_insert_lt edges (visited_nodes st) n Hin Hvis) as Hlt.
  destruct (is_deleted h n); [simplify_eq; simpl; lia |].
  apply bind_Ok in Hv as (d & _ & Hv).
  apply bind_Ok in Hv as (closer & _ & Hv).
  destruct closer; [|simplify_eq; simpl; lia].
  apply bind_Ok in Hv as (acc & _ & Hv).
  simplify_eq. simpl. lia.
Qed.

Lemma visit_neighbors_measure ns st st' :
  visit_neighbors h sq query ef filter ns st = Ok st' →
  ns ⊆ edges →
  (search_measure edges st' ≤ search_measure edges st)%nat.
Proof.
  revert st. induction ns as [|n ns IH]; intros st; simpl.
  - by intros [= <-].
  - intros Hv Hsub. apply bind_Ok in Hv as (st1 & H1 & Hv).
    etrans; [apply (IH _ Hv); set_solver |].
    eapply visit_neighbor_measure; [done | set_solver].
Qed.
End search_measure.

(** ** The loop bound is never reached

    [OutOfFuel] is produced only by [search_loop] at fuel [0]; none of the
    operations it calls returns it, and the fuel [search_layer] starts with
    exceeds the measure of the initial state. *)

Lemma fuel_free_Ok {A} (a : A) : fuel_free (Ok a).
Proof. done. Qed.

Lemma fuel_free_bind {A B} (r : result A) (f : A → result B) :
  fuel_free r → (∀ a, fuel_free (f a)) → fuel_free (r ≫= f).
Proof.
  destruct r as [a|e]; [intros _ Hf; apply Hf |].
  intros He _ [= ->]. by apply He.
Qed.

Lemma fuel_free_bind_eq {A B} (r : result A) (f : A → result B) :
  fuel_free r → (∀ a, r = Ok a → fuel_free (f a)) → fuel_free (r ≫= f).
Proof.
  destruct r as [a|e]; [intros _ Hf; by apply Hf |].
  intros He _ [= ->]. by apply He.
Qed.

Lemma fuel_free_fmap {A B} (r : result A) (f : A → B) :
  fuel_free r → fuel_free (f <$> r).
Proof. destruct r as [a|e]; [done |]. intros He [= ->]. by apply He. Qed.

Lemma fuel_free_idx {A} (v : list A) i : fuel_free (idx v i).
Proof. unfold idx. by destruct (v !! i). Qed.

Lemma fuel_free_at {A} (v : list A) i : fuel_free (at_ v i).
Proof. unfold at_. destruct (0 <=? i); [apply fuel_free_idx | done]. Qed.

Lemma fuel_free_map_result {A B} (f : A → result B) l :
  (∀ x, fuel_free (f x)) → fuel_free (map_result f l).
Proof.
  intros Hf. induction l as [|x l IH]; simpl; [done |].
  apply fuel_free_bind; [apply Hf | intros y].
  apply fuel_free_bind; [apply IH | done].
Qed.

Lemma fuel_free_foldl {A B} (f : result A → B → result A) l init :
  fuel_free init → (∀ acc x, fuel_free acc → fuel_free (f acc x)) →
  fuel_free (foldl f init l).
Proof.
  intros Hi Hf. revert init Hi. induction l as [|x l IH]; intros init Hi; simpl;
    [done | apply IH, Hf, Hi].
Qed.

Create HintDb fuel discriminated.
#[local] Hint Resolve fuel_free_Ok fuel_free_idx fuel_free_at fuel_free_fmap : fuel.

Ltac fuel_step :=
  match goal with
  | |- fuel_free (Ok _) => apply fuel_free_Ok
  | |- fuel_free (Err _) => discriminate
  | |- fuel_free (_ ≫= _) => apply fuel_free_bind; [|intros ?]
  | |- fuel_free (map_result _ _) => apply fuel_free_map_result; intros ?
  | |- fuel_free (foldl _ _ _) => apply fuel_free_foldl; [|intros ? ? ?]
  | |- fuel_free (if ?b then _ else _) => destruct b
  | |- fuel_free (match ?x with _ => _ end) => destruct x
  | |- fuel_free (let '(_, _) := ?x in _) => destruct x
  | |- _ => solve [auto with fuel]
  end.

Lemma fuel_free_round_to_uint8 x : fuel_free (round_to_uint8 x).
Proof. unfold round_to_uint8. repeat fuel_step. Qed.

Lemma fuel_free_decode q v : fuel_free (SQ.decode q v).
Proof. unfold SQ.decode. repeat fuel_step. Qed.

Lemma fuel_free_sq_distance q query enc : fuel_free (SQ.calculate_distance q query enc).
Proof.
  unfold SQ.calculate_distance.
  apply fuel_free_bind; [apply fuel_free_decode | intros dec].
  apply fuel_free_foldl; [done | intros acc i Hacc]. repeat fuel_step.
Qed.

Lemma fuel_free_l2_loop a b acc : fuel_free (Hnsw.l2_loop a b acc).
Proof.
  revert b acc. induction a as [|x a IH]; intros [|y b] acc; simpl;
    first [done | apply IH].
Qed.

Lemma fuel_free_inner_product a b acc : fuel_free (Hnsw.inner_product a b acc).
Proof.
  revert b acc. induction a as [|x a IH]; intros [|y b] acc; simpl;
    first [done | apply IH].
Qed.

#[local] Hint Resolve fuel_free_round_to_uint8 fuel_free_decode fuel_free_sq_distance
  fuel_free_l2_loop fuel_free_inner_product : fuel.

Lemma fuel_free_distance_vec metric a b :
  fuel_free (Hnsw.calculate_distance_vec metric a b).
Proof.
  destruct metric; simpl; [| | |done].
  - apply fuel_free_l2_loop.
  - unfold Hnsw.calculate_cosine_distance.
    repeat fuel_step.
  - unfold Hnsw.calculate_inner_product_distance. repeat fuel_step.
Qed.

Lemma fuel_free_calculate_distance h sq query id :
  fuel_free (Hnsw.calculate_distance h sq query id).
Proof.
  unfold Hnsw.calculate_distance, Hnsw.get_encoded_vector, Hnsw.get_vector.
  pose proof fuel_free_distance_vec.
  destruct sq as [q|]; [destruct (SQ.is_trained q) |]; repeat fuel_step.
Qed.

Lemma fuel_free_filter_accepts h filter id :
  fuel_free (Hnsw.filter_accepts h filter id).
Proof. unfold Hnsw.filter_accepts, Hnsw.get_metadata. repeat fuel_step. Qed.

Lemma fuel_free_pq_top less q : fuel_free (Hnsw.pq_top less q).
Proof. unfold Hnsw.pq_top. by destruct (Hnsw.pq_extract less q) as [[??]|]. Qed.

#[local] Hint Resolve fuel_free_calculate_distance fuel_free_filter_accepts
  fuel_free_pq_top : fuel.

Section fuel.
Import Hnsw.
Context (h : HNSW) (sq : option SQ.ScalarQuantizer).
Context (query : list float) (ef layer_level : Z) (filter : FilterFunc).

Lemma fuel_free_visit_neighbor st n :
  fuel_free (visit_neighbor h sq query ef filter st n).
Proof. unfold visit_neighbor. repeat fuel_step. Qed.

Lemma fuel_free_visit_neighbors ns st :
  fuel_free (visit_neighbors h sq query ef filter ns st).
Proof.
  revert st. induction ns as [|n ns IH]; intros st; simpl; [done |].
  apply fuel_free_bind; [apply fuel_free_visit_neighbor | intros; apply IH].
Qed.

Lemma fuel_free_search_loop fuel st :
  (search_measure (layer_edges h layer_level) st < fuel)%nat →
  fuel_free (search_loop h sq query ef layer_level filter fuel st).
Proof.
  revert st. induction fuel as [|fuel IH]; intros st Hm; simpl; [lia |].
  destruct (pq_extract cand_gt (candidate_queue st)) as [[cur cq]|] eqn:E; [|done].
  apply pq_extract_length in E.
  apply fuel_free_bind; [unfold search_done; repeat fuel_step | intros stop].
  destruct stop; [done |].
  apply fuel_free_bind_eq; [unfold neighbors_at; repeat fuel_step | intros ns En].
  apply fuel_free_bind_eq; [apply fuel_free_visit_neighbors | intros st2 Ev].
  apply IH.
  eapply visit_neighbors_measure in Ev; [|by eapply neighbors_at_edges].
  unfold search_measure in *. simpl in Ev. lia.
Qed.

Lemma search_init_measure ep st0 :
  search_init h sq query filter ep = Ok st0 →
  (search_measure (layer_edges h layer_level) st0 < search_fuel h layer_level)%nat.
Proof.
  unfold search_init, search_fuel, search_measure, unvisited. intros Hi.
  apply bind_Ok in Hi as (d & _ & Hi).
  pose proof (length_filter (fun x => x ∉ visited_nodes st0)
                            (layer_edges h layer_level)) as Hle.
  destruct (is_deleted h ep); [simplify_eq; simpl in *; lia |].
  apply bind_Ok in Hi as (acc & _ & Hi). simplify_eq. simpl in *. lia.
Qed.

(** [search_layer] never runs out of fuel. *)
Lemma search_layer_fuel_sufficient ep :
  fuel_free (search_layer h sq query ef layer_level filter ep).
Proof.
  unfold search_layer.
  apply fuel_free_bind_eq; [unfold search_init; repeat fuel_step | intros st0 Hi].
  apply fuel_free_bind; [|done].
  apply fuel_free_search_loop. by eapply search_init_measure.
Qed.
End fuel.

(** ** Searches on well-formed indexes stay within bounds *)

Lemma forallb_elem {A} (f : A → bool) (l : list A) (x : A) :
  forallb f l = true → x ∈ l → f x = true.
Proof.
  intros H Hin. rewrite forallb_forall in H. by apply H, list_elem_of_In.
Qed.

Lemma has_layer_node_id h layer id :
  Hnsw.has_layer h layer id = true → id ∈ Hnsw.node_ids h.
Proof.
  unfold Hnsw.has_layer, Hnsw.neighbors_at, Hnsw.node_ids. intros H.
  destruct (at_ (Hnsw.nodes h) id) as [n|] eqn:E; [|done].
  apply at_Ok_lookup in E as [Hpos Hl]. apply lookup_lt_Some in Hl.
  apply list_elem_of_fmap. exists (Z.to_nat id). split; [lia |].
  apply list_elem_of_In, in_seq. lia.
Qed.

Lemma has_layer_down h layer id :
  Hnsw.has_layer h layer id = true → 1 ≤ layer →
  Hnsw.has_layer h (layer - 1) id = true.
Proof.
  unfold Hnsw.has_layer, Hnsw.neighbors_at. intros H Hl.
  destruct (at_ (Hnsw.nodes h) id) as [n|]; [|done]. simpl in *.
  destruct (at_ (Hnsw.Node.neighbors n) layer) as [l|] eqn:E; [|done].
  apply at_Ok_lookup in E as [_ E]. apply lookup_lt_Some in E.
  destruct (lookup_lt_is_Some_2 (Hnsw.Node.neighbors n) (Z.to_nat (layer - 1)))
    as [l' Hl']; [lia |].
  assert (at_ (Hnsw.Node.neighbors n) (layer - 1) = Ok l') as ->; [|done].
  apply at_Ok_lookup. split; [lia | done].
Qed.

Section search_total.
Import Hnsw.
Context (h : HNSW) (sq : option SQ.ScalarQuantizer).
Context (query : list float) (filter : FilterFunc).
Hypothesis Hsearchable : searchable h sq query filter = true.

Context (ef layer_level : Z).
Hypothesis Hclosed : closed_at h layer_level = true.
Hypothesis Hef : 1 ≤ to_size_t ef.

Local Abbreviation valid_state := (valid_state h layer_level).

Lemma searchable_distance id :
  has_layer h layer_level id = true →
  ∃ d, calculate_distance h sq query id = Ok d.
Proof.
  intros Hid%has_layer_node_id.
  pose proof (forallb_elem _ _ _ Hsearchable Hid) as H.
  apply andb_prop in H as [H _].
  destruct (calculate_distance h sq query id); [eauto | done].
Qed.

Lemma searchable_filter id :
  has_layer h layer_level id = true →
  ∃ b, filter_accepts h filter id = Ok b.
Proof.
  intros Hid%has_layer_node_id.
  pose proof (forallb_elem _ _ _ Hsearchable Hid) as H.
  apply andb_prop in H as [_ H].
  destruct (filter_accepts h filter id); [eauto | done].
Qed.

Lemma full_queue_top (rq : list Candidate) :
  to_size_t ef ≤ size rq → ∃ t, pq_top cand_lt rq = Ok t.
Proof.
  intros Hs. destruct (pq_top_nonempty cand_lt rq) as (t & Ht & _); [|eauto].
  intros ->. unfold size in Hs. simpl in Hs. lia.
Qed.

Lemma visit_neighbor_total st n :
  has_layer h layer_level n = true → valid_state st →
  ∃ st', visit_neighbor h sq query ef filter st n = Ok st' ∧ valid_state st'.
Proof.
  intros Hn [Hcq Hrq]. unfold visit_neighbor.
  case_bool_decide; [by eexists |].
  destruct (is_deleted h n); [by eexists |].
  destruct (searchable_distance n Hn) as [d ->]. simpl.
  destruct (searchable_filter n Hn) as [acc Hacc].
  assert (∃ closer,
    (if size (result_queue st) <? to_size_t ef then Ok true
     else t ← pq_top cand_lt (result_queue st); Ok (flt d t.1)) = Ok closer)
    as [closer ->].
  { destruct (size (result_queue st) <? to_size_t ef) eqn:E; [eauto |].
    apply Z.ltb_ge in E. destruct (full_queue_top _ E) as [t ->]. simpl. eauto. }
  simpl. destruct closer; [|by eexists].
  rewrite Hacc. simpl. eexists. split; [done |]. split; simpl.
  - by constructor.
  - eapply Forall_forall. intros c Hc%trim_results_subseteq.
    destruct acc; [apply elem_of_cons in Hc as [-> | Hc]; [done |] |];
      by eapply Forall_forall in Hrq.
Qed.

Lemma visit_neighbors_total ns st :
  Forall (fun n => has_layer h layer_level n = true) ns → valid_state st →
  ∃ st', visit_neighbors h sq query ef filter ns st = Ok st' ∧ valid_state st'.
Proof.
  revert st. induction ns as [|n ns IH]; intros st Hns Hst; simpl; [eauto |].
  apply Forall_cons in Hns as [Hn Hns].
  destruct (visit_neighbor_total st n Hn Hst) as (st1 & -> & Hst1). simpl.
  by apply IH.
Qed.

Lemma closed_neighbors id ns :
  neighbors_at h layer_level id = Ok ns →
  Forall (fun n => has_layer h layer_level n = true) ns.
Proof.
  intros Hn%neighbors_at_edges. apply Forall_forall. intros n Hin.
  by eapply forallb_elem; [apply Hclosed | apply Hn].
Qed.

Lemma search_loop_total fuel st :
  valid_state st →
  (search_measure (layer_edges h layer_level) st < fuel)%nat →
  ∃ st', search_loop h sq query ef layer_level filter fuel st = Ok st'
         ∧ valid_state st'.
Proof.
  revert st. induction fuel as [|fuel IH]; intros st [Hcq Hrq] Hm; simpl; [lia |].
  destruct (pq_extract cand_gt (candidate_queue st)) as [[cur cq]|] eqn:E;
    [|by eexists].
  pose proof (pq_extract_perm _ _ _ _ E) as Hperm.
  pose proof (pq_extract_length _ _ _ _ E) as Hlen.
  rewrite Hperm in Hcq. apply Forall_cons in Hcq as [Hcur Hcq'].
  assert (∃ stop, search_done ef cur (result_queue st) = Ok stop) as [stop ->].
  { unfold search_done. destruct (size (result_queue st) =? to_size_t ef) eqn:Es;
      [|eauto].
    apply Z.eqb_eq in Es. destruct (full_queue_top (result_queue st)) as [t ->];
      [lia | simpl; eauto]. }
  simpl. destruct stop; [by eexists |].
  unfold valid_cand, has_layer in Hcur.
  destruct (neighbors_at h layer_level cur.2) as [ns|] eqn:En; [|done]. simpl.
  destruct (visit_neighbors_total ns (mkSS cq (result_queue st) (visited_nodes st)))
    as (st2 & Hv & Hst2); [by eapply closed_neighbors | done |].
  rewrite Hv. simpl. apply IH; [done |].
  eapply visit_neighbors_measure in Hv; [|by eapply neighbors_at_edges].
  unfold search_measure in *. simpl in Hv. lia.
Qed.

Lemma search_layer_total ep :
  has_layer h layer_level ep = true →
  ∃ r, search_layer h sq query ef layer_level filter ep = Ok r
       ∧ Forall (fun id => has_layer h layer_level id = true) r.
Proof.
  intros Hep. unfold search_layer.
  destruct (searchable_distance ep Hep) as [d Hd].
  destruct (searchable_filter ep Hep) as [acc Hacc].
  assert (∃ st0, search_init h sq query filter ep = Ok st0 ∧ valid_state st0)
    as (st0 & Hi & Hst0).
  { unfold search_init. rewrite Hd. simpl.
    destruct (is_deleted h ep); [eexists; split; [done | by split] |].
    rewrite Hacc. simpl. eexists. split; [done |].
    split; simpl; [by repeat constructor |].
    destruct acc; by repeat constructor. }
  rewrite Hi. cbn [mbind result_bind].
  destruct (search_loop_total (search_fuel h layer_level) st0 Hst0)
    as (st & -> & [_ Hrq]); [by eapply search_init_measure |].
  cbn [mbind result_bind]. eexists. split; [done |].
  apply Forall_forall. intros id [dd Hin]%final_results_elem.
  eapply Forall_forall in Hrq; [|done]. exact Hrq.
Qed.
End search_total.

(** ** k_nearest_neighbors *)

Lemma to_size_t_small k : 0 ≤ k < 2 ^ 64 → to_size_t k = k.
Proof. intros Hk. unfold to_size_t. by apply Z.mod_small. Qed.

Lemma make_result_id h sq query include id r :
  Hnsw.make_result h sq query include id = Ok r → Hnsw.QueryResult.id r = id.
Proof.
  unfold Hnsw.make_result. intros H.
  apply bind_Ok in H as (d & _ & H).
  apply bind_Ok in H as (m & _ & H).
  apply bind_Ok in H as (v & _ & H).
  by injection H as <-.
Qed.

Lemma collect_results_spec h sq query k include ids acc r :
  Hnsw.collect_results h sq query k include ids acc = Ok r →
  (Forall (Hnsw.live_result h) acc → Forall (Hnsw.live_result h) r)
  ∧ (0 ≤ k < 2 ^ 64 → size acc ≤ k → size r ≤ k).
Proof.
  revert acc. induction ids as [|id ids IH]; intros acc; simpl.
  - intros [= <-]. done.
  - destruct (Hnsw.is_deleted h id) eqn:Hdel; [apply IH |].
    destruct (to_size_t k <=? size acc) eqn:Hfull; [intros [= <-]; done |].
    intros H. apply bind_Ok in H as (x & Hx & H).
    apply IH in H as [Hlive Hsize]. split.
    + intros Hacc. apply Hlive, Forall_app. split; [done |].
      constructor; [|done]. unfold Hnsw.live_result.
      rewrite (make_result_id _ _ _ _ _ _ Hx).
      unfold Hnsw.is_deleted in Hdel. by apply bool_decide_eq_false in Hdel.
    + intros Hk Hacc. apply Hsize; [done |].
      apply Z.leb_gt in Hfull. rewrite to_size_t_small in Hfull by done.
      unfold size in *. rewrite length_app. simpl. lia.
Qed.

Lemma fuel_free_knn_descend h sq query filter count layer cur :
  fuel_free (Hnsw.knn_descend h sq query filter count layer cur).
Proof.
  revert layer cur. induction count as [|count IH]; intros layer cur; simpl; [done |].
  apply fuel_free_bind; [apply search_layer_fuel_sufficient | intros; apply IH].
Qed.

Lemma fuel_free_make_result h sq query include id :
  fuel_free (Hnsw.make_result h sq query include id).
Proof.
  unfold Hnsw.make_result, Hnsw.get_metadata, Hnsw.get_vector.
  pose proof fuel_free_calculate_distance. repeat fuel_step.
Qed.

Lemma fuel_free_collect_results h sq query k include ids acc :
  fuel_free (Hnsw.collect_results h sq query k include ids acc).
Proof.
  revert acc. induction ids as [|id ids IH]; intros acc; simpl; [done |].
  destruct (Hnsw.is_deleted h id); [apply IH |].
  destruct (to_size_t k <=? size acc); [done |].
  apply fuel_free_bind; [apply fuel_free_make_result | intros; apply IH].
Qed.

Lemma fuel_free_k_nearest_neighbors h sq query k filter include :
  fuel_free (Hnsw.k_nearest_neighbors h sq query k filter include).
Proof.
  unfold Hnsw.k_nearest_neighbors.
  destruct (Hnsw.entry_point_id h =? -1); [done |].
  apply fuel_free_bind; [apply fuel_free_at | intros ep].
  apply fuel_free_bind; [apply fuel_free_knn_descend | intros cur].
  apply fuel_free_bind; [apply search_layer_fuel_sufficient | intros ids].
  apply fuel_free_collect_results.
Qed.

Section knn_total.
Import Hnsw.
Context (h : HNSW) (sq : option SQ.ScalarQuantizer).
Context (query : list float) (filter : FilterFunc).
Hypothesis Hsearchable : searchable h sq query filter = true.

Lemma knn_descend_total count layer cur :
  (∀ l, layer - Z.of_nat count < l ≤ layer → closed_at h l = true) →
  Z.of_nat count ≤ layer →
  has_layer h layer cur = true →
  ∃ c, knn_descend h sq query filter count layer cur = Ok c
       ∧ has_layer h (layer - Z.of_nat count) c = true.
Proof.
  revert layer cur. induction count as [|count IH]; intros layer cur Hcl Hc Hcur;
    simpl knn_descend.
  - exists cur. split; [done |]. by replace (layer - Z.of_nat 0) with layer by lia.
  - destruct (search_layer_total h sq query filter Hsearchable 1 layer) with (ep := cur)
      as (r & -> & Hr); [apply Hcl; lia | done | done |].
    cbn [mbind result_bind].
    destruct (IH (layer - 1) (match r with [] => cur | c :: _ => c end))
      as (c & -> & Hc'); [intros; apply Hcl; lia | lia | |].
    + apply has_layer_down; [|lia].
      destruct r as [|c r]; [done |]. by apply Forall_cons in Hr as [? _].
    + exists c. split; [done |].
      by replace (layer - Z.of_nat (S count)) with (layer - 1 - Z.of_nat count) by lia.
Qed.

Lemma collect_results_total k include ids acc :
  forallb (fun i => is_ok (make_result h sq query include i)) (node_ids h) = true →
  Forall (fun id => id ∈ node_ids h) ids →
  ∃ r, collect_results h sq query k include ids acc = Ok r.
Proof.
  intros Hmk. revert acc. induction ids as [|id ids IH]; intros acc Hids; simpl;
    [eauto |].
  apply Forall_cons in Hids as [Hid Hids].
  destruct (is_deleted h id); [by apply IH |].
  destruct (to_size_t k <=? size acc); [eauto |].
  pose proof (forallb_elem _ _ _ Hmk Hid) as Hok. cbv beta in Hok.
  destruct (make_result h sq query include id) as [x|]; [|done].
  cbn [mbind result_bind]. by apply IH.
Qed.
End knn_total.

Lemma elem_of_layers_upto top l : 0 ≤ l ≤ top → l ∈ Hnsw.layers_upto top.
Proof.
  intros Hl. unfold Hnsw.layers_upto. apply list_elem_of_fmap.
  exists (Z.to_nat l). split; [lia |]. apply list_elem_of_In, in_seq. lia.
Qed.

(** On a well-formed index a query returns. *)
Lemma k_nearest_neighbors_total h sq query k filter include :
  Hnsw.wf_query h sq query k filter include = true →
  ∃ r, Hnsw.k_nearest_neighbors h sq query k filter include = Ok r.
Proof.
  unfold Hnsw.wf_query, Hnsw.k_nearest_neighbors. intros Hwf.
  destruct (Hnsw.entry_point_id h =? -1); [eauto |]. simpl in Hwf.
  destruct (at_ (Hnsw.nodes h) (Hnsw.entry_point_id h)) as [ep|]; [|done].
  cbn [mbind result_bind].
  repeat (apply andb_prop in Hwf as [Hwf ?]).
  rename Hwf into Hep. rename H into Hef, H0 into Hmk, H1 into Hs, H2 into Hcl.
  apply Z.leb_le in Hef.
  set (ml := Hnsw.Node.max_layer ep) in *.
  assert (Hclosed : ∀ l, 0 ≤ l ≤ Z.max 0 ml → Hnsw.closed_at h l = true).
  { intros l Hl. eapply forallb_elem; [apply Hcl | by apply elem_of_layers_upto]. }
  assert (∃ cur, Hnsw.knn_descend h sq query filter (Z.to_nat ml) ml
                   (Hnsw.entry_point_id h) = Ok cur
                 ∧ Hnsw.has_layer h 0 cur = true) as (cur & -> & Hcur).
  { destruct (Z.le_gt_cases ml 0) as [Hle | Hgt].
    - replace (Z.to_nat ml) with O by lia. simpl. eexists. split; [done |].
      by replace (Z.max 0 ml) with 0 in Hep by lia.
    - replace (Z.max 0 ml) with ml in * by lia.
      destruct (knn_descend_total h sq query filter Hs (Z.to_nat ml) ml
                  (Hnsw.entry_point_id h)) as (c & Hd & Hc);
        [intros; apply Hclosed; lia | lia | done |].
      exists c. split; [done |].
      by replace (ml - Z.of_nat (Z.to_nat ml)) with 0 in Hc by lia. }
  cbn [mbind result_bind].
  destruct (search_layer_total h sq query filter Hs (Z.max k (Hnsw.efSearch h)) 0)
    with (ep := cur) as (ids & -> & Hids); [apply Hclosed; lia | done | done |].
  cbn [mbind result_bind].
  eapply collect_results_total; [done |].
  eapply Forall_impl; [apply Hids |]. intros id. apply has_layer_node_id.
Qed.

Lemma search_layer_tombstoned_entry_witness :
  Hnsw.is_deleted Examples.pair_without_0 0 = true
  ∧ Hnsw.search_layer Examples.pair_without_0 None [Examples.f_one] 10 0 None 0 = Ok [].
Proof.
  split; [vm_compute; reflexivity |].
  apply (search_layer_tombstoned_entry_is_empty Examples.pair_without_0 None
           [Examples.f_one] 10 0 None 0); vm_compute; reflexivity.
Defined.

(** C2, the claim as stated fails: in [pair_without_0] node 0 is tombstoned,
    its only neighbour at layer 0 is the live node 1, and a search entered at
    node 0 returns nothing. *)
Lemma search_layer_tombstoned_entry_not_expanded :
  Hnsw.is_deleted Examples.pair_without_0 0 = true
  ∧ Hnsw.neighbors_at Examples.pair_without_0 0 0 = Ok [1]
  ∧ Hnsw.is_deleted Examples.pair_without_0 1 = false
  ∧ Hnsw.search_layer Examples.pair_without_0 None [Examples.f_one] 10 0 None 0 = Ok []
  ∧ ¬ (1 ∈ ([] : list Z)).
Proof.
  repeat split; try (vm_compute; reflexivity). apply not_elem_of_nil.
Qed.

Lemma insert_descent_witness :
  Hnsw.search_layer Examples.pair_without_0 None [Examples.f_two] 1 1 None 0 = Ok []
  ∧ Hnsw.insert_descend Examples.pair_without_0 None [Examples.f_two] 2 1 0 = Ok 0
  ∧ Hnsw.insert_descend_spec Examples.pair_without_0 None [Examples.f_two] 2 1 0 = Ok 0.
Proof.
  assert (Hs : Hnsw.search_layer Examples.pair_without_0 None [Examples.f_two] 1 1 None 0
               = Ok []) by (vm_compute; reflexivity).
  split; [exact Hs |].
  exact (proj2 (insert_descent_keeps_ep_on_empty_result Examples.pair_without_0 None
                  [Examples.f_two] 1 1 0) Hs).
Defined.

(** ** Pruning under the inner-product metric *)

(** C6, the code at a failing input.  With [M = 2] and the inner-product
    metric, four insertions of the vector [(2.0)] on layer 0 all succeed,
    and nodes 0 and 1 end with three neighbours: every distance the pruning
    scan computes is [-4], never above its initial maximum [-1.0f], so no
    neighbour is evicted.  Under L2 the same insertions prune as intended. *)
Theorem ip_pruning_leaves_more_than_M_neighbors :
  (∃ h, Examples.ip_four = Ok h
        ∧ Hnsw.M h = 2
        ∧ map Hnsw.Node.neighbors (Hnsw.nodes h)
          = [[[1; 2; 3]]; [[0; 2; 3]]; [[0; 1]]; [[0; 1]]]
        ∧ Hnsw.calculate_distance h None [Examples.f_two] 1
          = Ok (SFopp (float_of_Z 4))
        ∧ flt Hnsw.minus_one (SFopp (float_of_Z 4)) = false)
  ∧ (∃ h, Examples.l2_four = Ok h
          ∧ map Hnsw.Node.neighbors (Hnsw.nodes h)
            = [[[2; 3]]; [[2; 3]]; [[0; 1]]; [[0; 1]]]).
Proof.
  split.
  - eexists. split; [vm_compute; reflexivity |].
    repeat split; vm_compute; reflexivity.
  - eexists. split; vm_compute; reflexivity.
Qed.

(** ** Opening a missing file read-only *)

(** C10.  A read-only database over a path that cannot be opened is
    constructed without error and is empty: no node, no vector, no metadata,
    no tombstone, entry point [-1]; every query on it returns the empty
    list. *)
Theorem read_only_without_file_is_empty
    (path : string) (D M efConstruction efSearch : Z) (metric : Hnsw.DistanceMetric)
    (cache_size_mb : Z) (sq_enabled : bool) :
  ∃ db, Db.new None path D M efConstruction efSearch metric true cache_size_mb sq_enabled
        = Ok db
        ∧ Db.read_only_ db = true
        ∧ Hnsw.nodes (Db.hnsw_ db) = []
        ∧ Hnsw.vectors_ (Hnsw.vector_storage (Db.hnsw_ db)) = []
        ∧ Hnsw.metadata_ (Hnsw.vector_storage (Db.hnsw_ db)) = []
        ∧ Hnsw.deleted_nodes_ (Db.hnsw_ db) = ∅
        ∧ Hnsw.entry_point_id (Db.hnsw_ db) = -1
        ∧ ∀ query k filter include,
            Db.query query k filter include db = (Ok [], db).
Proof.
  destruct sq_enabled; (eexists; split; [reflexivity |]); repeat split.
Qed.

(** ** The entry point under insert and mark_deleted *)

Section entry_point.
Import Hnsw.

Lemma at_fmap {A B} (f : A → B) (l : list A) (i : Z) (x : A) :
  at_ l i = Ok x → at_ (map f l) i = Ok (f x).
Proof.
  rewrite !at_Ok_lookup. intros [Hi Hl]. split; [done |].
  change (map f l) with (f <$> l). by rewrite list_lookup_fmap, Hl.
Qed.

Lemma update_neighbors_keys ns i layer f ns' :
  update_neighbors ns i layer f = Ok ns' → map node_key ns' = map node_key ns.
Proof.
  unfold update_neighbors. intros H.
  apply bind_Ok in H as (n & Hn & H). apply bind_Ok in H as (l & _ & [= <-]).
  apply at_Ok_lookup in Hn as [_ Hn].
  change (node_key <$> <[Z.to_nat i:=Node.set_neighbors n
            (<[Z.to_nat layer:=f l]> (Node.neighbors n))]> ns = node_key <$> ns).
  rewrite list_fmap_insert. apply list_insert_id.
  by rewrite list_lookup_fmap, Hn.
Qed.

Lemma set_nodes_frame h ns :
  map node_key ns = keys h → frame (set_nodes h ns) = frame h.
Proof. unfold frame, keys. simpl. by intros ->. Qed.

Lemma prune_frame sq neighbor_id layer h h' :
  prune sq neighbor_id layer h = Ok h' → frame h' = frame h.
Proof.
  unfold prune. intros H.
  apply bind_Ok in H as (n & _ & H). apply bind_Ok in H as (l & _ & H).
  destruct (to_size_t (M h) <? size l); [|by injection H as <-].
  apply bind_Ok in H as (own & _ & H). apply bind_Ok in H as ([d idx] & _ & H).
  destruct (idx =? -1); [by injection H as <- |].
  apply bind_Ok in H as (ns & Hns & [= <-]).
  apply set_nodes_frame. by eapply update_neighbors_keys.
Qed.

Lemma connect_frame sq new_node_id layer h neighbor_id h' :
  connect sq new_node_id layer h neighbor_id = Ok h' → frame h' = frame h.
Proof.
  unfold connect. intros H.
  apply bind_Ok in H as (ns1 & H1 & H). apply bind_Ok in H as (ns2 & H2 & H).
  apply prune_frame in H as ->. apply set_nodes_frame.
  apply update_neighbors_keys in H1, H2. unfold keys. by rewrite H2, H1.
Qed.

Lemma connect_all_frame sq new_node_id layer ns h h' :
  connect_all sq new_node_id layer ns h = Ok h' → frame h' = frame h.
Proof.
  revert h. induction ns as [|n ns IH]; intros h; simpl.
  - by intros [= <-].
  - intros H. apply bind_Ok in H as (h1 & H1 & H).
    apply IH in H as ->. by eapply connect_frame.
Qed.

Lemma insert_link_frame sq vec new_node_id count layer cur h h' :
  insert_link sq vec new_node_id count layer cur h = Ok h' → frame h' = frame h.
Proof.
  revert layer cur h. induction count as [|count IH]; intros layer cur h; simpl.
  - by intros [= <-].
  - intros H. apply bind_Ok in H as (found & _ & H).
    destruct found as [|first rest]; [by eapply IH |].
    apply bind_Ok in H as (h1 & H1 & H).
    apply IH in H as ->. by eapply connect_all_frame.
Qed.

Lemma frame_index_ok h h' : frame h' = frame h → index_ok h → index_ok h'.
Proof.
  unfold frame, index_ok. intros [= Hk Hv He Hd]. by rewrite Hk, Hv, Hd.
Qed.

(** [insert_graph] changes adjacency lists only, and moves the entry point
    to the new node exactly when its layer is above the entry point's. *)
Lemma insert_graph_spec sq vec new_node_id new_node_layer h h' :
  insert_graph sq vec new_node_id new_node_layer h = Ok h' →
  keys h' = keys h
  ∧ vector_storage h' = vector_storage h
  ∧ deleted_nodes_ h' = deleted_nodes_ h
  ∧ ∃ k, at_ (keys h) (entry_point_id h) = Ok k
         ∧ entry_point_id h'
           = if k.2 <? new_node_layer then to_int32 new_node_id else entry_point_id h.
Proof.
  unfold insert_graph. intros H.
  apply bind_Ok in H as (ep & Hep & H). apply bind_Ok in H as (cur & _ & H).
  apply bind_Ok in H as (h1 & H1 & H). apply insert_link_frame in H1.
  unfold frame in H1. injection H1 as Hk Hv He Hd. rewrite He in H.
  apply bind_Ok in H as (ep' & Hep' & H).
  apply (at_fmap node_key) in Hep, Hep'.
  change (map node_key (nodes h1)) with (keys h1) in Hep'. rewrite Hk in Hep'.
  change (map node_key (nodes h)) with (keys h) in Hep.
  rewrite Hep in Hep'. injection Hep' as Hid Hml.
  rewrite <- Hml in H.
  assert (Hres : keys h' = keys h1 ∧ vector_storage h' = vector_storage h1
                 ∧ deleted_nodes_ h' = deleted_nodes_ h1
                 ∧ entry_point_id h'
                   = if Node.max_layer ep <? new_node_layer
                     then to_int32 new_node_id else entry_point_id h1).
  { destruct (Node.max_layer ep <? new_node_layer); injection H as <-; done. }
  destruct Hres as (-> & -> & -> & ->).
  repeat split; try done.
  exists (node_key ep). split; [done |]. simpl. by rewrite He.
Qed.
Lemma to_int32_small z : 0 ≤ z < 2 ^ 31 → to_int32 z = z.
Proof. intros Hz. unfold to_int32. rewrite Z.mod_small; lia. Qed.

Lemma to_uint32_small z : 0 ≤ z < 2 ^ 32 → to_uint32 z = z.
Proof. intros Hz. unfold to_uint32. by apply Z.mod_small. Qed.

Lemma add_vector_vectors sq vec meta vs vs' :
  add_vector sq vec meta vs = Ok vs' → vectors_ vs' = vectors_ vs ++ [vec].
Proof.
  unfold add_vector. destruct (negb _); [done |].
  destruct sq as [q|]; [destruct (SQ.is_trained q) |]; try by intros [= <-].
  intros H. by apply bind_Ok in H as (enc & _ & [= <-]).
Qed.

Lemma new_index_entry_point_ok D M efC efS metric :
  index_ok (Hnsw.new D M efC efS metric) ∧ entry_point_ok (Hnsw.new D M efC efS metric).
Proof.
  split.
  - split; [|split; [|split]].
    + intros i k Hk. by destruct i.
    + done.
    + done.
    + intros id Hin. by apply not_elem_of_empty in Hin.
  - unfold entry_point_ok. simpl. by intros k ?%elem_of_nil.
Qed.

(** The state of [insert] once the vector and the node are appended. *)
Lemma insert_appended_ok h vs lvl k_new :
  index_ok h → 0 ≤ lvl → size (keys h) + 1 < 2 ^ 31 →
  length (vectors_ vs) = S (length (keys h)) →
  k_new = (size (keys h), lvl) →
  ∀ h', keys h' = keys h ++ [k_new] → vector_storage h' = vs →
        deleted_nodes_ h' = deleted_nodes_ h → index_ok h'.
Proof.
  intros (Hpos & Hlen & Hsize & Hdel) Hlvl Hroom Hvs -> h' Hk Hv Hd.
  unfold index_ok. rewrite Hk, Hv, Hd. unfold size in *. rewrite length_app. simpl.
  split; [|split; [|split]].
  - intros i k Hi.
    destruct (decide (i < length (keys h))%nat) as [Hlt | Hge].
    + rewrite lookup_app_l in Hi by done. by apply Hpos in Hi.
    + rewrite lookup_app_r in Hi by lia.
      destruct (i - length (keys h))%nat as [|j] eqn:E; [|by destruct j].
      injection Hi as <-. simpl. lia.
  - lia.
  - lia.
  - intros id Hin. apply Hdel in Hin. lia.
Qed.
Lemma at_app_l {A} (l1 l2 : list A) i x : at_ l1 i = Ok x → at_ (l1 ++ l2) i = Ok x.
Proof.
  rewrite !at_Ok_lookup. intros [Hi Hl]. split; [done |].
  rewrite lookup_app_l; [done |]. by eapply lookup_lt_Some.
Qed.

Lemma at_app_last {A} (l : list A) x : at_ (l ++ [x]) (size l) = Ok x.
Proof.
  apply at_Ok_lookup. unfold size. split; [lia |].
  rewrite Nat2Z.id. by apply list_lookup_middle.
Qed.

(** [insert] keeps the invariant. *)
Lemma insert_entry_point_ok sq lvl vec meta h id h' :
  index_ok h → entry_point_ok h → 0 ≤ lvl → size (keys h) + 1 < 2 ^ 31 →
  insert sq lvl vec meta h = (Ok id, h') →
  index_ok h' ∧ entry_point_ok h'.
Proof.
  intros Hok Hep Hlvl Hroom. pose proof Hok as (Hpos & Hlen & Hsize & Hdel).
  unfold insert.
  destruct (add_vector sq vec meta (vector_storage h)) as [vs|] eqn:Hadd; [|done].
  apply add_vector_vectors in Hadd.
  unfold Node.new. destruct (lvl + 1 <? 0) eqn:E; [lia |]. clear E.
  assert (Hnid : to_uint32 (size (vectors_ (vector_storage h))) = size (keys h)).
  { unfold size in *. rewrite Hlen. apply to_uint32_small. lia. }
  rewrite Hnid.
  assert (Hnid' : to_int32 (size (keys h)) = size (keys h))
    by (apply to_int32_small; unfold size in *; lia).
  set (node := Node.mk (size (keys h)) lvl (replicate (Z.to_nat (lvl + 1)) [])).
  set (h2 := set_nodes (set_vector_storage h vs) (nodes (set_vector_storage h vs) ++ [node])).
  assert (Hk2 : keys h2 = keys h ++ [(size (keys h), lvl)]).
  { unfold keys, h2. simpl. by rewrite map_app. }
  assert (Hvlen : length (vectors_ vs) = S (length (keys h))).
  { rewrite Hadd, length_app, Hlen. simpl. lia. }
  assert (Hindex : ∀ h3, keys h3 = keys h2 → vector_storage h3 = vs →
                         deleted_nodes_ h3 = deleted_nodes_ h → index_ok h3).
  { intros h3 Hk3 Hv3 Hd3.
    eapply (insert_appended_ok h vs lvl); try done. by rewrite Hk3. }
  assert (Hnew_live : size (keys h) ∉ deleted_nodes_ h).
  { intros Hin%Hdel. lia. }
  assert (Hentry_new : ∀ h3, keys h3 = keys h2 → deleted_nodes_ h3 = deleted_nodes_ h →
            entry_point_id h3 = size (keys h) →
            (∀ k', k' ∈ keys h → k'.1 ∉ deleted_nodes_ h → k'.2 ≤ lvl) →
            entry_point_ok h3).
  { intros h3 Hk3 Hd3 He3 Hmax. unfold entry_point_ok. rewrite He3, Hk3, Hd3, Hk2.
    destruct (decide (size (keys h) = -1)) as [Heq | _]; [unfold size in Heq; lia |].
    exists (size (keys h), lvl). split; [apply at_app_last |]. split; [done |].
    intros k' [Hin | ->%list_elem_of_singleton]%elem_of_app Hlive; [by apply Hmax | done]. }
  destruct (entry_point_id h2 =? -1) eqn:Hnone.
  - intros [= _ <-]. apply Z.eqb_eq in Hnone. split.
    + by apply Hindex.
    + apply Hentry_new; [done | done | exact Hnid' |].
      intros k' Hin Hlive. exfalso.
      unfold entry_point_ok in Hep. change (entry_point_id h2) with (entry_point_id h) in Hnone.
      rewrite decide_True in Hep by done. by apply Hlive, Hep.
  - destruct (insert_graph sq vec (size (keys h)) lvl h2) as [h3|] eqn:Hg; [|done].
    intros [= _ <-]. apply Z.eqb_neq in Hnone.
    change (entry_point_id h2) with (entry_point_id h) in Hnone.
    apply insert_graph_spec in Hg as (Hk3 & Hv3 & Hd3 & k0 & Hk0 & He3).
    change (entry_point_id h2) with (entry_point_id h) in Hk0, He3.
    change (vector_storage h2) with vs in Hv3.
    change (deleted_nodes_ h2) with (deleted_nodes_ h) in Hd3.
    split; [by apply Hindex |].
    unfold entry_point_ok in Hep. rewrite decide_False in Hep by done.
    destruct Hep as (k & Hk & Hlive & Hmax).
    rewrite Hk2 in Hk0. rewrite (at_app_l _ _ _ _ Hk) in Hk0. injection Hk0 as <-.
    destruct (k.2 <? lvl) eqn:Hcmp.
    + apply Hentry_new; [done | done | by rewrite He3, Hnid' |].
      intros k' Hin Hl. specialize (Hmax k' Hin Hl). lia.
    + unfold entry_point_ok. rewrite He3, Hk3, Hd3, Hk2.
      rewrite decide_False by done.
      exists k. split; [by apply at_app_l |]. split; [done |].
      intros k' [Hin | ->%list_elem_of_singleton]%elem_of_app Hl; [by apply Hmax |].
      simpl. lia.
Qed.

(** The rescan of [mark_deleted] finds a live node of greatest layer, or
    nothing when no node is live. *)
Lemma rescan_entry_point_spec (del : gset Z) (ns : list Node.t) :
  (∀ n, n ∈ ns → 0 ≤ Node.max_layer n) →
  let r := rescan_entry_point del ns in
  (r = (-1, -1) ∧ ∀ n, n ∈ ns → Node.id n ∈ del)
  ∨ (∃ n, n ∈ ns ∧ (Node.id n ∉ del)
          ∧ r = (to_int32 (Node.id n), Node.max_layer n)
          ∧ ∀ n', n' ∈ ns → Node.id n' ∉ del → Node.max_layer n' ≤ Node.max_layer n).
Proof.
  unfold rescan_entry_point.
  induction ns as [|x ns IH] using rev_ind; intros Hml.
  - left. split; [done |]. by intros n ?%elem_of_nil.
  - rewrite foldl_snoc.
    assert (Hx : 0 ≤ Node.max_layer x) by (apply Hml, elem_of_app; right; left).
    destruct IH as [[-> Hall] | (n & Hn & Hlive & -> & Hmax)].
    { intros n Hn. apply Hml, elem_of_app. by left. }
    + case_bool_decide as Hxd.
      * left. split; [done |].
        intros n [Hn | ->%list_elem_of_singleton]%elem_of_app; [by apply Hall | done].
      * right. exists x. simpl. destruct (-1 <? Node.max_layer x) eqn:E; [|lia].
        split; [apply elem_of_app; right; left |]. split; [done |]. split; [done |].
        intros n' [Hn' | ->%list_elem_of_singleton]%elem_of_app Hl; [|lia].
        by apply Hall in Hn'.
    + case_bool_decide as Hxd.
      * right. exists n. split; [apply elem_of_app; by left |].
        split; [done |]. split; [done |].
        intros n' [Hn' | ->%list_elem_of_singleton]%elem_of_app Hl; [by apply Hmax | done].
      * simpl. destruct (Node.max_layer n <? Node.max_layer x) eqn:E.
        -- right. exists x. split; [apply elem_of_app; right; left |].
           split; [done |]. split; [done |].
           intros n' [Hn' | ->%list_elem_of_singleton]%elem_of_app Hl; [|lia].
           specialize (Hmax n' Hn' Hl). lia.
        -- right. exists n. split; [apply elem_of_app; by left |].
           split; [done |]. split; [done |].
           intros n' [Hn' | ->%list_elem_of_singleton]%elem_of_app Hl; [by apply Hmax |].
           lia.
Qed.

(** [mark_deleted] of an existing id keeps the invariant. *)
Lemma mark_deleted_entry_point_ok id h :
  index_ok h → entry_point_ok h → 0 ≤ id < size (keys h) →
  index_ok (mark_deleted id h) ∧ entry_point_ok (mark_deleted id h).
Proof.
  intros (Hpos & Hlen & Hsize & Hdel) Hep Hid.
  assert (Hkeys : ∀ e, keys (set_entry_point (set_deleted h ({[id]} ∪ deleted_nodes_ h)) e)
                       = keys h) by done.
  split.
  - unfold mark_deleted. destruct (to_uint32 (entry_point_id h) =? id);
      (split; [|split; [|split]]); try done;
      intros i [->%elem_of_singleton | Hin]%elem_of_union; try done; by apply Hdel.
  - unfold mark_deleted.
    destruct (to_uint32 (entry_point_id h) =? id) eqn:Heq.
    + (* the entry point is tombstoned: rescan *)
      destruct (rescan_entry_point_spec ({[id]} ∪ deleted_nodes_ h) (nodes h))
        as [[Hr Hall] | (n & Hn & Hlive & Hr & Hmax)].
      { intros n [i Hi]%list_elem_of_lookup.
        assert (keys h !! i = Some (node_key n)) as Hk
          by (unfold keys; change (map node_key (nodes h)) with (node_key <$> nodes h);
              by rewrite list_lookup_fmap, Hi).
        by apply Hpos in Hk as [_ ?]. }
      * unfold entry_point_ok. simpl. rewrite Hr. simpl.
        intros k [n [-> Hn]]%list_elem_of_fmap. by apply Hall.
      * apply list_elem_of_lookup in Hn as [i Hi].
        assert (keys h !! i = Some (node_key n)) as Hk
          by (unfold keys; change (map node_key (nodes h)) with (node_key <$> nodes h);
              by rewrite list_lookup_fmap, Hi).
        pose proof (Hpos _ _ Hk) as [Hidn _]. simpl in Hidn.
        pose proof (lookup_lt_Some _ _ _ Hk) as Hlt. unfold size in Hsize.
        unfold entry_point_ok. simpl. rewrite Hr. simpl.
        rewrite Hidn, to_int32_small by lia.
        destruct (decide (Z.of_nat i = -1)) as [? | _]; [lia |].
        exists (node_key n). split.
        { apply at_Ok_lookup. split; [lia |]. by rewrite Nat2Z.id. }
        split; [done |].
        intros k' [n' [-> Hn']]%list_elem_of_fmap Hl. by apply Hmax.
    + (* another node is tombstoned *)
      apply Z.eqb_neq in Heq.
      unfold entry_point_ok in *. simpl.
      destruct (decide (entry_point_id h = -1)) as [Hnone | Hsome].
      * intros k Hk. apply elem_of_union. right. by apply Hep.
      * destruct Hep as (k & Hk & Hlive & Hmax).
        exists k. split; [done |].
        pose proof Hk as [Hpos_e Hk']%at_Ok_lookup.
        pose proof (Hpos _ _ Hk') as [Hidk _].
        pose proof (lookup_lt_Some _ _ _ Hk') as Hlt. unfold size in Hsize.
        split.
        -- intros [Hkid%elem_of_singleton | Hin]%elem_of_union; [|done].
           apply Heq. rewrite to_uint32_small by lia. lia.
        -- intros k' Hin Hl. apply Hmax; [done |].
           intros Hd. apply Hl, elem_of_union. by right.
Qed.
Lemma insert_keys_length sq lvl vec meta h id h' :
  insert sq lvl vec meta h = (Ok id, h') → length (keys h') = S (length (keys h)).
Proof.
  unfold insert.
  destruct (add_vector sq vec meta (vector_storage h)) as [vs|]; [|done].
  destruct (Node.new _ lvl) as [node|]; [|done].
  assert (Hlen : ∀ h3, keys h3 = keys h ++ [node_key node] →
                       length (keys h3) = S (length (keys h))).
  { intros h3 ->. rewrite length_app. simpl. lia. }
  destruct (entry_point_id _ =? -1).
  - intros [= _ <-]. apply Hlen. unfold keys. simpl. by rewrite map_app.
  - destruct (insert_graph _ _ _ _ _) as [h3|] eqn:Hg; [|done].
    intros [= _ <-]. apply insert_graph_spec in Hg as (Hk3 & _).
    apply Hlen. rewrite Hk3. unfold keys. simpl. by rewrite map_app.
Qed.

(** Every sequence of [insert]s and [mark_deleted]s of existing ids keeps
    the entry point a live node of greatest layer. *)
Lemma run_ops_entry_point_ok sq ops h h' :
  index_ok h → entry_point_ok h → ops_ok (length (keys h)) ops →
  run_ops sq ops h = Ok h' → index_ok h' ∧ entry_point_ok h'.
Proof.
  revert h. induction ops as [|[lvl vec meta | id] ops IH]; intros h Hok Hep Hops; simpl.
  - by intros [= <-].
  - destruct Hops as (Hlvl & Hroom & Hops).
    destruct (insert sq lvl vec meta h) as [[nid|] h1] eqn:Hi; [|done].
    destruct (insert_entry_point_ok _ _ _ _ _ _ _ Hok Hep Hlvl Hroom Hi) as [Hok1 Hep1].
    apply IH; [done | done |]. by rewrite (insert_keys_length _ _ _ _ _ _ _ Hi).
  - destruct Hops as (Hid & Hops).
    destruct (mark_deleted_entry_point_ok id h Hok Hep Hid) as [Hok1 Hep1].
    apply IH; [done | done |].
    by replace (keys (mark_deleted id h)) with (keys h)
      by (unfold mark_deleted; by destruct (_ =? _)).
Qed.
End entry_point.

(** ** The entry point after a load *)

Lemma entry_point_not_ok_lower (h : Hnsw.HNSW) (e : Z) (k0 k1 : Z * Z) :
  Hnsw.entry_point_id h = e → e ≠ -1 →
  at_ (Hnsw.keys h) e = Ok k0 → k1 ∈ Hnsw.keys h →
  k1.1 ∉ Hnsw.deleted_nodes_ h → k0.2 < k1.2 →
  ¬ Hnsw.entry_point_ok h.
Proof.
  intros He Hne Hk0 Hk1 Hlive Hlt. unfold Hnsw.entry_point_ok.
  rewrite He, decide_False by done.
  intros (k & Hk & _ & Hmax). rewrite Hk0 in Hk. injection Hk as <-.
  specialize (Hmax k1 Hk1 Hlive). lia.
Qed.

Lemma entry_point_not_ok_deleted (h : Hnsw.HNSW) (e : Z) (k0 : Z * Z) :
  Hnsw.entry_point_id h = e → e ≠ -1 →
  at_ (Hnsw.keys h) e = Ok k0 → k0.1 ∈ Hnsw.deleted_nodes_ h →
  ¬ Hnsw.entry_point_ok h.
Proof.
  intros He Hne Hk0 Hdel. unfold Hnsw.entry_point_ok.
  rewrite He, decide_False by done.
  intros (k & Hk & Hlive & _). rewrite Hk0 in Hk. injection Hk as <-. done.
Qed.

(** C3, the code at a failing input.  [two_layers_db] is built by two
    inserts: node 0 on layer 1 and node 1 on layer 0, both live, entry point
    node 0; the invariant holds, as it does after every sequence of inserts
    and deletions ([run_ops_entry_point_ok]).  Saved and loaded, the same
    nodes come back but the entry point is node 1, the last node, whose
    [max_layer] is 0: the invariant is lost.  With node 1 tombstoned before
    the save the loaded entry point is the tombstoned node 1, and the query
    that found node 0 before the save finds nothing after the load. *)
Theorem load_entry_point_is_last_node :
  (Hnsw.entry_point_ok (Db.hnsw_ Examples.two_layers_db)
   ∧ Hnsw.entry_point_id (Db.hnsw_ Examples.two_layers_db) = 0
   ∧ Hnsw.keys (Db.hnsw_ Examples.two_layers_db) = [(0, 1); (1, 0)])
  ∧ (∃ db, Examples.two_layers_reloaded = Ok db
           ∧ Hnsw.entry_point_id (Db.hnsw_ db) = 1
           ∧ Hnsw.keys (Db.hnsw_ db) = [(0, 1); (1, 0)]
           ∧ Hnsw.deleted_nodes_ (Db.hnsw_ db) = ∅
           ∧ ¬ Hnsw.entry_point_ok (Db.hnsw_ db))
  ∧ (∃ db, Examples.last_deleted_reloaded = Ok db
           ∧ Hnsw.entry_point_id (Db.hnsw_ Examples.last_deleted_db) = 0
           ∧ Hnsw.entry_point_id (Db.hnsw_ db) = 1
           ∧ Hnsw.deleted_nodes_ (Db.hnsw_ db) = {[1]}
           ∧ ¬ Hnsw.entry_point_ok (Db.hnsw_ db)
           ∧ map Hnsw.QueryResult.id <$>
               (Db.query [Examples.f_one] 2 None [Hnsw.ID] Examples.last_deleted_db).1
             = Ok [0]
           ∧ (Db.query [Examples.f_one] 2 None [Hnsw.ID] db).1 = Ok []).
Proof.
  split; [|split].
  - split; [|split; vm_compute; reflexivity].
    destruct (run_ops_entry_point_ok None
                [Hnsw.Insert 1 [Examples.f_one] {["type" := "a"]};
                 Hnsw.Insert 0 [Examples.f_two] {["type" := "b"]}]
                (Hnsw.new 1 2 10 10 Hnsw.L2) (Db.hnsw_ Examples.two_layers_db))
      as [_ Hep]; [apply new_index_entry_point_ok.. | | | exact Hep].
    + simpl. lia.
    + vm_compute. reflexivity.
  - set (db := Examples.or_fresh Examples.two_layers_reloaded).
    assert (Hd : Hnsw.deleted_nodes_ (Db.hnsw_ db) = ∅) by (vm_compute; reflexivity).
    exists db. split; [vm_compute; reflexivity |].
    split; [vm_compute; reflexivity |]. split; [vm_compute; reflexivity |].
    split; [exact Hd |].
    apply (entry_point_not_ok_lower _ 1 (1, 0) (0, 1));
      [vm_compute; reflexivity | done | vm_compute; reflexivity | | | simpl; lia].
    + apply list_elem_of_In. vm_compute. by left.
    + rewrite Hd. apply not_elem_of_empty.
  - set (db := Examples.or_fresh Examples.last_deleted_reloaded).
    assert (Hd : Hnsw.deleted_nodes_ (Db.hnsw_ db) = {[1]}) by (vm_compute; reflexivity).
    exists db. split; [vm_compute; reflexivity |].
    split; [vm_compute; reflexivity |]. split; [vm_compute; reflexivity |].
    split; [exact Hd |].
    split; [|split; vm_compute; reflexivity].
    apply (entry_point_not_ok_deleted _ 1 (1, 0));
      [vm_compute; reflexivity | done | vm_compute; reflexivity |].
    rewrite Hd. by apply elem_of_singleton.
Qed.

(** ** The file format: scalars *)

Section bytes.
Import Db.

Lemma le_bytes_length n x : length (le_bytes n x) = n.
Proof. revert x. induction n as [|n IH]; intros x; simpl; [done | by rewrite IH]. Qed.

Lemma le_value_le_bytes n x : le_value (le_bytes n x) = x mod 2 ^ (8 * Z.of_nat n).
Proof.
  revert x. induction n as [|n IH]; intros x.
  - simpl. by rewrite Z.mod_1_r.
  - cbn [le_bytes le_value]. rewrite IH.
    replace (8 * Z.of_nat (S n)) with (8 + 8 * Z.of_nat n) by lia.
    rewrite Z.pow_add_r by lia. change (2 ^ 8) with 256.
    rewrite Z.rem_mul_r by lia. reflexivity.
Qed.

Lemma read_bytes_app bs rest :
  read_bytes (length bs) (bs ++ rest) = Ok (bs, rest).
Proof.
  unfold read_bytes.
  destruct (length (bs ++ rest) <? length bs)%nat eqn:E.
  - apply Nat.ltb_lt in E. rewrite length_app in E. lia.
  - by rewrite take_app_length, drop_app_length.
Qed.

Lemma reader_bind_Ok {A B} (r : reader A) (f : A → reader B) s a s' :
  r s = Ok (a, s') → (r ≫= f) s = f a s'.
Proof. unfold mbind, reader_bind. by intros ->. Qed.

Lemma read_le_app n x rest :
  read_le n (le_bytes n x ++ rest) = Ok (x mod 2 ^ (8 * Z.of_nat n), rest).
Proof.
  unfold read_le.
  rewrite (reader_bind_Ok _ _ _ (le_bytes n x) rest).
  - unfold mret, reader_ret. by rewrite le_value_le_bytes.
  - rewrite <- (le_bytes_length n x) at 1. apply read_bytes_app.
Qed.

Lemma read_size_t_app x rest :
  is_size_t x = true → read_size_t (le_bytes 8 x ++ rest) = Ok (x, rest).
Proof.
  intros Hx. unfold read_size_t. rewrite read_le_app.
  unfold is_size_t in Hx. rewrite Z.mod_small; [done |].
  change (2 ^ (8 * Z.of_nat 8)) with (2 ^ 64). lia.
Qed.

Lemma read_uint32_app x rest :
  is_uint32 x = true → read_uint32 (le_bytes 4 x ++ rest) = Ok (x, rest).
Proof.
  intros Hx. unfold read_uint32. rewrite read_le_app.
  unfold is_uint32 in Hx. rewrite Z.mod_small; [done |].
  change (2 ^ (8 * Z.of_nat 4)) with (2 ^ 32). lia.
Qed.

Lemma to_int32_mod x : is_int32 x = true → to_int32 (x mod 2 ^ 32) = x.
Proof.
  unfold is_int32, to_int32. intros Hx.
  assert (- 2 ^ 31 ≤ x < 2 ^ 31) as Hr by lia.
  rewrite Zplus_mod_idemp_l.
  rewrite Z.mod_small; lia.
Qed.

Lemma read_int32_app x rest :
  is_int32 x = true → read_int32 (le_bytes 4 x ++ rest) = Ok (x, rest).
Proof.
  intros Hx. unfold read_int32.
  rewrite (reader_bind_Ok _ _ _ _ _ (read_le_app 4 x rest)).
  unfold mret, reader_ret. change (2 ^ (8 * Z.of_nat 4)) with (2 ^ 32).
  by rewrite to_int32_mod.
Qed.

Lemma read_bool_true rest : read_bool (le_bytes 1 1 ++ rest) = Ok (true, rest).
Proof. reflexivity. Qed.

Lemma read_bool_false rest : read_bool (le_bytes 1 0 ++ rest) = Ok (false, rest).
Proof. reflexivity. Qed.

(** Lists of scalars and of records *)

Lemma read_list_flat_map {A} (r : reader A) (w : A → list Z) xs rest :
  (∀ x rest', x ∈ xs → r (w x ++ rest') = Ok (x, rest')) →
  read_list (length xs) r (flat_map w xs ++ rest) = Ok (xs, rest).
Proof.
  induction xs as [|x xs IH]; intros Hx; simpl; [done |].
  rewrite <- app_assoc.
  rewrite (reader_bind_Ok _ _ _ x (flat_map w xs ++ rest)) by (apply Hx; left).
  rewrite (reader_bind_Ok _ _ _ xs rest); [done |].
  apply IH. intros y rest' Hy. apply Hx. by right.
Qed.

Lemma read_list_map_result {A} (r : reader A) (w : A → result (list Z)) xs :
  (∀ x, x ∈ xs → ∃ b, w x = Ok b ∧ ∀ rest, r (b ++ rest) = Ok (x, rest)) →
  ∃ bs, map_result w xs = Ok bs
        ∧ ∀ rest, read_list (length xs) r (concat bs ++ rest) = Ok (xs, rest).
Proof.
  induction xs as [|x xs IH]; intros Hx; simpl.
  - exists []. done.
  - destruct (Hx x) as (b & -> & Hb); [left |].
    destruct IH as (bs & -> & Hbs); [intros y Hy; apply Hx; by right |].
    exists (b :: bs). split; [done |]. intros rest. simpl.
    rewrite <- app_assoc.
    rewrite (reader_bind_Ok _ _ _ x (concat bs ++ rest)) by apply Hb.
    by rewrite (reader_bind_Ok _ _ _ xs rest) by apply Hbs.
Qed.

Lemma forallb_Forall {A} (f : A → bool) (l : list A) :
  forallb f l = true ↔ Forall (fun x => f x = true) l.
Proof.
  rewrite forallb_forall, Forall_forall.
  by setoid_rewrite list_elem_of_In.
Qed.

Lemma read_uint32s_app (v : list Z) rest :
  wf_floats v = true →
  read_list (length v) read_uint32 (flat_map (le_bytes 4) v ++ rest) = Ok (v, rest).
Proof.
  intros Hv. apply read_list_flat_map. intros x rest' Hx.
  apply read_uint32_app. by eapply forallb_elem.
Qed.

Lemma read_int32s_app (v : list Z) rest :
  forallb is_int32 v = true →
  read_list (length v) read_int32 (flat_map (le_bytes 4) v ++ rest) = Ok (v, rest).
Proof.
  intros Hv. apply read_list_flat_map. intros x rest' Hx.
  apply read_int32_app. by eapply forallb_elem.
Qed.

(** Strings *)

Lemma string_of_bytes_of_string s : string_of_bytes (bytes_of_string s) = s.
Proof.
  unfold string_of_bytes, bytes_of_string. rewrite map_map.
  rewrite (map_ext _ (fun c => c)).
  - rewrite map_id. apply string_of_list_ascii_of_string.
  - intros c. rewrite N2Z.id. apply ascii_N_embedding.
Qed.

End bytes.

(** ** The file format: nodes *)

Section indexed_loops.
Context {A B : Type}.

Lemma idx_middle (pre l : list A) (x : A) : idx (pre ++ x :: l) (length pre) = Ok x.
Proof. unfold idx. by rewrite list_lookup_middle. Qed.

(** A loop over indices that reads [l[i]] is a loop over [l]. *)
Lemma map_result_idx_offset (f : A → result B) (pre l : list A) :
  map_result (fun i => x ← idx (pre ++ l) i; f x) (seq (length pre) (length l))
  = map_result f l.
Proof.
  revert pre. induction l as [|x l IH]; intros pre; [done |].
  cbn [length seq map_result].
  rewrite idx_middle. cbn [mbind result_bind].
  specialize (IH (pre ++ [x])). rewrite <- app_assoc, length_app in IH. simpl in IH.
  replace (length pre + 1)%nat with (S (length pre)) in IH by lia.
  by rewrite IH.
Qed.

Lemma map_result_idx (f : A → result B) (l : list A) :
  map_result (fun i => x ← idx l i; f x) (seq 0 (length l)) = map_result f l.
Proof. apply (map_result_idx_offset f [] l). Qed.
End indexed_loops.

Section nodes.
Import Hnsw Db.

Lemma read_layer_app l rest :
  wf_layer l = true → read_layer (layer_bytes l ++ rest) = Ok (l, rest).
Proof.
  intros [Hs Hl]%andb_prop. unfold read_layer, layer_bytes.
  rewrite <- app_assoc.
  rewrite (reader_bind_Ok _ _ _ _ _ (read_size_t_app _ _ Hs)).
  unfold size. rewrite Nat2Z.id. by apply read_int32s_app.
Qed.

Lemma write_node_read_node n :
  wf_node n = true →
  ∃ b, write_node n = Ok b ∧ ∀ rest, read_node (b ++ rest) = Ok (n, rest).
Proof.
  intros Hn. unfold wf_node in Hn.
  apply andb_prop in Hn as [Hn Hlayers]. apply andb_prop in Hn as [Hn Hlen].
  apply andb_prop in Hn as [Hid Hml].
  apply Z.eqb_eq in Hlen. unfold size in Hlen.
  assert (Hcount : Z.to_nat (Node.max_layer n + 1) = length (Node.neighbors n)) by lia.
  destruct (read_list_map_result read_layer (fun l => Ok (layer_bytes l))
              (Node.neighbors n)) as (bs & Hbs & Hread).
  { intros l Hl. exists (layer_bytes l). split; [done |]. intros rest.
    apply read_layer_app. by eapply forallb_elem. }
  exists (le_bytes 4 (Node.id n) ++ le_bytes 4 (Node.max_layer n) ++ concat bs).
  split.
  - unfold write_node. rewrite Hcount.
    unfold write_layer. rewrite (map_result_idx _ (Node.neighbors n)).
    by rewrite Hbs.
  - intros rest. unfold read_node. rewrite <- !app_assoc.
    rewrite (reader_bind_Ok _ _ _ _ _ (read_uint32_app _ _ Hid)).
    rewrite (reader_bind_Ok _ _ _ _ _ (read_int32_app _ _ Hml)).
    unfold Node.new. destruct (Node.max_layer n + 1 <? 0) eqn:E; [lia |].
    unfold lift at 1. unfold mbind at 1, reader_bind at 1.
    rewrite Hcount.
    rewrite (reader_bind_Ok _ _ _ _ _ (Hread rest)).
    unfold mret, reader_ret, Node.set_neighbors. simpl. by destruct n.
Qed.

Lemma write_nodes_read_nodes ns :
  forallb wf_node ns = true →
  ∃ bs, map_result write_node ns = Ok bs
        ∧ ∀ rest, read_list (length ns) read_node (concat bs ++ rest) = Ok (ns, rest).
Proof.
  intros Hns. apply read_list_map_result. intros n Hn.
  apply write_node_read_node. by eapply forallb_elem.
Qed.
End nodes.

(** ** The file format: metadata, vectors, tombstones, quantizer *)

Section records.
Import Hnsw Db.

Lemma read_string_bytes s rest :
  read_string (Z.to_nat (size (bytes_of_string s))) (bytes_of_string s ++ rest)
  = Ok (s, rest).
Proof.
  unfold read_string, size. rewrite Nat2Z.id.
  rewrite (reader_bind_Ok _ _ _ _ _ (read_bytes_app _ _)).
  unfold mret, reader_ret. by rewrite string_of_bytes_of_string.
Qed.

Lemma read_meta_pairs (pairs : list (string * string)) acc rest :
  forallb (fun p => wf_string p.1 && wf_string p.2) pairs = true →
  read_meta (length pairs) acc
    (flat_map (fun p => write_string p.1 ++ write_string p.2) pairs ++ rest)
  = Ok (foldl insert_pair acc pairs, rest).
Proof.
  revert acc. induction pairs as [|[k v] pairs IH]; intros acc Hwf; [done |].
  cbn [forallb] in Hwf. apply andb_prop in Hwf as [Hkv Hwf].
  apply andb_prop in Hkv as [Hk Hv]. cbn [fst snd] in Hk, Hv.
  cbn [length read_meta flat_map foldl fst snd].
  unfold write_string. rewrite <- !app_assoc.
  rewrite (reader_bind_Ok _ _ _ _ _ (read_size_t_app _ _ Hk)).
  rewrite (reader_bind_Ok _ _ _ _ _ (read_string_bytes _ _)).
  rewrite (reader_bind_Ok _ _ _ _ _ (read_size_t_app _ _ Hv)).
  rewrite (reader_bind_Ok _ _ _ _ _ (read_string_bytes _ _)).
  by apply IH.
Qed.

Lemma foldl_insert_pair (pairs : list (string * string)) (acc : Metadata) :
  NoDup pairs.*1 →
  (∀ k, k ∈ pairs.*1 → acc !! k = None) →
  foldl insert_pair acc pairs = list_to_map pairs ∪ acc.
Proof.
  revert acc. induction pairs as [|[k v] pairs IH]; intros acc Hnd Hacc; simpl.
  - by rewrite (left_id_L ∅ (∪)).
  - rewrite fmap_cons, NoDup_cons in Hnd. destruct Hnd as [Hk Hnd].
    simpl in Hk. rewrite IH; [|done|].
    + unfold insert_pair. simpl. apply map_eq. intros i.
      rewrite !lookup_union. destruct (decide (k = i)) as [<- | Hne].
      * rewrite !lookup_insert_eq.
        rewrite (not_elem_of_list_to_map_1 pairs k) by done.
        by destruct (acc !! k).
      * by rewrite !lookup_insert_ne.
    + intros i Hi. unfold insert_pair. simpl.
      rewrite lookup_insert_ne; [apply Hacc; by right | by intros <-].
Qed.

Lemma foldl_insert_pair_map (meta : Metadata) pairs :
  pairs ≡ₚ map_to_list meta → foldl insert_pair ∅ pairs = meta.
Proof.
  intros Hp. rewrite foldl_insert_pair.
  - rewrite (right_id_L ∅ (∪)).
    rewrite (list_to_map_proper pairs (map_to_list meta)); [|  | done].
    + apply list_to_map_to_list.
    + rewrite Hp. apply NoDup_fst_map_to_list.
  - rewrite Hp. apply NoDup_fst_map_to_list.
  - intros. apply lookup_empty.
Qed.

Lemma read_meta_app (meta : Metadata) rest :
  wf_meta meta = true →
  is_size_t (size (meta_pairs meta)) = true
  ∧ read_meta (Z.to_nat (size (meta_pairs meta))) ∅
      (flat_map (fun p => write_string p.1 ++ write_string p.2) (meta_pairs meta) ++ rest)
    = Ok (meta, rest).
Proof.
  intros [Hs Hp]%andb_prop.
  assert (Hperm : meta_pairs meta ≡ₚ map_to_list meta)
    by apply merge_sort_Permutation.
  split.
  - unfold size. by rewrite Hperm.
  - unfold size. rewrite Nat2Z.id. rewrite read_meta_pairs.
    + by rewrite (foldl_insert_pair_map meta).
    + apply forallb_Forall. rewrite Hperm. by apply forallb_Forall.
Qed.

Lemma write_meta_eq meta :
  write_meta meta
  = le_bytes 8 (size (meta_pairs meta))
      ++ flat_map (fun p => write_string p.1 ++ write_string p.2) (meta_pairs meta).
Proof. reflexivity. Qed.

Lemma map_result_ok {A B} (f : A → result B) (l : list A) :
  forallb (fun x => is_ok (f x)) l = true → ∃ r, map_result f l = Ok r.
Proof.
  induction l as [|x l IH]; simpl; [eauto |].
  intros [Hx Hl]%andb_prop. destruct (f x) as [y|]; [|done].
  destruct (IH Hl) as [r ->]. simpl. eauto.
Qed.

Context (sq : option SQ.ScalarQuantizer) (dim : Z).
Hypothesis Hdim : is_size_t dim = true.

Local Abbreviation record_ok := (Db.record_ok sq dim).

Lemma write_array_exact (v : list Z) :
  size v = dim → write_array dim v = Ok (flat_map (le_bytes 4) v).
Proof.
  intros Hv. unfold write_array.
  destruct (size v <? dim) eqn:E; [lia |].
  rewrite take_ge; [done |]. unfold size in Hv. lia.
Qed.

Lemma add_vector_ok vec meta vs :
  vector_dimension_ vs = dim → size vec = dim → encodable sq vec = true →
  ∃ vs', add_vector sq vec meta vs = Ok vs'
         ∧ vector_dimension_ vs' = dim
         ∧ vectors_ vs' = vectors_ vs ++ [vec]
         ∧ metadata_ vs' = metadata_ vs ++ [meta].
Proof.
  intros Hvs Hvec Henc. unfold add_vector. rewrite Hvs.
  destruct (size vec =? dim) eqn:E; [|lia]. simpl.
  unfold encodable in Henc. destruct sq as [q|]; [|by eexists].
  destruct (SQ.is_trained q); [|by eexists].
  destruct (SQ.encode q vec) as [enc|]; [|done]. simpl. by eexists.
Qed.

Lemma read_record_app vs0 vec meta rest :
  record_ok (vec, meta) = true → vector_dimension_ vs0 = dim →
  ∃ vs1, read_record sq dim vs0
           (flat_map (le_bytes 4) vec ++ write_meta meta ++ rest) = Ok (vs1, rest)
         ∧ vector_dimension_ vs1 = dim
         ∧ vectors_ vs1 = vectors_ vs0 ++ [vec]
         ∧ metadata_ vs1 = metadata_ vs0 ++ [meta].
Proof.
  unfold Db.record_ok. cbn [fst snd]. intros Hok Hvs.
  apply andb_prop in Hok as [Hok Hmeta]. apply andb_prop in Hok as [Hvec Henc].
  apply andb_prop in Hvec as [Hlen Hfl]. apply Z.eqb_eq in Hlen.
  destruct (read_meta_app meta rest Hmeta) as [Hsz Hrm].
  destruct (add_vector_ok vec meta vs0 Hvs Hlen Henc) as (vs1 & Hadd & Hprops).
  exists vs1. split; [|done].
  unfold read_record.
  replace (Z.to_nat dim) with (length vec) by (unfold size in Hlen; lia).
  rewrite (reader_bind_Ok _ _ _ _ _ (read_uint32s_app _ _ Hfl)).
  rewrite write_meta_eq, <- app_assoc.
  rewrite (reader_bind_Ok _ _ _ _ _ (read_size_t_app _ _ Hsz)).
  rewrite (reader_bind_Ok _ _ _ _ _ Hrm).
  unfold lift. by rewrite Hadd.
Qed.

Lemma read_records_app (ps : list (list float * Metadata)) :
  forallb record_ok ps = true →
  ∃ bs, map_result (fun p => v ← write_array dim p.1; Ok (v ++ write_meta p.2)) ps = Ok bs
        ∧ ∀ vs0 rest, vector_dimension_ vs0 = dim →
            ∃ vs1, read_records sq dim (length ps) vs0 (concat bs ++ rest) = Ok (vs1, rest)
                   ∧ vector_dimension_ vs1 = dim
                   ∧ vectors_ vs1 = vectors_ vs0 ++ ps.*1
                   ∧ metadata_ vs1 = metadata_ vs0 ++ ps.*2.
Proof.
  induction ps as [|[vec meta] ps IH]; intros Hps.
  - exists []. split; [done |]. intros vs0 rest Hvs. exists vs0.
    simpl. by rewrite !app_nil_r.
  - cbn [forallb] in Hps. apply andb_prop in Hps as [Hp Hps].
    destruct (IH Hps) as (bs & Hbs & Hread).
    assert (Hlen : size vec = dim).
    { unfold Db.record_ok, wf_vector in Hp. simpl in Hp.
      repeat (apply andb_prop in Hp as [Hp _]). by apply Z.eqb_eq. }
    exists ((flat_map (le_bytes 4) vec ++ write_meta meta) :: bs). split.
    + cbn [map_result fst snd]. rewrite (write_array_exact vec Hlen).
      cbn [mbind result_bind]. by rewrite Hbs.
    + intros vs0 rest Hvs. cbn [concat length read_records].
      rewrite <- !app_assoc.
      destruct (read_record_app vs0 vec meta (concat bs ++ rest) Hp Hvs)
        as (vs1 & Hr1 & Hd1 & Hv1 & Hm1).
      rewrite (reader_bind_Ok _ _ _ _ _ Hr1).
      destruct (Hread vs1 rest Hd1) as (vs2 & Hr2 & Hd2 & Hv2 & Hm2).
      exists vs2. split; [done |]. split; [done |].
      rewrite Hv2, Hm2, Hv1, Hm1. simpl. by rewrite <- !app_assoc.
Qed.
End records.

Section more_formats.
Import Hnsw Db.

Lemma foldl_insert_set (ids : list Z) (acc : gset Z) :
  foldl (fun d id => {[id]} ∪ d) acc ids = list_to_set ids ∪ acc.
Proof.
  revert acc. induction ids as [|id ids IH]; intros acc; simpl.
  - by rewrite (left_id_L ∅ (∪)).
  - rewrite IH.
    by rewrite (assoc_L (∪)), (comm_L (∪) (list_to_set ids)).
Qed.

(** Whatever order the tombstones are written in, [load] reads the set
    back. *)
Lemma read_deleted_app d order rest :
  iteration_of d order → wf_deleted d = true →
  read_deleted (write_deleted d order ++ rest) = Ok (d, rest).
Proof.
  unfold iteration_of. intros Hp [Hs Hids]%andb_prop. unfold read_deleted, write_deleted.
  rewrite <- app_assoc.
  rewrite (reader_bind_Ok _ _ _ _ _ (read_size_t_app _ _ Hs)).
  unfold size at 1. rewrite Nat2Z.id, <- (Permutation_length Hp).
  assert (Hids' : forallb is_uint32 order = true).
  { apply forallb_Forall. apply forallb_Forall in Hids. by rewrite Hp. }
  rewrite (reader_bind_Ok _ _ _ _ _ (read_uint32s_app _ _ Hids')).
  unfold mret, reader_ret. rewrite foldl_insert_set.
  rewrite (right_id_L ∅ (∪)).
  assert (Hset : list_to_set (C := gset Z) order = list_to_set (elements d))
    by (apply list_to_set_perm_L, Hp).
  by rewrite Hset, list_to_set_elements_L.
Qed.

Lemma sq_save_load q :
  wf_sq q = true →
  ∃ b, sq_save q = Ok b ∧ ∀ rest, sq_load (b ++ rest) = Ok (q, rest).
Proof.
  unfold wf_sq. intros Hq.
  apply andb_prop in Hq as [Hq Hmaxs]. apply andb_prop in Hq as [Hq Hmins].
  apply andb_prop in Hq as [Hq Hlmax]. apply andb_prop in Hq as [Hdim Hlmin].
  apply Z.eqb_eq in Hlmin, Hlmax.
  eexists. split.
  - unfold sq_save. rewrite !write_array_exact by done. reflexivity.
  - intros rest. unfold sq_load. rewrite <- !app_assoc.
    rewrite (reader_bind_Ok _ _ _ _ _ (read_size_t_app _ _ Hdim)).
    replace (Z.to_nat (SQ.original_dim_ q)) with (length (SQ.mins_ q)) at 1
      by (unfold size in Hlmin; lia).
    rewrite (reader_bind_Ok _ _ _ _ _ (read_uint32s_app _ _ Hmins)).
    replace (Z.to_nat (SQ.original_dim_ q)) with (length (SQ.maxs_ q))
      by (unfold size in Hlmax; lia).
    rewrite (reader_bind_Ok _ _ _ _ _ (read_uint32s_app _ _ Hmaxs)).
    unfold mret, reader_ret. by destruct q.
Qed.

Lemma metric_round_trip m :
  wf_metric m = true →
  is_int32 (int_of_metric m) = true ∧ metric_of_int (int_of_metric m) = m.
Proof.
  destruct m as [| | |v]; simpl; try done.
  intros [Hv Hne]%andb_prop. split; [done |].
  unfold metric_of_int.
  destruct (v =? 0) eqn:E0; [lia |].
  destruct (v =? 1) eqn:E1; [lia |].
  destruct (v =? 2) eqn:E2; [lia | done].
Qed.

Lemma map_result_idx2_offset {A B C} (f : A → B → result C)
    (pre1 l1 : list A) (pre2 l2 : list B) :
  length pre1 = length pre2 → length l1 = length l2 →
  map_result (fun i => x ← idx (pre1 ++ l1) i; y ← idx (pre2 ++ l2) i; f x y)
             (seq (length pre1) (length l1))
  = map_result (fun p => f p.1 p.2) (zip l1 l2).
Proof.
  revert pre1 pre2 l2. induction l1 as [|x l1 IH]; intros pre1 pre2 [|y l2] Hpre Hl;
    try done.
  cbn [length seq map_result zip zip_with fst snd].
  rewrite idx_middle.
  replace (idx (pre2 ++ y :: l2) (length pre1)) with (Ok y)
    by (rewrite Hpre; symmetry; apply idx_middle).
  cbn [mbind result_bind].
  specialize (IH (pre1 ++ [x]) (pre2 ++ [y]) l2).
  rewrite <- !app_assoc, !length_app in IH. simpl in IH.
  replace (length pre1 + 1)%nat with (S (length pre1)) in IH by lia.
  rewrite IH; [done | lia | by injection Hl].
Qed.

Lemma map_result_idx2 {A B C} (f : A → B → result C) (l1 : list A) (l2 : list B) :
  length l1 = length l2 →
  map_result (fun i => x ← idx l1 i; y ← idx l2 i; f x y) (seq 0 (length l1))
  = map_result (fun p => f p.1 p.2) (zip l1 l2).
Proof. apply (map_result_idx2_offset f [] l1 [] l2 eq_refl). Qed.

Lemma forallb_zip {A B} (f : A → bool) (g : B → bool) (l1 : list A) (l2 : list B) :
  forallb f l1 = true → forallb g l2 = true →
  forallb (fun p => f p.1 && g p.2) (zip l1 l2) = true.
Proof.
  revert l2. induction l1 as [|x l1 IH]; intros [|y l2]; simpl; try done.
  intros [Hx H1]%andb_prop [Hy H2]%andb_prop. rewrite Hx, Hy. simpl. by apply IH.
Qed.

Lemma encodable_untrained sq v : sq_trained sq = false → encodable sq v = true.
Proof. unfold sq_trained, encodable. destruct sq as [q|]; [by intros -> | done]. Qed.

Lemma encode_all_vectors_ok sq vs :
  forallb (encodable sq) (vectors_ vs) = true →
  ∃ vs', encode_all_vectors sq vs = Ok vs'
         ∧ vector_dimension_ vs' = vector_dimension_ vs
         ∧ vectors_ vs' = vectors_ vs
         ∧ metadata_ vs' = metadata_ vs.
Proof.
  intros Henc. unfold encode_all_vectors, encodable in *.
  destruct sq as [q|]; [|by eexists]. destruct (SQ.is_trained q); [|by eexists].
  destruct (map_result_ok (SQ.encode q) (vectors_ vs) Henc) as [encs ->].
  simpl. by eexists.
Qed.
End more_formats.

(** ** save, then load *)

Section round_trip.
Import Hnsw Db.

Lemma records_ok_zip sq vs :
  wf_storage sq vs = true →
  forallb (record_ok sq (vector_dimension_ vs)) (zip (vectors_ vs) (metadata_ vs)) = true.
Proof.
  unfold wf_storage. intros Hvs.
  apply andb_prop in Hvs as [Hvs Hm]. apply andb_prop in Hvs as [_ Hv].
  unfold record_ok.
  exact (forallb_zip
           (fun v => wf_vector (vector_dimension_ vs) v && encodable sq v)
           wf_meta _ _ Hv Hm).
Qed.

Lemma wf_storage_change_sq sq sq' vs :
  wf_storage sq vs = true →
  forallb (encodable sq') (vectors_ vs) = true →
  wf_storage sq' vs = true.
Proof.
  unfold wf_storage. intros Hvs Henc.
  apply andb_prop in Hvs as [Hvs Hm]. apply andb_prop in Hvs as [Hvs Hv].
  rewrite Hvs, Hm. simpl. rewrite andb_true_r.
  clear Hvs Hm. induction (vectors_ vs) as [|v l IH]; simpl in *; [done |].
  apply andb_prop in Hv as [[-> _]%andb_prop Hl].
  apply andb_prop in Henc as [-> Henc]. simpl. by apply IH.
Qed.

(** The records of a storage come back through [read_records]. *)
Lemma write_records_read_records sq vs :
  wf_storage sq vs = true →
  ∃ bs, map_result (write_record vs) (seq 0 (length (vectors_ vs))) = Ok bs
        ∧ ∀ rest,
            ∃ vs1, read_records sq (vector_dimension_ vs) (length (vectors_ vs))
                     (VectorStorage_new (vector_dimension_ vs)) (concat bs ++ rest)
                   = Ok (vs1, rest)
                   ∧ vector_dimension_ vs1 = vector_dimension_ vs
                   ∧ vectors_ vs1 = vectors_ vs
                   ∧ metadata_ vs1 = metadata_ vs.
Proof.
  intros Hvs. pose proof (records_ok_zip sq vs Hvs) as Hok.
  unfold wf_storage in Hvs.
  apply andb_prop in Hvs as [Hvs _]. apply andb_prop in Hvs as [Hvs _].
  apply andb_prop in Hvs as [_ Hlen]. apply Z.eqb_eq in Hlen. unfold size in Hlen.
  assert (Hlen' : length (vectors_ vs) = length (metadata_ vs)) by lia.
  destruct (read_records_app sq (vector_dimension_ vs) _ Hok) as (bs & Hw & Hr).
  exists bs. split.
  - unfold write_record.
    rewrite (map_result_idx2
               (fun vec meta => v ← write_array (vector_dimension_ vs) vec;
                                Ok (v ++ write_meta meta))
               (vectors_ vs) (metadata_ vs) Hlen').
    exact Hw.
  - intros rest.
    destruct (Hr (VectorStorage_new (vector_dimension_ vs)) rest eq_refl)
      as (vs1 & Hr1 & Hd & Hv & Hm).
    exists vs1. rewrite length_zip, <- Hlen', Nat.min_id in Hr1.
    split; [done |]. split; [done |].
    rewrite Hv, Hm. simpl. rewrite fst_zip, snd_zip by lia. done.
Qed.

(** C7.  For a database in a representable state, [save] returns the file,
    whatever the order in which it meets the tombstones, and [load] of that
    file (into any database whose own quantizer, if the file carries none,
    is untrained) succeeds with the same nodes (ids,
    [max_layer]s, adjacency lists in order), vectors, metadata, tombstones,
    [M], [efConstruction], [efSearch], metric and dimension, and with the
    saved quantizer (dimension and bounds) when there is one. *)
Theorem save_then_load_restores_index (db loader : Database) (mode : SyncMode)
    (order : list Z) :
  wf_db db = true →
  read_only_ db = false →
  (sq_ db = None → sq_trained (sq_ loader) = false) →
  iteration_of (deleted_nodes_ (hnsw_ db)) order →
  ∃ bytes db',
    save mode order db = (Ok bytes, db)
    ∧ load (Some bytes) loader = (Ok (), db')
    ∧ nodes (hnsw_ db') = nodes (hnsw_ db)
    ∧ vectors_ (vector_storage (hnsw_ db')) = vectors_ (vector_storage (hnsw_ db))
    ∧ metadata_ (vector_storage (hnsw_ db')) = metadata_ (vector_storage (hnsw_ db))
    ∧ deleted_nodes_ (hnsw_ db') = deleted_nodes_ (hnsw_ db)
    ∧ M (hnsw_ db') = M (hnsw_ db)
    ∧ efConstruction (hnsw_ db') = efConstruction (hnsw_ db)
    ∧ efSearch (hnsw_ db') = efSearch (hnsw_ db)
    ∧ distance_metric (hnsw_ db') = distance_metric (hnsw_ db)
    ∧ vector_dimension_ (vector_storage (hnsw_ db'))
      = vector_dimension_ (vector_storage (hnsw_ db))
    ∧ (∀ q, sq_ db = Some q → sq_ db' = Some q)
    ∧ (sq_ db = None → sq_ db' = sq_ loader).
Proof.
  intros Hwf Hro Hloader Horder.
  destruct db as [path h ro cache sq]. simpl in Hro, Hloader, Horder. subst ro.
  unfold wf_db in Hwf. cbn [hnsw_ sq_] in Hwf.
  apply andb_prop in Hwf as [Hwf Hsq]. apply andb_prop in Hwf as [Hwf Hdel].
  apply andb_prop in Hwf as [Hwf Hvs]. apply andb_prop in Hwf as [Hwf Hns].
  apply andb_prop in Hwf as [Hwf Hnn]. apply andb_prop in Hwf as [Hwf Hmetric].
  apply andb_prop in Hwf as [Hwf HefS]. apply andb_prop in Hwf as [HM HefC].
  apply metric_round_trip in Hmetric as [Hmi Hmr].
  set (sq' := match sq with Some q => Some q | None => sq_ loader end).
  assert (Hvs' : wf_storage sq' (vector_storage h) = true).
  { destruct sq as [q|]; [done |].
    eapply wf_storage_change_sq; [done |].
    apply forallb_Forall, Forall_forall. intros v _.
    by apply encodable_untrained, Hloader. }
  destruct (write_nodes_read_nodes (nodes h) Hns) as (nsb & Hnw & Hnr).
  destruct (write_records_read_records sq' _ Hvs') as (rsb & Hrw & Hrr).
  assert (Hdims : is_size_t (vector_dimension_ (vector_storage h)) = true
                  ∧ is_size_t (size (vectors_ (vector_storage h))) = true).
  { unfold wf_storage in Hvs. repeat (apply andb_prop in Hvs as [Hvs _]).
    unfold wf_storage in Hvs'. apply andb_prop in Hvs' as [Hvs' _].
    apply andb_prop in Hvs' as [Hvs' _]. apply andb_prop in Hvs' as [Hvs' _].
    by apply andb_prop in Hvs'. }
  destruct Hdims as [Hdim Hnv].
  assert (Hsqb : ∃ sqb, match sq with
                        | Some q => b ← sq_save q; Ok (le_bytes 1 1 ++ b)
                        | None => Ok (le_bytes 1 0)
                        end = Ok sqb
                 ∧ ∀ rest, load_quantizer loader (sqb ++ rest)
                           = Ok ((bool_decide (sq ≠ None), sq'), rest)).
  { unfold load_quantizer. destruct sq as [q|].
    - destruct (sq_save_load q Hsq) as (b & -> & Hb).
      eexists. split; [reflexivity |]. intros rest. rewrite <- app_assoc.
      rewrite (reader_bind_Ok _ _ _ _ _ (read_bool_true _)).
      rewrite (reader_bind_Ok _ _ _ (Some q) rest); [done |].
      by rewrite (reader_bind_Ok _ _ _ _ _ (Hb rest)).
    - eexists. split; [reflexivity |]. intros rest.
      by rewrite (reader_bind_Ok _ _ _ _ _ (read_bool_false _)). }
  destruct Hsqb as (sqb & Hsqw & Hsqr).
  destruct (Hrr (write_deleted (deleted_nodes_ h) order)) as (vs1 & Hr1 & Hd1 & Hv1 & Hm1).
  assert (Henc1 : ∃ vs2,
             (if bool_decide (sq ≠ None)
              then lift (encode_all_vectors sq' vs1) else mret vs1)
               (write_deleted (deleted_nodes_ h) order)
             = Ok (vs2, write_deleted (deleted_nodes_ h) order)
             ∧ vector_dimension_ vs2 = vector_dimension_ (vector_storage h)
             ∧ vectors_ vs2 = vectors_ (vector_storage h)
             ∧ metadata_ vs2 = metadata_ (vector_storage h)).
  { case_bool_decide; [|by exists vs1].
    destruct (encode_all_vectors_ok sq' vs1) as (vs2 & He & Hd2 & Hv2 & Hm2).
    - rewrite Hv1. unfold wf_storage in Hvs'.
      apply andb_prop in Hvs' as [Hvs' _]. apply andb_prop in Hvs' as [_ Hv].
      apply forallb_Forall. apply forallb_Forall in Hv.
      eapply Forall_impl; [apply Hv |]. by intros v [_ ?]%andb_prop.
    - exists vs2. unfold lift. rewrite He. split; [done |].
      by rewrite Hd2, Hv2, Hm2. }
  destruct Henc1 as (vs2 & He2 & Hd2 & Hv2 & Hm2).
  eexists. eexists. split; [|split].
  - unfold save. cbn [read_only_]. unfold save_bytes. cbn [hnsw_ sq_].
    rewrite Hsqw, Hnw, Hrw. reflexivity.
  - unfold load, load_from.
    rewrite (reader_bind_Ok _ _ _ _ _ (Hsqr _)).
    unfold load_index.
    rewrite (reader_bind_Ok _ _ _ _ _ (read_int32_app _ _ HM)).
    rewrite (reader_bind_Ok _ _ _ _ _ (read_int32_app _ _ HefC)).
    rewrite (reader_bind_Ok _ _ _ _ _ (read_int32_app _ _ HefS)).
    rewrite (reader_bind_Ok _ _ _ _ _ (read_int32_app _ _ Hmi)).
    rewrite (reader_bind_Ok _ _ _ _ _ (read_size_t_app _ _ Hnn)).
    unfold size at 1. rewrite Nat2Z.id.
    rewrite (reader_bind_Ok _ _ _ _ _ (Hnr _)).
    rewrite (reader_bind_Ok _ _ _ _ _ (read_size_t_app _ _ Hnv)).
    rewrite (reader_bind_Ok _ _ _ _ _ (read_size_t_app _ _ Hdim)).
    unfold size at 1. rewrite Nat2Z.id.
    rewrite (reader_bind_Ok _ _ _ _ _ Hr1).
    rewrite (reader_bind_Ok _ _ _ _ _ He2).
    rewrite <- (app_nil_r (write_deleted (deleted_nodes_ h) order)).
    rewrite (reader_bind_Ok _ _ _ _ _ (read_deleted_app _ _ _ Horder Hdel)).
    unfold mret, reader_ret. reflexivity.
  - cbn [hnsw_ sq_ of_parts nodes vector_storage deleted_nodes_ M efConstruction
           efSearch distance_metric].
    rewrite Hmr, Hv2, Hm2, Hd2.
    repeat split; try done.
    + by intros q [= ->].
    + by intros ->.
Qed.
End round_trip.

Lemma save_then_load_witness :
  (Db.wf_db Examples.last_deleted_db = true
   ∧ ∃ bytes db',
       Db.save Db.FULL [1] Examples.last_deleted_db = (Ok bytes, Examples.last_deleted_db)
       ∧ Db.load (Some bytes) Examples.loader = (Ok (), db')
       ∧ Hnsw.nodes (Db.hnsw_ db') = Hnsw.nodes (Db.hnsw_ Examples.last_deleted_db)
       ∧ Hnsw.deleted_nodes_ (Db.hnsw_ db')
         = Hnsw.deleted_nodes_ (Db.hnsw_ Examples.last_deleted_db))
  ∧ (Db.wf_db Examples.quantized_db = true
     ∧ ∃ bytes db',
         Db.save Db.FULL [] Examples.quantized_db = (Ok bytes, Examples.quantized_db)
         ∧ Db.load (Some bytes) Examples.loader = (Ok (), db')
         ∧ Db.sq_ db' = Db.sq_ Examples.quantized_db).
Proof.
  split.
  - assert (Hwf : Db.wf_db Examples.last_deleted_db = true) by (vm_compute; reflexivity).
    split; [exact Hwf |].
    assert (Hord : Db.iteration_of
                     (Hnsw.deleted_nodes_ (Db.hnsw_ Examples.last_deleted_db)) [1]).
    { unfold Db.iteration_of.
      replace (elements (Hnsw.deleted_nodes_ (Db.hnsw_ Examples.last_deleted_db)))
        with [1] by (vm_compute; reflexivity).
      reflexivity. }
    destruct (save_then_load_restores_index Examples.last_deleted_db Examples.loader
                Db.FULL [1] Hwf eq_refl (fun _ => eq_refl) Hord)
      as (bytes & db' & Hs & Hl & Hn & _ & _ & Hd & _).
    exists bytes, db'. by repeat split.
  - assert (Hwf : Db.wf_db Examples.quantized_db = true) by (vm_compute; reflexivity).
    split; [exact Hwf |].
    assert (Hsq : ∃ q, Db.sq_ Examples.quantized_db = Some q)
      by (eexists; vm_compute; reflexivity).
    destruct Hsq as [q Hq].
    assert (Hord : Db.iteration_of
                     (Hnsw.deleted_nodes_ (Db.hnsw_ Examples.quantized_db)) []).
    { unfold Db.iteration_of.
      replace (elements (Hnsw.deleted_nodes_ (Db.hnsw_ Examples.quantized_db)))
        with (@nil Z) by (vm_compute; reflexivity).
      reflexivity. }
    destruct (save_then_load_restores_index Examples.quantized_db Examples.loader
                Db.FULL [] Hwf eq_refl)
      as (bytes & db' & Hs & Hl & _ & _ & _ & _ & _ & _ & _ & _ & _ & Hsq & _);
      [rewrite Hq; discriminate | exact Hord |].
    exists bytes, db'. repeat split; [done | done |].
    rewrite Hq. by apply Hsq.
Defined.

(** ** Saving an untrained quantizer *)

Lemma read_list_length {A} (r : Db.reader A) n s xs rest :
  Db.read_list n r s = Ok (xs, rest) → length xs = n.
Proof.
  revert s xs rest. induction n as [|n IH]; intros s xs rest; simpl.
  - by intros [= <- _].
  - unfold mbind, Db.reader_bind.
    destruct (r s) as [[x s1]|]; [|done].
    destruct (Db.read_list n r s1) as [[xs' s2]|] eqn:E; [|done].
    intros [= <- _]. simpl. f_equal. exact (IH _ _ _ E).
Qed.

(** What [ScalarQuantizer::load] returns has one bound per dimension. *)
Lemma sq_load_bounds s q rest :
  Db.sq_load s = Ok (q, rest) →
  length (SQ.mins_ q) = Z.to_nat (SQ.original_dim_ q)
  ∧ length (SQ.maxs_ q) = Z.to_nat (SQ.original_dim_ q).
Proof.
  unfold Db.sq_load, mbind, Db.reader_bind.
  destruct (Db.read_size_t s) as [[d s1]|]; [|done].
  destruct (Db.read_list (Z.to_nat d) Db.read_uint32 s1) as [[mins s2]|] eqn:E1; [|done].
  destruct (Db.read_list (Z.to_nat d) Db.read_uint32 s2) as [[maxs s3]|] eqn:E2; [|done].
  intros [= <- _]. simpl.
  split; by eapply read_list_length.
Qed.

(** C7, the code at a failing input.  [untrained_sq_db] was built with the
    quantizer enabled and holds one vector; the quantizer has dimension 1 and
    no bounds yet.  [save] reaches [ScalarQuantizer::save], which writes one
    float from each of the empty [mins_] and [maxs_]: an out-of-bounds read.
    And whatever a file holds, the quantizer [ScalarQuantizer::load] builds
    from it has as many bounds as its dimension, so none restores this one. *)
Theorem save_untrained_quantizer_reads_out_of_bounds :
  Db.sq_ Examples.untrained_sq_db = Some (SQ.new 1)
  ∧ Hnsw.vectors_ (Hnsw.vector_storage (Db.hnsw_ Examples.untrained_sq_db))
    = [[Examples.f_one]]
  ∧ Db.read_only_ Examples.untrained_sq_db = false
  ∧ (∀ order, Db.save Db.FULL order Examples.untrained_sq_db
               = (Err UndefinedBehaviour, Examples.untrained_sq_db))
  ∧ ∀ s q rest, Db.sq_load s = Ok (q, rest) → q ≠ SQ.new 1.
Proof.
  split; [vm_compute; reflexivity |]. split; [vm_compute; reflexivity |].
  split; [vm_compute; reflexivity |]. split; [intros order; vm_compute; reflexivity |].
  intros s q rest [Hmins _]%sq_load_bounds ->. simpl in Hmins. discriminate.
Qed.

(** * Further properties of the code *)

(** ** What [insert] appends and what it leaves alone *)

Section insert_effect.
Import Hnsw.

Lemma update_neighbors_length ns i layer f ns' :
  update_neighbors ns i layer f = Ok ns' → length ns' = length ns.
Proof.
  unfold update_neighbors. intros H.
  apply bind_Ok in H as (n & _ & H). apply bind_Ok in H as (l & _ & [= <-]).
  apply length_insert.
Qed.

Lemma prune_params sq neighbor_id layer h h' :
  prune sq neighbor_id layer h = Ok h' → params h' = params h.
Proof.
  unfold prune. intros H.
  apply bind_Ok in H as (n & _ & H). apply bind_Ok in H as (l & _ & H).
  destruct (to_size_t (M h) <? size l); [|by injection H as <-].
  apply bind_Ok in H as (own & _ & H). apply bind_Ok in H as ([d i] & _ & H).
  destruct (i =? -1); [by injection H as <- |].
  by apply bind_Ok in H as (ns & _ & [= <-]).
Qed.

Lemma connect_params sq new_node_id layer h neighbor_id h' :
  connect sq new_node_id layer h neighbor_id = Ok h' → params h' = params h.
Proof.
  unfold connect. intros H.
  apply bind_Ok in H as (ns1 & _ & H). apply bind_Ok in H as (ns2 & _ & H).
  by apply prune_params in H as ->.
Qed.

Lemma connect_all_params sq new_node_id layer ns h h' :
  connect_all sq new_node_id layer ns h = Ok h' → params h' = params h.
Proof.
  revert h. induction ns as [|n ns IH]; intros h; simpl.
  - by intros [= <-].
  - intros H. apply bind_Ok in H as (h1 & H1 & H).
    apply IH in H as ->. by eapply connect_params.
Qed.

Lemma insert_link_params sq vec new_node_id count layer cur h h' :
  insert_link sq vec new_node_id count layer cur h = Ok h' → params h' = params h.
Proof.
  revert layer cur h. induction count as [|count IH]; intros layer cur h; simpl.
  - by intros [= <-].
  - intros H. apply bind_Ok in H as (found & _ & H).
    destruct found as [|first rest]; [by eapply IH |].
    apply bind_Ok in H as (h1 & H1 & H).
    apply IH in H as ->. by eapply connect_all_params.
Qed.

Lemma insert_graph_params sq vec new_node_id new_node_layer h h' :
  insert_graph sq vec new_node_id new_node_layer h = Ok h' → params h' = params h.
Proof.
  unfold insert_graph. intros H.
  apply bind_Ok in H as (ep & _ & H). apply bind_Ok in H as (cur & _ & H).
  apply bind_Ok in H as (h1 & H1 & H). apply insert_link_params in H1 as <-.
  apply bind_Ok in H as (ep' & _ & H).
  destruct (Node.max_layer ep' <? new_node_layer); by injection H as <-.
Qed.

Lemma add_vector_spec sq vec meta vs vs' :
  add_vector sq vec meta vs = Ok vs' →
  size vec = vector_dimension_ vs
  ∧ vector_dimension_ vs' = vector_dimension_ vs
  ∧ vectors_ vs' = vectors_ vs ++ [vec]
  ∧ metadata_ vs' = metadata_ vs ++ [meta].
Proof.
  unfold add_vector. destruct (size vec =? vector_dimension_ vs) eqn:E; [|done].
  apply Z.eqb_eq in E. simpl.
  destruct sq as [q|]; [destruct (SQ.is_trained q) |]; try by intros [= <-].
  intros H. by apply bind_Ok in H as (enc & _ & [= <-]).
Qed.

(** A successful [insert] appends one vector, one metadata record and one
    node, and leaves the rest of the index alone. *)
Lemma insert_Ok_inv sq new_node_layer vec meta h h' id :
  insert sq new_node_layer vec meta h = (Ok id, h') →
  id = to_uint32 (size (vectors_ (vector_storage h)))
  ∧ size vec = vector_dimension_ (vector_storage h)
  ∧ vector_dimension_ (vector_storage h') = vector_dimension_ (vector_storage h)
  ∧ vectors_ (vector_storage h') = vectors_ (vector_storage h) ++ [vec]
  ∧ metadata_ (vector_storage h') = metadata_ (vector_storage h) ++ [meta]
  ∧ keys h' = keys h ++ [(id, new_node_layer)]
  ∧ deleted_nodes_ h' = deleted_nodes_ h
  ∧ params h' = params h.
Proof.
  unfold insert.
  destruct (add_vector sq vec meta (vector_storage h)) as [vs|] eqn:Hadd; [|done].
  apply add_vector_spec in Hadd as (Hdim & Hd & Hv & Hm).
  unfold Node.new. destruct (new_node_layer + 1 <? 0); [done |].
  set (nid := to_uint32 (size (vectors_ (vector_storage h)))).
  set (node := Node.mk nid new_node_layer _).
  set (h2 := set_nodes (set_vector_storage h vs) _).
  assert (Hk2 : keys h2 = keys h ++ [(nid, new_node_layer)])
    by (unfold keys, h2; simpl; by rewrite map_app).
  destruct (entry_point_id h2 =? -1).
  - intros [= <- <-]. by repeat split.
  - destruct (insert_graph sq vec nid new_node_layer h2) as [h3|] eqn:Hg; [|done].
    intros [= <- <-].
    pose proof (insert_graph_params _ _ _ _ _ _ Hg) as Hp.
    apply insert_graph_spec in Hg as (Hk3 & Hv3 & Hd3 & _).
    rewrite Hk3, Hv3, Hd3, Hp. by repeat split.
Qed.

(** X1.  On a writable database a successful [Database::insert] returns the
    number of vectors stored before the call as the new id, has checked the
    vector's dimension, appends the vector, its metadata and one node
    [(id, drawn level)] at the end, and leaves every stored vector, every
    metadata record, the id and layer of every node, the deleted set, the
    parameters of the index and the quantizer as they were. *)
Theorem db_insert_appends_one_record
    (new_node_layer : Z) (vec : list float) (meta : Metadata)
    (db db' : Db.Database) (id : Z) :
  Db.insert new_node_layer vec meta db = (Ok id, db') →
  let h := Db.hnsw_ db in
  let h' := Db.hnsw_ db' in
  Db.read_only_ db = false
  ∧ id = to_uint32 (size (vectors_ (vector_storage h)))
  ∧ size vec = vector_dimension_ (vector_storage h)
  ∧ vector_dimension_ (vector_storage h') = vector_dimension_ (vector_storage h)
  ∧ vectors_ (vector_storage h') = vectors_ (vector_storage h) ++ [vec]
  ∧ metadata_ (vector_storage h') = metadata_ (vector_storage h) ++ [meta]
  ∧ keys h' = keys h ++ [(id, new_node_layer)]
  ∧ deleted_nodes_ h' = deleted_nodes_ h
  ∧ params h' = params h
  ∧ Db.sq_ db' = Db.sq_ db ∧ Db.read_only_ db' = false.
Proof.
  unfold Db.insert. destruct (Db.read_only_ db) eqn:Hro; [done |].
  destruct (insert (Db.sq_ db) new_node_layer vec meta (Db.hnsw_ db)) as [r h1] eqn:Hi.
  intros [= -> <-]. simpl.
  apply insert_Ok_inv in Hi as (? & ? & ? & ? & ? & ? & ? & ?).
  by repeat split.
Qed.

Lemma db_insert_appends_witness :
  Db.insert 0 [Examples.f_three] {["type" := "c"]} Examples.two_layers_db
  = (Ok 2, Examples.three_db)
  ∧ vectors_ (vector_storage (Db.hnsw_ Examples.three_db))
    = vectors_ (vector_storage (Db.hnsw_ Examples.two_layers_db)) ++ [[Examples.f_three]]
  ∧ keys (Db.hnsw_ Examples.three_db)
    = keys (Db.hnsw_ Examples.two_layers_db) ++ [(2, 0)].
Proof.
  assert (H : Db.insert 0 [Examples.f_three] {["type" := "c"]} Examples.two_layers_db
              = (Ok 2, Examples.three_db)) by (vm_compute; reflexivity).
  split; [exact H |].
  destruct (db_insert_appends_one_record _ _ _ _ _ _ H)
    as (_ & _ & _ & _ & Hv & _ & Hk & _).
  split; [exact Hv | exact Hk].
Defined.
End insert_effect.

(** ** Tombstones *)

Section tombstones.
Import Hnsw.

Lemma mark_deleted_deleted id h :
  deleted_nodes_ (mark_deleted id h) = {[id]} ∪ deleted_nodes_ h.
Proof. unfold mark_deleted. by destruct (_ =? _). Qed.

Lemma run_ops_deleted_mono sq ops h h' :
  run_ops sq ops h = Ok h' → deleted_nodes_ h ⊆ deleted_nodes_ h'.
Proof.
  revert h. induction ops as [|[lvl vec meta | id] ops IH]; intros h; simpl.
  - by intros [= <-].
  - destruct (insert sq lvl vec meta h) as [[nid|] h1] eqn:Hi; [|done].
    apply insert_Ok_inv in Hi as (_ & _ & _ & _ & _ & _ & Hd & _).
    intros H%IH. by rewrite Hd in H.
  - intros H%IH. rewrite mark_deleted_deleted in H.
    intros x Hx. apply H, elem_of_union. by right.
Qed.

Lemma k_nearest_neighbors_live h sq query k filter include r :
  k_nearest_neighbors h sq query k filter include = Ok r →
  Forall (live_result h) r.
Proof.
  unfold k_nearest_neighbors. destruct (entry_point_id h =? -1).
  { by intros [= <-]. }
  intros H. apply bind_Ok in H as (ep & _ & H).
  apply bind_Ok in H as (cur & _ & H).
  apply bind_Ok in H as (ids & _ & H).
  apply collect_results_spec in H as [Hlive _]. by apply Hlive.
Qed.

(** X2.  Once [mark_deleted(id)] has run, no later query returns [id],
    whatever inserts and further deletions come in between: the deleted set
    only grows, and [k_nearest_neighbors] skips its members. *)
Theorem deleted_id_is_never_returned
    (sq : option SQ.ScalarQuantizer) (id : Z) (ops : list op) (h h' : HNSW)
    (query : list float) (k : Z) (filter : FilterFunc) (include : list Include)
    (r : list QueryResult.t) :
  run_ops sq ops (mark_deleted id h) = Ok h' →
  k_nearest_neighbors h' sq query k filter include = Ok r →
  id ∈ deleted_nodes_ h'
  ∧ Forall (fun x => to_uint32 (QueryResult.id x) ≠ id) r.
Proof.
  intros Hops Hq.
  assert (Hin : id ∈ deleted_nodes_ h').
  { apply (run_ops_deleted_mono _ _ _ _ Hops). rewrite mark_deleted_deleted.
    apply elem_of_union. left. by apply elem_of_singleton. }
  split; [done |].
  apply k_nearest_neighbors_live in Hq.
  eapply Forall_impl; [exact Hq |]. intros x Hx Heq. apply Hx. by rewrite Heq.
Qed.

Lemma deleted_id_witness :
  run_ops None [Insert 0 [Examples.f_two] ∅; MarkDeleted 0]
          (mark_deleted 1 Examples.line3) = Ok Examples.line3_edited
  ∧ ∃ r, k_nearest_neighbors Examples.line3_edited None [Examples.f_two] 4 None [ID]
         = Ok r
         ∧ map QueryResult.id r = [3; 2]
         ∧ 1 ∈ deleted_nodes_ Examples.line3_edited
         ∧ Forall (fun x => to_uint32 (QueryResult.id x) ≠ 1) r.
Proof.
  assert (H : run_ops None [Insert 0 [Examples.f_two] ∅; MarkDeleted 0]
                      (mark_deleted 1 Examples.line3) = Ok Examples.line3_edited)
    by (vm_compute; reflexivity).
  split; [exact H |].
  eexists. split; [vm_compute; reflexivity |]. split; [reflexivity |].
  apply (deleted_id_is_never_returned None 1 _ _ _ [Examples.f_two] 4 None [ID] _ H).
  vm_compute; reflexivity.
Defined.

(** *** The algebra of [mark_deleted] *)

Lemma mark_deleted_fields id h :
  mark_deleted id h
  = mkHNSW (vector_storage h) (nodes h)
           (if to_uint32 (entry_point_id h) =? id
            then (rescan_entry_point ({[id]} ∪ deleted_nodes_ h) (nodes h)).1
            else entry_point_id h)
           (M h) (efConstruction h) (efSearch h) (distance_metric h)
           ({[id]} ∪ deleted_nodes_ h).
Proof. unfold mark_deleted. by destruct (_ =? _). Qed.

Lemma to_uint32_to_int32 x : to_uint32 (to_int32 x) = to_uint32 x.
Proof.
  unfold to_uint32, to_int32.
  rewrite Zminus_mod_idemp_l. f_equal. lia.
Qed.

(** Tombstoning one more id either leaves the outcome of the rescan alone or
    that outcome was the node now tombstoned; the layer found never grows. *)
Lemma rescan_fold_add (del : gset Z) (b : Z) (ns : list Node.t) (acc acc' : Z * Z) :
  Forall (fun n => is_uint32 (Node.id n) = true) ns →
  acc'.2 ≤ acc.2 → acc' = acc ∨ to_uint32 acc.1 = b →
  let step (d : gset Z) (acc : Z * Z) (node : Node.t) :=
    if bool_decide (Node.id node ∈ d) then acc
    else if acc.2 <? Node.max_layer node
         then (to_int32 (Node.id node), Node.max_layer node) else acc in
  (foldl (step ({[b]} ∪ del)) acc' ns).2 ≤ (foldl (step del) acc ns).2
  ∧ (foldl (step ({[b]} ∪ del)) acc' ns = foldl (step del) acc ns
     ∨ to_uint32 (foldl (step del) acc ns).1 = b).
Proof.
  intros Hids Hle Hcase step. revert acc acc' Hle Hcase.
  induction Hids as [|x ns Hx Hids IH]; intros r r' Hle Hcase; simpl; [done |].
  assert (Hu : to_uint32 (to_int32 (Node.id x)) = Node.id x).
  { rewrite to_uint32_to_int32. apply to_uint32_small.
    unfold is_uint32 in Hx. apply andb_prop in Hx as [H1 H2].
    apply Z.leb_le in H1. apply Z.ltb_lt in H2. lia. }
  apply IH; unfold step.
  - destruct (decide (Node.id x ∈ del)) as [Hd | Hd].
    { rewrite !bool_decide_eq_true_2; [done | done |]. apply elem_of_union. by right. }
    rewrite (bool_decide_eq_false_2 (Node.id x ∈ del)) by done.
    case_bool_decide; destruct (r.2 <? Node.max_layer x) eqn:E;
      try destruct (r'.2 <? Node.max_layer x) eqn:E'; simpl; lia.
  - destruct (decide (Node.id x ∈ del)) as [Hd | Hd].
    { rewrite !bool_decide_eq_true_2; [done | done |]. apply elem_of_union. by right. }
    rewrite (bool_decide_eq_false_2 (Node.id x ∈ del)) by done.
    destruct (decide (Node.id x = b)) as [Hb | Hb].
    + rewrite bool_decide_eq_true_2
        by (apply elem_of_union; left; by apply elem_of_singleton).
      destruct (r.2 <? Node.max_layer x) eqn:E; simpl; [|done].
      right. by rewrite Hu.
    + rewrite bool_decide_eq_false_2
        by (intros [?%elem_of_singleton | ?]%elem_of_union; done).
      destruct (r.2 <? Node.max_layer x) eqn:E, (r'.2 <? Node.max_layer x) eqn:E';
        simpl; try apply Z.ltb_lt in E; try apply Z.ltb_lt in E';
        try apply Z.ltb_ge in E; try apply Z.ltb_ge in E'.
      * by left.
      * lia.
      * destruct Hcase as [Heq | Hcase]; [rewrite Heq in E'; lia | by right].
      * done.
Qed.

Lemma rescan_entry_point_add (del : gset Z) (b : Z) (ns : list Node.t) :
  Forall (fun n => is_uint32 (Node.id n) = true) ns →
  rescan_entry_point ({[b]} ∪ del) ns = rescan_entry_point del ns
  ∨ to_uint32 (rescan_entry_point del ns).1 = b.
Proof.
  intros Hids.
  by destruct (rescan_fold_add del b ns (-1, -1) (-1, -1) Hids) as [_ H];
    [done | by left |].
Qed.

(** X3.  [mark_deleted] is idempotent, and two deletions commute: the index
    reached does not depend on the order in which two ids are tombstoned
    (node ids being values of [uint32_t]). *)
Theorem mark_deleted_idempotent_and_commutative (a b : Z) (h : HNSW) :
  Forall (fun n => is_uint32 (Node.id n) = true) (nodes h) →
  mark_deleted a (mark_deleted a h) = mark_deleted a h
  ∧ mark_deleted a (mark_deleted b h) = mark_deleted b (mark_deleted a h).
Proof.
  intros Hids. split.
  - rewrite (mark_deleted_fields a (mark_deleted a h)), !mark_deleted_fields. simpl.
    assert (Hs : {[a]} ∪ ({[a]} ∪ deleted_nodes_ h) = {[a]} ∪ deleted_nodes_ h)
      by (apply set_eq; intros x; rewrite !elem_of_union; tauto).
    rewrite Hs. f_equal.
    destruct (to_uint32 (entry_point_id h) =? a) eqn:E; simpl; [|by rewrite E].
    by case_match.
  - rewrite (mark_deleted_fields a (mark_deleted b h)),
      (mark_deleted_fields b (mark_deleted a h)), !mark_deleted_fields. simpl.
    assert (Hs : {[a]} ∪ ({[b]} ∪ deleted_nodes_ h) = {[b]} ∪ ({[a]} ∪ deleted_nodes_ h))
      by (apply set_eq; intros x; rewrite !elem_of_union; tauto).
    rewrite Hs. f_equal.
    pose proof (rescan_entry_point_add ({[a]} ∪ deleted_nodes_ h) b (nodes h) Hids)
      as Hab.
    pose proof (rescan_entry_point_add ({[b]} ∪ deleted_nodes_ h) a (nodes h) Hids)
      as Hba.
    rewrite Hs in Hba.
    destruct (to_uint32 (entry_point_id h) =? b) eqn:Eb,
             (to_uint32 (entry_point_id h) =? a) eqn:Ea; simpl; rewrite ?Ea, ?Eb.
    + apply Z.eqb_eq in Ea, Eb. assert (a = b) as -> by congruence. done.
    + destruct (to_uint32 (rescan_entry_point _ _).1 =? a) eqn:E; [done |].
      apply Z.eqb_neq in E. by destruct Hba as [-> | ?].
    + destruct (to_uint32 (rescan_entry_point _ _).1 =? b) eqn:E; [done |].
      apply Z.eqb_neq in E. by destruct Hab as [-> | ?].
    + done.
Qed.

Lemma mark_deleted_commutes_witness :
  Forall (fun n => is_uint32 (Node.id n) = true) (nodes Examples.line3)
  ∧ mark_deleted 0 (mark_deleted 0 Examples.line3) = mark_deleted 0 Examples.line3
  ∧ mark_deleted 0 (mark_deleted 2 Examples.line3)
    = mark_deleted 2 (mark_deleted 0 Examples.line3).
Proof.
  assert (H : Forall (fun n => is_uint32 (Node.id n) = true) (nodes Examples.line3)).
  { apply Forall_forall. intros n Hn.
    apply (forallb_elem (fun n => is_uint32 (Node.id n)) (nodes Examples.line3));
      [vm_compute; reflexivity | exact Hn]. }
  split; [exact H |].
  exact (mark_deleted_idempotent_and_commutative 0 2 Examples.line3 H).
Defined.
End tombstones.

(** ** update_vector *)

Section update.
Import Hnsw.

Lemma insert_deleted_any sq lvl vec meta h :
  deleted_nodes_ (insert sq lvl vec meta h).2 = deleted_nodes_ h.
Proof.
  unfold insert.
  destruct (add_vector sq vec meta (vector_storage h)) as [vs|]; [|done].
  destruct (Node.new _ lvl) as [node|]; [|done].
  destruct (entry_point_id _ =? -1); [done |].
  destruct (insert_graph _ _ _ _ _) as [h3|] eqn:Hg; [|done].
  apply insert_graph_spec in Hg as (_ & _ & Hd & _). simpl. by rewrite Hd.
Qed.

(** X4.  On a writable database [update_vector(id, v, m)] first tombstones
    [id] and then inserts: [id] is in the deleted set in every outcome.  With
    a vector of the wrong dimension the call throws the dimension error
    after the tombstone is set, so the old vector is gone although nothing
    replaced it; on success the new id is the number of vectors stored
    before, and the vector and its metadata are appended. *)
Theorem update_vector_tombstones_then_inserts
    (new_node_layer id : Z) (new_vec : list float) (new_meta : Metadata)
    (db : Db.Database) :
  Db.read_only_ db = false →
  let h := Db.hnsw_ db in
  let out := Db.update_vector new_node_layer id new_vec new_meta db in
  id ∈ deleted_nodes_ (Db.hnsw_ out.2)
  ∧ (size new_vec ≠ vector_dimension_ (vector_storage h) →
     out = (Err DimensionMismatch, Db.set_hnsw db (mark_deleted id h)))
  ∧ (∀ new_id, out.1 = Ok new_id →
       new_id = to_uint32 (size (vectors_ (vector_storage h)))
       ∧ vectors_ (vector_storage (Db.hnsw_ out.2))
         = vectors_ (vector_storage h) ++ [new_vec]
       ∧ metadata_ (vector_storage (Db.hnsw_ out.2))
         = metadata_ (vector_storage h) ++ [new_meta]
       ∧ deleted_nodes_ (Db.hnsw_ out.2) = {[id]} ∪ deleted_nodes_ h).
Proof.
  intros Hro h out. subst h out. set (h := Db.hnsw_ db).
  unfold Db.update_vector, Db.delete_vector.
  rewrite Hro. unfold Db.insert. cbn [Db.read_only_ Db.set_hnsw Db.hnsw_ Db.sq_].
  rewrite Hro. fold h.
  assert (Hvs : vector_storage (mark_deleted id h) = vector_storage h)
    by (unfold mark_deleted; by destruct (_ =? _)).
  pose proof (insert_deleted_any (Db.sq_ db) new_node_layer new_vec new_meta
                (mark_deleted id h)) as Hd.
  destruct (insert (Db.sq_ db) new_node_layer new_vec new_meta (mark_deleted id h))
    as [r h1] eqn:Hi.
  cbn [fst snd Db.hnsw_ Db.set_hnsw] in *.
  rewrite mark_deleted_deleted in Hd.
  split; [|split].
  - rewrite Hd. apply elem_of_union. left. by apply elem_of_singleton.
  - intros Hdim. unfold insert in Hi. rewrite Hvs in Hi.
    rewrite add_vector_mismatch in Hi by done. by injection Hi as <- <-.
  - intros new_id ->.
    apply insert_Ok_inv in Hi as (Hid & _ & _ & Hv & Hm & _).
    rewrite Hvs in Hid, Hv, Hm. done.
Qed.

Lemma update_vector_witness :
  Db.read_only_ Examples.two_layers_db = false
  ∧ 0 ∈ deleted_nodes_ (Db.hnsw_ Examples.updated_db)
  ∧ (Db.update_vector 0 0 [Examples.f_one; Examples.f_two] ∅ Examples.two_layers_db).1
    = Err DimensionMismatch
  ∧ 0 ∈ deleted_nodes_
          (Db.hnsw_ (Db.update_vector 0 0 [Examples.f_one; Examples.f_two] ∅
                                      Examples.two_layers_db).2).
Proof.
  assert (Hro : Db.read_only_ Examples.two_layers_db = false) by reflexivity.
  split; [exact Hro |].
  split.
  - exact (proj1 (update_vector_tombstones_then_inserts 0 0 [Examples.f_three] ∅
                    Examples.two_layers_db Hro)).
  - destruct (update_vector_tombstones_then_inserts 0 0 [Examples.f_one; Examples.f_two] ∅
                Examples.two_layers_db Hro) as (Hin & Hfail & _).
    split; [|exact Hin]. rewrite Hfail; [reflexivity | vm_compute; discriminate].
Defined.
End update.

(** ** The order and the arithmetic of floats *)

Lemma flt_irrefl x : flt x x = false.
Proof.
  unfold flt, SFltb, SFcompare.
  destruct x as [s|s| |s m e]; try done; destruct s; try done;
    rewrite Z.compare_refl;
    change (Pos.compare_cont Eq m m) with (Pos.compare m m);
    by rewrite Pos.compare_refl.
Qed.

Lemma flt_trans x y z : flt x y = true → flt y z = true → flt x z = true.
Proof.
  unfold flt, SFltb, SFcompare.
  destruct x as [sx|sx| |sx mx ex], y as [sy|sy| |sy my ey], z as [sz|sz| |sz mz ez];
    try done;
    repeat match goal with s : bool |- _ => destruct s end; try done;
    change (Pos.compare_cont Eq mx my) with (Pos.compare mx my);
    change (Pos.compare_cont Eq my mz) with (Pos.compare my mz);
    change (Pos.compare_cont Eq mx mz) with (Pos.compare mx mz);
    destruct (Z.compare_spec ex ey), (Z.compare_spec ey ez), (Z.compare_spec ex ez);
    try done; try lia;
    destruct (Pos.compare_spec mx my), (Pos.compare_spec my mz),
             (Pos.compare_spec mx mz); simpl; try done; lia.
Qed.

(** Among floats that are not NaN, "not less than" is transitive. *)
Lemma flt_false_trans x y z :
  is_nan y = false → flt x y = false → flt y z = false → flt x z = false.
Proof.
  unfold flt, SFltb, SFcompare.
  destruct x as [sx|sx| |sx mx ex], y as [sy|sy| |sy my ey], z as [sz|sz| |sz mz ez];
    try done;
    repeat match goal with s : bool |- _ => destruct s end; try done;
    change (Pos.compare_cont Eq mx my) with (Pos.compare mx my);
    change (Pos.compare_cont Eq my mz) with (Pos.compare my mz);
    change (Pos.compare_cont Eq mx mz) with (Pos.compare mx mz);
    destruct (Z.compare_spec ex ey), (Z.compare_spec ey ez), (Z.compare_spec ex ez);
    try done; try lia;
    destruct (Pos.compare_spec mx my), (Pos.compare_spec my mz),
             (Pos.compare_spec mx mz); simpl; try done; lia.
Qed.

Lemma fsub_diag x : is_finite x = true → fsub x x = S754_zero false.
Proof.
  unfold fsub, SFsub. destruct x as [s|s| |s m e]; try done.
  - by destruct s.
  - intros _. by rewrite Z.sub_diag.
Qed.

Lemma feq_zero_zero s : feq (S754_zero s) fzero = true.
Proof. done. Qed.

(** ** The scalar quantizer *)

Section quantizer.

Lemma idx_Some {A} (v : list A) (i : nat) (x : A) : v !! i = Some x → idx v i = Ok x.
Proof. unfold idx. by intros ->. Qed.

Lemma idx_Ok {A} (v : list A) (i : nat) (x : A) : idx v i = Ok x → v !! i = Some x.
Proof. unfold idx. destruct (v !! i); [by intros [= ->] | done]. Qed.

Lemma map_result_Forall2 {A B} (f : A → result B) (l : list A) (r : list B) :
  map_result f l = Ok r → Forall2 (fun x y => f x = Ok y) l r.
Proof.
  revert r. induction l as [|x l IH]; intros r; simpl.
  - intros [= <-]. constructor.
  - intros H. apply bind_Ok in H as (y & Hy & H).
    apply bind_Ok in H as (ys & Hys & [= <-]). constructor; [done | by apply IH].
Qed.

Lemma map_result_total {A B} (f : A → result B) (l : list A) :
  Forall (fun x => ∃ y, f x = Ok y) l → ∃ r, map_result f l = Ok r.
Proof.
  induction 1 as [|x l [y Hy] _ [r IH]]; simpl; [eauto |].
  rewrite Hy, IH. simpl. eauto.
Qed.

(** *** train *)

(** One pass of the inner loop lowers each minimum and raises each maximum
    to the entry of the training vector where that entry is beyond it. *)
Lemma train_step_spec (dim : nat) (mins maxs vec : list float) :
  length mins = dim → length maxs = dim → (dim ≤ length vec)%nat →
  ∃ mins' maxs',
    SQ.train_step dim (mins, maxs) vec = Ok (mins', maxs')
    ∧ length mins' = dim ∧ length maxs' = dim
    ∧ ∀ i lo hi x, mins !! i = Some lo → maxs !! i = Some hi → vec !! i = Some x →
        mins' !! i = Some (if flt (SF_of_bits x) (SF_of_bits lo) then x else lo)
        ∧ maxs' !! i = Some (if flt (SF_of_bits hi) (SF_of_bits x) then x else hi).
Proof.
  intros Hmins Hmaxs Hvec. unfold SQ.train_step.
  assert (Hk : ∀ k, (k ≤ dim)%nat →
    ∃ mins' maxs',
      foldl (fun acc i =>
               '(mins, maxs) ← acc;
               x ← idx vec i;
               lo ← idx mins i;
               let mins' := if flt (SF_of_bits x) (SF_of_bits lo)
                            then <[i := x]> mins else mins in
               hi ← idx maxs i;
               let maxs' := if flt (SF_of_bits hi) (SF_of_bits x)
                            then <[i := x]> maxs else maxs in
               Ok (mins', maxs'))
            (Ok (mins, maxs)) (seq 0 k) = Ok (mins', maxs')
      ∧ length mins' = dim ∧ length maxs' = dim
      ∧ ∀ i lo hi x, mins !! i = Some lo → maxs !! i = Some hi → vec !! i = Some x →
          mins' !! i = Some (if decide (i < k)%nat
                             then if flt (SF_of_bits x) (SF_of_bits lo) then x else lo
                             else lo)
          ∧ maxs' !! i = Some (if decide (i < k)%nat
                               then if flt (SF_of_bits hi) (SF_of_bits x) then x else hi
                               else hi)).
  { induction k as [|k IH]; intros Hle.
    - exists mins, maxs. simpl. repeat split; try done.
    - destruct IH as (m1 & M1 & Hfold & Hl1 & HL1 & Hpt); [lia |].
      rewrite seq_S, foldl_app, Hfold. simpl.
      destruct (lookup_lt_is_Some_2 vec k) as [x Hx]; [lia |].
      destruct (lookup_lt_is_Some_2 mins k) as [lo Hlo]; [lia |].
      destruct (lookup_lt_is_Some_2 maxs k) as [hi Hhi]; [lia |].
      destruct (Hpt k lo hi x Hlo Hhi Hx) as [Hm1 HM1].
      rewrite decide_False in Hm1, HM1 by lia.
      rewrite (idx_Some _ _ _ Hx), (idx_Some _ _ _ Hm1), (idx_Some _ _ _ HM1). simpl.
      eexists _, _. split; [reflexivity |].
      split; [by destruct (flt _ _); rewrite ?length_insert |].
      split; [by destruct (flt _ _); rewrite ?length_insert |].
      intros i lo' hi' x' Hlo' Hhi' Hx'.
      destruct (Hpt i lo' hi' x' Hlo' Hhi' Hx') as [Hmi HMi].
      destruct (decide (i = k)) as [-> | Hne].
      + rewrite Hlo in Hlo'. rewrite Hhi in Hhi'. rewrite Hx in Hx'.
        injection Hlo' as <-. injection Hhi' as <-. injection Hx' as <-.
        rewrite decide_True by lia. rewrite decide_True by lia. split.
        * destruct (flt (SF_of_bits x) (SF_of_bits lo)); [|done].
          apply list_lookup_insert_eq. lia.
        * destruct (flt (SF_of_bits hi) (SF_of_bits x)); [|done].
          apply list_lookup_insert_eq. lia.
      + assert (Hd : ∀ T (a b : T), (if decide (i < S k)%nat then a else b)
                                    = (if decide (i < k)%nat then a else b)).
        { intros T a b. destruct (decide (i < k)%nat), (decide (i < S k)%nat);
            try done; lia. }
        rewrite !Hd. split.
        * destruct (flt (SF_of_bits x) (SF_of_bits lo)); [|done].
          by rewrite list_lookup_insert_ne.
        * destruct (flt (SF_of_bits hi) (SF_of_bits x)); [|done].
          by rewrite list_lookup_insert_ne. }
  destruct (Hk dim) as (m1 & M1 & Hfold & Hl1 & HL1 & Hpt); [lia |].
  exists m1, M1. repeat split; try done.
  - intros. edestruct Hpt as [H' _]; [done.. |].
    rewrite H'. rewrite decide_True; [done |]. apply lookup_lt_Some in H. lia.
  - intros. edestruct Hpt as [_ H']; [done.. |].
    rewrite H'. rewrite decide_True; [done |]. apply lookup_lt_Some in H. lia.
Qed.

Lemma train_fold_spec (dim : nat) (rest seen : list (list float)) (mins maxs : list float) :
  length mins = dim → length maxs = dim →
  Forall (fun v => (dim ≤ length v)%nat) rest →
  encloses mins maxs seen →
  ∃ mins' maxs',
    foldl (fun acc vec => mm ← acc; SQ.train_step dim mm vec) (Ok (mins, maxs)) rest
    = Ok (mins', maxs')
    ∧ length mins' = dim ∧ length maxs' = dim
    ∧ encloses mins' maxs' (seen ++ rest).
Proof.
  revert seen mins maxs.
  induction rest as [|vec rest IH]; intros seen mins maxs Hmins Hmaxs Hrest Henc.
  - exists mins, maxs. rewrite app_nil_r. by split; [|split; [|split]].
  - apply Forall_cons in Hrest as [Hvec Hrest]. simpl.
    destruct (train_step_spec dim mins maxs vec Hmins Hmaxs Hvec)
      as (m1 & M1 & -> & Hl1 & HL1 & Hpt).
    destruct (IH (seen ++ [vec]) m1 M1 Hl1 HL1 Hrest) as (m2 & M2 & Hf & ? & ? & Henc2).
    + intros i lo1 hi1 Hlo1 Hhi1 v x Hv Hx.
      destruct (lookup_lt_is_Some_2 mins i) as [lo Hlo];
        [apply lookup_lt_Some in Hlo1; lia |].
      destruct (lookup_lt_is_Some_2 maxs i) as [hi Hhi];
        [apply lookup_lt_Some in Hhi1; lia |].
      destruct (lookup_lt_is_Some_2 vec i) as [y Hy];
        [apply lookup_lt_Some in Hlo1; lia |].
      destruct (Hpt i lo hi y Hlo Hhi Hy) as [Hm1 HM1].
      rewrite Hlo1 in Hm1. rewrite Hhi1 in HM1.
      injection Hm1 as ->. injection HM1 as ->.
      apply elem_of_app in Hv as [Hv | ->%list_elem_of_singleton].
      * destruct (Henc i lo hi Hlo Hhi v x Hv Hx) as [Hxlo Hhix]. split.
        -- destruct (flt (SF_of_bits y) (SF_of_bits lo)) eqn:E; [|done].
           destruct (flt (SF_of_bits x) (SF_of_bits y)) eqn:E'; [|done].
           by rewrite (flt_trans _ _ _ E' E) in Hxlo.
        -- destruct (flt (SF_of_bits hi) (SF_of_bits y)) eqn:E; [|done].
           destruct (flt (SF_of_bits y) (SF_of_bits x)) eqn:E'; [|done].
           by rewrite (flt_trans _ _ _ E E') in Hhix.
      * rewrite Hy in Hx. injection Hx as <-. split.
        -- destruct (flt (SF_of_bits y) (SF_of_bits lo)) eqn:E;
             [apply flt_irrefl | done].
        -- destruct (flt (SF_of_bits hi) (SF_of_bits y)) eqn:E;
             [apply flt_irrefl | done].
    + exists m2, M2. rewrite <- app_assoc in Henc2. by split; [|split; [|split]].
Qed.

Lemma train_init_spec (dim : nat) (first : list float) :
  (dim ≤ length first)%nat → SQ.train_init dim first = Ok (take dim first).
Proof.
  intros Hle. unfold SQ.train_init.
  rewrite <- (take_drop dim first) at 1.
  pose proof (map_result_idx_offset (fun x => Ok x) [] (take dim first)) as H.
  simpl in H. rewrite length_take_le in H by done.
  assert (Hid : ∀ l : list float, map_result (fun x => Ok x) l = Ok l).
  { induction l as [|x l IH]; simpl; [done | by rewrite IH]. }
  rewrite Hid in H. rewrite <- H.
  assert (Hext : ∀ js, Forall (fun j => (j < dim)%nat) js →
            map_result (idx (take dim first ++ drop dim first)) js
            = map_result (fun i => x ← idx (take dim first) i; Ok x) js).
  { induction 1 as [|j js Hj _ IH]; simpl; [done |]. rewrite IH. f_equal.
    unfold idx. rewrite lookup_app_l by (rewrite length_take_le; lia).
    by destruct (_ !! j). }
  apply Hext. apply Forall_forall. intros j Hj%list_elem_of_In%in_seq. lia.
Qed.

(** X5.  [train] on a non-empty training set whose vectors have at least
    [original_dim_] entries returns; it keeps the dimension and leaves one
    minimum and one maximum per position, so the quantizer is trained exactly
    when its dimension is positive; and no entry of a training vector lies
    below the minimum or above the maximum of its position. *)
Theorem train_bounds_enclose_training_data
    (training_data : list (list float)) (q : SQ.ScalarQuantizer) :
  training_data ≠ [] →
  Forall (fun v => (Z.to_nat (SQ.original_dim_ q) ≤ length v)%nat) training_data →
  ∃ q', SQ.train training_data q = Ok q'
        ∧ SQ.original_dim_ q' = SQ.original_dim_ q
        ∧ length (SQ.mins_ q') = Z.to_nat (SQ.original_dim_ q)
        ∧ length (SQ.maxs_ q') = Z.to_nat (SQ.original_dim_ q)
        ∧ (SQ.is_trained q' = true ↔ 0 < SQ.original_dim_ q)
        ∧ ∀ v i x lo hi, v ∈ training_data → v !! i = Some x →
            SQ.mins_ q' !! i = Some lo → SQ.maxs_ q' !! i = Some hi →
            flt (SF_of_bits x) (SF_of_bits lo) = false
            ∧ flt (SF_of_bits hi) (SF_of_bits x) = false.
Proof.
  intros Hne Hlen. unfold SQ.train.
  destruct training_data as [|first rest] eqn:Hdata; [done |]. rewrite <- Hdata in *.
  set (dim := Z.to_nat (SQ.original_dim_ q)) in *.
  assert (Hfirst : (dim ≤ length first)%nat).
  { rewrite Hdata in Hlen. by apply Forall_cons in Hlen as [? _]. }
  rewrite (train_init_spec dim first Hfirst). cbn [mbind result_bind].
  destruct (train_fold_spec dim training_data [] (take dim first) (take dim first))
    as (mins & maxs & -> & Hl & HL & Henc);
    [by rewrite length_take_le | by rewrite length_take_le | done | |].
  { intros i lo hi _ _ v x Hv. by apply elem_of_nil in Hv. }
  cbn [mbind result_bind]. eexists. split; [reflexivity |]. simpl.
  split; [done |]. split; [done |]. split; [done |]. split; [split |].
  - unfold SQ.is_trained. simpl. intros Ht.
    destruct mins; [by rewrite bool_decide_eq_true_2 in Ht | simpl in Hl; lia].
  - unfold SQ.is_trained. simpl. intros Hpos.
    destruct mins; [simpl in Hl; lia | by rewrite bool_decide_eq_false_2].
  - intros v i x lo hi Hv Hx Hlo Hhi. by eapply (Henc i lo hi Hlo Hhi v x).
Qed.

Lemma train_bounds_witness :
  ∃ q', SQ.train [[Examples.f_two]; [Examples.f_one]; [Examples.f_three]] (SQ.new 1)
        = Ok q'
        ∧ SQ.mins_ q' = [Examples.f_one] ∧ SQ.maxs_ q' = [Examples.f_three]
        ∧ SQ.is_trained q' = true.
Proof.
  destruct (train_bounds_enclose_training_data
              [[Examples.f_two]; [Examples.f_one]; [Examples.f_three]] (SQ.new 1))
    as (q' & Ht & _ & _ & _ & Htr & _); [done | by repeat constructor |].
  exists q'. split; [exact Ht |].
  assert (Hq : q' = SQ.mkSQ 1 [Examples.f_one] [Examples.f_three]).
  { assert (SQ.train [[Examples.f_two]; [Examples.f_one]; [Examples.f_three]] (SQ.new 1)
            = Ok (SQ.mkSQ 1 [Examples.f_one] [Examples.f_three])) as Hc
      by (vm_compute; reflexivity).
    rewrite Hc in Ht. by injection Ht. }
  split; [by rewrite Hq |]. split; [by rewrite Hq |].
  apply Htr. simpl. lia.
Defined.

(** *** encode and decode *)

Lemma map_result_length {A B} (f : A → result B) (l : list A) (r : list B) :
  map_result f l = Ok r → length r = length l.
Proof. intros H%map_result_Forall2. symmetry. by eapply Forall2_length. Qed.

Lemma map_result_ext_in {A B} (f g : A → result B) (l : list A) :
  (∀ x, x ∈ l → f x = g x) → map_result f l = map_result g l.
Proof.
  induction l as [|x l IH]; intros H; simpl; [done |].
  rewrite (H x) by left. rewrite IH; [done |]. intros y Hy. apply H. by right.
Qed.

Lemma map_result_pure {A B} (g : A → B) (l : list A) :
  map_result (fun x => Ok (g x)) l = Ok (map g l).
Proof. induction l as [|x l IH]; simpl; [done | by rewrite IH]. Qed.

Lemma map_const_seq {A} (c : A) (start n : nat) :
  map (fun _ => c) (seq start n) = replicate n c.
Proof. revert start. induction n as [|n IH]; intros start; simpl; [done | by rewrite IH]. Qed.

Lemma round_to_uint8_range x b : round_to_uint8 x = Ok b → 0 ≤ b ≤ 255.
Proof.
  unfold round_to_uint8. destruct (round_half_away x) as [z|]; [|done].
  destruct ((0 <=? z) && (z <=? 255)) eqn:E; [|done].
  intros [= <-]. apply andb_prop in E as [H1 H2]. lia.
Qed.

(** X6.  Whenever [encode] returns, the quantizer is trained and the code has
    exactly [original_dim_] entries, each a value of [uint8_t]; whenever
    [decode] returns, it yields [original_dim_] floats. *)
Theorem codes_have_the_dimension_of_the_quantizer (q : SQ.ScalarQuantizer) :
  (∀ v enc, SQ.encode q v = Ok enc →
     SQ.is_trained q = true
     ∧ length enc = Z.to_nat (SQ.original_dim_ q)
     ∧ Forall (fun b => 0 ≤ b ≤ 255) enc)
  ∧ (∀ c dec, SQ.decode q c = Ok dec →
       SQ.is_trained q = true ∧ length dec = Z.to_nat (SQ.original_dim_ q)).
Proof.
  assert (Htr : SQ.not_trained q = false → SQ.is_trained q = true).
  { unfold SQ.not_trained, SQ.is_trained. by intros [-> _]%orb_false_elim. }
  split.
  - intros v enc. unfold SQ.encode.
    destruct (SQ.not_trained q) eqn:E; [done |]. intros H.
    split; [by apply Htr |]. split.
    + rewrite (map_result_length _ _ _ H). apply length_seq.
    + apply map_result_Forall2 in H.
      induction H as [|i b ixs bs Hb _ IH]; constructor; [|done].
      apply bind_Ok in Hb as (hi & _ & Hb). apply bind_Ok in Hb as (lo & _ & Hb).
      destruct (feq _ fzero); [injection Hb as <-; lia |].
      apply bind_Ok in Hb as (x & _ & Hb). by eapply round_to_uint8_range.
  - intros c dec. unfold SQ.decode.
    destruct (SQ.not_trained q) eqn:E; [done |]. intros H.
    split; [by apply Htr |].
    rewrite (map_result_length _ _ _ H). apply length_seq.
Qed.

(** X7.  Where the minimum and the maximum of a position coincide (finite,
    so that their difference is zero) [encode] writes the code [0] without
    reading the vector, and [decode] returns the minimum whatever the code:
    a quantizer whose bounds coincide everywhere encodes every vector, of
    any length, to zeros and decodes every code to its bounds. *)
Theorem coinciding_bounds_encode_to_zero (q : SQ.ScalarQuantizer) :
  SQ.maxs_ q = SQ.mins_ q → SQ.mins_ q ≠ [] →
  length (SQ.mins_ q) = Z.to_nat (SQ.original_dim_ q) →
  forallb finite_bits (SQ.mins_ q) = true →
  (∀ v, SQ.encode q v = Ok (replicate (Z.to_nat (SQ.original_dim_ q)) 0))
  ∧ (∀ c, SQ.decode q c = Ok (map SF_of_bits (SQ.mins_ q))).
Proof.
  intros Hsame Hne Hlen Hfin.
  assert (Hnt : SQ.not_trained q = false).
  { unfold SQ.not_trained. rewrite Hsame. by rewrite bool_decide_eq_false_2. }
  assert (Hrange : ∀ i lo, SQ.mins_ q !! i = Some lo →
            feq (fsub (SF_of_bits lo) (SF_of_bits lo)) fzero = true).
  { intros i lo Hlo. rewrite fsub_diag; [done |].
    apply (forallb_elem _ _ _ Hfin). by eapply list_elem_of_lookup_2. }
  split.
  - intros v. unfold SQ.encode. rewrite Hnt, Hsame.
    rewrite (map_result_ext_in _ (fun _ => Ok 0)).
    + rewrite map_result_pure. f_equal. apply map_const_seq.
    + intros i Hi%list_elem_of_In%in_seq.
      destruct (lookup_lt_is_Some_2 (SQ.mins_ q) i) as [lo Hlo]; [lia |].
      rewrite (idx_Some _ _ _ Hlo). simpl. by rewrite (Hrange i lo Hlo).
  - intros c. unfold SQ.decode. rewrite Hnt, Hsame.
    rewrite (map_result_ext_in _ (fun i => x ← idx (SQ.mins_ q) i; Ok (SF_of_bits x))).
    + rewrite <- Hlen. rewrite (map_result_idx (fun x => Ok (SF_of_bits x))).
      apply map_result_pure.
    + intros i Hi%list_elem_of_In%in_seq.
      destruct (lookup_lt_is_Some_2 (SQ.mins_ q) i) as [lo Hlo]; [lia |].
      rewrite (idx_Some _ _ _ Hlo). simpl. by rewrite (Hrange i lo Hlo).
Qed.

Lemma coinciding_bounds_witness :
  SQ.encode (SQ.mkSQ 2 [Examples.f_one; Examples.f_two] [Examples.f_one; Examples.f_two])
            [Examples.f_three] = Ok [0; 0]
  ∧ SQ.decode (SQ.mkSQ 2 [Examples.f_one; Examples.f_two] [Examples.f_one; Examples.f_two])
              [7] = Ok (map SF_of_bits [Examples.f_one; Examples.f_two]).
Proof.
  destruct (coinciding_bounds_encode_to_zero
              (SQ.mkSQ 2 [Examples.f_one; Examples.f_two] [Examples.f_one; Examples.f_two]))
    as [He Hd]; [done | done | done | done |].
  split; [apply He | apply Hd].
Defined.
End quantizer.

(** ** The distance kernels *)

Section kernels.
Import Hnsw.

Lemma binary_round_opp s m e :
  binary_round prec32 emax32 (negb s) m e = SFopp (binary_round prec32 emax32 s m e).
Proof.
  unfold binary_round. destruct (shl_align _ _ _) as [mz ez].
  unfold binary_round_aux. destruct (shr_fexp _ _ _ _ _) as [mrs e'].
  destruct (shr_fexp _ _ _ _ _) as [mrs' e''].
  destruct (shr_m mrs'); [done | | done]. by destruct (_ <=? _).
Qed.

Lemma binary_normalize_opp m e :
  m ≠ 0 →
  binary_normalize prec32 emax32 (- m) e false
  = SFopp (binary_normalize prec32 emax32 m e false).
Proof.
  destruct m as [|p|p]; [done | |]; intros _; simpl.
  - apply (binary_round_opp false).
  - apply (binary_round_opp true).
Qed.

Lemma fmul_opp_opp d : fmul (SFopp d) (SFopp d) = fmul d d.
Proof. destruct d as [s|s| |s m e]; try done; by destruct s. Qed.

(** [(x - y) * (x - y)] and [(y - x) * (y - x)] are the same float. *)
Lemma square_diff_sym x y :
  fmul (fsub x y) (fsub x y) = fmul (fsub y x) (fsub y x).
Proof.
  assert (H : fsub y x = SFopp (fsub x y) ∨ fsub y x = fsub x y).
  { unfold fsub, SFsub.
    destruct x as [sx|sx| |sx mx ex], y as [sy|sy| |sy my ey]; simpl;
      try (by left); try (by right);
      try (destruct sx, sy; simpl; by (left + right)).
    rewrite (Z.min_comm ey ex).
    set (a := cond_Zopp sx _). set (b := cond_Zopp sy _).
    destruct (decide (a - b = 0)) as [Hz | Hnz].
    - right. replace (b - a) with 0 by lia. by rewrite Hz.
    - left. replace (b - a) with (- (a - b)) by lia. by apply binary_normalize_opp. }
  destruct H as [-> | ->]; [by rewrite fmul_opp_opp | done].
Qed.

Lemma fmul_comm x y : fmul x y = fmul y x.
Proof.
  unfold fmul, SFmul.
  destruct x as [sx|sx| |sx mx ex], y as [sy|sy| |sy my ey]; try done;
    rewrite ?(xorb_comm sx sy); try done.
  by rewrite Pos.mul_comm, Z.add_comm.
Qed.

Lemma l2_loop_sym a b acc : length a = length b → l2_loop a b acc = l2_loop b a acc.
Proof.
  revert b acc. induction a as [|x a IH]; intros [|y b] acc Hlen; try done.
  simpl. rewrite (square_diff_sym (SF_of_bits x) (SF_of_bits y)).
  apply IH. simpl in Hlen. lia.
Qed.

Lemma inner_product_sym a b acc :
  length a = length b → inner_product a b acc = inner_product b a acc.
Proof.
  revert b acc. induction a as [|x a IH]; intros [|y b] acc Hlen; try done.
  simpl. rewrite (fmul_comm (SF_of_bits x) (SF_of_bits y)).
  apply IH. simpl in Hlen. lia.
Qed.

Lemma l2_loop_ok a b acc :
  is_ok (l2_loop a b acc) = true ↔ (length a ≤ length b)%nat.
Proof.
  revert b acc. induction a as [|x a IH]; intros b acc; simpl.
  - split; [lia | done].
  - destruct b as [|y b]; simpl; [split; [done | lia] |]. rewrite IH. lia.
Qed.

Lemma inner_product_ok a b acc :
  is_ok (inner_product a b acc) = true ↔ (length a ≤ length b)%nat.
Proof.
  revert b acc. induction a as [|x a IH]; intros b acc; simpl.
  - split; [lia | done].
  - destruct b as [|y b]; simpl; [split; [done | lia] |]. rewrite IH. lia.
Qed.

Lemma inner_product_total a b acc :
  (length a ≤ length b)%nat → ∃ d, inner_product a b acc = Ok d.
Proof.
  intros H%(inner_product_ok a b acc).
  destruct (inner_product a b acc); [eauto | done].
Qed.

Lemma calculate_cosine_distance_sym a b :
  length a = length b → calculate_cosine_distance a b = calculate_cosine_distance b a.
Proof.
  intros Hlen. unfold calculate_cosine_distance. rewrite (inner_product_sym a b) by done.
  destruct (inner_product b a fzero) as [d|]; [|done].
  destruct (inner_product_total a a fzero) as [aa ->]; [done |].
  destruct (inner_product_total b b fzero) as [bb ->]; [done |].
  simpl. rewrite (orb_comm (feq (fsqrt bb) fzero)).
  by rewrite (fmul_comm (fsqrt bb)).
Qed.

(** X8.  A distance kernel walks its first argument and reads the second at
    the same positions without a check: [calculate_distance] on two vectors
    returns exactly when the metric is one of the three enumerators and the
    second vector is at least as long as the first; with a shorter second
    vector it reads past the end, and with any other metric value it throws
    "Unknown distance metric.". *)
Theorem distance_defined_iff_second_long_enough
    (metric : DistanceMetric) (a b : list float) :
  (is_ok (calculate_distance_vec metric a b) = true
   ↔ valid_metric metric = true ∧ (length a ≤ length b)%nat)
  ∧ (valid_metric metric = true → (length b < length a)%nat →
     calculate_distance_vec metric a b = Err UndefinedBehaviour)
  ∧ (valid_metric metric = false →
     calculate_distance_vec metric a b = Err UnknownMetric).
Proof.
  assert (Hshort : ∀ acc acc', (length b < length a)%nat →
            l2_loop a b acc = Err UndefinedBehaviour
            ∧ inner_product a b acc' = Err UndefinedBehaviour).
  { revert b. induction a as [|x a IH]; intros b acc acc' Hlt; [simpl in Hlt; lia |].
    destruct b as [|y b]; [done |]. simpl. apply IH. simpl in Hlt. lia. }
  split; [|split].
  - destruct metric; simpl.
    + unfold calculate_l2_distance. rewrite l2_loop_ok. tauto.
    + unfold calculate_cosine_distance. split.
      * intros H. split; [done |].
        destruct (inner_product a b fzero) eqn:E; [|done].
        apply (inner_product_ok a b fzero). by rewrite E.
      * intros [_ H].
        destruct (inner_product_total a b fzero H) as [d ->].
        destruct (inner_product_total a a fzero) as [aa ->]; [done |].
        destruct (inner_product_total b b fzero) as [bb ->]; [done |].
        simpl. by destruct (_ || _).
    + unfold calculate_inner_product_distance. split.
      * intros H. split; [done |].
        destruct (inner_product a b fzero) eqn:E; [|done].
        apply (inner_product_ok a b fzero). by rewrite E.
      * intros [_ H]. by destruct (inner_product_total a b fzero H) as [d ->].
    + split; [done | by intros [? _]].
  - intros Hm Hlt. destruct (Hshort fzero fzero Hlt) as [Hl2 Hip].
    destruct metric; simpl; try done.
    + unfold calculate_cosine_distance. by rewrite Hip.
    + unfold calculate_inner_product_distance. by rewrite Hip.
  - by destruct metric.
Qed.

(** X9.  On two vectors of the same length each of the three metrics is
    symmetric: the distance from [a] to [b] and the distance from [b] to [a]
    are the same float value, or both are NaN.  (Distances are values of
    [spec_float], which has one NaN: which sign and payload bits a NaN
    result carries is not compared.) *)
Theorem distance_is_symmetric (metric : DistanceMetric) (a b : list float) :
  length a = length b →
  calculate_distance_vec metric a b = calculate_distance_vec metric b a.
Proof.
  intros Hlen. destruct metric; simpl; [| | |done].
  - by apply l2_loop_sym.
  - by apply calculate_cosine_distance_sym.
  - unfold calculate_inner_product_distance. by rewrite (inner_product_sym a b).
Qed.

Lemma distance_is_symmetric_witness :
  calculate_distance_vec COSINE [Examples.f_one; Examples.f_two]
                         [Examples.f_three; Examples.f_one]
  = calculate_distance_vec COSINE [Examples.f_three; Examples.f_one]
                           [Examples.f_one; Examples.f_two].
Proof. by apply distance_is_symmetric. Defined.

(** X10.  Under the L2 metric a vector of finite floats is at distance
    exactly [+0] from itself; so the stored copy of a query is at distance
    [+0] in an index without a trained quantizer. *)
Theorem l2_distance_to_itself_is_zero (a : list float) :
  forallb finite_bits a = true →
  calculate_l2_distance a a = Ok fzero
  ∧ ∀ h id, distance_metric h = L2 → get_vector (vector_storage h) id = Ok a →
            calculate_distance h None a id = Ok fzero.
Proof.
  intros Hfin.
  assert (H : calculate_l2_distance a a = Ok fzero).
  { unfold calculate_l2_distance. induction a as [|x a IH]; [done |].
    simpl in Hfin. apply andb_prop in Hfin as [Hx Ha]. simpl.
    rewrite fsub_diag by done. by apply IH. }
  split; [done |].
  intros h id Hm Hv. unfold calculate_distance. rewrite Hv. simpl. by rewrite Hm.
Qed.

Lemma l2_distance_to_itself_witness :
  calculate_l2_distance [Examples.f_one; Examples.f_three] [Examples.f_one; Examples.f_three]
  = Ok fzero.
Proof. by apply l2_distance_to_itself_is_zero. Defined.

(** X11.  The cosine distance from or to a vector whose entries are all
    zero is exactly [1.0f]: the norm compares equal to zero and the division
    is skipped. *)
Theorem cosine_distance_of_zero_vector_is_one (a b : list float) :
  forallb zero_bits a = true → length a = length b →
  calculate_cosine_distance a b = Ok fone
  ∧ calculate_cosine_distance b a = Ok fone.
Proof.
  intros Hzero Hlen.
  assert (Haa : inner_product a a fzero = Ok fzero).
  { clear Hlen. induction a as [|x a IH]; [done |].
    simpl in Hzero. apply andb_prop in Hzero as [Hx Ha]. cbn [inner_product].
    unfold zero_bits in Hx. destruct (SF_of_bits x) as [s| | |]; try done.
    replace (fadd fzero (fmul (S754_zero s) (S754_zero s))) with fzero
      by (by destruct s).
    by apply IH. }
  assert (Hab : calculate_cosine_distance a b = Ok fone).
  { unfold calculate_cosine_distance.
    destruct (inner_product_total a b fzero) as [d ->]; [lia |].
    rewrite Haa.
    destruct (inner_product_total b b fzero) as [bb ->]; [done |]. done. }
  split; [done |].
  by rewrite <- (calculate_cosine_distance_sym a b).
Qed.

Lemma cosine_distance_of_zero_vector_witness :
  calculate_cosine_distance [0; 0] [Examples.f_one; Examples.f_two] = Ok fone
  ∧ calculate_cosine_distance [Examples.f_one; Examples.f_two] [0; 0] = Ok fone.
Proof. by apply cosine_distance_of_zero_vector_is_one. Defined.
End kernels.

(** ** What search_layer returns *)

Section pq_order.
Import Hnsw.

Lemma flt_asym x y : flt x y = true → flt y x = false.
Proof.
  intros H. destruct (flt y x) eqn:E; [|done].
  pose proof (flt_irrefl x) as Hx. by rewrite (flt_trans _ _ _ H E) in Hx.
Qed.

Lemma cand_lt_asym a b : cand_lt a b = true → cand_lt b a = false.
Proof.
  unfold cand_lt. intros [H | [H1 H2]%andb_prop]%orb_prop.
  - rewrite (flt_asym _ _ H), H. done.
  - apply negb_true_iff in H1. rewrite H1. simpl.
    apply Z.ltb_lt in H2. destruct (flt a.1 b.1); simpl; [done |].
    apply Z.ltb_ge. lia.
Qed.

Lemma cand_lt_trans a b c :
  is_nan a.1 = false → is_nan b.1 = false → is_nan c.1 = false →
  cand_lt a b = true → cand_lt b c = true → cand_lt a c = true.
Proof.
  unfold cand_lt. intros Ha Hb Hc Hab Hbc.
  apply orb_prop in Hab as [Hab | [Hab1 Hab2]%andb_prop];
    apply orb_prop in Hbc as [Hbc | [Hbc1 Hbc2]%andb_prop].
  - by rewrite (flt_trans _ _ _ Hab Hbc).
  - apply negb_true_iff in Hbc1.
    destruct (flt a.1 c.1) eqn:E; [done |].
    by rewrite (flt_false_trans _ _ _ Hc E Hbc1) in Hab.
  - apply negb_true_iff in Hab1.
    destruct (flt a.1 c.1) eqn:E; [done |].
    by rewrite (flt_false_trans _ _ _ Ha Hab1 E) in Hbc.
  - apply negb_true_iff in Hab1, Hbc1.
    rewrite (flt_false_trans _ _ _ Hb Hbc1 Hab1). simpl.
    apply Z.ltb_lt in Hab2, Hbc2.
    destruct (flt a.1 c.1); simpl; [done |]. apply Z.ltb_lt. lia.
Qed.

(** Without NaN distances the top of the max-heap is beaten by no other
    element. *)
Lemma pq_extract_top (q : list Candidate) t r :
  Forall (fun c => is_nan c.1 = false) q →
  pq_extract cand_lt q = Some (t, r) →
  Forall (fun z => cand_lt t z = false) r.
Proof.
  revert t r. induction q as [|x q IH]; intros t r Hq; simpl; [done |].
  apply Forall_cons in Hq as [Hx Hq].
  destruct (pq_extract cand_lt q) as [[y r']|] eqn:E.
  - pose proof (pq_extract_perm _ _ _ _ E) as Hperm.
    specialize (IH y r' Hq eq_refl).
    assert (Hy : is_nan y.1 = false).
    { rewrite Hperm in Hq. by apply Forall_cons in Hq as [? _]. }
    destruct (cand_lt y x) eqn:Hyx; intros [= <- <-].
    + rewrite Hperm. constructor; [by apply cand_lt_asym |].
      apply Forall_forall. intros z Hz.
      destruct (cand_lt x z) eqn:Hxz; [|done].
      assert (Hzn : is_nan z.1 = false).
      { rewrite Hperm in Hq. apply Forall_cons in Hq as [_ Hq].
        by eapply Forall_forall in Hq. }
      eapply Forall_forall in IH; [|done].
      by rewrite (cand_lt_trans _ _ _ Hy Hx Hzn Hyx Hxz) in IH.
    + by constructor.
  - intros [= <- <-]. constructor.
Qed.

Lemma pq_drain_sorted (q : list Candidate) :
  Forall (fun c => is_nan c.1 = false) q →
  StronglySorted (fun a b => cand_lt a b = false) (pq_drain cand_lt q).
Proof.
  unfold pq_drain. generalize (le_n (length q)).
  generalize (length q) at 2 3 as n.
  intros n. revert q. induction n as [|n IH]; intros q Hn Hq; simpl; [constructor |].
  destruct (pq_extract cand_lt q) as [[t r]|] eqn:E; [|constructor].
  pose proof (pq_extract_perm _ _ _ _ E) as Hperm.
  pose proof (pq_extract_length _ _ _ _ E) as Hlen.
  pose proof (pq_extract_top q t r Hq E) as Htop.
  rewrite Hperm in Hq. apply Forall_cons in Hq as [_ Hr].
  constructor; [apply IH; [lia | done] |].
  by rewrite (pq_drain_fuel_perm cand_lt n r) by lia.
Qed.

Lemma StronglySorted_reverse {A} (R : A → A → Prop) (l : list A) :
  StronglySorted R l → StronglySorted (flip R) (reverse l).
Proof.
  induction 1 as [|x l Hl IH Hx]; [constructor |].
  rewrite reverse_cons. apply StronglySorted_app_2; [|done | repeat constructor].
  intros a b Ha ->%list_elem_of_singleton. rewrite elem_of_reverse in Ha.
  exact (proj1 (Forall_forall _ _) Hx a Ha).
Qed.
End pq_order.

Section search_results.
Import Hnsw.
Context (h : HNSW) (sq : option SQ.ScalarQuantizer).
Context (query : list float) (ef layer_level : Z) (filter : FilterFunc) (ep : Z).

Local Abbreviation found := (found h sq query layer_level filter ep).

(** The invariant of the result queue. *)
Local Abbreviation results_inv st :=
  (Forall found (result_queue st)
   ∧ NoDup (result_queue st).*2
   ∧ (∀ c, c ∈ result_queue st → c.2 ∈ visited_nodes st)
   ∧ size (result_queue st) ≤ Z.max 1 (to_size_t ef)).

Lemma pq_pop_submseteq less (q : list Candidate) : pq_pop less q ⊆+ q.
Proof.
  unfold pq_pop. destruct (pq_extract less q) as [[t r]|] eqn:E.
  - rewrite (pq_extract_perm _ _ _ _ E). by apply submseteq_cons.
  - apply submseteq_nil_l.
Qed.

Lemma trim_results_submseteq rq : trim_results ef rq ⊆+ rq.
Proof.
  unfold trim_results. induction (Z.to_nat _) as [|n IH]; simpl; [done |].
  etrans; [apply pq_pop_submseteq | done].
Qed.

Lemma NoDup_fmap_submseteq {A B} (f : A → B) (l1 l2 : list A) :
  l1 ⊆+ l2 → NoDup (f <$> l2) → NoDup (f <$> l1).
Proof.
  intros Hsub Hnd. apply (fmap_submseteq f) in Hsub.
  apply submseteq_Permutation in Hsub as [k Hk]. rewrite Hk in Hnd.
  by apply NoDup_app in Hnd as [? _].
Qed.

Lemma visit_neighbor_inv st n st' :
  visit_neighbor h sq query ef filter st n = Ok st' →
  n ∈ layer_edges h layer_level →
  results_inv st → results_inv st'.
Proof.
  unfold visit_neighbor. intros Hv Hn (Hf & Hnd & Hvis & Hsize).
  case_bool_decide as Hseen; [by simplify_eq |].
  assert (Hkeep : ∀ c, c ∈ result_queue st → c.2 ∈ {[n]} ∪ visited_nodes st).
  { intros c Hc. apply elem_of_union. right. by apply Hvis. }
  destruct (is_deleted h n) eqn:Hdel; [by simplify_eq |].
  apply bind_Ok in Hv as (d & Hd & Hv).
  apply bind_Ok in Hv as (closer & _ & Hv).
  destruct closer; [|by simplify_eq].
  apply bind_Ok in Hv as (acc & Hacc & [= <-]). simpl.
  set (rq := if acc then (d, n) :: result_queue st else result_queue st).
  assert (Hrq : Forall found rq ∧ NoDup rq.*2
                ∧ ∀ c, c ∈ rq → c.2 ∈ {[n]} ∪ visited_nodes st).
  { unfold rq. destruct acc; [|done]. split; [|split].
    - constructor; [|done]. by repeat split; [| | | right].
    - rewrite fmap_cons. apply NoDup_cons. split; [|done]. simpl.
      intros [c [-> Hc]]%list_elem_of_fmap. by apply Hseen, Hvis.
    - intros c [-> | Hc]%elem_of_cons; [|by apply Hkeep].
      apply elem_of_union. left. by apply elem_of_singleton. }
  destruct Hrq as (Hf' & Hnd' & Hvis').
  pose proof (trim_results_submseteq rq) as Hsub.
  split; [|split; [|split]].
  - apply Forall_forall. intros c Hc.
    eapply Forall_forall; [exact Hf' |]. by eapply elem_of_submseteq.
  - by eapply NoDup_fmap_submseteq.
  - intros c Hc. apply Hvis'. by eapply elem_of_submseteq.
  - rewrite trim_results_size. lia.
Qed.

Lemma visit_neighbors_inv ns st st' :
  visit_neighbors h sq query ef filter ns st = Ok st' →
  ns ⊆ layer_edges h layer_level →
  results_inv st → results_inv st'.
Proof.
  revert st. induction ns as [|n ns IH]; intros st; simpl.
  - by intros [= <-].
  - intros Hv Hsub Hinv. apply bind_Ok in Hv as (st1 & H1 & Hv).
    apply (IH _ Hv); [intros x Hx; apply Hsub; by right |].
    eapply visit_neighbor_inv; [done | apply Hsub; left | done].
Qed.

Lemma search_loop_inv fuel st st' :
  search_loop h sq query ef layer_level filter fuel st = Ok st' →
  results_inv st → results_inv st'.
Proof.
  revert st. induction fuel as [|fuel IH]; intros st; simpl; [done |].
  destruct (pq_extract cand_gt (candidate_queue st)) as [[cur cq]|];
    [|by intros [= <-]].
  intros Hl Hinv. apply bind_Ok in Hl as (stop & _ & Hl).
  destruct stop; [by injection Hl as <- |].
  apply bind_Ok in Hl as (ns & Hns & Hl). apply bind_Ok in Hl as (st2 & Hv & Hl).
  apply (IH _ Hl). eapply visit_neighbors_inv; [done | | done].
  by eapply neighbors_at_edges.
Qed.

(** The result queue behind an answer of [search_layer]. *)
Lemma search_layer_results r :
  search_layer h sq query ef layer_level filter ep = Ok r →
  ∃ rq, r = final_results rq
        ∧ Forall found rq ∧ NoDup rq.*2 ∧ size rq ≤ Z.max 1 (to_size_t ef).
Proof.
  unfold search_layer. intros H.
  apply bind_Ok in H as (st0 & H0 & H). apply bind_Ok in H as (st & Hl & [= <-]).
  exists (result_queue st). split; [done |].
  assert (Hinv0 : results_inv st0).
  { unfold search_init in H0. apply bind_Ok in H0 as (d & Hd & H0).
    destruct (is_deleted h ep) eqn:Hdel.
    { injection H0 as <-. simpl. repeat split; try constructor.
      - intros c Hc. by apply elem_of_nil in Hc.
      - unfold size. simpl. lia. }
    apply bind_Ok in H0 as (acc & Hacc & [= <-]). simpl.
    destruct acc; simpl.
    - split; [|split; [|split]].
      + constructor; [|done]. by repeat split; [| | | left].
      + repeat constructor. by intros ?%elem_of_nil.
      + intros c ->%list_elem_of_singleton. by apply elem_of_singleton.
      + unfold size. simpl. lia.
    - repeat split; try constructor.
      + intros c Hc. by apply elem_of_nil in Hc.
      + unfold size. simpl. lia. }
  destruct (search_loop_inv _ _ _ Hl Hinv0) as (? & ? & _ & ?). done.
Qed.

Lemma final_results_perm rq : final_results rq ≡ₚ rq.*2.
Proof.
  unfold final_results. rewrite reverse_Permutation.
  change (map snd (pq_drain cand_lt rq)) with ((pq_drain cand_lt rq).*2).
  by rewrite (pq_drain_perm cand_lt rq).
Qed.

Lemma search_layer_nearer_first rq :
  no_nan_distance h sq query → Forall found rq →
  nearer_first h sq query (final_results rq).
Proof.
  intros Hnan Hf. unfold nearer_first, final_results.
  change (map snd (pq_drain cand_lt rq)) with ((pq_drain cand_lt rq).*2).
  rewrite <- fmap_reverse.
  assert (Hf' : Forall found (pq_drain cand_lt rq))
    by (by rewrite (pq_drain_perm cand_lt rq)).
  assert (Hs : StronglySorted (fun a b => cand_lt a b = false) (pq_drain cand_lt rq)).
  { apply pq_drain_sorted. eapply Forall_impl; [exact Hf |].
    intros c (Hd & _). by eapply Hnan. }
  assert (Hs' : StronglySorted (fun a b => found a ∧ found b ∧ cand_lt a b = false)
                               (pq_drain cand_lt rq)).
  { clear Hf. induction Hs as [|x l Hl IH Hx]; [constructor |].
    apply Forall_cons in Hf' as [Hfx Hfl]. constructor; [by apply IH |].
    apply Forall_forall. intros y Hy. split; [done |].
    split; [by eapply Forall_forall in Hfl |]. by eapply Forall_forall in Hx. }
  apply StronglySorted_reverse in Hs'.
  eapply StronglySorted_fmap; [|exact Hs'].
  intros a b ((Hb & _) & (Ha & _) & Hlt) di dj Hi Hj. unfold flip in *.
  rewrite Ha in Hi. rewrite Hb in Hj. injection Hi as <-. injection Hj as <-.
  unfold cand_lt in Hlt. by apply orb_false_elim in Hlt as [? _].
Qed.

(** X12.  What [search_layer] returns: pairwise distinct ids, at most
    [max(1, ef)] of them ([ef] as a [size_t]); each is the entry point or
    stands in an adjacency list of the layer searched, is not tombstoned and
    passes the filter, and its distance from the query is defined; and when
    no distance is NaN the ids come nearest first. *)
Theorem search_layer_returns_live_accepted_ids_nearest_first (r : list Z) :
  search_layer h sq query ef layer_level filter ep = Ok r →
  NoDup r
  ∧ size r ≤ Z.max 1 (to_size_t ef)
  ∧ Forall (fun id => (id = ep ∨ id ∈ layer_edges h layer_level)
                      ∧ is_deleted h id = false
                      ∧ filter_accepts h filter id = Ok true
                      ∧ is_ok (calculate_distance h sq query id) = true) r
  ∧ (no_nan_distance h sq query → nearer_first h sq query r).
Proof.
  intros (rq & -> & Hf & Hnd & Hsize)%search_layer_results.
  split; [|split; [|split]].
  - by rewrite final_results_perm.
  - unfold size in *. by rewrite final_results_length.
  - apply Forall_forall. intros id [d Hin]%final_results_elem.
    eapply Forall_forall in Hf; [|done]. destruct Hf as (Hd & Hdel & Hacc & Hwhere).
    simpl in *. by rewrite Hd.
  - intros Hnan. by apply search_layer_nearer_first.
Qed.
End search_results.

(** Without a quantizer the distances of a query are those to the stored
    vectors, so the absence of NaN can be checked on the storage. *)
Lemma no_nan_distance_check (h : Hnsw.HNSW) (query : list float) :
  forallb (fun v => match Hnsw.calculate_distance_vec (Hnsw.distance_metric h) query v with
                    | Ok d => negb (is_nan d)
                    | Err _ => true
                    end) (Hnsw.vectors_ (Hnsw.vector_storage h)) = true →
  Hnsw.no_nan_distance h None query.
Proof.
  intros Hall id d H. unfold Hnsw.calculate_distance, Hnsw.get_vector in H.
  apply bind_Ok in H as (v & Hv%at_Ok_elem & H).
  pose proof (forallb_elem _ _ _ Hall Hv) as Hd. cbv beta in Hd.
  rewrite H in Hd. by apply negb_true_iff in Hd.
Qed.

Lemma search_layer_returns_witness :
  Hnsw.search_layer Examples.line3 None [Examples.f_three] 2 0 None 0 = Ok [2; 1]
  ∧ NoDup [2; 1]
  ∧ Hnsw.nearer_first Examples.line3 None [Examples.f_three] [2; 1].
Proof.
  assert (H : Hnsw.search_layer Examples.line3 None [Examples.f_three] 2 0 None 0
              = Ok [2; 1]) by (vm_compute; reflexivity).
  split; [exact H |].
  destruct (search_layer_returns_live_accepted_ids_nearest_first _ _ _ _ _ _ _ _ H)
    as (Hnd & _ & _ & Hsorted).
  split; [exact Hnd |]. apply Hsorted, no_nan_distance_check.
  vm_compute; reflexivity.
Defined.

(** ** What a query returns *)

Section query_results.
Import Hnsw.
Context (h : HNSW) (sq : option SQ.ScalarQuantizer) (query : list float).

Lemma make_result_carries include id x :
  make_result h sq query include id = Ok x →
  QueryResult.id x = id ∧ carries_requested h sq query include x.
Proof.
  unfold make_result, carries_requested. intros H.
  apply bind_Ok in H as (d & Hd & H).
  apply bind_Ok in H as (m & Hm & H).
  apply bind_Ok in H as (v & Hv & [= <-]). simpl.
  split; [done |]. split; [|split].
  - destruct (included include DISTANCE); [|by injection Hd as <-].
    destruct (calculate_distance h sq query id) as [d'|]; [|done].
    injection Hd as <-. eauto.
  - destruct (included include METADATA); [done | by injection Hm as <-].
  - destruct (included include VECTOR); [done | by injection Hv as <-].
Qed.

(** The loop of [k_nearest_neighbors] appends results for a subsequence of
    the ids it walks. *)
Lemma collect_results_sublist k include ids acc r :
  collect_results h sq query k include ids acc = Ok r →
  ∃ r', r = acc ++ r'
        ∧ QueryResult.id <$> r' `sublist_of` ids
        ∧ Forall (carries_requested h sq query include) r'.
Proof.
  revert acc. induction ids as [|id ids IH]; intros acc; simpl.
  - intros [= <-]. exists []. by rewrite app_nil_r.
  - destruct (is_deleted h id).
    { intros (r' & -> & Hsub & Hc)%IH. exists r'. split; [done |].
      split; [by apply sublist_cons | done]. }
    destruct (to_size_t k <=? size acc).
    { intros [= <-]. exists []. rewrite app_nil_r. split; [done |].
      split; [apply sublist_nil_l | done]. }
    intros H. apply bind_Ok in H as (x & Hx & H).
    apply make_result_carries in Hx as [Hid Hx].
    apply IH in H as (r' & -> & Hsub & Hc).
    exists (x :: r'). rewrite <- app_assoc. split; [done |].
    split; [rewrite fmap_cons, Hid; by apply sublist_skip | by constructor].
Qed.

Lemma StronglySorted_sublist {A} (R : A → A → Prop) (l1 l2 : list A) :
  l1 `sublist_of` l2 → StronglySorted R l2 → StronglySorted R l1.
Proof.
  induction 1 as [|x l1 l2 Hsub IH|x l1 l2 Hsub IH]; intros Hs; [done | |].
  - apply StronglySorted_inv in Hs as [Hs Hx]. constructor; [by apply IH |].
    apply Forall_forall. intros y Hy%(sublist_subseteq _ _ Hsub).
    by eapply Forall_forall in Hx.
  - apply StronglySorted_inv in Hs as [Hs _]. by apply IH.
Qed.

Lemma Forall_sublist {A} (P : A → Prop) (l1 l2 : list A) :
  l1 `sublist_of` l2 → Forall P l2 → Forall P l1.
Proof.
  intros Hsub Hl. apply Forall_forall. intros x Hx%(sublist_subseteq _ _ Hsub).
  by eapply Forall_forall in Hl.
Qed.

(** The two steps behind a non-empty answer. *)
Lemma k_nearest_neighbors_steps k filter include r :
  k_nearest_neighbors h sq query k filter include = Ok r →
  (entry_point_id h = -1 ∧ r = [])
  ∨ (entry_point_id h ≠ -1
     ∧ ∃ ep cur results_ids,
         at_ (nodes h) (entry_point_id h) = Ok ep
         ∧ knn_descend h sq query filter (Z.to_nat (Node.max_layer ep))
                       (Node.max_layer ep) (entry_point_id h) = Ok cur
         ∧ search_layer h sq query (Z.max k (efSearch h)) 0 filter cur = Ok results_ids
         ∧ collect_results h sq query k include results_ids [] = Ok r).
Proof.
  unfold k_nearest_neighbors. destruct (entry_point_id h =? -1) eqn:E.
  - intros [= <-]. left. by apply Z.eqb_eq in E.
  - intros H. right. apply Z.eqb_neq in E. split; [done |].
    apply bind_Ok in H as (ep & Hep & H). apply bind_Ok in H as (cur & Hcur & H).
    apply bind_Ok in H as (ids & Hids & H). by exists ep, cur, ids.
Qed.

(** X13.  What [k_nearest_neighbors] returns: results with pairwise distinct
    ids, none tombstoned, each passing the filter; every result carries the
    stored metadata, the stored vector and the distance of its id exactly
    where the caller asked for them, and leaves the other fields empty; and
    when no distance is NaN the results come nearest first. *)
Theorem query_returns_distinct_accepted_results_nearest_first
    (k : Z) (filter : FilterFunc) (include : list Include) (r : list QueryResult.t) :
  k_nearest_neighbors h sq query k filter include = Ok r →
  NoDup (QueryResult.id <$> r)
  ∧ Forall (fun x => is_deleted h (QueryResult.id x) = false
                     ∧ filter_accepts h filter (QueryResult.id x) = Ok true
                     ∧ carries_requested h sq query include x) r
  ∧ (no_nan_distance h sq query → nearer_first h sq query (QueryResult.id <$> r)).
Proof.
  intros [[_ ->] | (_ & ep & cur & ids & _ & _ & Hs & Hc)]%k_nearest_neighbors_steps.
  { split; [constructor |]. split; [constructor |]. intros _. constructor. }
  apply collect_results_sublist in Hc as (r' & -> & Hsub & Hcar). simpl.
  pose proof (search_layer_results _ _ _ _ _ _ _ _ Hs) as (rq & -> & Hf & Hnd & _).
  split; [|split].
  - eapply sublist_NoDup; [|exact Hsub]. by rewrite final_results_perm.
  - assert (Hids : Forall (fun id => is_deleted h id = false
                                     ∧ filter_accepts h filter id = Ok true)
                          (QueryResult.id <$> r')).
    { eapply Forall_sublist; [exact Hsub |].
      apply Forall_forall. intros id [d Hin]%final_results_elem.
      eapply Forall_forall in Hf; [|done]. by destruct Hf as (_ & ? & ? & _). }
    apply Forall_fmap in Hids.
    apply Forall_forall. intros x Hx.
    eapply Forall_forall in Hids; [|done]. eapply Forall_forall in Hcar; [|done].
    destruct Hids as [? ?]. done.
  - intros Hnan. eapply StronglySorted_sublist; [exact Hsub |].
    by apply (search_layer_nearer_first h sq query 0 filter cur).
Qed.

End query_results.

Lemma query_returns_witness :
  ∃ r, Hnsw.k_nearest_neighbors Examples.line3_without_1 None [Examples.f_three] 2
         (Some (fun m => bool_decide (m !! "type" = None))) [Hnsw.ID; Hnsw.VECTOR] = Ok r
       ∧ Hnsw.QueryResult.id <$> r = [2; 0]
       ∧ NoDup (Hnsw.QueryResult.id <$> r)
       ∧ Forall (fun x => Hnsw.carries_requested Examples.line3_without_1 None
                            [Examples.f_three] [Hnsw.ID; Hnsw.VECTOR] x) r.
Proof.
  eexists. split; [vm_compute; reflexivity |]. split; [reflexivity |].
  edestruct (query_returns_distinct_accepted_results_nearest_first
               Examples.line3_without_1 None [Examples.f_three] 2
               (Some (fun m => bool_decide (m !! "type" = None))) [Hnsw.ID; Hnsw.VECTOR])
    as (Hnd & Hall & _); [vm_compute; reflexivity |].
  split; [exact Hnd |].
  eapply Forall_impl; [exact Hall |]. by intros x (_ & _ & ?).
Defined.

Section query_nonempty.
Import Hnsw.
Context (h : HNSW) (sq : option SQ.ScalarQuantizer) (query : list float).

Lemma search_layer_head_live ef layer cur c rest :
  search_layer h sq query ef layer None cur = Ok (c :: rest) →
  is_deleted h c = false.
Proof.
  intros (rq & Hr & Hf & _)%search_layer_results.
  assert (Hc : c ∈ final_results rq) by (rewrite <- Hr; left).
  apply final_results_elem in Hc as [d Hin].
  eapply Forall_forall in Hf; [|done]. by destruct Hf as (_ & ? & _).
Qed.

Lemma knn_descend_live count layer cur c :
  is_deleted h cur = false →
  knn_descend h sq query None count layer cur = Ok c →
  is_deleted h c = false.
Proof.
  revert layer cur. induction count as [|count IH]; intros layer cur Hcur; simpl.
  - by intros [= <-].
  - intros H. apply bind_Ok in H as (cands & Hs & H).
    apply (IH _ _) in H; [done |].
    destruct cands as [|c' rest]; [done |]. by eapply search_layer_head_live.
Qed.

(** X14.  On an index that keeps the entry-point invariant, an unfiltered
    query for at least one neighbour that returns finds something exactly
    when some node is not tombstoned: as long as a live node exists the
    answer is never empty. *)
Theorem unfiltered_query_is_empty_only_without_live_nodes
    (k : Z) (include : list Include) (r : list QueryResult.t) :
  index_ok h → entry_point_ok h → 1 ≤ k < 2 ^ 31 → 0 ≤ efSearch h < 2 ^ 31 →
  k_nearest_neighbors h sq query k None include = Ok r →
  r ≠ [] ↔ ∃ key, key ∈ keys h ∧ key.1 ∉ deleted_nodes_ h.
Proof.
  intros (Hpos & Hlen & Hsize & Hdel) Hep Hk Hef Hq.
  unfold entry_point_ok in Hep.
  apply k_nearest_neighbors_steps in Hq
    as [[Hnone ->] | (Hsome & ep & cur & ids & Hat & Hcur & Hs & Hc)].
  { rewrite decide_True in Hep by done. split; [done |].
    intros (key & Hin & Hlive). exfalso. by apply Hlive, Hep. }
  rewrite decide_False in Hep by done.
  destruct Hep as (key & Hkey & Hlive & _).
  split; [intros _; exists key; split; [by eapply at_Ok_elem | done] |].
  intros _.
  assert (Hep_live : is_deleted h (entry_point_id h) = false).
  { apply at_Ok_lookup in Hkey as [Hnonneg Hkey].
    pose proof (lookup_lt_Some _ _ _ Hkey) as Hlt.
    apply Hpos in Hkey as [Hid _]. unfold is_deleted.
    apply bool_decide_eq_false_2. rewrite to_uint32_small; [|unfold size in *; lia].
    replace (entry_point_id h) with key.1 by lia. done. }
  apply knn_descend_live in Hcur; [|done].
  assert (Hw : 1 ≤ to_size_t (Z.max k (efSearch h)))
    by (rewrite to_size_t_small; lia).
  destruct ids as [|id ids].
  { apply search_layer_nil_deleted in Hs; [|done]. by rewrite Hs in Hcur. }
  apply search_layer_head_live in Hs. simpl in Hc. rewrite Hs in Hc.
  replace (to_size_t k <=? size []) with false in Hc.
  - apply bind_Ok in Hc as (x & _ & Hc).
    apply collect_results_sublist in Hc as (r' & -> & _). done.
  - symmetry. apply Z.leb_gt. rewrite to_size_t_small by lia. unfold size. simpl. lia.
Qed.
End query_nonempty.

Lemma unfiltered_query_witness :
  Hnsw.index_ok Examples.line3_edited ∧ Hnsw.entry_point_ok Examples.line3_edited
  ∧ Hnsw.k_nearest_neighbors Examples.line3_edited None [Examples.f_one] 1 None [Hnsw.ID]
    = Ok [Hnsw.QueryResult.mk 3 None ∅ []]
  ∧ [Hnsw.QueryResult.mk 3 None ∅ []] ≠ [].
Proof.
  pose (ops := [Hnsw.Insert 0 [Examples.f_one] ∅; Hnsw.Insert 0 [Examples.f_two] ∅;
                Hnsw.Insert 0 [Examples.f_three] ∅; Hnsw.MarkDeleted 1;
                Hnsw.Insert 0 [Examples.f_two] ∅; Hnsw.MarkDeleted 0]).
  assert (Hrun : Hnsw.run_ops None ops (Hnsw.new 1 2 10 10 Hnsw.L2)
                 = Ok Examples.line3_edited) by (vm_compute; reflexivity).
  destruct (new_index_entry_point_ok 1 2 10 10 Hnsw.L2) as [Hok0 Hep0].
  assert (Hops : Hnsw.ops_ok (length (Hnsw.keys (Hnsw.new 1 2 10 10 Hnsw.L2))) ops)
    by (simpl; lia).
  destruct (run_ops_entry_point_ok None ops _ _ Hok0 Hep0 Hops Hrun) as [Hok Hep].
  assert (Hq : Hnsw.k_nearest_neighbors Examples.line3_edited None [Examples.f_one] 1
                 None [Hnsw.ID] = Ok [Hnsw.QueryResult.mk 3 None ∅ []])
    by (vm_compute; reflexivity).
  assert (Hef : 0 ≤ Hnsw.efSearch Examples.line3_edited < 2 ^ 31).
  { replace (Hnsw.efSearch Examples.line3_edited) with 10 by (vm_compute; reflexivity).
    lia. }
  split; [exact Hok |]. split; [exact Hep |]. split; [exact Hq |].
  apply (unfiltered_query_is_empty_only_without_live_nodes
           Examples.line3_edited None [Examples.f_one] 1 [Hnsw.ID] _ Hok Hep
           (conj (Z.le_refl 1) eq_refl) Hef Hq).
  exists (2, 0). split.
  - apply list_elem_of_In. vm_compute. tauto.
  - apply (bool_decide_eq_false_1 (2 ∈ Hnsw.deleted_nodes_ Examples.line3_edited)).
    vm_compute. reflexivity.
Defined.

(** ** A trained quantizer and the metric *)

Section metric_override.
Import Hnsw.
Context (h : HNSW) (q : SQ.ScalarQuantizer) (metric : DistanceMetric).
Hypothesis q_trained : SQ.is_trained q = true.

Local Abbreviation h' := (set_metric h metric).

Lemma calculate_distance_set_metric query id :
  calculate_distance h' (Some q) query id = calculate_distance h (Some q) query id.
Proof. unfold calculate_distance. by rewrite q_trained. Qed.

Lemma visit_neighbors_set_metric query ef filter ns st :
  visit_neighbors h' (Some q) query ef filter ns st
  = visit_neighbors h (Some q) query ef filter ns st.
Proof.
  revert st. induction ns as [|n ns IH]; intros st; simpl; [done |].
  assert (Hv : visit_neighbor h' (Some q) query ef filter st n
               = visit_neighbor h (Some q) query ef filter st n).
  { unfold visit_neighbor. by rewrite calculate_distance_set_metric. }
  rewrite Hv. destruct (visit_neighbor h (Some q) query ef filter st n); simpl; [|done].
  apply IH.
Qed.

Lemma search_loop_set_metric query ef layer filter fuel st :
  search_loop h' (Some q) query ef layer filter fuel st
  = search_loop h (Some q) query ef layer filter fuel st.
Proof.
  revert st. induction fuel as [|fuel IH]; intros st; simpl; [done |].
  destruct (pq_extract cand_gt (candidate_queue st)) as [[cur cq]|]; [|done].
  destruct (search_done ef cur (result_queue st)) as [[|]|]; simpl; try done.
  change (neighbors_at h' layer cur.2) with (neighbors_at h layer cur.2).
  destruct (neighbors_at h layer cur.2) as [ns|]; simpl; [|done].
  rewrite visit_neighbors_set_metric.
  destruct (visit_neighbors h (Some q) query ef filter ns _); simpl; [|done].
  apply IH.
Qed.

Lemma search_layer_set_metric query ef layer filter ep :
  search_layer h' (Some q) query ef layer filter ep
  = search_layer h (Some q) query ef layer filter ep.
Proof.
  unfold search_layer.
  assert (Hi : search_init h' (Some q) query filter ep
               = search_init h (Some q) query filter ep).
  { unfold search_init. by rewrite calculate_distance_set_metric. }
  rewrite Hi. destruct (search_init h (Some q) query filter ep) as [st0|];
    cbn [mbind result_bind]; [|done].
  change (search_fuel h' layer) with (search_fuel h layer).
  by rewrite search_loop_set_metric.
Qed.

Lemma knn_descend_set_metric query filter count layer cur :
  knn_descend h' (Some q) query filter count layer cur
  = knn_descend h (Some q) query filter count layer cur.
Proof.
  revert layer cur. induction count as [|count IH]; intros layer cur; simpl; [done |].
  rewrite search_layer_set_metric.
  destruct (search_layer h (Some q) query 1 layer filter cur); simpl; [|done].
  apply IH.
Qed.

Lemma collect_results_set_metric query k include ids acc :
  collect_results h' (Some q) query k include ids acc
  = collect_results h (Some q) query k include ids acc.
Proof.
  revert acc. induction ids as [|id ids IH]; intros acc; simpl; [done |].
  change (is_deleted h' id) with (is_deleted h id).
  destruct (is_deleted h id); [apply IH |].
  destruct (to_size_t k <=? size acc); [done |].
  assert (Hm : make_result h' (Some q) query include id
               = make_result h (Some q) query include id).
  { unfold make_result. by rewrite calculate_distance_set_metric. }
  rewrite Hm. destruct (make_result h (Some q) query include id); simpl; [|done].
  apply IH.
Qed.

(** X15.  With a trained quantizer every distance is the squared L2 distance
    to the decoded code, so the configured metric has no effect on a query:
    under any other metric value the same index answers every query with the
    same results. *)
Theorem trained_quantizer_overrides_the_metric
    (query : list float) (k : Z) (filter : FilterFunc) (include : list Include) :
  k_nearest_neighbors (set_metric h metric) (Some q) query k filter include
  = k_nearest_neighbors h (Some q) query k filter include
  ∧ ∀ id, calculate_distance (set_metric h metric) (Some q) query id
          = (enc ← at_ (encoded_vectors_ (vector_storage h)) id;
             SQ.calculate_distance q query enc).
Proof.
  split.
  - unfold k_nearest_neighbors.
    change (entry_point_id h') with (entry_point_id h).
    destruct (entry_point_id h =? -1); [done |].
    change (nodes h') with (nodes h).
    destruct (at_ (nodes h) (entry_point_id h)) as [ep|]; simpl; [|done].
    rewrite knn_descend_set_metric.
    destruct (knn_descend h (Some q) query filter _ _ _) as [cur|]; simpl; [|done].
    change (efSearch h') with (efSearch h). rewrite search_layer_set_metric.
    destruct (search_layer h (Some q) query _ 0 filter cur) as [ids|]; simpl; [|done].
    apply collect_results_set_metric.
  - intros id. unfold calculate_distance. by rewrite q_trained.
Qed.
End metric_override.

Lemma trained_quantizer_overrides_witness :
  ∃ q, Db.sq_ Examples.quantized_db = Some q ∧ SQ.is_trained q = true
       ∧ Hnsw.k_nearest_neighbors
           (Hnsw.set_metric (Db.hnsw_ Examples.quantized_db) Hnsw.COSINE) (Some q)
           [Examples.f_two] 1 None [Hnsw.ID]
         = Hnsw.k_nearest_neighbors (Db.hnsw_ Examples.quantized_db) (Some q)
             [Examples.f_two] 1 None [Hnsw.ID].
Proof.
  eexists. split; [vm_compute; reflexivity |].
  assert (Ht : SQ.is_trained
                 (SQ.mkSQ 1 [Examples.f_one] [Examples.f_three]) = true) by reflexivity.
  split; [exact Ht |].
  exact (proj1 (trained_quantizer_overrides_the_metric
                  (Db.hnsw_ Examples.quantized_db) _ Hnsw.COSINE Ht
                  [Examples.f_two] 1 None [Hnsw.ID])).
Defined.

(** ** rebuild_index *)

Section rebuild.
Import Hnsw.

Lemma encode_all_vectors_inv sq vs vs' :
  encode_all_vectors sq vs = Ok vs' →
  vectors_ vs' = vectors_ vs ∧ metadata_ vs' = metadata_ vs
  ∧ vector_dimension_ vs' = vector_dimension_ vs.
Proof.
  unfold encode_all_vectors.
  destruct sq as [q|]; [destruct (SQ.is_trained q) |]; try by intros [= <-].
  intros H. by apply bind_Ok in H as (encs & _ & [= <-]).
Qed.

(** [train_quantizer] touches the quantizer and the codes only. *)
Lemma train_quantizer_inv db db1 :
  Db.train_quantizer db = (Ok (), db1) →
  let h := Db.hnsw_ db in
  let h1 := Db.hnsw_ db1 in
  vectors_ (vector_storage h1) = vectors_ (vector_storage h)
  ∧ metadata_ (vector_storage h1) = metadata_ (vector_storage h)
  ∧ vector_dimension_ (vector_storage h1) = vector_dimension_ (vector_storage h)
  ∧ deleted_nodes_ h1 = deleted_nodes_ h
  ∧ params h1 = params h
  ∧ Db.read_only_ db1 = Db.read_only_ db.
Proof.
  unfold Db.train_quantizer. destruct (Db.sq_ db) as [q|]; [|by intros [= <-]].
  destruct (SQ.train _ q) as [q'|]; [|done].
  destruct (encode_all_vectors (Some q') _) as [vs'|] eqn:E; [|done].
  intros [= <-]. simpl. apply encode_all_vectors_inv in E as (? & ? & ?). done.
Qed.

(** The loop of [rebuild_index] inserts the records at the live positions,
    in order. *)
Lemma reinsert_spec sq old draws ixs nh nh' :
  Db.reinsert sq old draws ixs nh = Ok nh' →
  let live := filter (fun i => to_uint32 (Z.of_nat i) ∉ deleted_nodes_ old) ixs in
  ∃ vs ms,
    Forall2 (fun i v => vectors_ (vector_storage old) !! i = Some v) live vs
    ∧ Forall2 (fun i m => metadata_ (vector_storage old) !! i = Some m) live ms
    ∧ vectors_ (vector_storage nh') = vectors_ (vector_storage nh) ++ vs
    ∧ metadata_ (vector_storage nh') = metadata_ (vector_storage nh) ++ ms
    ∧ (keys nh').*1
      = (keys nh).*1
        ++ ((fun j => to_uint32 (Z.of_nat j))
              <$> seq (length (vectors_ (vector_storage nh))) (length live))
    ∧ deleted_nodes_ nh' = deleted_nodes_ nh
    ∧ params nh' = params nh
    ∧ vector_dimension_ (vector_storage nh') = vector_dimension_ (vector_storage nh).
Proof.
  revert draws nh. induction ixs as [|i ixs IH]; intros draws nh; simpl.
  - intros [= <-]. exists [], []. rewrite !app_nil_r. by repeat split.
  - case_bool_decide as Hdel.
    + rewrite filter_cons_False by (by intros ?). apply IH.
    + rewrite filter_cons_True by done. intros H.
      apply bind_Ok in H as (vec & Hvec%idx_Ok & H).
      apply bind_Ok in H as (meta & Hmeta%idx_Ok & H).
      destruct (insert sq (hd 0 draws) vec meta nh) as [[id|] h1] eqn:Hi; [|done].
      apply insert_Ok_inv in Hi as (Hid & _ & Hdim & Hv & Hm & Hk & Hd & Hp).
      apply IH in H as (vs & ms & Hvs & Hms & Hv' & Hm' & Hk' & Hd' & Hp' & Hdim').
      exists (vec :: vs), (meta :: ms).
      split; [by constructor |]. split; [by constructor |].
      rewrite Hv', Hm', Hk', Hd', Hp', Hdim', Hv, Hm, Hk, Hd, Hp, Hdim.
      rewrite <- !app_assoc. repeat split; try done.
      rewrite fmap_app, <- app_assoc, length_app. cbn [length seq fmap list_fmap].
      rewrite Hid. unfold size. simpl. by rewrite Nat.add_1_r.
Qed.

(** X16.  [rebuild_index] on a writable database keeps exactly the records
    that are not tombstoned, in their order: the new storage holds the
    vectors and the metadata of the live positions, the nodes are renumbered
    from [0], the deleted set is empty, and the dimension and the parameters
    of the index are kept. *)
Theorem rebuild_index_keeps_exactly_the_live_records
    (draws : list Z) (db db' : Db.Database) :
  Db.rebuild_index draws db = (Ok (), db') →
  let old := Db.hnsw_ db in
  let new := Db.hnsw_ db' in
  Forall2 (fun i v => vectors_ (vector_storage old) !! i = Some v)
          (live_positions old) (vectors_ (vector_storage new))
  ∧ Forall2 (fun i m => metadata_ (vector_storage old) !! i = Some m)
            (live_positions old) (metadata_ (vector_storage new))
  ∧ (keys new).*1
    = (fun j => to_uint32 (Z.of_nat j)) <$> seq 0 (length (live_positions old))
  ∧ deleted_nodes_ new = ∅
  ∧ params new = params old
  ∧ vector_dimension_ (vector_storage new) = vector_dimension_ (vector_storage old).
Proof.
  unfold Db.rebuild_index. destruct (Db.read_only_ db); [done |].
  destruct (Db.train_quantizer db) as [[[]|] db1] eqn:Ht; [|done].
  apply train_quantizer_inv in Ht as (Hv & Hm & Hdim & Hd & Hp & _).
  destruct (Db.reinsert _ _ _ _ _) as [h'|] eqn:Hr; [|done].
  intros [= <-]. simpl.
  apply reinsert_spec in Hr as (vs & ms & Hvs & Hms & Hv' & Hm' & Hk' & Hd' & Hp' & Hdim').
  simpl in *. unfold live_positions. rewrite <- Hv, <- Hm, <- Hd.
  rewrite Hv', Hm', Hk', Hd', Hp', Hdim'. by repeat split.
Qed.

Lemma rebuild_index_witness :
  Db.rebuild_index [0; 0] Examples.sparse_db = (Ok (), Examples.rebuilt_db)
  ∧ live_positions (Db.hnsw_ Examples.sparse_db) = [0; 2]%nat
  ∧ Forall2 (fun i v => vectors_ (vector_storage (Db.hnsw_ Examples.sparse_db)) !! i
                        = Some v)
            (live_positions (Db.hnsw_ Examples.sparse_db))
            (vectors_ (vector_storage (Db.hnsw_ Examples.rebuilt_db)))
  ∧ deleted_nodes_ (Db.hnsw_ Examples.rebuilt_db) = ∅.
Proof.
  assert (H : Db.rebuild_index [0; 0] Examples.sparse_db = (Ok (), Examples.rebuilt_db))
    by (vm_compute; reflexivity).
  split; [exact H |]. split; [vm_compute; reflexivity |].
  destruct (rebuild_index_keeps_exactly_the_live_records _ _ _ H)
    as (Hv & _ & _ & Hd & _).
  split; [exact Hv | exact Hd].
Defined.
End rebuild.

(** ** Opening a saved file read-only *)

Section reopen.
Import Hnsw Db.

Lemma reader_bind_inv {A B} (r : reader A) (f : A → reader B) s b s'' :
  (r ≫= f) s = Ok (b, s'') → ∃ a s', r s = Ok (a, s') ∧ f a s' = Ok (b, s'').
Proof.
  unfold mbind, reader_bind. destruct (r s) as [[a s']|]; [eauto | done].
Qed.

(** [load] replaces the index and the quantizer, nothing else. *)
Lemma load_keeps_mode bytes loader db' :
  load (Some bytes) loader = (Ok (), db') →
  read_only_ db' = read_only_ loader ∧ db_path_ db' = db_path_ loader.
Proof.
  unfold load. destruct (load_from loader bytes) as [[db1 rest]|] eqn:E; [|done].
  intros [= <-]. unfold load_from in E.
  apply reader_bind_inv in E as ([e sq] & s1 & _ & E). unfold load_index in E.
  repeat (apply reader_bind_inv in E as (? & ? & _ & E)).
  unfold mret, reader_ret in E. by injection E as <- _.
Qed.

(** X17.  A database in a representable state, saved and then opened
    read-only, comes back with the saved nodes, vectors, metadata,
    tombstones, parameters and dimension, in whatever order [save] met the
    tombstones ([order] is any enumeration of the set, each id once) and
    whatever dimension, parameters and metric the constructor of the
    read-only instance is given: the file overrides them.  The saved
    quantizer comes back too; when the file carries none, the instance keeps
    the untrained quantizer it was constructed with. *)
Theorem read_only_open_restores_the_saved_index
    (db : Database) (mode : SyncMode) (order : list Z) (db_path : string)
    (vector_dimension M' efConstruction' efSearch' : Z) (metric' : DistanceMetric)
    (cache_size_mb : Z) (sq_enabled : bool) :
  wf_db db = true → read_only_ db = false →
  iteration_of (deleted_nodes_ (hnsw_ db)) order →
  ∃ bytes ro,
    save mode order db = (Ok bytes, db)
    ∧ Db.new (Some bytes) db_path vector_dimension M' efConstruction' efSearch' metric'
             true cache_size_mb sq_enabled = Ok ro
    ∧ read_only_ ro = true
    ∧ nodes (hnsw_ ro) = nodes (hnsw_ db)
    ∧ vectors_ (vector_storage (hnsw_ ro)) = vectors_ (vector_storage (hnsw_ db))
    ∧ metadata_ (vector_storage (hnsw_ ro)) = metadata_ (vector_storage (hnsw_ db))
    ∧ deleted_nodes_ (hnsw_ ro) = deleted_nodes_ (hnsw_ db)
    ∧ params (hnsw_ ro) = params (hnsw_ db)
    ∧ vector_dimension_ (vector_storage (hnsw_ ro))
      = vector_dimension_ (vector_storage (hnsw_ db))
    ∧ (∀ q, sq_ db = Some q → sq_ ro = Some q)
    ∧ (sq_ db = None →
       sq_ ro = if sq_enabled then Some (SQ.new vector_dimension) else None).
Proof.
  intros Hwf Hro Horder. unfold Db.new.
  set (h0 := Hnsw.new vector_dimension M' efConstruction' efSearch' metric').
  set (loader := if sq_enabled
                 then mkDB db_path (set_quantizer h0) true cache_size_mb
                           (Some (SQ.new vector_dimension))
                 else mkDB db_path h0 true cache_size_mb None).
  assert (Hloader : sq_trained (sq_ loader) = false) by (unfold loader; by destruct sq_enabled).
  assert (Hmode : read_only_ loader = true) by (unfold loader; by destruct sq_enabled).
  assert (Hsq : sq_ loader = if sq_enabled then Some (SQ.new vector_dimension) else None)
    by (unfold loader; by destruct sq_enabled).
  destruct (save_then_load_restores_index db loader mode order Hwf Hro
              (fun _ => Hloader) Horder)
    as (bytes & ro & Hs & Hl & Hn & Hv & Hm & Hd & HM & HefC & HefS & Hmet & Hdim
        & Hq & Hnone).
  exists bytes, ro. rewrite Hl.
  apply load_keeps_mode in Hl as [Hmode' _]. rewrite Hmode in Hmode'.
  unfold params. rewrite HM, HefC, HefS, Hmet, <- Hsq.
  by repeat split.
Qed.

Lemma read_only_open_witness :
  wf_db Examples.two_deleted_db = true
  ∧ deleted_nodes_ (hnsw_ Examples.two_deleted_db) = {[0; 1]}
  ∧ ∃ bytes ro,
      save FULL [0; 1] Examples.two_deleted_db = (Ok bytes, Examples.two_deleted_db)
      ∧ Db.new (Some bytes) "other.bin" 7 3 4 5 IP true 0 false = Ok ro
      ∧ deleted_nodes_ (hnsw_ ro) = deleted_nodes_ (hnsw_ Examples.two_deleted_db)
      ∧ params (hnsw_ ro) = params (hnsw_ Examples.two_deleted_db)
      ∧ vector_dimension_ (vector_storage (hnsw_ ro))
        = vector_dimension_ (vector_storage (hnsw_ Examples.two_deleted_db)).
Proof.
  assert (Hwf : wf_db Examples.two_deleted_db = true) by (vm_compute; reflexivity).
  assert (Hdel : deleted_nodes_ (hnsw_ Examples.two_deleted_db) = {[0; 1]})
    by (vm_compute; reflexivity).
  assert (Hord : iteration_of (deleted_nodes_ (hnsw_ Examples.two_deleted_db)) [0; 1]).
  { unfold iteration_of.
    replace (elements (deleted_nodes_ (hnsw_ Examples.two_deleted_db)))
      with [1; 0] by (vm_compute; reflexivity).
    apply Permutation_swap. }
  split; [exact Hwf |]. split; [exact Hdel |].
  destruct (read_only_open_restores_the_saved_index Examples.two_deleted_db FULL
              [0; 1] "other.bin" 7 3 4 5 IP 0 false Hwf eq_refl Hord)
    as (bytes & ro & Hs & Hnew & _ & _ & _ & _ & Hd & Hp & Hdim & _).
  exists bytes, ro. by repeat split.
Defined.
End reopen.

(** ** Well-formed graphs: what [insert] needs and keeps *)

Section graph_facts.
Import Hnsw.

Lemma at_Ok_range {A} (v : list A) (i : Z) :
  is_ok (at_ v i) = true ↔ 0 ≤ i < size v.
Proof.
  unfold at_, idx, size. destruct (0 <=? i) eqn:E.
  - apply Z.leb_le in E. destruct (v !! Z.to_nat i) as [x|] eqn:Hl; simpl.
    + apply lookup_lt_Some in Hl. split; [lia | done].
    + apply lookup_ge_None in Hl. split; [done | lia].
  - apply Z.leb_gt in E. simpl. split; [done | lia].
Qed.

Lemma at_total {A} (v : list A) (i : Z) : 0 ≤ i < size v → ∃ x, at_ v i = Ok x.
Proof.
  intros H%at_Ok_range. destruct (at_ v i) as [x|]; [by exists x | done].
Qed.

Lemma at_Ok_bounds {A} (v : list A) (i : Z) (x : A) : at_ v i = Ok x → 0 ≤ i < size v.
Proof. intros H. apply at_Ok_range. by rewrite H. Qed.

(** Which lists exist is decided by the shapes of the nodes. *)
Lemma has_layer_shape h layer id :
  has_layer h layer id = true
  ↔ ∃ s, at_ (map shape (nodes h)) id = Ok s ∧ 0 ≤ layer < Z.of_nat s.2.
Proof.
  unfold has_layer, neighbors_at. split.
  - destruct (at_ (nodes h) id) as [n|] eqn:Hn; [|done]. simpl.
    intros Hl%at_Ok_range. exists (shape n). split; [by apply at_fmap | done].
  - intros (s & Hs & Hl). apply at_Ok_lookup in Hs as [Hi Hs].
    change (map shape (nodes h)) with (shape <$> nodes h) in Hs.
    rewrite list_lookup_fmap in Hs.
    destruct (nodes h !! Z.to_nat id) as [n|] eqn:Hn; [|done].
    injection Hs as <-.
    assert (Hat : at_ (nodes h) id = Ok n) by by apply at_Ok_lookup.
    rewrite Hat. simpl. by apply at_Ok_range.
Qed.

Lemma has_layer_same_shape h h' :
  map shape (nodes h') = map shape (nodes h) →
  ∀ layer id, has_layer h' layer id = has_layer h layer id.
Proof.
  intros Hs layer id. apply eq_true_iff_eq.
  by rewrite !has_layer_shape, Hs.
Qed.

Lemma has_layer_le h layer layer' id :
  has_layer h layer id = true → 0 ≤ layer' ≤ layer → has_layer h layer' id = true.
Proof.
  rewrite !has_layer_shape. intros (s & Hs & Hl) Hle. exists s. split; [done | lia].
Qed.

Lemma has_layer_bounds h layer id :
  has_layer h layer id = true → 0 ≤ id < size (nodes h) ∧ 0 ≤ layer.
Proof.
  intros (s & Hs & Hl)%has_layer_shape. apply at_Ok_bounds in Hs.
  unfold size in *. rewrite length_map in Hs. lia.
Qed.

Lemma keys_of_shape ns ns' :
  map shape ns' = map shape ns → map node_key ns' = map node_key ns.
Proof.
  intros H. apply (f_equal (map (fun s : Z * Z * nat => s.1))) in H.
  by rewrite !map_map in H.
Qed.

Lemma layered_same_shape h h' :
  map shape (nodes h') = map shape (nodes h) → layered h → layered h'.
Proof.
  intros Hs Hl n Hn.
  apply list_elem_of_lookup in Hn as [i Hi].
  assert (Hi' : (shape <$> nodes h') !! i = Some (shape n))
    by by rewrite list_lookup_fmap, Hi.
  change (shape <$> nodes h') with (map shape (nodes h')) in Hi'.
  rewrite Hs in Hi'. change (map shape (nodes h)) with (shape <$> nodes h) in Hi'.
  rewrite list_lookup_fmap in Hi'.
  destruct (nodes h !! i) as [m|] eqn:Hm; [|done].
  injection Hi' as Hid Hml Hlen.
  specialize (Hl m (list_elem_of_lookup_2 _ _ _ Hm)).
  unfold size in *. lia.
Qed.

Lemma at_insert_eq {A} (v : list A) (i : Z) (x y : A) :
  at_ v i = Ok y → at_ (<[Z.to_nat i := x]> v) i = Ok x.
Proof.
  rewrite !at_Ok_lookup. intros [Hi Hl]. split; [done |].
  apply list_lookup_insert_eq. by eapply lookup_lt_Some.
Qed.

Lemma at_insert_ne {A} (v : list A) (i j : Z) (x : A) :
  0 ≤ i → i ≠ j → at_ (<[Z.to_nat i := x]> v) j = at_ v j.
Proof.
  intros Hi Hne. unfold at_, idx. destruct (0 <=? j) eqn:E; [|done].
  apply Z.leb_le in E. rewrite list_lookup_insert_ne by lia. done.
Qed.

(** The lists of the graph after one list is rewritten. *)
Lemma update_neighbors_spec h i layer f ns' :
  update_neighbors (nodes h) i layer f = Ok ns' →
  map shape ns' = map shape (nodes h)
  ∧ ∀ l j, neighbors_at (set_nodes h ns') l j
           = if decide (j = i ∧ l = layer) then f <$> neighbors_at h l j
             else neighbors_at h l j.
Proof.
  unfold update_neighbors. intros H.
  apply bind_Ok in H as (n & Hn & H). apply bind_Ok in H as (l0 & Hl0 & [= <-]).
  pose proof (at_Ok_bounds _ _ _ Hn) as Hi.
  pose proof (at_Ok_bounds _ _ _ Hl0) as Hlayer.
  split.
  - change (shape <$> <[Z.to_nat i:=Node.set_neighbors n
              (<[Z.to_nat layer:=f l0]> (Node.neighbors n))]> (nodes h)
            = shape <$> nodes h).
    rewrite list_fmap_insert. apply list_insert_id.
    apply at_Ok_lookup in Hn as [_ Hn].
    rewrite list_lookup_fmap, Hn. simpl. unfold shape. simpl.
    by rewrite length_insert.
  - intros l j. unfold neighbors_at. simpl.
    destruct (decide (j = i ∧ l = layer)) as [[-> ->] | Hne].
    + rewrite (at_insert_eq _ _ _ _ Hn), Hn. simpl.
      by rewrite (at_insert_eq _ _ _ _ Hl0), Hl0.
    + destruct (decide (i = j)) as [<- | Hij].
      * rewrite (at_insert_eq _ _ _ _ Hn), Hn. simpl.
        apply at_insert_ne; [lia | intros ->; by apply Hne].
      * by rewrite at_insert_ne by lia.
Qed.

Lemma update_neighbors_total ns i layer f l0 n :
  at_ ns i = Ok n → at_ (Node.neighbors n) layer = Ok l0 →
  ∃ ns', update_neighbors ns i layer f = Ok ns'.
Proof. intros Hn Hl. unfold update_neighbors. rewrite Hn. simpl. rewrite Hl. simpl. eauto. Qed.

Lemma layer_edges_spec h layer x :
  x ∈ layer_edges h layer ↔ ∃ id ns, neighbors_at h layer id = Ok ns ∧ x ∈ ns.
Proof.
  split.
  - intros Hx. unfold layer_edges in Hx. apply elem_of_concat in Hx as (l & Hl & Hx).
    apply list_elem_of_fmap in Hl as (n & -> & Hn).
    destruct (at_ (Node.neighbors n) layer) as [ln|] eqn:Hln;
      [|by apply elem_of_nil in Hx].
    apply list_elem_of_lookup in Hn as [i Hi].
    exists (Z.of_nat i), ln. split; [|done].
    unfold neighbors_at.
    assert (Hn : at_ (nodes h) (Z.of_nat i) = Ok n).
    { apply at_Ok_lookup. split; [lia |]. by rewrite Nat2Z.id. }
    by rewrite Hn.
  - intros (id & ns & Hns & Hx). by eapply neighbors_at_edges.
Qed.

Lemma closed_at_spec h layer :
  closed_at h layer = true
  ↔ ∀ id ns, neighbors_at h layer id = Ok ns →
             Forall (fun x => has_layer h layer x = true) ns.
Proof.
  unfold closed_at. split.
  - intros Hc id ns Hns. apply Forall_forall. intros x Hx.
    eapply forallb_elem; [exact Hc |]. by eapply neighbors_at_edges.
  - intros Hc. apply forallb_forall. intros x Hx%list_elem_of_In.
    apply layer_edges_spec in Hx as (id & ns & Hns & Hx).
    specialize (Hc _ _ Hns). rewrite Forall_forall in Hc. by apply Hc.
Qed.

Lemma calculate_distance_vec_total metric a b :
  valid_metric metric = true → (length a ≤ length b)%nat →
  ∃ d, calculate_distance_vec metric a b = Ok d.
Proof.
  intros Hm Hlen. destruct metric; simpl; try done.
  - unfold calculate_l2_distance.
    pose proof (proj2 (l2_loop_ok a b fzero) Hlen) as H.
    destruct (l2_loop a b fzero) as [d|]; [by exists d | done].
  - unfold calculate_cosine_distance.
    destruct (inner_product_total a b fzero Hlen) as [d1 ->].
    destruct (inner_product_total a a fzero (le_n _)) as [d2 ->].
    destruct (inner_product_total b b fzero (le_n _)) as [d3 ->].
    simpl. destruct (_ || _); eauto.
  - unfold calculate_inner_product_distance.
    destruct (inner_product_total a b fzero Hlen) as [d1 ->]. simpl. eauto.
Qed.

Lemma calculate_distance_untrained h sq query id :
  sq_trained sq = false →
  calculate_distance h sq query id
  = (v ← get_vector (vector_storage h) id;
     calculate_distance_vec (distance_metric h) query v).
Proof.
  unfold calculate_distance. destruct sq as [q|]; simpl; [|done]. by intros ->.
Qed.

End graph_facts.

(** *** The linking phase on a well-formed graph, with no trained quantizer *)

Section linking.
Import Hnsw.
Context (sq : option SQ.ScalarQuantizer).
Hypothesis Hsq : sq_trained sq = false.

(** What the linking phase reads besides the lists. *)
Local Abbreviation env h :=
  (index_ok h ∧ storage_ok h ∧ valid_metric (distance_metric h) = true).

Lemma env_frame h h' :
  frame h' = frame h → params h' = params h → env h → env h'.
Proof.
  intros Hf Hp (Hi & Hs & Hm). split; [by eapply frame_index_ok |].
  unfold frame in Hf. injection Hf as _ Hv _ _.
  unfold params in Hp. injection Hp as _ _ _ Hmetric.
  unfold storage_ok. by rewrite Hv, Hmetric.
Qed.

Lemma env_sizes h :
  env h → size (vectors_ (vector_storage h)) = size (nodes h)
          ∧ size (metadata_ (vector_storage h)) = size (nodes h)
          ∧ size (nodes h) < 2 ^ 31.
Proof.
  intros ((_ & Hlen & Hsz & _) & (Hmeta & _) & _).
  unfold keys, size in *. rewrite length_map in Hlen, Hsz. lia.
Qed.

Lemma env_own h j :
  env h → 0 ≤ j < size (nodes h) →
  ∃ own, get_vector (vector_storage h) j = Ok own
         ∧ size own = vector_dimension_ (vector_storage h).
Proof.
  intros He Hj. pose proof (env_sizes h He) as (Hv & _ & _).
  destruct (at_total (vectors_ (vector_storage h)) j) as [own Hown]; [lia |].
  exists own. split; [done |].
  destruct He as (_ & (_ & Hall) & _). rewrite Forall_forall in Hall.
  apply Hall. by eapply at_Ok_elem.
Qed.

Lemma env_distance h query id :
  env h → size query = vector_dimension_ (vector_storage h) →
  0 ≤ id < size (nodes h) →
  ∃ d, calculate_distance h sq query id = Ok d.
Proof.
  intros He Hq Hid. rewrite calculate_distance_untrained by done.
  destruct (env_own h id He Hid) as (v & -> & Hv). simpl.
  apply calculate_distance_vec_total; [apply He |]. unfold size in *. lia.
Qed.

Lemma env_searchable h query filter :
  env h → size query = vector_dimension_ (vector_storage h) →
  searchable h sq query filter = true.
Proof.
  intros He Hq. unfold searchable. apply forallb_forall.
  intros i Hi%list_elem_of_In. unfold node_ids in Hi.
  apply list_elem_of_fmap in Hi as (n & -> & Hn%list_elem_of_In%in_seq).
  assert (Hr : 0 ≤ Z.of_nat n < size (nodes h)) by (unfold size; lia).
  destruct (env_distance h query _ He Hq Hr) as [d ->]. simpl.
  unfold filter_accepts. destruct filter as [f|]; [|done].
  unfold get_metadata. pose proof (env_sizes h He) as (_ & Hm & _).
  destruct (at_total (metadata_ (vector_storage h)) (Z.of_nat n)) as [m ->]; [lia |].
  done.
Qed.

(** The scan for the furthest neighbour returns the initial pair or a
    position of the list. *)
Lemma furthest_scan_index h own l i acc r :
  furthest_scan h sq own l i acc = Ok r → r = acc ∨ i ≤ r.2 < i + size l.
Proof.
  revert i acc. induction l as [|c l IH]; intros i acc; simpl.
  - intros [= <-]. by left.
  - intros H. apply bind_Ok in H as (dist & _ & H).
    apply IH in H as [-> | H].
    + destruct (flt acc.1 dist); [right | by left].
      simpl. unfold size. simpl. lia.
    + right. unfold size in *. simpl. lia.
Qed.

Lemma furthest_scan_total h own l i acc :
  Forall (fun c => ∃ d, calculate_distance h sq own c = Ok d) l →
  ∃ r, furthest_scan h sq own l i acc = Ok r.
Proof.
  intros Hall. revert i acc. induction Hall as [|c l [d Hd] _ IH]; intros i acc; simpl.
  - eauto.
  - rewrite Hd. simpl. apply IH.
Qed.

(** When every distance is above [-1.0f] the scan of a non-empty list
    finds a position. *)
Lemma furthest_scan_found h own l r :
  Forall (fun c => ∀ d, calculate_distance h sq own c = Ok d → flt minus_one d = true) l →
  l ≠ [] →
  furthest_scan h sq own l 0 (minus_one, -1) = Ok r → 0 ≤ r.2 < size l.
Proof.
  intros Hall Hne H. destruct l as [|c l]; [done |].
  simpl in H. apply bind_Ok in H as (dist & Hd & H).
  apply Forall_cons in Hall as [Hc _]. rewrite (Hc _ Hd) in H.
  apply furthest_scan_index in H as [-> | H]; unfold size in *; simpl in *; lia.
Qed.

Lemma to_size_t_nonneg z : 0 ≤ to_size_t z.
Proof. unfold to_size_t. apply Z.mod_pos_bound. lia. Qed.

(** The pruning block: the list of [j] loses at most one entry, and exactly
    one when it exceeds [M] and the distances are above [-1.0f]. *)
Lemma prune_spec j layer h lj :
  env h → neighbors_at h layer j = Ok lj →
  Forall (fun c => 0 ≤ c < size (nodes h)) lj →
  ∃ h' lj', prune sq j layer h = Ok h'
    ∧ frame h' = frame h ∧ params h' = params h
    ∧ map shape (nodes h') = map shape (nodes h)
    ∧ lj' `sublist_of` lj
    ∧ (size lj ≤ to_size_t (M h) → lj' = lj)
    ∧ (above_minus_one h sq → to_size_t (M h) < size lj → size lj' = size lj - 1)
    ∧ ∀ l i, neighbors_at h' l i
             = if decide (i = j ∧ l = layer) then Ok lj' else neighbors_at h l i.
Proof.
  intros He Hlj Hin.
  assert (Hsame : ∀ l i, neighbors_at h l i
                  = if decide (i = j ∧ l = layer) then Ok lj else neighbors_at h l i).
  { intros l i. destruct (decide _) as [[-> ->] |]; done. }
  pose proof Hlj as Hlj'. unfold neighbors_at in Hlj'.
  apply bind_Ok in Hlj' as (n & Hn & Hl).
  unfold prune. rewrite Hn. simpl. rewrite Hl. simpl.
  destruct (to_size_t (M h) <? size lj) eqn:E.
  - apply Z.ltb_lt in E.
    destruct (env_own h j He (at_Ok_bounds _ _ _ Hn)) as (own & Hown & Hsz).
    rewrite Hown. simpl.
    destruct (furthest_scan_total h own lj 0 (minus_one, -1)) as [[d k] Hscan].
    { eapply Forall_impl; [exact Hin |]. intros c Hc. by apply env_distance. }
    rewrite Hscan. simpl.
    destruct (k =? -1) eqn:Ek.
    + apply Z.eqb_eq in Ek. subst k.
      exists h, lj. repeat split; try done. intros Habove _.
      apply furthest_scan_found in Hscan; [simpl in Hscan; lia | |].
      * apply Forall_forall. intros c _ d' Hd'. by eapply Habove.
      * intros ->. pose proof (to_size_t_nonneg (M h)). unfold size in E. simpl in E. lia.
    + apply Z.eqb_neq in Ek.
      apply furthest_scan_index in Hscan as [[= _ ?] | Hk]; [done |]. simpl in Hk.
      destruct (update_neighbors_total (nodes h) j layer
                  (fun l => delete (Z.to_nat k) l) lj n Hn Hl) as [ns' Hns'].
      rewrite Hns'. simpl.
      apply update_neighbors_spec in Hns' as [Hshape Hat].
      exists (set_nodes h ns'), (delete (Z.to_nat k) lj).
      split; [done |]. split; [apply set_nodes_frame, keys_of_shape, Hshape |].
      split; [done |]. split; [exact Hshape |].
      split; [apply sublist_delete |]. split; [lia |].
      split.
      * intros _ _. unfold size. rewrite length_delete.
        -- unfold size in Hk. lia.
        -- apply lookup_lt_is_Some. unfold size in Hk. lia.
      * intros l i. rewrite Hat.
        destruct (decide _) as [[-> ->] |]; [by rewrite Hlj | done].
  - apply Z.ltb_ge in E. exists h, lj. repeat split; try done. lia.
Qed.

Lemma neighbors_at_range h layer j lj :
  neighbors_at h layer j = Ok lj → 0 ≤ j < size (nodes h).
Proof.
  intros H. assert (Hl : has_layer h layer j = true) by (unfold has_layer; by rewrite H).
  by apply has_layer_bounds in Hl as [? _].
Qed.

Lemma shape_size ns ns' : map shape ns' = map shape ns → size ns' = size ns.
Proof. intros H. apply (f_equal length) in H. unfold size. rewrite !length_map in H. lia. Qed.

(** One iteration of the loop over [new_node_neighbors]: [j] is appended to
    the list of the new node, the new node to the list of [j], and the list
    of [j] is pruned. *)
Lemma connect_spec nid layer h j lj ln :
  env h → 0 ≤ nid < 2 ^ 31 →
  neighbors_at h layer nid = Ok ln → neighbors_at h layer j = Ok lj →
  Forall (fun c => 0 ≤ c < size (nodes h)) lj →
  let base := (if decide (j = nid) then lj ++ [j] else lj) ++ [nid] in
  ∃ h' lj', connect sq nid layer h j = Ok h'
    ∧ frame h' = frame h ∧ params h' = params h
    ∧ map shape (nodes h') = map shape (nodes h)
    ∧ lj' `sublist_of` base
    ∧ (size base ≤ to_size_t (M h) → lj' = base)
    ∧ (above_minus_one h sq → to_size_t (M h) < size base → size lj' = size base - 1)
    ∧ ∀ l i, neighbors_at h' l i
             = if decide (i = j ∧ l = layer) then Ok lj'
               else if decide (i = nid ∧ l = layer) then Ok (ln ++ [j])
               else neighbors_at h l i.
Proof.
  intros He Hnid Hln Hlj Hin base.
  pose proof (neighbors_at_range _ _ _ _ Hln) as Hrn.
  pose proof (neighbors_at_range _ _ _ _ Hlj) as Hrj.
  unfold connect.
  (* the list of the new node *)
  pose proof Hln as Hln'. unfold neighbors_at in Hln'.
  apply bind_Ok in Hln' as (n & Hn & Hl).
  destruct (update_neighbors_total (nodes h) nid layer (fun l => l ++ [j]) ln n Hn Hl)
    as [ns1 Hns1].
  rewrite Hns1. simpl.
  apply update_neighbors_spec in Hns1 as [Hshape1 Hat1].
  set (h1 := set_nodes h ns1) in *.
  (* the list of [j] *)
  assert (Hlj1 : neighbors_at h1 layer j
                 = Ok (if decide (j = nid) then lj ++ [j] else lj)).
  { rewrite Hat1. destruct (decide (j = nid)) as [-> | Hne].
    - rewrite decide_True by done. rewrite Hlj. done.
    - rewrite decide_False by (intros [? _]; done). done. }
  pose proof Hlj1 as Hlj1'. unfold neighbors_at in Hlj1'.
  apply bind_Ok in Hlj1' as (n1 & Hn1 & Hl1).
  change (nodes h1) with ns1 in Hn1.
  destruct (update_neighbors_total ns1 j layer (fun l => l ++ [to_int32 nid]) _ n1 Hn1 Hl1)
    as [ns2 Hns2].
  rewrite Hns2. simpl.
  change ns1 with (nodes h1) in Hns2.
  apply update_neighbors_spec in Hns2 as [Hshape2 Hat2].
  change (set_nodes h1 ns2) with (set_nodes h ns2) in Hat2.
  set (h2 := set_nodes h ns2) in *.
  rewrite to_int32_small in Hat2 by lia.
  assert (Hs2 : map shape (nodes h2) = map shape (nodes h)).
  { change (nodes h2) with ns2. rewrite Hshape2. exact Hshape1. }
  assert (Hf2 : frame h2 = frame h) by apply set_nodes_frame, keys_of_shape, Hs2.
  assert (Hbase : neighbors_at h2 layer j = Ok base).
  { rewrite Hat2, decide_True by done. by rewrite Hlj1. }
  (* pruning *)
  destruct (prune_spec j layer h2 base) as (h' & lj' & Hp & Hf & Hpar & Hs & Hsub & Hkeep & Hcut & Hat).
  { by apply (env_frame h). }
  { exact Hbase. }
  { rewrite (shape_size _ _ Hs2). unfold base.
    apply Forall_app. split; [|by apply Forall_singleton].
    destruct (decide (j = nid)); [|done].
    apply Forall_app. split; [done | by apply Forall_singleton]. }
  exists h', lj'. split; [exact Hp |].
  split; [by rewrite Hf |]. split; [by rewrite Hpar |].
  split; [by rewrite Hs |]. split; [done |]. split; [exact Hkeep |].
  split; [exact Hcut |].
  intros l i. rewrite Hat. destruct (decide (i = j ∧ l = layer)) as [|Hnj]; [done |].
  rewrite Hat2, decide_False by done. rewrite Hat1.
  destruct (decide (i = nid ∧ l = layer)) as [[-> ->] |]; [by rewrite Hln | done].
Qed.

Lemma has_layer_neighbors h layer i :
  has_layer h layer i = true → ∃ ns, neighbors_at h layer i = Ok ns.
Proof. unfold has_layer. destruct (neighbors_at h layer i) as [ns|]; [eauto | done]. Qed.

Lemma above_frame h h' :
  frame h' = frame h → params h' = params h →
  above_minus_one h sq → above_minus_one h' sq.
Proof.
  intros Hf Hp Ha i j own d. unfold frame in Hf. injection Hf as _ Hv _ _.
  unfold params in Hp. injection Hp as _ _ _ Hm.
  rewrite calculate_distance_untrained by done. rewrite Hv, Hm.
  intros Hown Hd. apply (Ha i j own d Hown).
  by rewrite calculate_distance_untrained.
Qed.

Lemma closed_in_range h layer i ns :
  closed h → neighbors_at h layer i = Ok ns →
  Forall (fun c => 0 ≤ c < size (nodes h)) ns.
Proof.
  intros Hc Hns. specialize (Hc layer). rewrite closed_at_spec in Hc.
  eapply Forall_impl; [by eapply Hc |]. intros c Hl. simpl in Hl.
  by apply has_layer_bounds in Hl as [? _].
Qed.

(** One connection on a closed graph. *)
Lemma connect_step nid layer h j :
  env h → closed h → 0 ≤ nid < 2 ^ 31 →
  has_layer h layer nid = true → has_layer h layer j = true →
  ∃ h', connect sq nid layer h j = Ok h'
    ∧ frame h' = frame h ∧ params h' = params h
    ∧ map shape (nodes h') = map shape (nodes h)
    ∧ closed h'
    ∧ (∀ l i, l ≠ layer → neighbors_at h' l i = neighbors_at h l i)
    ∧ (j ≠ nid → ∀ ln, neighbors_at h layer nid = Ok ln →
                       neighbors_at h' layer nid = Ok (ln ++ [j]))
    ∧ (above_minus_one h sq → j ≠ nid →
       (∀ i ns, i ≠ nid → neighbors_at h layer i = Ok ns → size ns ≤ to_size_t (M h)) →
       ∀ i ns, i ≠ nid → neighbors_at h' layer i = Ok ns → size ns ≤ to_size_t (M h)).
Proof.
  intros He Hc Hnid Hln Hlj.
  apply has_layer_neighbors in Hln as [ln Hln].
  pose proof Hlj as Hhasj. pose proof (has_layer_neighbors _ _ _ Hlj) as [lj Hlj'].
  destruct (connect_spec nid layer h j lj ln He Hnid Hln Hlj'
              (closed_in_range _ _ _ _ Hc Hlj'))
    as (h' & lj' & Hcon & Hf & Hp & Hs & Hsub & Hkeep & Hcut & Hat).
  exists h'. split; [exact Hcon |]. split; [exact Hf |]. split; [exact Hp |].
  split; [exact Hs |].
  pose proof (has_layer_same_shape h h' Hs) as Hhas.
  assert (Hnid' : has_layer h layer nid = true)
    by (unfold has_layer; by rewrite Hln).
  split; [|split; [|split]].
  - intros l. apply closed_at_spec. intros i ns Hns. rewrite Hat in Hns.
    apply Forall_forall. intros x Hx. rewrite Hhas.
    pose proof (Hc l) as Hcl. rewrite closed_at_spec in Hcl.
    destruct (decide (i = j ∧ l = layer)) as [[-> ->] | Hnj].
    + injection Hns as <-. eapply elem_of_sublist in Hx; [|exact Hsub].
      apply elem_of_app in Hx as [Hx | ->%list_elem_of_singleton]; [|done].
      specialize (Hcl _ _ Hlj'). rewrite Forall_forall in Hcl.
      destruct (decide (j = nid)); [|by apply Hcl].
      apply elem_of_app in Hx as [Hx | ->%list_elem_of_singleton]; [by apply Hcl | done].
    + destruct (decide (i = nid ∧ l = layer)) as [[-> ->] | Hnn].
      * injection Hns as <-.
        apply elem_of_app in Hx as [Hx | ->%list_elem_of_singleton]; [|done].
        specialize (Hcl _ _ Hln). rewrite Forall_forall in Hcl. by apply Hcl.
      * specialize (Hcl _ _ Hns). rewrite Forall_forall in Hcl. by apply Hcl.
  - intros l i Hne. rewrite Hat.
    rewrite !decide_False by (intros [_ ?]; done). done.
  - intros Hjn ln' Hln'. rewrite Hln in Hln'. injection Hln' as <-.
    rewrite Hat. rewrite decide_False by (intros [? _]; done).
    by rewrite decide_True.
  - intros Habove Hjn Hbound i ns Hi Hns. rewrite Hat in Hns.
    rewrite (decide_False (P := i = nid ∧ layer = layer)) in Hns by (intros [? _]; done).
    destruct (decide (i = j ∧ layer = layer)) as [[-> _] |]; [|by eapply Hbound].
    injection Hns as <-. specialize (Hbound _ _ Hi Hlj').
    rewrite decide_False in Hkeep, Hcut, Hsub by done.
    destruct (decide (size (lj ++ [nid]) ≤ to_size_t (M h))) as [Hle | Hgt].
    + by rewrite (Hkeep Hle).
    + rewrite Hcut by (done || lia). unfold size in *. rewrite length_app. simpl. lia.
Qed.

Lemma params_M h h' : params h' = params h → M h' = M h.
Proof. unfold params. by intros [= -> _ _ _]. Qed.

Lemma params_efConstruction h h' :
  params h' = params h → efConstruction h' = efConstruction h.
Proof. unfold params. by intros [= _ -> _ _]. Qed.

Lemma frame_dimension h h' :
  frame h' = frame h →
  vector_dimension_ (vector_storage h') = vector_dimension_ (vector_storage h).
Proof. unfold frame. by intros [= _ -> _ _]. Qed.

(** The loop over [new_node_neighbors] on a closed graph. *)
Lemma connect_all_spec nid layer js h :
  env h → closed h → 0 ≤ nid < 2 ^ 31 →
  has_layer h layer nid = true → Forall (fun j => has_layer h layer j = true) js →
  ∃ h', connect_all sq nid layer js h = Ok h'
    ∧ frame h' = frame h ∧ params h' = params h
    ∧ map shape (nodes h') = map shape (nodes h)
    ∧ closed h'
    ∧ (∀ l i, l ≠ layer → neighbors_at h' l i = neighbors_at h l i)
    ∧ (nid ∉ js → ∀ ln, neighbors_at h layer nid = Ok ln →
                        neighbors_at h' layer nid = Ok (ln ++ js))
    ∧ (above_minus_one h sq → nid ∉ js →
       (∀ i ns, i ≠ nid → neighbors_at h layer i = Ok ns → size ns ≤ to_size_t (M h)) →
       ∀ i ns, i ≠ nid → neighbors_at h' layer i = Ok ns → size ns ≤ to_size_t (M h)).
Proof.
  intros He Hc Hnid Hln Hjs. revert h He Hc Hln Hjs.
  induction js as [|j js IH]; intros h He Hc Hln Hjs; simpl.
  - exists h. repeat split; try done.
    intros _ ln Hl. by rewrite app_nil_r.
  - apply Forall_cons in Hjs as [Hj Hjs].
    destruct (connect_step nid layer h j He Hc Hnid Hln Hj)
      as (h1 & Hcon & Hf1 & Hp1 & Hs1 & Hc1 & Hoth1 & Hnew1 & Hb1).
    rewrite Hcon. simpl.
    pose proof (has_layer_same_shape h h1 Hs1) as Hhas.
    destruct (IH h1) as (h' & Hall & Hf & Hp & Hs & Hc' & Hoth & Hnew & Hb).
    { by apply (env_frame h). }
    { done. }
    { by rewrite Hhas. }
    { eapply Forall_impl; [exact Hjs |]. intros x Hx. simpl. by rewrite Hhas. }
    exists h'. split; [exact Hall |]. split; [by rewrite Hf |].
    split; [by rewrite Hp |]. split; [by rewrite Hs |]. split; [exact Hc' |].
    split; [|split].
    + intros l i Hne. by rewrite Hoth, Hoth1.
    + intros Hnot ln Hl. apply not_elem_of_cons in Hnot as [Hne Hnot].
      rewrite (Hnew Hnot (ln ++ [j])); [by rewrite <- app_assoc |].
      apply Hnew1; [done | done].
    + intros Ha Hnot Hbound. apply not_elem_of_cons in Hnot as [Hne Hnot].
      rewrite <- (params_M _ _ Hp1).
      apply Hb; [by apply (above_frame h) | done |].
      rewrite (params_M _ _ Hp1). apply Hb1; [done | done | done].
Qed.

(** Where the ids returned by a search come from. *)
Lemma search_layer_origin h query ef layer filter ep r :
  search_layer h sq query ef layer filter ep = Ok r →
  Forall (fun x => x = ep ∨ x ∈ layer_edges h layer) r.
Proof.
  intros H. apply search_layer_results in H as (rq & -> & Hfound & _).
  apply Forall_forall. intros x Hx. apply final_results_elem in Hx as [d Hd].
  rewrite Forall_forall in Hfound. apply Hfound in Hd as (_ & _ & _ & Hd). done.
Qed.

(** Every list within [M], read through [neighbors_at]. *)
Local Abbreviation lists_within h :=
  (∀ l i ns, neighbors_at h l i = Ok ns → size ns ≤ to_size_t (M h)).

(** The node [nid] has no neighbour and is nobody's neighbour on the layers
    up to [layer]. *)
Local Abbreviation unlinked h nid layer :=
  (∀ l i ns, l ≤ layer → neighbors_at h l i = Ok ns → (nid ∉ ns) ∧ (i = nid → ns = [])).

(** A list of the new node [nid]: at most [M] distinct nodes that are not
    tombstoned, and at least one when [M] is not zero. *)
Local Abbreviation well_linked h nid js :=
  (NoDup js
   ∧ size js ≤ to_size_t (M h)
   ∧ (1 ≤ to_size_t (M h) → 1 ≤ size js)
   ∧ Forall (fun j => is_deleted h j = false ∧ j ≠ nid) js).

Lemma frame_is_deleted h h' x :
  frame h' = frame h → is_deleted h' x = is_deleted h x.
Proof. unfold frame, is_deleted. by intros [= _ _ _ ->]. Qed.

Lemma search_layer_NoDup h query ef layer filter ep r :
  search_layer h sq query ef layer filter ep = Ok r →
  NoDup r ∧ Forall (fun x => is_deleted h x = false) r.
Proof.
  intros H. apply search_layer_results in H as (rq & -> & Hfound & Hnd & _).
  split; [by rewrite final_results_perm |].
  apply Forall_forall. intros x Hx. apply final_results_elem in Hx as [d Hd].
  rewrite Forall_forall in Hfound. by apply Hfound in Hd as (_ & ? & _).
Qed.

Lemma select_neighbors_size m r : size (select_neighbors m r) ≤ to_size_t m.
Proof.
  unfold select_neighbors, size. rewrite length_take.
  pose proof (to_size_t_nonneg m). lia.
Qed.

(** The second loop of [insert] on a closed graph. *)
Lemma insert_link_spec vec nid count layer cur h :
  env h → closed h → 0 ≤ nid < 2 ^ 31 →
  size vec = vector_dimension_ (vector_storage h) →
  1 ≤ to_size_t (efConstruction h) →
  Z.of_nat count = layer + 1 →
  (∀ l, 0 ≤ l ≤ layer → has_layer h l nid = true) →
  (0 ≤ layer → has_layer h layer cur = true) →
  ∃ h', insert_link sq vec nid count layer cur h = Ok h'
    ∧ frame h' = frame h ∧ params h' = params h
    ∧ map shape (nodes h') = map shape (nodes h)
    ∧ closed h'
    ∧ (above_minus_one h sq → lists_within h → unlinked h nid layer → cur ≠ nid →
       lists_within h')
    ∧ (∀ l i, layer < l → neighbors_at h' l i = neighbors_at h l i)
    ∧ (unlinked h nid layer → cur ≠ nid → is_deleted h cur = false →
       ∀ l, 0 ≤ l ≤ layer →
            ∃ js, neighbors_at h' l nid = Ok js ∧ well_linked h nid js).
Proof.
  intros He Hc Hnid Hvec Hef. revert layer cur h He Hc Hvec Hef.
  induction count as [|count IH]; intros layer cur h He Hc Hvec Hef Hcount Hnew Hcur; simpl.
  - exists h. split; [done |]. split; [done |]. split; [done |]. split; [done |].
    split; [done |]. split; [by intros _ Hw _ _ |]. split; [done |].
    intros _ _ _ l Hl. lia.
  - assert (Hlayer : 0 ≤ layer) by lia. specialize (Hcur Hlayer).
    destruct (search_layer_total h sq vec None (env_searchable h vec None He Hvec)
                (efConstruction h) layer (Hc layer) Hef cur Hcur) as (r & Hr & Hall).
    rewrite Hr. simpl.
    pose proof (search_layer_origin _ _ _ _ _ _ _ Hr) as Horigin.
    pose proof (search_layer_NoDup _ _ _ _ _ _ _ Hr) as [Hnodup Hlive].
    destruct r as [|first rest].
    + destruct (IH (layer - 1) cur h He Hc Hvec Hef)
        as (h' & Hl & Hf & Hp & Hs & Hc' & Hb & Hup & Hlk).
      { lia. }
      { intros l Hl. apply Hnew. lia. }
      { intros Hl. eapply has_layer_le; [exact Hcur | lia]. }
      exists h'. split; [exact Hl |]. split; [exact Hf |]. split; [exact Hp |].
      split; [exact Hs |]. split; [exact Hc' |]. split; [|split].
      * intros Ha Hw Hfr Hne. apply Hb; try done.
        intros l i ns Hl'. apply Hfr. lia.
      * intros l i Hl'. apply Hup. lia.
      * intros _ _ Hcurlive.
        apply search_layer_nil_deleted in Hr; [congruence | done].
    + set (js := select_neighbors (M h) (first :: rest)) in *.
      assert (Hnl : has_layer h layer nid = true) by (apply Hnew; lia).
      destruct (connect_all_spec nid layer js h He Hc Hnid Hnl)
        as (h1 & Hcon & Hf1 & Hp1 & Hs1 & Hc1 & Hoth1 & Hnew1 & Hb1).
      { unfold js, select_neighbors. by apply Forall_take. }
      rewrite Hcon. simpl.
      pose proof (has_layer_same_shape h h1 Hs1) as Hhas.
      destruct (IH (layer - 1) first h1)
        as (h' & Hl & Hf & Hp & Hs & Hc' & Hb & Hup & Hlk).
      { by apply (env_frame h). }
      { done. }
      { by rewrite (frame_dimension _ _ Hf1). }
      { by rewrite (params_efConstruction _ _ Hp1). }
      { lia. }
      { intros l Hl. rewrite Hhas. apply Hnew. lia. }
      { intros Hl. rewrite Hhas. apply Forall_cons in Hall as [Hfirst _].
        eapply has_layer_le; [exact Hfirst | lia]. }
      assert (Hfacts : unlinked h nid layer → cur ≠ nid →
                Forall (fun x => x ≠ nid) (first :: rest)
                ∧ (nid ∉ js)
                ∧ neighbors_at h1 layer nid = Ok js
                ∧ unlinked h1 nid (layer - 1)).
      { intros Hfr Hne.
        assert (Hfar : Forall (fun x => x ≠ nid) (first :: rest)).
        { eapply Forall_impl; [exact Horigin |]. intros x [-> | Hx]; [done |].
          simpl. intros ->. apply layer_edges_spec in Hx as (i & ns & Hns & Hin).
          by apply (Hfr layer i ns) in Hns as [? _]. }
        assert (Hnot : nid ∉ js).
        { intros Hin. unfold js, select_neighbors in Hin.
          apply (subseteq_take _ _ _) in Hin. rewrite Forall_forall in Hfar.
          by apply (Hfar nid). }
        split; [done |]. split; [done |]. split.
        - destruct (has_layer_neighbors h layer nid Hnl) as [ln Hln].
          pose proof (Hfr layer nid ln (Z.le_refl _) Hln) as [_ Hempty].
          rewrite (Hempty eq_refl) in Hln. by rewrite (Hnew1 Hnot [] Hln).
        - intros l i ns Hl' Hns. rewrite Hoth1 in Hns by lia.
          apply (Hfr l i ns); [lia | done]. }
      exists h'. split; [exact Hl |]. split; [by rewrite Hf |].
      split; [by rewrite Hp |]. split; [by rewrite Hs |]. split; [exact Hc' |].
      split; [|split].
      * intros Ha Hw Hfr Hne.
        destruct (Hfacts Hfr Hne) as (Hfar & Hnot & Hjs & Hfr1).
        apply Hb.
        -- by apply (above_frame h).
        -- intros l i ns Hns. rewrite (params_M _ _ Hp1).
           destruct (decide (l = layer)) as [-> | Hl'];
             [|rewrite Hoth1 in Hns by done; by eapply Hw].
           destruct (decide (i = nid)) as [-> | Hi].
           ++ rewrite Hjs in Hns. injection Hns as <-. apply select_neighbors_size.
           ++ eapply (Hb1 Ha Hnot); [|exact Hi | exact Hns].
              intros i' ns' _ Hns'. by eapply Hw.
        -- exact Hfr1.
        -- apply Forall_cons in Hfar as [? _]. done.
      * intros l i Hl'. rewrite Hup by lia. apply Hoth1. lia.
      * intros Hfr Hne Hcurlive l Hl'.
        destruct (Hfacts Hfr Hne) as (Hfar & Hnot & Hjs & Hfr1).
        destruct (decide (l = layer)) as [-> | Hlt].
        -- exists js. split; [rewrite Hup by lia; exact Hjs |].
           unfold js, select_neighbors.
           split; [|split; [|split]].
           ++ eapply sublist_NoDup; [exact Hnodup | apply sublist_take].
           ++ apply select_neighbors_size.
           ++ intros HM. unfold size. rewrite length_take. simpl. lia.
           ++ apply Forall_take. apply Forall_forall. intros x Hx.
              rewrite Forall_forall in Hlive, Hfar. split; [by apply Hlive | by apply Hfar].
        -- destruct (Hlk Hfr1) with (l := l) as (js' & Hjs' & Hnd & Hsz & HM & Hall').
           { apply Forall_cons in Hfar as [? _]. done. }
           { rewrite (frame_is_deleted _ _ _ Hf1).
             apply Forall_cons in Hlive as [? _]. done. }
           { lia. }
           exists js'. split; [exact Hjs' |]. rewrite (params_M _ _ Hp1) in HM, Hsz.
           split; [exact Hnd |]. split; [exact Hsz |]. split; [exact HM |].
           eapply Forall_impl; [exact Hall' |]. intros x [Hx ?]. simpl.
           rewrite (frame_is_deleted _ _ _ Hf1) in Hx. done.
Qed.

Lemma one_le_size_t_one : 1 ≤ to_size_t 1.
Proof. done. Qed.

(** The first loop of [insert] on a closed graph. *)
Lemma insert_descend_total h vec count layer cur :
  env h → closed h → size vec = vector_dimension_ (vector_storage h) →
  has_layer h layer cur = true → Z.of_nat count ≤ layer →
  ∃ c, insert_descend h sq vec count layer cur = Ok c
       ∧ has_layer h (layer - Z.of_nat count) c = true
       ∧ (c = cur ∨ ∃ l, c ∈ layer_edges h l)
       ∧ (is_deleted h cur = false → is_deleted h c = false).
Proof.
  intros He Hc Hvec. revert layer cur.
  induction count as [|count IH]; intros layer cur Hcur Hcount; simpl.
  - exists cur. split; [done |]. split; [|split; [by left | done]].
    by replace (layer - Z.of_nat 0) with layer by lia.
  - destruct (search_layer_total h sq vec None (env_searchable h vec None He Hvec)
                1 layer (Hc layer) one_le_size_t_one cur Hcur) as (r & Hr & Hall).
    rewrite Hr. simpl.
    pose proof (search_layer_origin _ _ _ _ _ _ _ Hr) as Horigin.
    destruct r as [|c0 rest].
    + exists cur. split; [done |]. split; [|split; [by left | done]].
      eapply has_layer_le; [exact Hcur |].
      apply has_layer_bounds in Hcur. lia.
    + apply Forall_cons in Hall as [Hc0 _]. apply Forall_cons in Horigin as [Ho _].
      destruct (IH (layer - 1) c0) as (c & Hd & Hl & Hfrom & Hlive).
      { eapply has_layer_le; [exact Hc0 | lia]. }
      { lia. }
      exists c. split; [exact Hd |]. split; [|split].
      * by replace (layer - Z.of_nat (S count)) with (layer - 1 - Z.of_nat count) by lia.
      * destruct Hfrom as [-> | ?]; [|by right].
        destruct Ho as [-> | ?]; [by left | right; eauto].
      * intros _. apply Hlive. by eapply search_layer_head_live.
Qed.

Lemma above_storage h h' :
  vector_storage h' = vector_storage h → params h' = params h →
  above_minus_one h sq → above_minus_one h' sq.
Proof.
  intros Hv Hp Ha i j own d.
  unfold params in Hp. injection Hp as _ _ _ Hm.
  rewrite calculate_distance_untrained by done. rewrite Hv, Hm.
  intros Hown Hd. apply (Ha i j own d Hown).
  by rewrite calculate_distance_untrained.
Qed.

(** Everything after the early return of [insert], on a closed graph whose
    entry point has the layer it claims. *)
Lemma insert_graph_total vec nid lvl h n :
  env h → closed h → 0 ≤ nid < 2 ^ 31 →
  size vec = vector_dimension_ (vector_storage h) →
  1 ≤ to_size_t (efConstruction h) → 0 ≤ lvl →
  (∀ l, 0 ≤ l ≤ lvl → has_layer h l nid = true) →
  at_ (nodes h) (entry_point_id h) = Ok n →
  has_layer h (Node.max_layer n) (entry_point_id h) = true →
  ∃ h', insert_graph sq vec nid lvl h = Ok h'
    ∧ params h' = params h
    ∧ map shape (nodes h') = map shape (nodes h)
    ∧ vector_storage h' = vector_storage h
    ∧ closed h'
    ∧ (above_minus_one h sq → lists_within h →
       (∀ l i ns, neighbors_at h l i = Ok ns → (nid ∉ ns) ∧ (i = nid → ns = [])) →
       entry_point_id h ≠ nid → lists_within h')
    ∧ ((∀ l i ns, neighbors_at h l i = Ok ns → (nid ∉ ns) ∧ (i = nid → ns = [])) →
       entry_point_id h ≠ nid → is_deleted h (entry_point_id h) = false →
       ∀ l, 0 ≤ l ≤ Z.min lvl (Node.max_layer n) →
            ∃ js, neighbors_at h' l nid = Ok js ∧ well_linked h nid js).
Proof.
  intros He Hc Hnid Hvec Hef Hlvl Hnew Hn Hep.
  unfold insert_graph. rewrite Hn. simpl.
  pose proof (has_layer_bounds _ _ _ Hep) as [_ Hml].
  destruct (insert_descend_total h vec (Z.to_nat (Node.max_layer n - lvl))
              (Node.max_layer n) (entry_point_id h) He Hc Hvec Hep)
    as (cur & Hd & Hcur & Hfrom & Hcurlive); [lia |].
  rewrite Hd. simpl.
  set (start := Z.min lvl (Node.max_layer n)).
  replace (Node.max_layer n - Z.of_nat (Z.to_nat (Node.max_layer n - lvl)))
    with start in Hcur by lia.
  destruct (insert_link_spec vec nid (Z.to_nat (start + 1)) start cur h
              He Hc Hnid Hvec Hef) as (h1 & Hl & Hf & Hp & Hs & Hc1 & Hb & _ & Hlk).
  { lia. }
  { intros l Hl. apply Hnew. lia. }
  { done. }
  rewrite Hl. simpl.
  pose proof Hf as Hf'. unfold frame in Hf'. injection Hf' as Hk Hv Hentry Hdel.
  destruct (at_total (nodes h1) (entry_point_id h1)) as [ep' Hep'].
  { rewrite Hentry, (shape_size _ _ Hs). by eapply at_Ok_bounds. }
  rewrite Hep'. simpl.
  assert (Hcurnid : (∀ l i ns, neighbors_at h l i = Ok ns →
                               (nid ∉ ns) ∧ (i = nid → ns = [])) →
                    entry_point_id h ≠ nid → cur ≠ nid).
  { intros Hfr Hne. destruct Hfrom as [-> | [l Hin]]; [done |].
    apply layer_edges_spec in Hin as (i & ns & Hns & Hin).
    intros ->. by apply Hfr in Hns as [? _]. }
  assert (Hw : above_minus_one h sq → lists_within h →
               (∀ l i ns, neighbors_at h l i = Ok ns → (nid ∉ ns) ∧ (i = nid → ns = [])) →
               entry_point_id h ≠ nid → lists_within h1).
  { intros Ha Hwi Hfr Hne. apply Hb; [done | done | | by apply Hcurnid].
    intros l i ns _. apply Hfr. }
  assert (Hlinks : (∀ l i ns, neighbors_at h l i = Ok ns →
                              (nid ∉ ns) ∧ (i = nid → ns = [])) →
                   entry_point_id h ≠ nid → is_deleted h (entry_point_id h) = false →
                   ∀ l, 0 ≤ l ≤ start →
                        ∃ js, neighbors_at h1 l nid = Ok js ∧ well_linked h nid js).
  { intros Hfr Hne Hlive. apply Hlk; [| by apply Hcurnid | by apply Hcurlive].
    intros l i ns _. apply Hfr. }
  destruct (Node.max_layer ep' <? lvl).
  - exists (set_entry_point h1 (to_int32 nid)).
    split; [done |]. split; [done |]. split; [done |]. split; [done |].
    split; [exact Hc1 |]. split; [exact Hw | exact Hlinks].
  - exists h1.
    split; [done |]. split; [done |]. split; [done |]. split; [done |].
    split; [exact Hc1 |]. split; [exact Hw | exact Hlinks].
Qed.

Lemma add_vector_untrained vec meta vs :
  size vec = vector_dimension_ vs →
  add_vector sq vec meta vs
  = Ok (mkVS (vector_dimension_ vs) (vectors_ vs ++ [vec]) (metadata_ vs ++ [meta])
             (encoded_vectors_ vs)).
Proof.
  intros Hvec. unfold add_vector. rewrite Hvec, Z.eqb_refl. simpl.
  destruct sq as [q|]; [|done]. simpl in Hsq. by rewrite Hsq.
Qed.

(** The lists of the index once the new node is appended. *)
Lemma appended_neighbors h vs lvl l i ns :
  0 ≤ lvl →
  neighbors_at (set_nodes (set_vector_storage h vs)
                  (nodes h ++ [Node.mk (size (nodes h)) lvl
                                 (replicate (Z.to_nat (lvl + 1)) [])])) l i = Ok ns →
  neighbors_at h l i = Ok ns ∨ (i = size (nodes h) ∧ ns = []).
Proof.
  intros Hlvl H. unfold neighbors_at in *. simpl in H.
  apply bind_Ok in H as (n & Hn & Hl).
  apply at_Ok_lookup in Hn as [Hi Hn].
  apply lookup_app_Some in Hn as [Hn | [Hlen Hn]].
  - left. assert (Hat : at_ (nodes h) i = Ok n) by by apply at_Ok_lookup.
    by rewrite Hat.
  - right. destruct (Z.to_nat i - length (nodes h))%nat eqn:E; [|by destruct n0].
    injection Hn as <-. simpl in Hl.
    apply at_Ok_lookup in Hl as [_ Hl]. apply lookup_replicate in Hl as [-> _].
    split; [unfold size; lia | done].
Qed.

Lemma appended_has_layer h vs node l i :
  has_layer h l i = true →
  has_layer (set_nodes (set_vector_storage h vs) (nodes h ++ [node])) l i = true.
Proof.
  unfold has_layer, neighbors_at. simpl.
  destruct (at_ (nodes h) i) as [n|] eqn:Hn; [|done].
  by rewrite (at_app_l _ [node] _ _ Hn).
Qed.

Lemma appended_new_layers h vs lvl l :
  0 ≤ l ≤ lvl →
  has_layer (set_nodes (set_vector_storage h vs)
               (nodes h ++ [Node.mk (size (nodes h)) lvl
                              (replicate (Z.to_nat (lvl + 1)) [])])) l (size (nodes h))
  = true.
Proof.
  intros Hl. unfold has_layer, neighbors_at. simpl.
  rewrite at_app_last. simpl.
  destruct (at_total (replicate (Z.to_nat (lvl + 1)) ([] : list Z)) l) as [x ->]; [|done].
  unfold size. rewrite length_replicate. lia.
Qed.

Lemma within_M_spec h : within_M h ↔ lists_within h.
Proof.
  unfold within_M. split.
  - intros Hw l i ns Hns. unfold neighbors_at in Hns.
    apply bind_Ok in Hns as (n & Hn%at_Ok_elem & Hl%at_Ok_elem).
    specialize (Hw n Hn). rewrite Forall_forall in Hw. by apply Hw.
  - intros Hw n Hn. apply Forall_forall. intros ns Hns.
    apply list_elem_of_lookup in Hn as [i Hi].
    apply list_elem_of_lookup in Hns as [l Hl].
    apply (Hw (Z.of_nat l) (Z.of_nat i)). unfold neighbors_at.
    assert (Hat : at_ (nodes h) (Z.of_nat i) = Ok n).
    { apply at_Ok_lookup. split; [lia |]. by rewrite Nat2Z.id. }
    rewrite Hat. simpl. apply at_Ok_lookup. split; [lia |]. by rewrite Nat2Z.id.
Qed.

Lemma keys_at_nodes h i k :
  at_ (keys h) i = Ok k → ∃ n, at_ (nodes h) i = Ok n ∧ node_key n = k.
Proof.
  intros [Hi Hk]%at_Ok_lookup. unfold keys in Hk.
  change (map node_key (nodes h)) with (node_key <$> nodes h) in Hk.
  rewrite list_lookup_fmap in Hk.
  destruct (nodes h !! Z.to_nat i) as [n|] eqn:Hn; [|done].
  injection Hk as <-. exists n. split; [by apply at_Ok_lookup | done].
Qed.

(** The entry point of a well-formed index has the layer it claims. *)
Lemma entry_point_has_layer h n :
  index_ok h → layered h → at_ (nodes h) (entry_point_id h) = Ok n →
  0 ≤ Node.max_layer n
  ∧ has_layer h (Node.max_layer n) (entry_point_id h) = true.
Proof.
  intros (Hkeys & _) Hlay Hn.
  pose proof (Hlay n (at_Ok_elem _ _ _ Hn)) as Hsize.
  assert (Hml : 0 ≤ Node.max_layer n).
  { apply at_Ok_lookup in Hn as [_ Hn].
    specialize (Hkeys (Z.to_nat (entry_point_id h)) (node_key n)).
    unfold keys in Hkeys. change (map node_key (nodes h)) with (node_key <$> nodes h) in Hkeys.
    rewrite list_lookup_fmap, Hn in Hkeys. by destruct (Hkeys eq_refl). }
  split; [done |]. unfold has_layer, neighbors_at. rewrite Hn. simpl.
  destruct (at_total (Node.neighbors n) (Node.max_layer n)) as [x ->]; [lia | done].
Qed.

(** [insert] on a well-formed index with no trained quantizer: it returns
    the next id and leaves a well-formed index. *)
Lemma insert_total lvl vec meta h :
  graph_ok h → valid_metric (distance_metric h) = true →
  1 ≤ to_size_t (efConstruction h) →
  size vec = vector_dimension_ (vector_storage h) → 0 ≤ lvl →
  size (keys h) + 1 < 2 ^ 31 →
  ∃ h', insert sq lvl vec meta h = (Ok (size (keys h)), h')
        ∧ graph_ok h'
        ∧ (above_minus_one h' sq → within_M h → within_M h')
        ∧ (∀ n, at_ (nodes h) (entry_point_id h) = Ok n →
           ∀ l, 0 ≤ l ≤ Z.min lvl (Node.max_layer n) →
                ∃ js, neighbors_at h' l (size (keys h)) = Ok js
                      ∧ well_linked h (size (keys h)) js).
Proof.
  intros (Hi & Hep & Hlay & Hcl & Hst) Hm Hef Hvec Hlvl Hsz.
  assert (Hkn : size (keys h) = size (nodes h)).
  { unfold keys, size. by rewrite length_map. }
  assert (Hnid : to_uint32 (size (vectors_ (vector_storage h))) = size (nodes h)).
  { destruct Hi as (_ & Hlen & _). unfold size in *. rewrite Hlen.
    rewrite to_uint32_small; lia. }
  set (nid := size (nodes h)) in *.
  set (vs := mkVS (vector_dimension_ (vector_storage h))
                  (vectors_ (vector_storage h) ++ [vec])
                  (metadata_ (vector_storage h) ++ [meta])
                  (encoded_vectors_ (vector_storage h))).
  set (node := Node.mk nid lvl (replicate (Z.to_nat (lvl + 1)) [])).
  set (h2 := set_nodes (set_vector_storage h vs) (nodes h ++ [node])).
  assert (Hunf : insert sq lvl vec meta h
                 = if entry_point_id h =? -1
                   then (Ok nid, set_entry_point h2 (to_int32 nid))
                   else match insert_graph sq vec nid lvl h2 with
                        | Err e => (Err e, h2)
                        | Ok h3 => (Ok nid, h3)
                        end).
  { unfold insert. rewrite add_vector_untrained by done. rewrite Hnid.
    unfold Node.new. by rewrite (proj2 (Z.ltb_ge _ _)) by lia. }
  (* the index once the vector and the node are appended *)
  assert (Hi2 : index_ok h2).
  { apply (insert_appended_ok h vs lvl (size (keys h), lvl)); try done.
    - simpl. rewrite length_app. simpl. destruct Hi as (_ & -> & _). lia.
    - change (keys h2) with (map node_key (nodes h ++ [node])). rewrite map_app.
      change (map node_key [node]) with [(nid, lvl)]. by rewrite Hkn. }
  assert (Hst2 : storage_ok h2).
  { destruct Hst as [Hlen Hall]. split; simpl.
    - rewrite !length_app. simpl. lia.
    - apply Forall_app. split; [done | by apply Forall_singleton]. }
  assert (Hlay2 : layered h2).
  { intros n [Hn | ->%list_elem_of_singleton]%elem_of_app; [by apply Hlay |].
    simpl. unfold size. rewrite length_replicate. lia. }
  assert (Hcl2 : closed h2).
  { intros l. apply closed_at_spec. intros i ns Hns.
    apply appended_neighbors in Hns as [Hns | [_ ->]]; [|done | done].
    pose proof (Hcl l) as Hl. rewrite closed_at_spec in Hl.
    eapply Forall_impl; [by eapply Hl |]. intros x Hx. by apply appended_has_layer. }
  assert (Hfresh : ∀ l i ns, neighbors_at h2 l i = Ok ns →
                             (nid ∉ ns) ∧ (i = nid → ns = [])).
  { intros l i ns Hns. apply appended_neighbors in Hns as [Hns | [_ ->]]; [| |done].
    - split.
      + intros Hin. pose proof (closed_in_range _ _ _ _ Hcl Hns) as Hr.
        rewrite Forall_forall in Hr. apply Hr in Hin. unfold nid in Hin. lia.
      + intros ->. apply neighbors_at_range in Hns. unfold nid in Hns. lia.
    - split; [by intros ?%elem_of_nil | done]. }
  assert (Hw2 : within_M h → lists_within h2).
  { intros Hw l i ns Hns. apply appended_neighbors in Hns as [Hns | [_ ->]]; [| |done].
    - by eapply (proj1 (within_M_spec h) Hw).
    - apply to_size_t_nonneg. }
  assert (He2 : env h2) by done.
  assert (Hmid : ∃ h', insert sq lvl vec meta h = (Ok nid, h')
                       ∧ map shape (nodes h') = map shape (nodes h2)
                       ∧ vector_storage h' = vector_storage h2
                       ∧ params h' = params h2
                       ∧ closed h'
                       ∧ (above_minus_one h2 sq → lists_within h2 → lists_within h')
                       ∧ (∀ n, at_ (nodes h) (entry_point_id h) = Ok n →
                          ∀ l, 0 ≤ l ≤ Z.min lvl (Node.max_layer n) →
                               ∃ js, neighbors_at h' l nid = Ok js
                                     ∧ well_linked h2 nid js)).
  { rewrite Hunf. destruct (entry_point_id h =? -1) eqn:E.
    - exists (set_entry_point h2 (to_int32 nid)).
      split; [done |]. split; [done |]. split; [done |]. split; [done |].
      split; [exact Hcl2 |]. split; [done |].
      apply Z.eqb_eq in E. rewrite E. by intros n Hn.
    - apply Z.eqb_neq in E. unfold entry_point_ok in Hep.
      rewrite decide_False in Hep by done. destruct Hep as (k & Hk & Hklive & _).
      pose proof Hk as Hk'. apply at_Ok_lookup in Hk' as [Hep0 Hk'].
      destruct Hi as (Hkeys & Hi').
      pose proof (Hkeys _ _ Hk') as [Hk1 _].
      apply keys_at_nodes in Hk as (n & Hn & Hkey).
      assert (Hi0 : index_ok h) by done.
      destruct (entry_point_has_layer h n Hi0 Hlay Hn) as [_ Hhas].
      assert (Heplt : 0 ≤ entry_point_id h < nid).
      { apply at_Ok_bounds in Hn. unfold nid. lia. }
      assert (Heplive : is_deleted h (entry_point_id h) = false).
      { unfold is_deleted. apply bool_decide_eq_false.
        rewrite to_uint32_small by (unfold nid, size in *; lia).
        rewrite Z2Nat.id in Hk1 by lia. by rewrite <- Hk1. }
      destruct (insert_graph_total vec nid lvl h2 n He2 Hcl2)
        as (h3 & -> & Hp & Hs & Hv & Hc3 & Hb & Hlk).
      { unfold nid, size in *. lia. }
      { done. }
      { done. }
      { done. }
      { intros l Hl. by apply appended_new_layers. }
      { by apply at_app_l. }
      { by apply appended_has_layer. }
      exists h3. split; [done |]. split; [done |]. split; [done |]. split; [done |].
      split; [exact Hc3 |]. split.
      + intros Ha Hw. apply Hb; try done. simpl. lia.
      + intros n' Hn'. rewrite Hn in Hn'. injection Hn' as <-.
        apply Hlk; [done | simpl; lia | exact Heplive]. }
  destruct Hmid as (h' & Hins & Hs & Hv & Hp & Hc' & Hb & Hlk).
  rewrite <- Hkn in Hins. exists h'. split; [exact Hins |]. split; [|split].
  - destruct (insert_entry_point_ok sq lvl vec meta h _ h' Hi Hep Hlvl Hsz Hins) as [Hi' Hep'].
    split; [done |]. split; [done |]. split; [by eapply layered_same_shape |].
    split; [done |]. unfold storage_ok. by rewrite Hv.
  - intros Ha Hw. apply (proj2 (within_M_spec h')). apply Hb; [|by apply Hw2].
    eapply above_storage; [| |exact Ha]; done.
  - rewrite Hkn. exact Hlk.
Qed.

Lemma mark_deleted_graph_ok id h :
  graph_ok h → 0 ≤ id < size (keys h) → graph_ok (mark_deleted id h).
Proof.
  intros (Hi & Hep & Hlay & Hcl & Hst) Hid.
  destruct (mark_deleted_entry_point_ok id h Hi Hep Hid) as [Hi' Hep'].
  split; [done |]. split; [done |].
  rewrite mark_deleted_fields.
  split; [exact Hlay | split; [exact Hcl | exact Hst]].
Qed.

Lemma above_prefix h h' ext :
  vectors_ (vector_storage h') = vectors_ (vector_storage h) ++ ext →
  params h' = params h →
  above_minus_one h' sq → above_minus_one h sq.
Proof.
  intros Hv Hp Ha i j own d Hown Hd.
  unfold params in Hp. injection Hp as _ _ _ Hm.
  apply (Ha i j own d).
  - unfold get_vector in *. rewrite Hv. by apply at_app_l.
  - rewrite calculate_distance_untrained in * by done.
    apply bind_Ok in Hd as (v & Hv' & Hd).
    unfold get_vector in *. rewrite Hv, (at_app_l _ ext _ _ Hv'). simpl.
    by rewrite Hm.
Qed.

(** Sequences of inserts and deletions on a well-formed index. *)
Lemma run_ops_graph_ok ops h :
  graph_ok h → valid_metric (distance_metric h) = true →
  1 ≤ to_size_t (efConstruction h) →
  ops_ok (length (keys h)) ops →
  ops_fit (vector_dimension_ (vector_storage h)) ops →
  ∃ h' ext, run_ops sq ops h = Ok h' ∧ graph_ok h' ∧ params h' = params h
    ∧ vector_dimension_ (vector_storage h') = vector_dimension_ (vector_storage h)
    ∧ vectors_ (vector_storage h') = vectors_ (vector_storage h) ++ ext
    ∧ (above_minus_one h' sq → within_M h → within_M h').
Proof.
  revert h. induction ops as [|[lvl vec meta | id] ops IH];
    intros h Hg Hm Hef Hops Hfit; simpl.
  - exists h, []. rewrite app_nil_r.
    split; [done |]. split; [exact Hg |]. split; [done |]. split; [done |].
    split; [done |]. by intros _ Hw.
  - destruct Hops as (Hlvl & Hroom & Hops). apply Forall_cons in Hfit as [Hvec Hfit].
    destruct (insert_total lvl vec meta h Hg Hm Hef Hvec Hlvl Hroom)
      as (h1 & Hins & Hg1 & Hw1 & _).
    rewrite Hins.
    pose proof (insert_keys_length _ _ _ _ _ _ _ Hins) as Hlen.
    apply insert_Ok_inv in Hins as (_ & _ & Hd1 & Hv1 & _ & _ & _ & Hp1).
    pose proof Hp1 as Hp1'. unfold params in Hp1'. injection Hp1' as HM1 HefC1 _ Hmetric1.
    destruct (IH h1) as (h' & ext & Hrun & Hg' & Hp' & Hd' & Hv' & Hw'); try done.
    { by rewrite Hmetric1. }
    { by rewrite HefC1. }
    { by rewrite Hlen. }
    { by rewrite Hd1. }
    exists h', ([vec] ++ ext). split; [exact Hrun |]. split; [exact Hg' |].
    split; [by rewrite Hp' |]. split; [by rewrite Hd' |].
    split; [by rewrite Hv', Hv1, <- app_assoc |].
    intros Ha Hw. apply Hw'; [done |]. apply Hw1; [|done].
    by eapply above_prefix.
  - destruct Hops as (Hid & Hops). apply Forall_cons in Hfit as [_ Hfit].
    pose proof (mark_deleted_graph_ok id h Hg Hid) as Hg1.
    rewrite mark_deleted_fields in Hg1 |- *.
    set (h1 := mkHNSW _ _ _ _ _ _ _ _) in *.
    destruct (IH h1 Hg1 Hm Hef Hops Hfit) as (h' & ext & Hrun & Hg' & Hp' & Hd' & Hv' & Hw').
    exists h', ext. split; [exact Hrun |]. split; [exact Hg' |].
    split; [exact Hp' |]. split; [exact Hd' |]. split; [exact Hv' |]. exact Hw'.
Qed.

Lemma new_graph_ok D M efC efS metric : graph_ok (Hnsw.new D M efC efS metric).
Proof.
  destruct (new_index_entry_point_ok D M efC efS metric) as [Hi Hep].
  split; [done |]. split; [done |]. split; [|split].
  - by intros n ?%elem_of_nil.
  - by intros l.
  - split; [done | by apply Forall_nil].
Qed.

(** On a well-formed index every access of a query of the dimension of the
    index stays within bounds. *)
Lemma graph_ok_wf_query h query k filter include :
  graph_ok h → valid_metric (distance_metric h) = true →
  size query = vector_dimension_ (vector_storage h) →
  1 ≤ to_size_t (Z.max k (efSearch h)) →
  wf_query h sq query k filter include = true.
Proof.
  intros (Hi & Hep & Hlay & Hcl & Hst) Hm Hq Hef.
  assert (He : env h) by done.
  unfold wf_query. destruct (entry_point_id h =? -1) eqn:E; [done |]. simpl.
  apply Z.eqb_neq in E. unfold entry_point_ok in Hep.
  rewrite decide_False in Hep by done. destruct Hep as (key & Hk & _).
  apply keys_at_nodes in Hk as (n & Hn & _). rewrite Hn.
  destruct (entry_point_has_layer h n Hi Hlay Hn) as [Hml Hhas].
  rewrite Z.max_r by done. rewrite Hhas. simpl.
  rewrite (env_searchable h query filter He Hq).
  rewrite (proj2 (Z.leb_le _ _) Hef). rewrite !andb_true_r.
  apply andb_true_intro. split.
  - apply forallb_forall. intros l _. apply Hcl.
  - apply forallb_forall. intros i Hin%list_elem_of_In. unfold node_ids in Hin.
    apply list_elem_of_fmap in Hin as (j & -> & Hj%list_elem_of_In%in_seq).
    assert (Hr : 0 ≤ Z.of_nat j < size (nodes h)) by (unfold size; lia).
    pose proof (env_sizes h He) as (Hv & Hmeta & _).
    unfold make_result.
    destruct (env_distance h query _ He Hq Hr) as [d ->].
    unfold get_metadata, get_vector.
    destruct (at_total (metadata_ (vector_storage h)) (Z.of_nat j)) as [m ->]; [lia |].
    destruct (at_total (vectors_ (vector_storage h)) (Z.of_nat j)) as [v ->]; [lia |].
    by destruct (included include DISTANCE), (included include METADATA),
               (included include VECTOR).
Qed.

(** The same from any entry point that names a node: a query starts from a
    tombstoned entry point, or one below the top layer, as from any other. *)
Lemma in_range_wf_query h query k filter include :
  index_ok h → layered h → closed h → storage_ok h → entry_point_in_range h →
  valid_metric (distance_metric h) = true →
  size query = vector_dimension_ (vector_storage h) →
  1 ≤ to_size_t (Z.max k (efSearch h)) →
  wf_query h sq query k filter include = true.
Proof.
  intros Hi Hlay Hcl Hst Hep Hm Hq Hef.
  assert (He : env h) by done.
  unfold wf_query. destruct (entry_point_id h =? -1) eqn:E; [done |]. simpl.
  apply Z.eqb_neq in E. destruct Hep as [Hep | Hep]; [done |].
  destruct (at_total (nodes h) (entry_point_id h) Hep) as [n Hn]. rewrite Hn.
  destruct (entry_point_has_layer h n Hi Hlay Hn) as [Hml Hhas].
  rewrite Z.max_r by done. rewrite Hhas. simpl.
  rewrite (env_searchable h query filter He Hq).
  rewrite (proj2 (Z.leb_le _ _) Hef). rewrite !andb_true_r.
  apply andb_true_intro. split.
  - apply forallb_forall. intros l _. apply Hcl.
  - apply forallb_forall. intros i Hin%list_elem_of_In. unfold node_ids in Hin.
    apply list_elem_of_fmap in Hin as (j & -> & Hj%list_elem_of_In%in_seq).
    assert (Hr : 0 ≤ Z.of_nat j < size (nodes h)) by (unfold size; lia).
    pose proof (env_sizes h He) as (Hv & Hmeta & _).
    unfold make_result.
    destruct (env_distance h query _ He Hq Hr) as [d ->].
    unfold get_metadata, get_vector.
    destruct (at_total (metadata_ (vector_storage h)) (Z.of_nat j)) as [m ->]; [lia |].
    destruct (at_total (vectors_ (vector_storage h)) (Z.of_nat j)) as [v ->]; [lia |].
    by destruct (included include DISTANCE), (included include METADATA),
               (included include VECTOR).
Qed.

End linking.

(** ** The sign of rounded results: L2 distances are never below zero *)

Section rounding_sign.

Lemma shr_1_nonneg mrs : 0 ≤ shr_m mrs → 0 ≤ shr_m (shr_1 mrs).
Proof.
  destruct mrs as [m r s]. simpl. intros Hm.
  destruct m as [|p|p]; [done | by destruct p | lia].
Qed.

Lemma iter_pos_inv {A} (P : A → Prop) (f : A → A) (p : positive) (x : A) :
  (∀ y, P y → P (f y)) → P x → P (SpecFloat.iter_pos f p x).
Proof.
  intros Hf. revert x. induction p as [p IH | p IH |]; intros x Hx; simpl.
  - by apply IH, IH, Hf.
  - by apply IH, IH.
  - by apply Hf.
Qed.

Lemma shr_fexp_nonneg m e l :
  0 ≤ m → 0 ≤ shr_m (shr_fexp prec32 emax32 m e l).1.
Proof.
  intros Hm. unfold shr_fexp, shr.
  assert (H0 : 0 ≤ shr_m (shr_record_of_loc m l)) by by destruct l as [|[]].
  destruct (_ - e) as [|p|p]; simpl; try done.
  by apply (iter_pos_inv (fun mrs => 0 ≤ shr_m mrs)); [apply shr_1_nonneg |].
Qed.

Lemma round_nearest_even_nonneg m l : 0 ≤ m → 0 ≤ round_nearest_even m l.
Proof.
  intros Hm. unfold round_nearest_even.
  destruct l as [|[]]; try done; [destruct (Z.even m) |]; lia.
Qed.

(** Rounding keeps the sign and never yields NaN. *)
Lemma binary_round_aux_sign sx mx ex lx :
  0 ≤ mx → has_sign sx (binary_round_aux prec32 emax32 sx mx ex lx).
Proof.
  intros Hm. unfold binary_round_aux.
  pose proof (shr_fexp_nonneg mx ex lx Hm) as H1.
  destruct (shr_fexp prec32 emax32 mx ex lx) as [mrs' e']. simpl in H1.
  pose proof (shr_fexp_nonneg _ e' loc_Exact
                (round_nearest_even_nonneg _ (loc_of_shr_record mrs') H1)) as H2.
  destruct (shr_fexp prec32 emax32 _ e' loc_Exact) as [mrs'' e'']. simpl in H2.
  destruct (shr_m mrs'') as [|p|p]; [done | | lia].
  by destruct (e'' <=? _).
Qed.

Lemma binary_round_sign sx mx ex : has_sign sx (binary_round prec32 emax32 sx mx ex).
Proof.
  unfold binary_round. destruct (shl_align _ _ _) as [mz ez].
  by apply binary_round_aux_sign.
Qed.

Lemma has_sign_nonneg x : has_sign false x → is_nonneg x = true.
Proof. destruct x as [s|s| |s m e]; simpl; try done; by intros ->. Qed.

Lemma has_sign_not_nan s x : has_sign s x → is_nan x = false.
Proof. by destruct x. Qed.

Lemma fmul_self_nonneg x : is_nan x = false → is_nonneg (fmul x x) = true.
Proof.
  destruct x as [s|s| |s m e]; simpl; try done; intros _.
  - by destruct s.
  - apply has_sign_nonneg. unfold fmul, SFmul.
    replace (xorb s s) with false by by destruct s.
    by apply binary_round_aux_sign.
Qed.

Lemma fsub_finite_not_nan x y :
  is_finite x = true → is_finite y = true → is_nan (fsub x y) = false.
Proof.
  destruct x as [sx|sx| |sx mx ex], y as [sy|sy| |sy my ey]; simpl; try done; intros _ _.
  - by destruct sx, sy.
  - unfold fsub, SFsub.
    destruct (_ - _) as [|p|p]; simpl; [done | |];
      eapply has_sign_not_nan, binary_round_sign.
Qed.

Lemma fadd_nonneg x y :
  is_nonneg x = true → is_nonneg y = true → is_nonneg (fadd x y) = true.
Proof.
  destruct x as [sx|sx| |sx mx ex], y as [sy|sy| |sy my ey]; simpl; try done.
  - by destruct sx, sy.
  - by destruct sx, sy.
  - intros ->%negb_true_iff ->%negb_true_iff. unfold fadd, SFadd. simpl.
    apply has_sign_nonneg, binary_round_sign.
Qed.

Lemma nonneg_above_minus_one d : is_nonneg d = true → flt Hnsw.minus_one d = true.
Proof. destruct d as [s|s| |s m e]; simpl; try done; by intros ->%negb_true_iff. Qed.

Lemma l2_loop_nonneg a b acc d :
  forallb finite_bits a = true → forallb finite_bits b = true →
  is_nonneg acc = true →
  Hnsw.l2_loop a b acc = Ok d → is_nonneg d = true.
Proof.
  revert b acc. induction a as [|x a IH]; intros b acc Ha Hb Hacc; simpl.
  - by intros [= <-].
  - destruct b as [|y b]; [done |]. simpl in Ha, Hb.
    apply andb_true_iff in Ha as [Hx Ha]. apply andb_true_iff in Hb as [Hy Hb].
    apply IH; [done | done |].
    apply fadd_nonneg; [done |]. apply fmul_self_nonneg.
    by apply fsub_finite_not_nan.
Qed.

End rounding_sign.

(** ** Well-formed indexes: insertion, queries and the neighbour bound *)

Section safety.
Import Hnsw.

Lemma l2_above_minus_one h sq :
  sq_trained sq = false → distance_metric h = L2 →
  forallb (forallb finite_bits) (vectors_ (vector_storage h)) = true →
  above_minus_one h sq.
Proof.
  intros Hsq Hm Hfin i j own d Hown Hd.
  rewrite calculate_distance_untrained in Hd by done.
  apply bind_Ok in Hd as (v & Hv & Hd). rewrite Hm in Hd. simpl in Hd.
  apply nonneg_above_minus_one.
  apply (l2_loop_nonneg own v fzero d); [| |done | exact Hd].
  - eapply forallb_elem; [exact Hfin |]. by eapply at_Ok_elem.
  - eapply forallb_elem; [exact Hfin |]. by eapply at_Ok_elem.
Qed.

(** X18.  On a well-formed index (the i-th node has id [i] and the lists of
    the layers [0 .. max_layer], every id in a list of a layer names a node
    that has the layer, the entry point is a live node of greatest layer,
    each node has a vector of dimension [D] and a metadata record), with no
    trained quantizer, one of the three metrics and [efConstruction] other
    than zero, [insert] of a vector of dimension [D] at a level that is not
    negative returns the next id, without reading out of bounds, and leaves
    a well-formed index. *)
Theorem insert_keeps_the_graph_well_formed
    (sq : option SQ.ScalarQuantizer) (new_node_layer : Z) (vec : list float)
    (meta : Metadata) (h : HNSW) :
  sq_trained sq = false → graph_ok h →
  valid_metric (distance_metric h) = true →
  1 ≤ to_size_t (efConstruction h) →
  size vec = vector_dimension_ (vector_storage h) →
  0 ≤ new_node_layer → size (keys h) + 1 < 2 ^ 31 →
  ∃ h', insert sq new_node_layer vec meta h = (Ok (size (keys h)), h') ∧ graph_ok h'.
Proof.
  intros Hsq Hg Hm Hef Hvec Hlvl Hroom.
  destruct (insert_total sq Hsq new_node_layer vec meta h Hg Hm Hef Hvec Hlvl Hroom)
    as (h' & Hins & Hg' & _ & _).
  by exists h'.
Qed.

(** X19.  An index built from the empty one by inserts of vectors of its
    dimension and deletions of existing ids (no trained quantizer, one of the
    three metrics, [efConstruction] other than zero) never reads out of
    bounds: every operation of the sequence returns, and the index reached
    answers every query of its dimension, for every [k], filter and
    [Include] selection, as long as [max(k, efSearch)] is not zero. *)
Theorem built_index_answers_every_query
    (sq : option SQ.ScalarQuantizer) (D M efC efS : Z) (metric : DistanceMetric)
    (ops : list op) :
  sq_trained sq = false → valid_metric metric = true → 1 ≤ to_size_t efC →
  ops_ok 0 ops → ops_fit D ops →
  ∃ h, run_ops sq ops (Hnsw.new D M efC efS metric) = Ok h
       ∧ ∀ query k filter include,
           size query = D → 1 ≤ to_size_t (Z.max k efS) →
           ∃ r, k_nearest_neighbors h sq query k filter include = Ok r.
Proof.
  intros Hsq Hm Hef Hops Hfit.
  destruct (run_ops_graph_ok sq Hsq ops (Hnsw.new D M efC efS metric)
              (new_graph_ok D M efC efS metric) Hm Hef Hops Hfit)
    as (h & ext & Hrun & Hg & Hp & Hd & _).
  exists h. split; [exact Hrun |].
  intros query k filter include Hq Hk.
  unfold params in Hp. injection Hp as _ _ HefS Hmetric.
  apply k_nearest_neighbors_total, graph_ok_wf_query; try done.
  - by rewrite Hmetric.
  - by rewrite Hd.
  - by rewrite HefS.
Qed.

(** X20.  In an index built the same way, no adjacency list is longer than
    [M] provided every distance from a stored vector to a node is above
    [-1.0f], the initial maximum of the pruning scan; and under the L2 metric
    that is the case whenever the stored floats are finite. *)
Theorem neighbour_lists_stay_within_M
    (sq : option SQ.ScalarQuantizer) (D M efC efS : Z) (metric : DistanceMetric)
    (ops : list op) (h : HNSW) :
  sq_trained sq = false → valid_metric metric = true → 1 ≤ to_size_t efC →
  ops_ok 0 ops → ops_fit D ops →
  run_ops sq ops (Hnsw.new D M efC efS metric) = Ok h →
  (above_minus_one h sq → within_M h)
  ∧ (metric = L2 →
     forallb (forallb finite_bits) (vectors_ (vector_storage h)) = true →
     above_minus_one h sq).
Proof.
  intros Hsq Hm Hef Hops Hfit Hrun.
  destruct (run_ops_graph_ok sq Hsq ops (Hnsw.new D M efC efS metric)
              (new_graph_ok D M efC efS metric) Hm Hef Hops Hfit)
    as (h' & ext & Hrun' & Hg & Hp & Hd & _ & Hw).
  rewrite Hrun in Hrun'. injection Hrun' as <-. split.
  - intros Ha. apply Hw; [done |]. by intros n ?%elem_of_nil.
  - intros -> Hfin. apply l2_above_minus_one; [done | | done].
    unfold params in Hp. by injection Hp as _ _ _ ->.
Qed.

(** X24.  On a well-formed index with an entry point, under the conditions
    of X18, [insert] links the new node on every layer from 0 to the smaller
    of its level and the layer of the entry point: its list on such a layer
    holds pairwise distinct existing nodes, none tombstoned, at most [M] of
    them and at least one unless [M] is zero. *)
Theorem insert_links_the_new_node
    (sq : option SQ.ScalarQuantizer) (new_node_layer : Z) (vec : list float)
    (meta : Metadata) (h : HNSW) (ep top : Z) :
  sq_trained sq = false → graph_ok h →
  valid_metric (distance_metric h) = true →
  1 ≤ to_size_t (efConstruction h) →
  size vec = vector_dimension_ (vector_storage h) →
  0 ≤ new_node_layer → size (keys h) + 1 < 2 ^ 31 →
  at_ (keys h) (entry_point_id h) = Ok (ep, top) →
  ∃ h', insert sq new_node_layer vec meta h = (Ok (size (keys h)), h')
        ∧ ∀ l, 0 ≤ l ≤ Z.min new_node_layer top →
               ∃ js, neighbors_at h' l (size (keys h)) = Ok js
                     ∧ NoDup js
                     ∧ size js ≤ to_size_t (M h)
                     ∧ (1 ≤ to_size_t (M h) → 1 ≤ size js)
                     ∧ Forall (fun j => 0 ≤ j < size (keys h)
                                        ∧ is_deleted h j = false) js.
Proof.
  intros Hsq Hg Hm Hef Hvec Hlvl Hroom Hep.
  destruct (insert_total sq Hsq new_node_layer vec meta h Hg Hm Hef Hvec Hlvl Hroom)
    as (h' & Hins & Hg' & _ & Hlk).
  exists h'. split; [exact Hins |]. intros l Hl.
  apply keys_at_nodes in Hep as (n & Hn & Hkey).
  injection Hkey as _ Htop. rewrite <- Htop in Hl.
  destruct (Hlk n Hn l Hl) as (js & Hjs & Hnd & Hsz & Hone & Hall).
  exists js. split; [exact Hjs |]. split; [exact Hnd |]. split; [exact Hsz |].
  split; [exact Hone |].
  destruct Hg' as (_ & _ & _ & Hcl & _).
  pose proof (closed_in_range _ _ _ _ Hcl Hjs) as Hrange.
  pose proof (insert_keys_length _ _ _ _ _ _ _ Hins) as Hlen.
  apply Forall_forall. intros j Hj.
  rewrite Forall_forall in Hall, Hrange.
  destruct (Hall j Hj) as [Hlive Hne]. specialize (Hrange j Hj).
  split; [|done]. unfold keys, size in *.
  rewrite (length_map node_key (nodes h')), (length_map node_key (nodes h)) in Hlen.
  rewrite (length_map node_key (nodes h)) in Hne |- *. lia.
Qed.

End safety.

Lemma built_index_graph_ok :
  Hnsw.run_ops None Examples.built_ops (Hnsw.new 1 2 10 10 Hnsw.L2) = Ok Examples.built
  ∧ Hnsw.graph_ok Examples.built.
Proof.
  destruct (run_ops_graph_ok None eq_refl Examples.built_ops (Hnsw.new 1 2 10 10 Hnsw.L2)
              (new_graph_ok 1 2 10 10 Hnsw.L2) eq_refl)
    as (h & ext & Hrun & Hg & _).
  - done.
  - simpl. lia.
  - unfold Examples.built_ops. repeat constructor.
  - unfold Examples.built. rewrite Hrun. by split.
Qed.

Lemma insert_keeps_witness :
  ∃ h', Hnsw.insert None 0 [Examples.f_two] ∅ Examples.built
        = (Ok (size (Hnsw.keys Examples.built)), h')
        ∧ Hnsw.graph_ok h'.
Proof.
  destruct built_index_graph_ok as [_ Hg].
  apply (insert_keeps_the_graph_well_formed None 0 [Examples.f_two] ∅ Examples.built).
  - reflexivity.
  - exact Hg.
  - vm_compute. reflexivity.
  - replace (Hnsw.efConstruction Examples.built) with 10 by (vm_compute; reflexivity).
    vm_compute. discriminate.
  - vm_compute. reflexivity.
  - lia.
  - replace (size (Hnsw.keys Examples.built)) with 3 by (vm_compute; reflexivity). lia.
Defined.

Lemma built_index_answers_witness :
  ∃ h, Hnsw.run_ops None Examples.built_ops (Hnsw.new 1 2 10 10 Hnsw.L2) = Ok h
       ∧ ∀ query k filter include,
           size query = 1 → 1 ≤ to_size_t (Z.max k 10) →
           ∃ r, Hnsw.k_nearest_neighbors h None query k filter include = Ok r.
Proof.
  apply (built_index_answers_every_query None 1 2 10 10 Hnsw.L2 Examples.built_ops).
  - reflexivity.
  - reflexivity.
  - vm_compute. discriminate.
  - simpl. lia.
  - unfold Examples.built_ops. repeat constructor.
Defined.

Lemma neighbour_lists_witness : Hnsw.within_M Examples.built.
Proof.
  destruct built_index_graph_ok as [Hrun _].
  destruct (neighbour_lists_stay_within_M None 1 2 10 10 Hnsw.L2 Examples.built_ops
              Examples.built) as [Hw Ha].
  - reflexivity.
  - reflexivity.
  - vm_compute. discriminate.
  - simpl. lia.
  - unfold Examples.built_ops. repeat constructor.
  - exact Hrun.
  - apply Hw, Ha; [reflexivity |]. vm_compute. reflexivity.
Defined.

(** *** Rebuilding without a quantizer *)

Lemma reinsert_total old draws ixs nh :
  Hnsw.storage_ok old →
  Forall (fun i => (i < length (Hnsw.vectors_ (Hnsw.vector_storage old)))%nat) ixs →
  Forall (fun l => 0 ≤ l) draws →
  Hnsw.graph_ok nh → Hnsw.valid_metric (Hnsw.distance_metric nh) = true →
  1 ≤ to_size_t (Hnsw.efConstruction nh) →
  Hnsw.vector_dimension_ (Hnsw.vector_storage nh)
  = Hnsw.vector_dimension_ (Hnsw.vector_storage old) →
  size (Hnsw.keys nh) + Z.of_nat (length ixs) < 2 ^ 31 →
  ∃ nh', Db.reinsert None old draws ixs nh = Ok nh' ∧ Hnsw.graph_ok nh'.
Proof.
  intros [Hmeta Hdim] Hixs. revert draws nh.
  induction Hixs as [|i ixs Hi _ IH]; intros draws nh Hdraws Hg Hm Hef Hd Hroom; simpl.
  - by exists nh.
  - simpl in Hroom. case_bool_decide as Hdel.
    + apply IH; try done. lia.
    + destruct (lookup_lt_is_Some_2 (Hnsw.vectors_ (Hnsw.vector_storage old)) i Hi)
        as [vec Hvec].
      destruct (lookup_lt_is_Some_2 (Hnsw.metadata_ (Hnsw.vector_storage old)) i)
        as [meta Hmt]; [lia |].
      rewrite (idx_Some _ _ _ Hvec), (idx_Some _ _ _ Hmt). simpl.
      assert (Hlvl : 0 ≤ hd 0 draws ∧ Forall (fun l => 0 ≤ l) (tl draws)).
      { destruct draws as [|l draws]; simpl; [done |]. by apply Forall_cons in Hdraws. }
      destruct Hlvl as [Hlvl Htl].
      destruct (insert_total None eq_refl (hd 0 draws) vec meta nh Hg Hm Hef)
        as (nh1 & Hins & Hg1 & _ & _); [| done | lia |].
      { rewrite Hd. rewrite Forall_forall in Hdim. apply Hdim.
        by eapply list_elem_of_lookup_2. }
      rewrite Hins.
      pose proof (insert_keys_length _ _ _ _ _ _ _ Hins) as Hlen.
      apply insert_Ok_inv in Hins as (_ & _ & Hd1 & _ & _ & _ & _ & Hp1).
      unfold Hnsw.params in Hp1. injection Hp1 as _ HefC1 _ Hmetric1.
      apply IH; try done.
      * by rewrite Hmetric1.
      * by rewrite HefC1.
      * by rewrite Hd1.
      * unfold size in *. rewrite Hlen. lia.
Qed.

(** X21.  Without a quantizer [rebuild_index] never fails on a writable
    database whose storage is consistent (one metadata record per vector,
    every vector of the dimension of the index, fewer than 2^31 vectors),
    whatever the old graph looks like: every live record is inserted into a
    fresh index, and the index installed is well-formed. *)
Theorem rebuild_index_succeeds_without_quantizer (draws : list Z) (db : Db.Database) :
  Db.read_only_ db = false → Db.sq_ db = None →
  Hnsw.storage_ok (Db.hnsw_ db) →
  size (Hnsw.vectors_ (Hnsw.vector_storage (Db.hnsw_ db))) < 2 ^ 31 →
  Hnsw.valid_metric (Hnsw.distance_metric (Db.hnsw_ db)) = true →
  1 ≤ to_size_t (Hnsw.efConstruction (Db.hnsw_ db)) →
  Forall (fun l => 0 ≤ l) draws →
  ∃ db', Db.rebuild_index draws db = (Ok (), db')
         ∧ Hnsw.graph_ok (Db.hnsw_ db')
         ∧ Db.sq_ db' = None ∧ Db.read_only_ db' = false.
Proof.
  intros Hro Hsq Hst Hsz Hm Hef Hdraws.
  unfold Db.rebuild_index, Db.train_quantizer. rewrite Hro, Hsq.
  cbv beta iota zeta. rewrite Hsq.
  set (h := Db.hnsw_ db) in *.
  destruct (reinsert_total h draws
              (seq 0 (length (Hnsw.vectors_ (Hnsw.vector_storage h))))
              (Hnsw.new (Hnsw.vector_dimension_ (Hnsw.vector_storage h)) (Hnsw.M h)
                 (Hnsw.efConstruction h) (Hnsw.efSearch h) (Hnsw.distance_metric h)))
    as (nh & Hre & Hg); try done.
  - apply Forall_forall. intros i Hin%list_elem_of_In%in_seq. lia.
  - apply new_graph_ok.
  - rewrite length_seq. unfold size in *. simpl. lia.
  - rewrite Hre. exists (Db.set_hnsw db nh).
    split; [done |]. split; [exact Hg |]. by split.
Qed.

Lemma rebuild_index_succeeds_witness :
  ∃ db', Db.rebuild_index [0; 0] Examples.sparse_db = (Ok (), db')
         ∧ Hnsw.graph_ok (Db.hnsw_ db')
         ∧ Db.sq_ db' = None ∧ Db.read_only_ db' = false.
Proof.
  apply (rebuild_index_succeeds_without_quantizer [0; 0] Examples.sparse_db).
  - vm_compute. reflexivity.
  - vm_compute. reflexivity.
  - split; [vm_compute; reflexivity |].
    apply Forall_forall. intros v Hv.
    replace (Hnsw.vectors_ (Hnsw.vector_storage (Db.hnsw_ Examples.sparse_db)))
      with [[Examples.f_one]; [Examples.f_two]; [Examples.f_three]] in Hv
      by (vm_compute; reflexivity).
    replace (Hnsw.vector_dimension_ (Hnsw.vector_storage (Db.hnsw_ Examples.sparse_db)))
      with 1 by (vm_compute; reflexivity).
    repeat (apply elem_of_cons in Hv as [-> | Hv]; [reflexivity |]).
    by apply elem_of_nil in Hv.
  - replace (size (Hnsw.vectors_ (Hnsw.vector_storage (Db.hnsw_ Examples.sparse_db))))
      with 3 by (vm_compute; reflexivity). lia.
  - vm_compute. reflexivity.
  - replace (Hnsw.efConstruction (Db.hnsw_ Examples.sparse_db)) with 10
      by (vm_compute; reflexivity).
    vm_compute. discriminate.
  - repeat (constructor; [lia |]). constructor.
Defined.

Lemma insert_links_witness :
  ∃ h', Hnsw.insert None 0 [Examples.f_two] ∅ Examples.built
        = (Ok (size (Hnsw.keys Examples.built)), h')
        ∧ ∀ l, 0 ≤ l ≤ Z.min 0 1 →
               ∃ js, Hnsw.neighbors_at h' l (size (Hnsw.keys Examples.built)) = Ok js
                     ∧ NoDup js
                     ∧ size js ≤ to_size_t (Hnsw.M Examples.built)
                     ∧ (1 ≤ to_size_t (Hnsw.M Examples.built) → 1 ≤ size js)
                     ∧ Forall (fun j => 0 ≤ j < size (Hnsw.keys Examples.built)
                                        ∧ Hnsw.is_deleted Examples.built j = false) js.
Proof.
  destruct built_index_graph_ok as [_ Hg].
  apply (insert_links_the_new_node None 0 [Examples.f_two] ∅ Examples.built 2 1).
  - reflexivity.
  - exact Hg.
  - vm_compute. reflexivity.
  - replace (Hnsw.efConstruction Examples.built) with 10 by (vm_compute; reflexivity).
    vm_compute. discriminate.
  - vm_compute. reflexivity.
  - lia.
  - replace (size (Hnsw.keys Examples.built)) with 3 by (vm_compute; reflexivity). lia.
  - vm_compute. reflexivity.
Defined.

(** ** Searches with [ef] above the size of the layer are exhaustive *)

Section exhaustive.
Import Hnsw.
Context (h : HNSW) (sq : option SQ.ScalarQuantizer).
Context (query : list float) (ef layer_level : Z) (filter : FilterFunc) (ep : Z).
Hypothesis Hbig : size (layer_edges h layer_level) + 1 < to_size_t ef.

Local Abbreviation found := (found h sq query layer_level filter ep).
Local Abbreviation reach := (reach h layer_level ep).

(** Every neighbour of [x] has been visited. *)
Local Abbreviation expanded V x :=
  (∀ ns y, neighbors_at h layer_level x = Ok ns → y ∈ ns → y ∈ V).

(** The invariant of the traversal; [E] holds of the node whose neighbours
    are being visited. *)
Local Abbreviation sweep_inv E st :=
  (Forall found (result_queue st)
   ∧ NoDup (result_queue st).*2
   ∧ (∀ c, c ∈ result_queue st → c.2 ∈ visited_nodes st)
   ∧ (∀ c, c ∈ candidate_queue st →
           c.2 ∈ visited_nodes st ∧ is_deleted h c.2 = false)
   ∧ ep ∈ visited_nodes st
   ∧ (∀ x, x ∈ visited_nodes st → is_deleted h x = false → reach x)
   ∧ (∀ x, x ∈ visited_nodes st → is_deleted h x = false →
           filter_accepts h filter x = Ok true → x ∈ (result_queue st).*2)
   ∧ (∀ x, x ∈ visited_nodes st → is_deleted h x = false →
           x ∈ (candidate_queue st).*2 ∨ E x ∨ expanded (visited_nodes st) x)).

Lemma reach_live x : reach x → is_deleted h x = false.
Proof. by destruct 1. Qed.

Lemma results_small (rq : list Candidate) :
  Forall found rq → NoDup rq.*2 → size rq < to_size_t ef.
Proof.
  intros Hf Hnd.
  assert (Hsub : rq.*2 ⊆+ ep :: layer_edges h layer_level).
  { apply NoDup_submseteq; [done |]. intros x [c [-> Hc]]%list_elem_of_fmap.
    eapply Forall_forall in Hf; [|done]. destruct Hf as (_ & _ & _ & [-> | Hin]).
    - by left.
    - by right. }
  apply submseteq_length in Hsub. rewrite length_fmap in Hsub.
  pose proof Hbig as Hb. unfold size, Candidate in Hb, Hsub |- *.
  cbn [length] in Hsub. lia.
Qed.

Lemma trim_results_id (rq : list Candidate) :
  size rq ≤ to_size_t ef → trim_results ef rq = rq.
Proof.
  intros Hle. unfold trim_results.
  by replace (Z.to_nat (size rq - to_size_t ef)) with 0%nat by lia.
Qed.

Lemma visit_neighbor_sweep (E : Z → Prop) st n st' :
  visit_neighbor h sq query ef filter st n = Ok st' →
  (is_deleted h n = false → reach n) → n ∈ layer_edges h layer_level →
  sweep_inv E st →
  sweep_inv E st' ∧ visited_nodes st ⊆ visited_nodes st' ∧ n ∈ visited_nodes st'.
Proof.
  unfold visit_neighbor.
  intros Hv Hreach Hn Hinv.
  pose proof Hinv as (Hf & Hnd & Hvis & Hcq & Hep & Hr & Hacc & Hprog).
  case_bool_decide as Hseen.
  { injection Hv as <-. split; [exact Hinv |]. by split. }
  assert (Hgrow : visited_nodes st ⊆ {[n]} ∪ visited_nodes st).
  { intros x Hx. apply elem_of_union. by right. }
  assert (Hnew : n ∈ {[n]} ∪ visited_nodes st).
  { apply elem_of_union. left. by apply elem_of_singleton. }
  assert (Hold : ∀ x, x ∈ {[n]} ∪ visited_nodes st → x = n ∨ x ∈ visited_nodes st).
  { intros x [->%elem_of_singleton | Hx]%elem_of_union; [by left | by right]. }
  assert (Hexp : ∀ x, expanded (visited_nodes st) x →
                      expanded ({[n]} ∪ visited_nodes st) x).
  { intros x Hx ns y Hns Hy. apply Hgrow. by eapply Hx. }
  destruct (is_deleted h n) eqn:Hdel.
  { injection Hv as <-. simpl. split; [|by split].
    split; [done |]. split; [done |]. split; [intros c Hc; by apply Hgrow, Hvis |].
    split; [intros c Hc; destruct (Hcq c Hc); split; [by apply Hgrow | done] |].
    split; [by apply Hgrow |]. split; [|split].
    - intros x [-> | Hx]%Hold Hlive; [congruence | by apply Hr].
    - intros x [-> | Hx]%Hold Hlive; [congruence | by apply Hacc].
    - intros x [-> | Hx]%Hold Hlive; [congruence |].
      destruct (Hprog x Hx Hlive) as [? | [? | ?]]; [by left | by right; left |].
      right. right. by apply Hexp. }
  apply bind_Ok in Hv as (d & Hd & Hv).
  rewrite (proj2 (Z.ltb_lt _ _) (results_small _ Hf Hnd)) in Hv. simpl in Hv.
  apply bind_Ok in Hv as (acc & Haccn & [= <-]). simpl.
  set (rq := if acc then (d, n) :: result_queue st else result_queue st).
  assert (Hrq : Forall found rq ∧ NoDup rq.*2
                ∧ (∀ c, c ∈ rq → c.2 ∈ {[n]} ∪ visited_nodes st)
                ∧ (∀ c, c ∈ result_queue st → c ∈ rq)).
  { unfold rq. destruct acc.
    - split; [|split; [|split]].
      + constructor; [|done]. by repeat split; [| | | right].
      + rewrite fmap_cons. apply NoDup_cons. split; [|done]. simpl.
        intros [c [-> Hc]]%list_elem_of_fmap. by apply Hseen, Hvis.
      + intros c [-> | Hc]%elem_of_cons; [done | by apply Hgrow, Hvis].
      + intros c Hc. by right.
    - split; [done |]. split; [done |]. split; [|done].
      intros c Hc. by apply Hgrow, Hvis. }
  destruct Hrq as (Hf' & Hnd' & Hvis' & Hsub).
  rewrite trim_results_id by (pose proof (results_small _ Hf' Hnd'); lia).
  split; [|by split].
  split; [done |]. split; [done |]. split; [done |]. split.
  { intros c [-> | Hc]%elem_of_cons; [by split |].
    destruct (Hcq c Hc). split; [by apply Hgrow | done]. }
  split; [by apply Hgrow |]. split; [|split].
  - intros x [-> | Hx]%Hold Hlive; [by apply Hreach | by apply Hr].
  - intros x [-> | Hx]%Hold Hlive Hok.
    + rewrite Haccn in Hok. injection Hok as ->.
      apply list_elem_of_fmap. exists (d, n). split; [done |]. unfold rq. by left.
    + specialize (Hacc x Hx Hlive Hok).
      apply list_elem_of_fmap in Hacc as (c & -> & Hc).
      apply list_elem_of_fmap. exists c. split; [done | by apply Hsub].
  - intros x [-> | Hx]%Hold Hlive.
    + left. by left.
    + destruct (Hprog x Hx Hlive) as [Hin | [? | ?]].
      * left. by right.
      * by right; left.
      * right. right. by apply Hexp.
Qed.

Lemma visit_neighbors_sweep (E : Z → Prop) ns st st' :
  visit_neighbors h sq query ef filter ns st = Ok st' →
  (∀ n, n ∈ ns → (is_deleted h n = false → reach n) ∧ n ∈ layer_edges h layer_level) →
  sweep_inv E st →
  sweep_inv E st' ∧ visited_nodes st ⊆ visited_nodes st'
  ∧ ∀ n, n ∈ ns → n ∈ visited_nodes st'.
Proof.
  revert st. induction ns as [|n ns IH]; intros st; simpl.
  - intros [= <-] _ Hinv. split; [done |]. split; [done |]. by intros n ?%elem_of_nil.
  - intros Hv Hns Hinv. apply bind_Ok in Hv as (st1 & H1 & Hv).
    destruct (Hns n) as [Hreach Hedge]; [by left |].
    destruct (visit_neighbor_sweep E st n st1 H1 Hreach Hedge Hinv) as (Hinv1 & Hsub1 & Hn1).
    destruct (IH st1 Hv) as (Hinv' & Hsub' & Hall'); [intros m Hm; apply Hns; by right | done |].
    split; [done |]. split; [by etrans |].
    intros m [-> | Hm]%elem_of_cons; [by apply Hsub' | by apply Hall'].
Qed.

Lemma search_loop_sweep fuel st st' :
  search_loop h sq query ef layer_level filter fuel st = Ok st' →
  sweep_inv (fun _ => False) st →
  sweep_inv (fun _ => False) st' ∧ candidate_queue st' = [].
Proof.
  revert st. induction fuel as [|fuel IH]; intros st; simpl; [done |].
  destruct (pq_extract cand_gt (candidate_queue st)) as [[cur cq]|] eqn:Hex.
  2:{ intros [= <-] Hinv. split; [done |]. by apply pq_extract_None in Hex. }
  intros Hl Hinv.
  pose proof Hinv as (Hf & Hnd & Hvis & Hcq & Hep & Hr & Hacc & Hprog).
  pose proof (pq_extract_perm _ _ _ _ Hex) as Hperm.
  unfold search_done in Hl.
  pose proof (results_small _ Hf Hnd) as Hsmall.
  rewrite (proj2 (Z.eqb_neq _ _)) in Hl by lia. simpl in Hl.
  apply bind_Ok in Hl as (ns & Hns & Hl). apply bind_Ok in Hl as (st2 & Hv & Hl).
  assert (Hcur : cur.2 ∈ visited_nodes st ∧ is_deleted h cur.2 = false).
  { apply Hcq. rewrite Hperm. by left. }
  destruct Hcur as [Hcurv Hcurl].
  destruct (visit_neighbors_sweep (fun x => x = cur.2) ns
              (mkSS cq (result_queue st) (visited_nodes st)) st2 Hv)
    as (Hinv2 & Hsub2 & Hall2).
  { intros n Hn. split; [|by eapply neighbors_at_edges].
    intros Hlive. eapply reach_step; [by apply Hr | exact Hns | exact Hn | exact Hlive]. }
  { simpl. split; [done |]. split; [done |]. split; [done |].
    split; [intros c Hc; apply Hcq; rewrite Hperm; by right |].
    split; [done |]. split; [done |]. split; [done |].
    intros x Hx Hlive. destruct (Hprog x Hx Hlive) as [Hin | [[] | ?]]; [|by right; right].
    rewrite Hperm, fmap_cons in Hin.
    apply elem_of_cons in Hin as [-> | Hin]; [right; by left | by left]. }
  apply (IH _ Hl).
  destruct Hinv2 as (Hf2 & Hnd2 & Hvis2 & Hcq2 & Hep2 & Hr2 & Hacc2 & Hprog2).
  split; [done |]. split; [done |]. split; [done |]. split; [done |].
  split; [done |]. split; [done |]. split; [done |].
  intros x Hx Hlive. destruct (Hprog2 x Hx Hlive) as [? | [-> | ?]];
    [by left | | by right; right].
  right. right. intros ns' y Hns' Hy. rewrite Hns in Hns'. injection Hns' as <-.
  by apply Hall2.
Qed.

(** X22.  When [ef] exceeds the number of entries in the adjacency lists of
    the layer by more than one, no candidate is ever cut and [search_layer]
    is an exhaustive traversal: it returns exactly the nodes that pass the
    filter and that can be reached from the entry point along the lists of
    the layer through nodes that are not tombstoned; a tombstoned entry
    point reaches nothing. *)
Theorem search_layer_with_large_ef_is_exhaustive (r : list Z) :
  search_layer h sq query ef layer_level filter ep = Ok r →
  ∀ x, x ∈ r ↔ reach x ∧ filter_accepts h filter x = Ok true.
Proof.
  unfold search_layer. intros H.
  apply bind_Ok in H as (st0 & H0 & H). apply bind_Ok in H as (st & Hl & [= <-]).
  assert (Hinv0 : sweep_inv (fun _ => False) st0).
  { unfold search_init in H0. apply bind_Ok in H0 as (d & Hd & H0).
    destruct (is_deleted h ep) eqn:Hdel.
    { injection H0 as <-. simpl.
      split; [constructor |]. split; [constructor |].
      split; [by intros c ?%elem_of_nil |]. split; [by intros c ?%elem_of_nil |].
      split; [by apply elem_of_singleton |].
      repeat split; intros x ->%elem_of_singleton; congruence. }
    apply bind_Ok in H0 as (acc & Hacc & [= <-]). simpl.
    split; [|split; [|split; [|split; [|split; [|split; [|split]]]]]].
    - destruct acc; [|constructor]. constructor; [|done]. by repeat split; [| | | left].
    - destruct acc; [|constructor]. repeat constructor. by intros ?%elem_of_nil.
    - destruct acc; [|by intros c ?%elem_of_nil].
      intros c ->%list_elem_of_singleton. by apply elem_of_singleton.
    - intros c ->%list_elem_of_singleton. split; [by apply elem_of_singleton | done].
    - by apply elem_of_singleton.
    - intros x ->%elem_of_singleton _. by constructor.
    - intros x ->%elem_of_singleton _ Hok. rewrite Hacc in Hok. injection Hok as ->.
      by left.
    - intros x ->%elem_of_singleton _. left. by left. }
  destruct (search_loop_sweep _ _ _ Hl Hinv0)
    as ((Hf & Hnd & Hvis & Hcq & Hep & Hr & Hacc & Hprog) & Hempty).
  intros x. rewrite final_results_elem. split.
  - intros [d Hd]. pose proof (Hvis _ Hd) as Hx.
    eapply Forall_forall in Hf; [|exact Hd]. destruct Hf as (_ & Hlive & Hok & _).
    split; [by apply Hr | done].
  - intros [Hreach Hok].
    assert (Hx : x ∈ visited_nodes st).
    { clear Hok. induction Hreach as [Hlive | x ns y Hx IH Hns Hy Hlive]; [done |].
      destruct (Hprog x IH (reach_live x Hx)) as [Hin | [[] | Hexp]].
      - rewrite Hempty in Hin. by apply elem_of_nil in Hin.
      - by eapply Hexp. }
    specialize (Hacc x Hx (reach_live x Hreach) Hok).
    apply list_elem_of_fmap in Hacc as ([d y] & -> & Hc). by exists d.
Qed.

End exhaustive.

Lemma search_layer_exhaustive_witness :
  Hnsw.search_layer Examples.line3_without_1 None [Examples.f_three] 10 0 None 0
  = Ok [2; 0]
  ∧ ∀ x, x ∈ [2; 0]
         ↔ Hnsw.reach Examples.line3_without_1 0 0 x
           ∧ Hnsw.filter_accepts Examples.line3_without_1 None x = Ok true.
Proof.
  assert (H : Hnsw.search_layer Examples.line3_without_1 None [Examples.f_three]
                10 0 None 0 = Ok [2; 0]) by (vm_compute; reflexivity).
  split; [exact H |].
  apply (search_layer_with_large_ef_is_exhaustive
           Examples.line3_without_1 None [Examples.f_three] 10 0 None 0); [|exact H].
  replace (Hnsw.layer_edges Examples.line3_without_1 0) with [1; 2; 0; 2; 1; 0]
    by (vm_compute; reflexivity).
  vm_compute. reflexivity.
Defined.

(** ** Rebuilding with a quantizer *)

Section requantize.
Import Hnsw.

(** With a trained quantizer [insert] stores the code of the vector next to
    the vector. *)
Lemma insert_code q lvl vec meta h id h' :
  SQ.is_trained q = true →
  insert (Some q) lvl vec meta h = (Ok id, h') →
  ∃ enc, SQ.encode q vec = Ok enc
         ∧ vectors_ (vector_storage h') = vectors_ (vector_storage h) ++ [vec]
         ∧ encoded_vectors_ (vector_storage h')
           = encoded_vectors_ (vector_storage h) ++ [enc].
Proof.
  intros Htr. unfold insert.
  destruct (add_vector (Some q) vec meta (vector_storage h)) as [vs|] eqn:Ha; [|done].
  assert (Hvs : ∃ enc, SQ.encode q vec = Ok enc
                       ∧ vectors_ vs = vectors_ (vector_storage h) ++ [vec]
                       ∧ encoded_vectors_ vs
                         = encoded_vectors_ (vector_storage h) ++ [enc]).
  { unfold add_vector in Ha. destruct (negb _); [done |]. rewrite Htr in Ha.
    apply bind_Ok in Ha as (enc & Henc & [= <-]). by exists enc. }
  destruct (Node.new _ lvl) as [node|]; [|done].
  destruct (entry_point_id _ =? -1); [by intros [= _ <-] |].
  destruct (insert_graph _ _ _ _ _) as [h3|] eqn:Hg; [|done].
  intros [= _ <-]. apply insert_graph_spec in Hg as (_ & -> & _). exact Hvs.
Qed.

Lemma reinsert_codes q old draws ixs nh nh' :
  SQ.is_trained q = true →
  Db.reinsert (Some q) old draws ixs nh = Ok nh' →
  ∃ vs cs, vectors_ (vector_storage nh') = vectors_ (vector_storage nh) ++ vs
           ∧ encoded_vectors_ (vector_storage nh')
             = encoded_vectors_ (vector_storage nh) ++ cs
           ∧ Forall2 (fun v c => SQ.encode q v = Ok c) vs cs.
Proof.
  intros Htr. revert draws nh. induction ixs as [|i ixs IH]; intros draws nh; simpl.
  - intros [= <-]. exists [], []. rewrite !app_nil_r. by repeat split.
  - case_bool_decide as Hdel; [apply IH |].
    intros H. apply bind_Ok in H as (vec & _ & H). apply bind_Ok in H as (meta & _ & H).
    destruct (insert (Some q) (hd 0 draws) vec meta nh) as [[id|] nh1] eqn:Hins; [|done].
    apply (insert_code q _ _ _ _ _ _ Htr) in Hins as (enc & Henc & Hv1 & Hc1).
    apply IH in H as (vs & cs & Hv & Hc & Hall).
    exists (vec :: vs), (enc :: cs). rewrite Hv, Hc, Hv1, Hc1, <- !app_assoc.
    split; [done |]. split; [done |]. by constructor.
Qed.

(** X23.  With a quantizer [rebuild_index] first trains it on every stored
    vector, the tombstoned ones included, and installs an index in which
    every re-inserted vector is stored together with the code the trained
    quantizer gives it; on an empty storage the quantizer is left as it
    was. *)
Theorem rebuild_index_retrains_and_encodes
    (draws : list Z) (db db' : Db.Database) (q : SQ.ScalarQuantizer) :
  Db.rebuild_index draws db = (Ok (), db') → Db.sq_ db = Some q →
  let old := Db.hnsw_ db in
  let new := Db.hnsw_ db' in
  ∃ q', SQ.train (vectors_ (vector_storage old)) q = Ok q'
        ∧ Db.sq_ db' = Some q'
        ∧ (vectors_ (vector_storage old) = [] → q' = q)
        ∧ (SQ.is_trained q' = true →
           Forall2 (fun v c => SQ.encode q' v = Ok c)
                   (vectors_ (vector_storage new))
                   (encoded_vectors_ (vector_storage new))).
Proof.
  unfold Db.rebuild_index, Db.train_quantizer. intros H Hsq.
  destruct (Db.read_only_ db); [done |]. rewrite Hsq in H.
  destruct (SQ.train _ q) as [q'|] eqn:Htrain; [|done].
  destruct (encode_all_vectors _ _) as [vs'|] eqn:Henc; [|done].
  cbn [Db.sq_ Db.set_hnsw Db.set_sq Db.hnsw_] in H.
  destruct (Db.reinsert _ _ _ _ _) as [h'|] eqn:Hre; [|done].
  injection H as <-. simpl. exists q'. split; [done |]. split; [done |]. split.
  - intros Hempty. rewrite Hempty in Htrain. by injection Htrain as <-.
  - intros Htr. apply (reinsert_codes q' _ _ _ _ _ Htr) in Hre as (vs & cs & Hv & Hc & Hall).
    rewrite Hv, Hc. exact Hall.
Qed.

End requantize.

Lemma rebuild_index_retrains_witness :
  ∃ q', SQ.train (Hnsw.vectors_ (Hnsw.vector_storage (Db.hnsw_ Examples.sq_two_db)))
          (SQ.new 1) = Ok q'
        ∧ Db.sq_ Examples.sq_rebuilt_db = Some q'
        ∧ (Hnsw.vectors_ (Hnsw.vector_storage (Db.hnsw_ Examples.sq_two_db)) = []
           → q' = SQ.new 1)
        ∧ (SQ.is_trained q' = true →
           Forall2 (fun v c => SQ.encode q' v = Ok c)
             (Hnsw.vectors_ (Hnsw.vector_storage (Db.hnsw_ Examples.sq_rebuilt_db)))
             (Hnsw.encoded_vectors_ (Hnsw.vector_storage (Db.hnsw_ Examples.sq_rebuilt_db)))).
Proof.
  assert (H : Db.rebuild_index [0; 0] Examples.sq_two_db
              = (Ok (), Examples.sq_rebuilt_db)) by (vm_compute; reflexivity).
  assert (Hsq : Db.sq_ Examples.sq_two_db = Some (SQ.new 1)) by (vm_compute; reflexivity).
  exact (rebuild_index_retrains_and_encodes [0; 0] Examples.sq_two_db
           Examples.sq_rebuilt_db (SQ.new 1) H Hsq).
Defined.

(** ** Read-only mode *)

Section read_only.
Import Hnsw Db.

(** After a load the entry point is the id of the last node read. *)
Lemma load_entry_point bytes loader db' :
  load (Some bytes) loader = (Ok (), db') →
  entry_point_id (hnsw_ db')
  = match last (nodes (hnsw_ db')) with
    | None => -1
    | Some n => to_int32 (Node.id n)
    end.
Proof.
  unfold load. destruct (load_from loader bytes) as [[db1 rest]|] eqn:E; [|done].
  intros [= <-]. unfold load_from in E.
  apply reader_bind_inv in E as ([e sq] & s1 & _ & E). unfold load_index in E.
  repeat (apply reader_bind_inv in E as (? & ? & _ & E)).
  unfold mret, reader_ret in E. by injection E as <- _.
Qed.

(** Where the i-th node has id [i], the id of the last node is an index. *)
Lemma last_node_in_range h :
  index_ok h →
  entry_point_id h = match last (nodes h) with
                     | None => -1
                     | Some n => to_int32 (Node.id n)
                     end →
  entry_point_in_range h.
Proof.
  intros (Hkeys & _ & Hsize & _) Hep. unfold entry_point_in_range.
  destruct (last (nodes h)) as [n|] eqn:Hlast; [|by left]. right.
  apply last_Some in Hlast as [l Hl].
  assert (Hk : keys h !! length l = Some (node_key n)).
  { unfold keys. rewrite Hl, map_app. simpl.
    rewrite lookup_app_r by (rewrite length_map; lia).
    by rewrite length_map, Nat.sub_diag. }
  destruct (Hkeys _ _ Hk) as [Hid _]. simpl in Hid.
  unfold keys, size in Hsize. rewrite length_map, Hl, length_app in Hsize.
  simpl in Hsize.
  rewrite Hep, Hid. unfold size, to_int32. rewrite Hl, length_app. simpl.
  rewrite Z.mod_small by lia. lia.
Qed.

(** What a query reads of the graph is in the nodes, the storage and the
    tombstones. *)
Lemma same_parts_query_ready h h' :
  nodes h' = nodes h →
  vectors_ (vector_storage h') = vectors_ (vector_storage h) →
  metadata_ (vector_storage h') = metadata_ (vector_storage h) →
  deleted_nodes_ h' = deleted_nodes_ h →
  vector_dimension_ (vector_storage h') = vector_dimension_ (vector_storage h) →
  graph_ok h →
  index_ok h' ∧ layered h' ∧ closed h' ∧ storage_ok h'.
Proof.
  intros Hn Hv Hm Hd Hdim (Hi & _ & Hlay & Hcl & Hst).
  split; [|split; [|split]].
  - unfold index_ok, keys in *. by rewrite Hn, Hv, Hd.
  - unfold layered in *. by rewrite Hn.
  - intros layer. specialize (Hcl layer).
    unfold closed_at, has_layer, neighbors_at, layer_edges in *. by rewrite Hn.
  - unfold storage_ok in *. by rewrite Hm, Hv, Hdim.
Qed.

(** A read-only database opened on no file holds the empty index. *)
Lemma new_without_file_is_empty path D M efC efS metric cache sq_enabled db :
  Db.new None path D M efC efS metric true cache sq_enabled = Ok db →
  entry_point_id (hnsw_ db) = -1.
Proof. unfold Db.new, load. destruct sq_enabled; by intros [= <-]. Qed.

(** The index of a read-only database opened on the file of a built one
    answers the queries of the saved dimension. *)
Lemma reopened_answers w D M efC efS metric ops mode order bytes
    path D' M' efC' efS' metric' cache sq_enabled db query k filter include :
  built_from D M efC efS metric ops w → wf_db w = true →
  iteration_of (deleted_nodes_ (hnsw_ w)) order →
  save mode order w = (Ok bytes, w) →
  Db.new (Some bytes) path D' M' efC' efS' metric' true cache sq_enabled = Ok db →
  size query = D → 1 ≤ to_size_t (Z.max k efS) →
  ∃ r, k_nearest_neighbors (hnsw_ db) (sq_ db) query k filter include = Ok r.
Proof.
  intros (Hrw & Hsq & Hmet & Hef & Hops & Hfit & Hrun) Hwf Hord Hsave Hnew Hq Hk.
  destruct (run_ops_graph_ok (sq_ w) Hsq ops (Hnsw.new D M efC efS metric)
              (new_graph_ok D M efC efS metric) Hmet Hef Hops Hfit)
    as (h1 & ext & Hrun1 & Hg & Hpar & Hdim & _).
  rewrite Hrun in Hrun1. injection Hrun1 as <-.
  unfold params in Hpar. simpl in Hpar, Hdim. injection Hpar as _ _ HefS Hmetric.
  unfold Db.new in Hnew.
  set (h0 := Hnsw.new D' M' efC' efS' metric') in Hnew.
  set (loader := if sq_enabled
                 then mkDB path (set_quantizer h0) true cache (Some (SQ.new D'))
                 else mkDB path h0 true cache None) in Hnew.
  assert (Hloader : sq_trained (sq_ loader) = false)
    by (unfold loader; by destruct sq_enabled).
  destruct (save_then_load_restores_index w loader mode order Hwf Hrw
              (fun _ => Hloader) Hord)
    as (bytes1 & ro & Hs & Hl & Hn & Hv & Hm & Hd & _ & _ & HefS' & Hmet' & Hdim'
        & Hsome & Hnone).
  rewrite Hsave in Hs. injection Hs as <-.
  rewrite Hl in Hnew. injection Hnew as <-.
  assert (Hsq' : sq_trained (sq_ ro) = false).
  { destruct (sq_ w) as [q0|] eqn:Eq.
    - by rewrite (Hsome q0 eq_refl).
    - by rewrite (Hnone eq_refl). }
  destruct (same_parts_query_ready (hnsw_ w) (hnsw_ ro) Hn Hv Hm Hd Hdim' Hg)
    as (Hi & Hlay & Hcl & Hst).
  apply k_nearest_neighbors_total.
  apply (in_range_wf_query (sq_ ro) Hsq'); try done.
  - apply last_node_in_range; [done |]. by eapply load_entry_point.
  - by rewrite Hmet', Hmetric.
  - by rewrite Hdim', Hdim.
  - by rewrite HefS', HefS.
Qed.

End read_only.



(** ** The results of a query *)

(** The collecting loop stops at [k] results, [k] as the comparison reads
    it. *)
Lemma collect_results_size h sq query k include ids acc r :
  Hnsw.collect_results h sq query k include ids acc = Ok r →
  size acc ≤ to_size_t k → size r ≤ to_size_t k.
Proof.
  revert acc. induction ids as [|id ids IH]; intros acc; simpl.
  - by intros [= <-].
  - destruct (Hnsw.is_deleted h id); [apply IH |].
    destruct (to_size_t k <=? size acc) eqn:Hfull; [by intros [= <-] |].
    intros H Hacc. apply bind_Ok in H as (x & _ & H).
    apply (IH _ H). apply Z.leb_gt in Hfull.
    unfold size in *. rewrite length_app. simpl. lia.
Qed.

(** C1.  No result of [k_nearest_neighbors] carries a tombstoned id, and
    there are at most [k] results, for every number [k] of results asked for
    ([0 ≤ k]).  And the call returns: the loop bound of the model is never
    reached; on a well-formed index ([graph_ok], as [insert] and
    [mark_deleted] leave it) without a trained quantizer every query of the
    dimension of the index returns a result, as long as [max(k, efSearch)]
    is not zero; and so does, on any index, every query whose accesses stay
    within their vectors ([wf_query]). *)
Theorem k_nearest_neighbors_live_and_bounded
    (h : Hnsw.HNSW) (sq : option SQ.ScalarQuantizer) (query : list float) (k : Z)
    (filter : Hnsw.FilterFunc) (include : list Hnsw.Include) :
  (∀ r, Hnsw.k_nearest_neighbors h sq query k filter include = Ok r →
        Forall (fun x => to_uint32 (Hnsw.QueryResult.id x) ∉ Hnsw.deleted_nodes_ h) r
        ∧ (0 ≤ k → size r ≤ k))
  ∧ Hnsw.k_nearest_neighbors h sq query k filter include ≠ Err OutOfFuel
  ∧ (Hnsw.wf_query h sq query k filter include = true →
     is_ok (Hnsw.k_nearest_neighbors h sq query k filter include) = true)
  ∧ (Hnsw.graph_ok h → Hnsw.sq_trained sq = false →
     Hnsw.valid_metric (Hnsw.distance_metric h) = true →
     size query = Hnsw.vector_dimension_ (Hnsw.vector_storage h) →
     1 ≤ to_size_t (Z.max k (Hnsw.efSearch h)) →
     is_ok (Hnsw.k_nearest_neighbors h sq query k filter include) = true).
Proof.
  split; [|split; [|split]].
  - intros r. unfold Hnsw.k_nearest_neighbors.
    destruct (Hnsw.entry_point_id h =? -1).
    { intros [= <-]. split; [done |]. unfold size. simpl. lia. }
    intros H. apply bind_Ok in H as (ep & _ & H).
    apply bind_Ok in H as (cur & _ & H).
    apply bind_Ok in H as (ids & _ & H).
    pose proof (collect_results_size _ _ _ _ _ _ _ _ H) as Hsize.
    apply collect_results_spec in H as [Hlive _]. split.
    + by apply Hlive.
    + intros Hk. etrans; [apply Hsize|].
      * unfold size, to_size_t. simpl. apply Z.mod_pos_bound. lia.
      * unfold to_size_t. apply Z.mod_le; lia.
  - apply fuel_free_k_nearest_neighbors.
  - intros Hwf. by destruct (k_nearest_neighbors_total _ _ _ _ _ _ Hwf) as [r ->].
  - intros Hg Hsq Hm Hq Hef.
    pose proof (graph_ok_wf_query sq Hsq h query k filter include Hg Hm Hq Hef) as Hwf.
    by destruct (k_nearest_neighbors_total _ _ _ _ _ _ Hwf) as [r ->].
Qed.

Lemma k_nearest_neighbors_witness :
  Hnsw.deleted_nodes_ Examples.built = {[0]}
  ∧ Hnsw.wf_query Examples.built None [Examples.f_one] 1 None [Hnsw.ID] = true
  ∧ is_ok (Hnsw.k_nearest_neighbors Examples.built None [Examples.f_one] 1
             None [Hnsw.ID]) = true
  ∧ ∃ r, Hnsw.k_nearest_neighbors Examples.built None [Examples.f_one] 1
           None [Hnsw.ID] = Ok r
         ∧ map Hnsw.QueryResult.id r = [1]
         ∧ size r ≤ 1
         ∧ Forall (fun x => to_uint32 (Hnsw.QueryResult.id x)
                            ∉ Hnsw.deleted_nodes_ Examples.built) r.
Proof.
  destruct (k_nearest_neighbors_live_and_bounded Examples.built None
              [Examples.f_one] 1 None [Hnsw.ID]) as (Hr & _ & _ & Hok).
  split; [vm_compute; reflexivity |]. split; [vm_compute; reflexivity |].
  split.
  - apply Hok.
    + apply built_index_graph_ok.
    + reflexivity.
    + vm_compute. reflexivity.
    + vm_compute. reflexivity.
    + replace (Hnsw.efSearch Examples.built) with 10 by (vm_compute; reflexivity).
      vm_compute. discriminate.
  - eexists. split; [vm_compute; reflexivity |].
    split; [reflexivity |].
    edestruct Hr as [Hlive Hsize]; [vm_compute; reflexivity |].
    split; [apply Hsize; lia | exact Hlive].
Defined.
